(** * Media WYSIWYG instance handling: a shallow embedding

    The development follows [media.wysiwyg.instance.js] and
    [media.wysiwyg.utils.js]: one inserted media instance with its token,
    its settings object and its placeholder element, plus the stateless
    helpers of [Drupal.media.utils].

    JavaScript strings are modelled by [string]; one character stands for one
    UTF-16 code unit below 256.  The hash function is in addition stated over
    arbitrary sequences of code units. *)

From Stdlib Require Import ZArith Lia Ascii String List DecimalN.
From stdpp Require Import base tactics option list strings gmap.

Local Open Scope Z_scope.

(** * Part I: the embedding *)

(** ** ECMAScript values and the object store *)

Module JS.

(** Objects live in a store and are named by their address; two values alias
    one object exactly when they hold the same address. *)
Abbreviation loc := nat.

(** The values the token format knows (section 6 of the specification):
    strings, integral numbers, booleans, [null], [undefined] and references
    to plain objects.  Arrays, functions and fractional numbers are outside
    the data model. *)
Inductive value : Type :=
| VUndefined
| VNull
| VBool (b : bool)
| VNum (n : Z)
| VStr (s : string)
| VRef (l : loc).

#[global] Instance value_eq_dec : EqDecision value.
Proof. solve_decision. Defined.

(** A plain object: its own enumerable properties in insertion order.
    (The integer-like keys that ECMAScript enumerates first do not occur as
    settings or attribute names.) *)
Abbreviation object := (list (string * value)).

(** The store: address [l] holds the object [h !! l]; allocation appends. *)
Abbreviation heap := (list object).

(** What a [throw] or a failing built-in raises. *)
Inductive exn : Type :=
| Thrown (msg : string)
| TypeError
| SyntaxError
| RangeError.

#[global] Instance exn_eq_dec : EqDecision exn.
Proof. solve_decision. Defined.

Inductive outcome (A : Type) : Type :=
| Ok (a : A)
| Throw (e : exn).
Arguments Ok {A} a.
Arguments Throw {A} e.

(** [ToBoolean]. *)
Definition truthy (v : value) : bool :=
  match v with
  | VUndefined | VNull => false
  | VBool b => b
  | VNum n => negb (n =? 0)
  | VStr s => match s with EmptyString => false | _ => true end
  | VRef _ => true
  end.

Definition falsy (v : value) : bool := negb (truthy v).

(** [typeof v]. *)
Definition typeof (v : value) : string :=
  match v with
  | VUndefined => "undefined"
  | VNull | VRef _ => "object"
  | VBool _ => "boolean"
  | VNum _ => "number"
  | VStr _ => "string"
  end.

(** *** Decimal notation of integers *)

Fixpoint string_of_uint (d : Decimal.uint) : string :=
  match d with
  | Decimal.Nil => ""
  | Decimal.D0 d => String "0" (string_of_uint d)
  | Decimal.D1 d => String "1" (string_of_uint d)
  | Decimal.D2 d => String "2" (string_of_uint d)
  | Decimal.D3 d => String "3" (string_of_uint d)
  | Decimal.D4 d => String "4" (string_of_uint d)
  | Decimal.D5 d => String "5" (string_of_uint d)
  | Decimal.D6 d => String "6" (string_of_uint d)
  | Decimal.D7 d => String "7" (string_of_uint d)
  | Decimal.D8 d => String "8" (string_of_uint d)
  | Decimal.D9 d => String "9" (string_of_uint d)
  end.

(** [String(n)] for an integral number. *)
Definition string_of_Z (n : Z) : string :=
  match n with
  | Z0 => "0"
  | Zpos p => string_of_uint (N.to_uint (Npos p))
  | Zneg p => "-" +:+ string_of_uint (N.to_uint (Npos p))
  end.

(** [ToString], as used for property keys and string concatenation. *)
Definition toString (v : value) : string :=
  match v with
  | VUndefined => "undefined"
  | VNull => "null"
  | VBool true => "true"
  | VBool false => "false"
  | VNum n => string_of_Z n
  | VStr s => s
  | VRef _ => "[object Object]"
  end.

(** *** Strings *)

(** [s.startsWith(needle)]. *)
Definition startsWith (s needle : string) : bool := String.prefix needle s.

Fixpoint drop_chars (n : nat) (s : string) : string :=
  match n, s with
  | O, _ => s
  | S n', String _ s' => drop_chars n' s'
  | S _, EmptyString => EmptyString
  end.

(** [s.indexOf(needle) != -1]. *)
Fixpoint includes (s needle : string) : bool :=
  String.prefix needle s ||
  match s with
  | EmptyString => false
  | String _ s' => includes s' needle
  end.

(** [s.replace(pattern, replacement)] with a string pattern: only the first
    occurrence is replaced (the replacements used hold no [$]). *)
Fixpoint replace_first (pattern replacement s : string) : string :=
  if String.prefix pattern s
  then replacement +:+ drop_chars (String.length pattern) s
  else match s with
       | EmptyString => EmptyString
       | String c s' => String c (replace_first pattern replacement s')
       end.

(** [s.replace(/c/g, replacement)] for a one-character pattern. *)
Fixpoint replace_all_char (c : ascii) (replacement s : string) : string :=
  match s with
  | EmptyString => EmptyString
  | String a s' =>
      (if Ascii.eqb a c then replacement else String a EmptyString)
      +:+ replace_all_char c replacement s'
  end.

(** [s.split(sep)] for a one-character separator. *)
Fixpoint split_char (sep : ascii) (s : string) : list string :=
  match s with
  | EmptyString => [EmptyString]
  | String a s' =>
      if Ascii.eqb a sep then EmptyString :: split_char sep s'
      else match split_char sep s' with
           | [] => [String a EmptyString]
           | w :: ws => String a w :: ws
           end
  end.

(** [words.join(sep)]. *)
Fixpoint join (sep : string) (words : list string) : string :=
  match words with
  | [] => EmptyString
  | [w] => w
  | w :: ws => w +:+ sep +:+ join sep ws
  end.

(** *** Properties of one object *)

(** [o[k]]: [undefined] when [o] has no own property [k]. *)
Fixpoint prop_get (o : object) (k : string) : value :=
  match o with
  | [] => VUndefined
  | (k', v) :: o' => if String.eqb k' k then v else prop_get o' k
  end.

(** [o.hasOwnProperty(k)]. *)
Fixpoint prop_has (o : object) (k : string) : bool :=
  match o with
  | [] => false
  | (k', _) :: o' => String.eqb k' k || prop_has o' k
  end.

(** [o[k] = v]: an existing property keeps its place, a new one goes last. *)
Fixpoint prop_set (o : object) (k : string) (v : value) : object :=
  match o with
  | [] => [(k, v)]
  | (k', v') :: o' =>
      if String.eqb k' k then (k', v) :: o' else (k', v') :: prop_set o' k v
  end.

(** [delete o[k]]. *)
Fixpoint prop_delete (o : object) (k : string) : object :=
  match o with
  | [] => []
  | (k', v') :: o' =>
      if String.eqb k' k then o' else (k', v') :: prop_delete o' k
  end.

(** [Object.keys(o)], also the order of [for (k in o)]. *)
Definition keys (o : object) : list string := map fst o.

(** *** The store *)

Definition heap_get (h : heap) (l : loc) : object := default [] (h !! l).

(** A new object literal: the store grows by one; the old addresses stay. *)
Definition heap_alloc (h : heap) (o : object) : heap * loc :=
  (h ++ [o], length h).

Definition heap_put (h : heap) (l : loc) (o : object) : heap := <[l := o]> h.

(** [v[k]]: reading a property of [null] or [undefined] is a [TypeError]; a
    primitive has no property of its own (the [length] and the indices of a
    string are not used as keys here). *)
Definition get (h : heap) (v : value) (k : string) : outcome value :=
  match v with
  | VUndefined | VNull => Throw TypeError
  | VRef l => Ok (prop_get (heap_get h l) k)
  | _ => Ok VUndefined
  end.

(** [v[k] = x] in strict mode: a [TypeError] unless [v] is an object. *)
Definition set (h : heap) (v : value) (k : string) (x : value) : outcome heap :=
  match v with
  | VRef l => Ok (heap_put h l (prop_set (heap_get h l) k x))
  | _ => Throw TypeError
  end.

(** [delete v[k]]. *)
Definition delete (h : heap) (v : value) (k : string) : outcome heap :=
  match v with
  | VUndefined | VNull => Throw TypeError
  | VRef l => Ok (heap_put h l (prop_delete (heap_get h l) k))
  | _ => Ok h
  end.

End JS.

(** ** JSON: the text of a token *)

Module JSON.
Import JS.

(** JSON texts over the data model: no arrays, integral numbers only. *)
#[warnings="-register-all"]
Inductive json : Type :=
| JNull
| JBool (b : bool)
| JNum (n : Z)
| JStr (s : string)
| JObj (members : list (string * json)).

Definition dquote : ascii := "034"%char.
Definition backslash : ascii := "092"%char.

(** *** [JSON.stringify] *)

Definition hex_digit (n : N) : ascii :=
  match n with
  | 0 => "0" | 1 => "1" | 2 => "2" | 3 => "3" | 4 => "4" | 5 => "5"
  | 6 => "6" | 7 => "7" | 8 => "8" | 9 => "9" | 10 => "a" | 11 => "b"
  | 12 => "c" | 13 => "d" | 14 => "e" | _ => "f"
  end%N%char.

(** [QuoteJSONString], one code unit. *)
Definition escape_char (c : ascii) : string :=
  if Ascii.eqb c dquote then String backslash (String dquote "")
  else if Ascii.eqb c backslash then String backslash (String backslash "")
  else if Ascii.eqb c "008" then String backslash "b"
  else if Ascii.eqb c "012" then String backslash "f"
  else if Ascii.eqb c "010" then String backslash "n"
  else if Ascii.eqb c "013" then String backslash "r"
  else if Ascii.eqb c "009" then String backslash "t"
  else if (N_of_ascii c <? 32)%N then
    String backslash
      (String "u" (String "0" (String "0"
         (String (hex_digit (N_of_ascii c / 16))
            (String (hex_digit (N_of_ascii c mod 16)) "")))))
  else String c "".

Fixpoint escape (s : string) : string :=
  match s with
  | EmptyString => EmptyString
  | String c s' => escape_char c +:+ escape s'
  end.

Definition quote (s : string) : string :=
  String dquote (escape s +:+ String dquote "").

Fixpoint print (j : json) : string :=
  match j with
  | JNull => "null"
  | JBool true => "true"
  | JBool false => "false"
  | JNum n => string_of_Z n
  | JStr s => quote s
  | JObj members =>
      let fix print_members (ms : list (string * json)) : string :=
        match ms with
        | [] => ""
        | [(k, v)] => quote k +:+ ":" +:+ print v
        | (k, v) :: ms' => quote k +:+ ":" +:+ print v +:+ "," +:+ print_members ms'
        end in
      "{" +:+ print_members members +:+ "}"
  end.

(** The part of [JSON.stringify] that walks the store: a property whose
    value is [undefined] is left out; [fuel] bounds the nesting, and running
    out of it stands for the [TypeError] on a cyclic structure. *)
Fixpoint serialize_members (rec : value -> option (option json)) (o : object)
  : option (list (string * json)) :=
  match o with
  | [] => Some []
  | (k, x) :: o' =>
      match rec x with
      | None => None
      | Some None => serialize_members rec o'
      | Some (Some j) =>
          match serialize_members rec o' with
          | None => None
          | Some ms => Some ((k, j) :: ms)
          end
      end
  end.

Fixpoint serialize (fuel : nat) (h : heap) (v : value) : option (option json) :=
  match v with
  | VUndefined => Some None
  | VNull => Some (Some JNull)
  | VBool b => Some (Some (JBool b))
  | VNum n => Some (Some (JNum n))
  | VStr s => Some (Some (JStr s))
  | VRef l =>
      match fuel with
      | O => None
      | S fuel' =>
          match serialize_members (serialize fuel' h) (heap_get h l) with
          | None => None
          | Some ms => Some (Some (JObj ms))
          end
      end
  end.

(** [JSON.stringify(v)]: [None] stands for the result [undefined]. *)
Definition stringify (h : heap) (v : value) : outcome (option string) :=
  match serialize (S (length h)) h v with
  | None => Throw TypeError
  | Some None => Ok None
  | Some (Some j) => Ok (Some (print j))
  end.

(** *** [JSON.parse] *)

Definition is_ws (c : ascii) : bool :=
  Ascii.eqb c " " || Ascii.eqb c "009" || Ascii.eqb c "010" || Ascii.eqb c "013".

Fixpoint skip_ws (s : string) : string :=
  match s with
  | String c s' => if is_ws c then skip_ws s' else s
  | EmptyString => EmptyString
  end.

Definition hex_value (c : ascii) : option N :=
  let n := N_of_ascii c in
  if (48 <=? n)%N && (n <=? 57)%N then Some (n - 48)%N
  else if (97 <=? n)%N && (n <=? 102)%N then Some (n - 87)%N
  else if (65 <=? n)%N && (n <=? 70)%N then Some (n - 55)%N
  else None.

(** The code unit of [\uXXXX], when it is below 256. *)
Definition unicode_escape (a b c d : ascii) : option ascii :=
  match hex_value a, hex_value b, hex_value c, hex_value d with
  | Some x3, Some x2, Some x1, Some x0 =>
      if (x3 =? 0)%N && (x2 =? 0)%N then Some (ascii_of_N (16 * x1 + x0)) else None
  | _, _, _, _ => None
  end.

Definition simple_escape (e : ascii) : option ascii :=
  if Ascii.eqb e dquote then Some dquote
  else if Ascii.eqb e backslash then Some backslash
  else if Ascii.eqb e "/" then Some "/"%char
  else if Ascii.eqb e "b" then Some "008"%char
  else if Ascii.eqb e "f" then Some "012"%char
  else if Ascii.eqb e "n" then Some "010"%char
  else if Ascii.eqb e "r" then Some "013"%char
  else if Ascii.eqb e "t" then Some "009"%char
  else None.

Definition cons_char (c : ascii) (r : option (string * string)) : option (string * string) :=
  match r with
  | Some (str, rest) => Some (String c str, rest)
  | None => None
  end.

(** The characters of a string literal after its opening quote, up to and
    including the closing quote. *)
Fixpoint parse_string_body (s : string) : option (string * string) :=
  match s with
  | EmptyString => None
  | String c s' =>
      if Ascii.eqb c dquote then Some (EmptyString, s')
      else if Ascii.eqb c backslash then
        match s' with
        | String e s'' =>
            match simple_escape e with
            | Some ch => cons_char ch (parse_string_body s'')
            | None =>
                if Ascii.eqb e "u" then
                  match s'' with
                  | String a (String b (String x (String y s3))) =>
                      match unicode_escape a b x y with
                      | Some ch => cons_char ch (parse_string_body s3)
                      | None => None
                      end
                  | _ => None
                  end
                else None
            end
        | EmptyString => None
        end
      else if (N_of_ascii c <? 32)%N then None
      else cons_char c (parse_string_body s')
  end.

Definition digit_of (c : ascii) : option (Decimal.uint -> Decimal.uint) :=
  if Ascii.eqb c "0" then Some Decimal.D0
  else if Ascii.eqb c "1" then Some Decimal.D1
  else if Ascii.eqb c "2" then Some Decimal.D2
  else if Ascii.eqb c "3" then Some Decimal.D3
  else if Ascii.eqb c "4" then Some Decimal.D4
  else if Ascii.eqb c "5" then Some Decimal.D5
  else if Ascii.eqb c "6" then Some Decimal.D6
  else if Ascii.eqb c "7" then Some Decimal.D7
  else if Ascii.eqb c "8" then Some Decimal.D8
  else if Ascii.eqb c "9" then Some Decimal.D9
  else None.

(** The longest run of digits at the head of [s]. *)
Fixpoint read_uint (s : string) : Decimal.uint * string :=
  match s with
  | EmptyString => (Decimal.Nil, EmptyString)
  | String c s' =>
      match digit_of c with
      | Some d => let '(ds, rest) := read_uint s' in (d ds, rest)
      | None => (Decimal.Nil, s)
      end
  end.

(** A fraction or an exponent follows: outside the data model. *)
Definition fraction_follows (s : string) : bool :=
  match s with
  | String c _ => Ascii.eqb c "." || Ascii.eqb c "e" || Ascii.eqb c "E"
  | EmptyString => false
  end.

(** An integer without sign: at least one digit, no leading zero. *)
Definition parse_uint (s : string) : option (N * string) :=
  let '(ds, rest) := read_uint s in
  if Decimal.uint_beq (Decimal.unorm ds) ds && negb (fraction_follows rest)
  then Some (N.of_uint ds, rest)
  else None.

Definition parse_number (s : string) : option (json * string) :=
  match s with
  | String "-" s' =>
      match parse_uint s' with
      | Some (n, rest) => Some (JNum (- Z.of_N n), rest)
      | None => None
      end
  | _ =>
      match parse_uint s with
      | Some (n, rest) => Some (JNum (Z.of_N n), rest)
      | None => None
      end
  end.

Definition expect (c : ascii) (s : string) : option string :=
  match s with
  | String a s' => if Ascii.eqb a c then Some s' else None
  | EmptyString => None
  end.

Definition literal (word : string) (j : json) (s : string) : option (json * string) :=
  if String.prefix word s then Some (j, drop_chars (String.length word) s) else None.

(** Recursive descent; every call spends one unit of [fuel]. *)
Fixpoint parse_value (fuel : nat) (s : string) : option (json * string) :=
  match fuel with
  | O => None
  | S fuel' =>
      match skip_ws s with
      | EmptyString => None
      | String c s' =>
          if Ascii.eqb c "{" then
            match skip_ws s' with
            | String "}" rest => Some (JObj [], rest)
            | s1 =>
                match parse_members fuel' s1 with
                | Some (ms, rest) => Some (JObj ms, rest)
                | None => None
                end
            end
          else if Ascii.eqb c dquote then
            match parse_string_body s' with
            | Some (str, rest) => Some (JStr str, rest)
            | None => None
            end
          else if Ascii.eqb c "t" then literal "true" (JBool true) (String c s')
          else if Ascii.eqb c "f" then literal "false" (JBool false) (String c s')
          else if Ascii.eqb c "n" then literal "null" JNull (String c s')
          else parse_number (String c s')
      end
  end
with parse_members (fuel : nat) (s : string) : option (list (string * json) * string) :=
  match fuel with
  | O => None
  | S fuel' =>
      match expect dquote (skip_ws s) with
      | None => None
      | Some s1 =>
          match parse_string_body s1 with
          | None => None
          | Some (k, s2) =>
              match expect ":" (skip_ws s2) with
              | None => None
              | Some s3 =>
                  match parse_value fuel' s3 with
                  | None => None
                  | Some (v, s4) =>
                      match skip_ws s4 with
                      | String "}" rest => Some ([(k, v)], rest)
                      | String "," s5 =>
                          match parse_members fuel' s5 with
                          | Some (ms, rest) => Some ((k, v) :: ms, rest)
                          | None => None
                          end
                      | _ => None
                      end
                  end
              end
          end
      end
  end.

(** The whole text is one value, white space around it allowed. *)
Definition parse_text (s : string) : option json :=
  match parse_value (S (String.length s)) s with
  | Some (j, rest) =>
      match skip_ws rest with
      | EmptyString => Some j
      | _ => None
      end
  | None => None
  end.

(** Building the parsed value in the store: the members first, then the
    object itself; of two members with one key the later value stays. *)
Fixpoint build (j : json) (h : heap) : heap * value :=
  match j with
  | JNull => (h, VNull)
  | JBool b => (h, VBool b)
  | JNum n => (h, VNum n)
  | JStr s => (h, VStr s)
  | JObj members =>
      let fix build_members (ms : list (string * json)) (h : heap) (o : object)
        : heap * object :=
        match ms with
        | [] => (h, o)
        | (k, v) :: ms' =>
            let '(h1, x) := build v h in
            build_members ms' h1 (prop_set o k x)
        end in
      let '(h1, o) := build_members members h [] in
      let '(h2, l) := heap_alloc h1 o in
      (h2, VRef l)
  end.

(** [JSON.parse(text)]: a [SyntaxError] on a text that is no JSON. *)
Definition parse (h : heap) (text : string) : outcome (heap * value) :=
  match parse_text text with
  | Some j => Ok (build j h)
  | None => Throw SyntaxError
  end.

End JSON.

(** ** Regular expressions of the two files *)

Module Regex.

Inductive regex : Type :=
| RChar (c : ascii)        (* a literal character *)
| RDot                     (* [.]  : any character but a line terminator *)
| RSpace                   (* [\s] *)
| RNonSpace                (* [\S] *)
| RWordBoundary            (* [\b] *)
| RStart                   (* [^]  *)
| REnd                     (* [$]  *)
| REmpty
| RSeq (r1 r2 : regex)
| RAlt (r1 r2 : regex)     (* [r1|r2], [r1] tried first *)
| RStar (r : regex)        (* [r*], greedy *)
| RGroup (r : regex).      (* [(r)], the one capturing group *)

Definition RPlus (r : regex) : regex := RSeq r (RStar r).
Definition ROpt (r : regex) : regex := RAlt r REmpty.

Fixpoint RLit (s : string) : regex :=
  match s with
  | EmptyString => REmpty
  | String c EmptyString => RChar c
  | String c s' => RSeq (RChar c) (RLit s')
  end.

Definition is_line_terminator (c : ascii) : bool :=
  Ascii.eqb c "010" || Ascii.eqb c "013".

Definition is_space (c : ascii) : bool :=
  Ascii.eqb c " " || Ascii.eqb c "009" || Ascii.eqb c "010" || Ascii.eqb c "011"
  || Ascii.eqb c "012" || Ascii.eqb c "013" || Ascii.eqb c "160".

Definition is_word (c : ascii) : bool :=
  let n := N_of_ascii c in
  ((48 <=? n) && (n <=? 57) || (65 <=? n) && (n <=? 90)
   || (97 <=? n) && (n <=? 122) || (n =? 95))%N.

Definition is_word_opt (c : option ascii) : bool :=
  match c with Some c => is_word c | None => false end.

Definition head_char (s : string) : option ascii :=
  match s with String c _ => Some c | EmptyString => None end.

Fixpoint take_chars (n : nat) (s : string) : string :=
  match n, s with
  | S n', String c s' => String c (take_chars n' s')
  | _, _ => EmptyString
  end.

(** A position in the subject: the character before it and the rest. *)
Definition position : Type := option ascii * string.

(** What the continuation gets: the position reached and the capture. *)
Definition cont (R : Type) : Type := position -> option string -> option R.

Definition one_char {R} (p : ascii -> bool) (k : cont R) (pos : position)
  (cap : option string) : option R :=
  match snd pos with
  | String c s' => if p c then k (Some c, s') cap else None
  | EmptyString => None
  end.

(** Backtracking matcher: [rmatch r k pos cap] matches [r] at [pos] and
    hands over to [k]; alternatives are tried in order, a star takes as many
    rounds as it can and gives them back one by one. *)
Fixpoint rmatch {R} (r : regex) (k : cont R) (pos : position)
  (cap : option string) : option R :=
  match r with
  | RChar c => one_char (Ascii.eqb c) k pos cap
  | RDot => one_char (fun a => negb (is_line_terminator a)) k pos cap
  | RSpace => one_char is_space k pos cap
  | RNonSpace => one_char (fun a => negb (is_space a)) k pos cap
  | RWordBoundary =>
      if xorb (is_word_opt (fst pos)) (is_word_opt (head_char (snd pos)))
      then k pos cap else None
  | RStart => match fst pos with None => k pos cap | Some _ => None end
  | REnd => match snd pos with EmptyString => k pos cap | _ => None end
  | REmpty => k pos cap
  | RSeq r1 r2 => rmatch r1 (rmatch r2 k) pos cap
  | RAlt r1 r2 =>
      match rmatch r1 k pos cap with
      | Some res => Some res
      | None => rmatch r2 k pos cap
      end
  | RStar r' =>
      (fix star (rounds : nat) (pos : position) (cap : option string) : option R :=
         match rounds with
         | O => k pos cap
         | S rounds' =>
             match rmatch r'
                     (fun pos' cap' =>
                        if (String.length (snd pos') <? String.length (snd pos))%nat
                        then star rounds' pos' cap' else None)
                     pos cap with
             | Some res => Some res
             | None => k pos cap
             end
         end) (String.length (snd pos)) pos cap
  | RGroup r' =>
      rmatch r'
        (fun pos' _ =>
           k pos' (Some (take_chars (String.length (snd pos) - String.length (snd pos'))
                           (snd pos))))
        pos cap
  end.

(** One attempt at a given position: the matched text, the capture and the
    position after the match. *)
Definition match_here (r : regex) (pos : position)
  : option (string * option string * position) :=
  rmatch r
    (fun pos' cap =>
       Some (take_chars (String.length (snd pos) - String.length (snd pos')) (snd pos),
             cap, pos'))
    pos None.

(** [RegExp.prototype.exec]: the leftmost position with a match. *)
Fixpoint exec_from (r : regex) (prev : option ascii) (s : string)
  : option (string * option string * position) :=
  match match_here r (prev, s) with
  | Some res => Some res
  | None =>
      match s with
      | String c s' => exec_from r (Some c) s'
      | EmptyString => None
      end
  end.

(** [s.match(r)] without the [g] flag: the text matched and the capture. *)
Definition exec (r : regex) (s : string) : option (string * option string) :=
  match exec_from r None s with
  | Some (m, cap, _) => Some (m, cap)
  | None => None
  end.

(** [r.test(s)]. *)
Definition test (r : regex) (s : string) : bool :=
  match exec r s with Some _ => true | None => false end.

(** [s.match(r)] with the [g] flag: all matches from left to right ([None]
    for [null]).  The expressions used match no empty text. *)
Fixpoint match_all_from (fuel : nat) (r : regex) (prev : option ascii) (s : string)
  : list string :=
  match fuel with
  | O => []
  | S fuel' =>
      match exec_from r prev s with
      | Some (m, _, (prev', s')) =>
          if (String.length s' <? String.length s)%nat
          then m :: match_all_from fuel' r prev' s'
          else [m]
      | None => []
      end
  end.

Definition match_all (r : regex) (s : string) : option (list string) :=
  match match_all_from (S (String.length s)) r None s with
  | [] => None
  | ms => Some ms
  end.

End Regex.

(** ** The document: placeholder elements and jQuery sets *)

Module DOM.
Import JS.

(** A node of the document tree.  Tag names are kept in lower case.  The
    [float] of the inline style is the one style property the code writes. *)
#[warnings="-register-all"]
Inductive node : Type :=
| Text (data : string)
| Element (tagName : string) (attributes : list (string * string))
    (styleFloat : string) (childNodes : list node).

(** A jQuery object: the matched nodes, in document order. *)
Definition jquery := list node.

(** What the browser contributes: its HTML parser, its serializer and the
    computed [float] of an element. *)
Record browser : Type := Browser {
  parseHTML : string -> list node;
  serializeHTML : list node -> string;
  computedFloat : node -> string
}.

Definition is_element (n : node) : bool :=
  match n with Element _ _ _ _ => true | Text _ => false end.

Definition tag_of (n : node) : string :=
  match n with Element t _ _ _ => t | Text _ => "" end.

Definition attributes_of (n : node) : list (string * string) :=
  match n with Element _ a _ _ => a | Text _ => [] end.

Definition children_of (n : node) : list node :=
  match n with Element _ _ _ c => filter (fun x => is_element x = true) c | Text _ => [] end.

Fixpoint attr_lookup (a : list (string * string)) (name : string) : option string :=
  match a with
  | [] => None
  | (k, v) :: a' => if String.eqb k name then Some v else attr_lookup a' name
  end.

Fixpoint attr_update (a : list (string * string)) (name v : string)
  : list (string * string) :=
  match a with
  | [] => [(name, v)]
  | (k, v') :: a' =>
      if String.eqb k name then (k, v) :: a' else (k, v') :: attr_update a' name v
  end.

Definition attr_remove (a : list (string * string)) (name : string)
  : list (string * string) :=
  filter (fun kv => negb (String.eqb (fst kv) name) = true) a.

Definition with_attributes (f : list (string * string) -> list (string * string))
  (n : node) : node :=
  match n with
  | Element t a fl c => Element t (f a) fl c
  | Text d => Text d
  end.

(** [$e.attr(name)]: the attribute of the first node, [None] for [undefined]. *)
Definition attr (e : jquery) (name : string) : option string :=
  match e with
  | n :: _ => attr_lookup (attributes_of n) name
  | [] => None
  end.

(** [$e.attr(name, v)] on every node of the set. *)
Definition setAttr (e : jquery) (name v : string) : jquery :=
  map (with_attributes (fun a => attr_update a name v)) e.

(** [$e.removeAttr(name)]. *)
Definition removeAttr (e : jquery) (name : string) : jquery :=
  map (with_attributes (fun a => attr_remove a name)) e.

(** The white space that separates class names, as jQuery reads a [class]
    attribute: space, tab, line feed, form feed and carriage return.  A
    vertical tab is part of a name. *)
Definition is_white (c : ascii) : bool :=
  Ascii.eqb c " " || Ascii.eqb c "009" || Ascii.eqb c "010" || Ascii.eqb c "012"
  || Ascii.eqb c "013".

(** Reading the names from left to right; [cur] is the name being read,
    its characters in reverse. *)
Fixpoint names_go (cur : option string) (s : string) : list string :=
  match s with
  | EmptyString => option_list (String.rev <$> cur)
  | String a s' =>
      if is_white a then option_list (String.rev <$> cur) ++ names_go None s'
      else names_go (Some (String a (from_option id "" cur))) s'
  end.

(** The class names of a [class] attribute. *)
Definition class_names (cls : string) : list string := names_go None cls.

Definition node_classes (n : node) : list string :=
  class_names (default "" (attr_lookup (attributes_of n) "class")).

Definition has_name (name : string) (names : list string) : bool :=
  existsb (String.eqb name) names.

(** [$e.hasClass(name)]: some node of the set carries the class. *)
Definition hasClass (e : jquery) (name : string) : bool :=
  existsb (fun n => has_name name (node_classes n)) e.

Definition add_names (current extra : list string) : list string :=
  fold_left (fun acc c => if has_name c acc then acc else acc ++ [c]) extra current.

Definition remove_names (current gone : list string) : list string :=
  filter (fun c => negb (has_name c gone) = true) current.

Definition set_classes (names : list string) (n : node) : node :=
  with_attributes (fun a => attr_update a "class" (join " " names)) n.

(** [$e.addClass(value)], [value] holding one or more class names. *)
Definition addClass (e : jquery) (value : string) : jquery :=
  map (fun n => if is_element n
                then set_classes (add_names (node_classes n) (class_names value)) n
                else n) e.

(** [$e.removeClass(f)] with [f(index, className)] giving the names to
    remove; an element without [class] attribute stays as it is.  Every
    occurrence of a name goes, as in jQuery 1.9 and later; the older
    versions take out the first occurrence only, which differs on a [class]
    attribute that holds a name twice. *)
Definition removeClassBy (e : jquery) (f : string -> string) : jquery :=
  map (fun n =>
         match attr_lookup (attributes_of n) "class" with
         | Some cls => set_classes (remove_names (class_names cls) (class_names (f cls))) n
         | None => n
         end) e.

(** [$e.removeClass(value)]. *)
Definition removeClass (e : jquery) (value : string) : jquery :=
  removeClassBy e (fun _ => value).

(** [$e.css('float', v)]: the inline style of every node of the set. *)
Definition setFloat (e : jquery) (v : string) : jquery :=
  map (fun n => match n with
                | Element t a _ c => Element t a v c
                | Text d => Text d
                end) e.

(** [$e.is(tag)] for a tag selector. *)
Definition is_tag (e : jquery) (tag : string) : bool :=
  existsb (fun n => is_element n && String.eqb (tag_of n) tag) e.

(** The descendants of a node, in document order. *)
Fixpoint descendants (n : node) : list node :=
  match n with
  | Text _ => []
  | Element _ _ _ c =>
      (fix walk (ns : list node) : list node :=
         match ns with
         | [] => []
         | m :: ns' => (if is_element m then [m] else []) ++ descendants m ++ walk ns'
         end) c
  end.

Definition has_descendant (tag : string) (n : node) : bool :=
  existsb (fun m => String.eqb (tag_of m) tag) (descendants n).

(** [$e.find(tag)]. *)
Definition find_tag (e : jquery) (tag : string) : jquery :=
  filter (fun m => String.eqb (tag_of m) tag = true) (concat (map descendants e)).

(** [$e.children()]. *)
Definition children (e : jquery) : jquery := concat (map children_of e).

(** [$e.find('a:not(:has(img))')]. *)
Definition find_plain_links (e : jquery) : jquery :=
  filter (fun m => negb (has_descendant "img" m) = true) (find_tag e "a").

(** [$('a', $e).html(content)]: new children for every [a] below [$e]. *)
Fixpoint set_link_html (content : list node) (n : node) : node :=
  match n with
  | Text d => Text d
  | Element t a fl c =>
      if String.eqb t "a" then Element t a fl content
      else Element t a fl (map (set_link_html content) c)
  end.

Definition set_links_html (content : list node) (n : node) : node :=
  match n with
  | Text d => Text d
  | Element t a fl c => Element t a fl (map (set_link_html content) c)
  end.

(** [$e.text()]. *)
Fixpoint text_of (n : node) : string :=
  match n with
  | Text d => d
  | Element _ _ _ c =>
      (fix walk (ns : list node) : string :=
         match ns with
         | [] => ""
         | m :: ns' => text_of m +:+ walk ns'
         end) c
  end.

Definition text (e : jquery) : string :=
  fold_right (fun n acc => text_of n +:+ acc) "" e.

End DOM.

(** ** Number helpers: 32-bit integer conversions of ECMAScript *)

(** [ToInt32]: reduce modulo 2^32 into the signed range. *)
Definition toInt32 (x : Z) : Z := (x + 2 ^ 31) mod 2 ^ 32 - 2 ^ 31.

(** [x << n] on numbers: both the operand and the result are 32-bit signed. *)
Definition shl32 (x n : Z) : Z := toInt32 (Z.shiftl (toInt32 x) n).

(** [x & y] with a non-negative mask [y] below 2^31. *)
Definition and32 (x y : Z) : Z := Z.land (toInt32 x) y.

(** ** The page: [Drupal.settings.media], the instance and the state *)

Module Page.
Import JS.

(** One entry of the token schema. *)
Record propSettings : Type := PropSettings {
  required : bool;
  default : value
}.

(** [Drupal.settings.media], as far as the two files read it.  The tables
    that [$.each] walks keep their order. *)
Record mediaSettings : Type := MediaSettings {
  tokenSchema : list (string * propSettings);
  wysiwygAllowedAttributes : list string;
  attributeFields : list (string * string);
  overridableFields : list (string * list string);
  doLinkText : bool;
  tagMap : gmap string string
}.

(** The fields of one [Drupal.media.WysiwygInstance].  [placeholderBase] is
    [None] when it holds [undefined], [placeholder] is [None] when
    [$placeholder] is [null]. *)
Record instance : Type := Instance {
  token : string;
  settings : value;
  key : string;
  placeholderBase : option string;
  placeholder : option DOM.jquery
}.

(** The mutable part of the page: the object store, the map from file id to
    file type, and the instance [this] refers to. *)
Record state : Type := State {
  store : JS.heap;
  fidTypeMap : object;
  self : instance
}.

Definition with_store (h : JS.heap) (st : state) : state :=
  State h (fidTypeMap st) (self st).
Definition with_fidTypeMap (m : object) (st : state) : state :=
  State (store st) m (self st).
Definition with_self (i : instance) (st : state) : state :=
  State (store st) (fidTypeMap st) i.

Definition with_token (t : string) (i : instance) : instance :=
  Instance t (settings i) (key i) (placeholderBase i) (placeholder i).
Definition with_settings (s : value) (i : instance) : instance :=
  Instance (token i) s (key i) (placeholderBase i) (placeholder i).
Definition with_key (k : string) (i : instance) : instance :=
  Instance (token i) (settings i) k (placeholderBase i) (placeholder i).
Definition with_placeholderBase (b : option string) (i : instance) : instance :=
  Instance (token i) (settings i) (key i) b (placeholder i).
Definition with_placeholder (p : option DOM.jquery) (i : instance) : instance :=
  Instance (token i) (settings i) (key i) (placeholderBase i) p.

(** Statements: they read and write the state and may throw; what was
    written before a [throw] stays written. *)
Definition M (A : Type) : Type := state -> outcome A * state.

Definition ret {A} (a : A) : M A := fun st => (Ok a, st).

Definition bind {A B} (m : M A) (f : A -> M B) : M B :=
  fun st =>
    match m st with
    | (Ok a, st') => f a st'
    | (Throw e, st') => (Throw e, st')
    end.

Definition throw {A} (e : exn) : M A := fun st => (Throw e, st).

Definition gets {A} (f : state -> A) : M A := fun st => (Ok (f st), st).

Definition modify (f : state -> state) : M unit := fun st => (Ok tt, f st).

(** Running a step on the store alone. *)
Definition on_heap {A} (f : JS.heap -> outcome (JS.heap * A)) : M A :=
  fun st =>
    match f (store st) with
    | Ok (h, a) => (Ok a, with_store h st)
    | Throw e => (Throw e, st)
    end.

Declare Scope m_scope.
Delimit Scope m_scope with M.
Bind Scope m_scope with M.
Notation "'let!' x ':=' m 'in' k" := (bind m (fun x => k))
  (at level 10, x pattern, m at level 100, k at level 200) : m_scope.
Notation "m ';;' k" := (bind m (fun _ => k))
  (at level 100, k at level 200, right associativity) : m_scope.
Local Open Scope m_scope.

(** [$.each(table, callback)]: the callback on every entry, in order. *)
Fixpoint each {A} (table : list A) (callback : A -> M unit) : M unit :=
  match table with
  | [] => ret tt
  | x :: table' => callback x ;; each table' callback
  end.

(** [$.each(table, callback)] with a callback that assigns a variable of
    the enclosing function: the variable goes from call to call. *)
Fixpoint each_with {A S} (table : list A) (callback : S -> A -> M S) (s : S) : M S :=
  match table with
  | [] => ret s
  | x :: table' => let! s' := callback s x in each_with table' callback s'
  end.

(** [v[k]], [v[k] = x], [delete v[k]] and [{}] as statements. *)
Definition getProp (v : value) (k : string) : M value :=
  fun st => (JS.get (store st) v k, st).

Definition setProp (v : value) (k : string) (x : value) : M unit :=
  on_heap (fun h => match JS.set h v k x with
                    | Ok h' => Ok (h', tt)
                    | Throw e => Throw e
                    end).

Definition deleteProp (v : value) (k : string) : M unit :=
  on_heap (fun h => match JS.delete h v k with
                    | Ok h' => Ok (h', tt)
                    | Throw e => Throw e
                    end).

Definition newObject : M value :=
  on_heap (fun h => let '(h', l) := heap_alloc h [] in Ok (h', VRef l)).

(** The names [for (k in v)] goes through. *)
Definition ownKeys (v : value) : M (list string) :=
  gets (fun st => match v with
                  | VRef l => keys (heap_get (store st) l)
                  | _ => []
                  end).

(** jQuery's test for an object that [$.each] walks by index instead of by
    name: its [length] is the number 0, or a number above 0 with the
    property [length - 1] present.  The result is that length. *)
Definition arrayLength (o : object) : option nat :=
  match prop_get o "length" with
  | VNum n =>
      if n =? 0 then Some O
      else if (0 <? n) && prop_has o (string_of_Z (n - 1)) then Some (Z.to_nat n)
      else None
  | _ => None
  end.

(** The first arguments of the calls that [$.each(v, callback)] makes on an
    object: the indices from 0 to [length - 1], as numbers, when the object
    is walked by index; its property names otherwise. *)
Definition eachKeys (v : value) : M (list value) :=
  gets (fun st => match v with
                  | VRef l =>
                      let o := heap_get (store st) l in
                      match arrayLength o with
                      | Some n => map (fun i => VNum (Z.of_nat i)) (seq 0 n)
                      | None => map VStr (keys o)
                      end
                  | _ => []
                  end).

(** [Object.keys(v).length]. *)
Definition countKeys (v : value) : M nat :=
  gets (fun st => match v with
                  | VRef l => length (heap_get (store st) l)
                  | VStr s => String.length s
                  | _ => O
                  end).

Definition thisToken : M string := gets (fun st => token (self st)).
Definition thisSettings : M value := gets (fun st => settings (self st)).
Definition thisKey : M string := gets (fun st => key (self st)).
Definition thisPlaceholderBase : M (option string) :=
  gets (fun st => placeholderBase (self st)).
Definition thisPlaceholder : M (option DOM.jquery) :=
  gets (fun st => placeholder (self st)).

Definition setToken (t : string) : M unit :=
  modify (fun st => with_self (with_token t (self st)) st).
Definition setSettings (s : value) : M unit :=
  modify (fun st => with_self (with_settings s (self st)) st).
Definition setKey (k : string) : M unit :=
  modify (fun st => with_self (with_key k (self st)) st).
Definition assignPlaceholderBase (b : option string) : M unit :=
  modify (fun st => with_self (with_placeholderBase b (self st)) st).
Definition assignPlaceholder (p : option DOM.jquery) : M unit :=
  modify (fun st => with_self (with_placeholder p (self st)) st).

Definition nonempty (s : string) : bool :=
  match s with EmptyString => false | _ => true end.

End Page.

(** ** Drupal.media.utils *)

Module Utils.
Import JS Page.
Local Open Scope m_scope.

(** *** hashCode *)

(** [str.charCodeAt(i)] for every [i], in order. *)
Definition charCodes (str : string) : list Z :=
  map (fun c => Z.of_N (N_of_ascii c)) (list_ascii_of_string str).

(** One round of the loop body:
    [hash = ((hash << 5) - hash) + char; hash &= 0x7fffffff]. *)
Definition hashRound (hash char : Z) : Z :=
  and32 ((shl32 hash 5 - hash) + char) 0x7fffffff.

(** The [for] loop over the code units, from index 0 upwards. *)
Fixpoint hashLoop (hash : Z) (chars : list Z) : Z :=
  match chars with
  | [] => hash
  | char :: rest => hashLoop (hashRound hash char) rest
  end.

(** [hashCode] over a sequence of code units. *)
Definition hashCodeUnits (chars : list Z) : Z :=
  let hash := 0 in
  if (Z.of_nat (length chars) =? 0) then hash else hashLoop hash chars.

Definition hashCode (str : string) : Z := hashCodeUnits (charCodes str).

(** The reference 31-bit rolling hash: [h * 31 + c] modulo 2^31. *)
Definition referenceHash (chars : list Z) : Z :=
  fold_left (fun h c => (31 * h + c) mod 2 ^ 31) chars 0.

(** *** copyAsNew *)

(** [$.extend(true, target, src)] into a new, empty [target]: every
    property of [src] is copied, a property that is an object as a new
    object in turn; [undefined] is skipped. *)
Fixpoint extend_props (rec : JS.heap -> loc -> option (JS.heap * loc)) (target : loc)
  (o : object) (h : JS.heap) : option JS.heap :=
  match o with
  | [] => Some h
  | (name, copy) :: o' =>
      match copy with
      | VRef c =>
          match rec h c with
          | Some (h1, clone) =>
              extend_props rec target o'
                (heap_put h1 target (prop_set (heap_get h1 target) name (VRef clone)))
          | None => None
          end
      | VUndefined => extend_props rec target o' h
      | _ =>
          extend_props rec target o'
            (heap_put h target (prop_set (heap_get h target) name copy))
      end
  end.

(** [$.extend(true, {}, src)]; [fuel] bounds the nesting, running out of it
    stands for the recursion without end on a cyclic structure. *)
Fixpoint extend_deep (fuel : nat) (h : JS.heap) (src : loc) : option (JS.heap * loc) :=
  match fuel with
  | O => None
  | S fuel' =>
      let '(h0, target) := heap_alloc h [] in
      match extend_props (extend_deep fuel') target (heap_get h src) h0 with
      | Some h1 => Some (h1, target)
      | None => None
      end
  end.

(** [src instanceof Object ? $.extend(true, {}, src) : src]. *)
Definition copyAsNew (src : value) : M value :=
  match src with
  | VRef l =>
      on_heap (fun h => match extend_deep (S (length h)) h l with
                        | Some (h', t) => Ok (h', VRef t)
                        | None => Throw RangeError
                        end)
  | _ => ret src
  end.

(** *** propertyStartsWith *)

Fixpoint first_starting_with (needle : string) (properties : list string) : value :=
  match properties with
  | [] => VNull
  | property :: rest =>
      if startsWith property needle then VStr property
      else first_starting_with needle rest
  end.

Definition propertyStartsWith (needle : string) (haystack : value) : M value :=
  let! properties := ownKeys haystack in
  ret (first_starting_with needle properties).

(** *** outerHTML *)

Definition outerHTML (br : DOM.browser) (e : DOM.jquery) : M string :=
  match e with
  | n :: _ => ret (DOM.serializeHTML br [n])
  | [] => throw TypeError
  end.

(** *** getMediaAlignment *)

(** [alignRe]: an optional prefix (any text, then white space), the literal
    [media-wysiwyg-align-], the captured alternative [right|left|center] and
    an optional suffix (one or more letters [s], then any text); the suffix
    is written [s+] in the source, not [\s+]. *)
Definition alignRe : Regex.regex :=
  Regex.RSeq
    (Regex.ROpt (Regex.RSeq (Regex.RStar Regex.RDot) (Regex.RPlus Regex.RSpace)))
    (Regex.RSeq (Regex.RLit "media-wysiwyg-align-")
       (Regex.RSeq
          (Regex.RGroup
             (Regex.RAlt (Regex.RLit "right")
                (Regex.RAlt (Regex.RLit "left") (Regex.RLit "center"))))
          (Regex.ROpt (Regex.RSeq (Regex.RPlus (Regex.RChar "s"))
                         (Regex.RStar Regex.RDot))))).

Definition is_left_or_right (align : string) : bool :=
  String.eqb align "left" || String.eqb align "right".

(** The current alignment, [None] for [null]. *)
Definition getMediaAlignment (br : DOM.browser) (e : DOM.jquery) : M (option string) :=
  match DOM.attr e "class" with
  | None => throw TypeError
  | Some cls =>
      match Regex.exec alignRe cls with
      | Some (_, Some align) => ret (Some align)
      | Some (_, None) => throw TypeError
      | None =>
          match e with
          | [] => throw TypeError
          | n :: _ =>
              let tagName := DOM.tag_of n in
              if String.eqb tagName "img" || String.eqb tagName "div" then
                let align := DOM.computedFloat br n in
                if is_left_or_right align then ret (Some align)
                else
                  match DOM.attr e "align" with
                  | Some align' =>
                      if is_left_or_right align' then ret (Some align') else ret None
                  | None => ret None
                  end
              else ret None
          end
      end
  end.

End Utils.

(** ** Drupal.media.WysiwygInstance *)

Module WysiwygInstance.
Import JS Page.
Local Open Scope m_scope.

Section Methods.

(** [Drupal.settings.media] and the browser the page runs in. *)
Variable cfg : mediaSettings.
Variable br : DOM.browser.

(** [Drupal.media.WysiwygInstance.createKey(token)] *)
Definition createKey (token : string) : string :=
  "token-" +:+ string_of_Z (Utils.hashCode token).

(** [Drupal.media.WysiwygInstance.getOverridableFields(fid)]: the names of
    the overridable fields of the file's type, none when either lookup gives
    nothing. *)
Definition getOverridableFields (fid : value) : M (list string) :=
  let! type := gets (fun st => prop_get (fidTypeMap st) (toString fid)) in
  if truthy type then
    match List.find (fun entry => String.eqb (fst entry) (toString type))
            (overridableFields cfg) with
    | Some (_, fields) => ret fields
    | None => ret []
    end
  else ret [].

(** The callback of [$.each(tokenSchema, ...)] in [verifySettings]. *)
Definition verifyProperty (entry : string * propSettings) : M unit :=
  let '(property, propSettings) := entry in
  let! settings := thisSettings in
  if required propSettings then
    let! v := getProp settings property in
    if falsy v then
      throw (Thrown ("Media token parse error: Missing required property '"
                     +:+ property +:+ "'."))
    else ret tt
  else
    let! v := getProp settings property in
    if falsy v then
      let! d := Utils.copyAsNew (default propSettings) in
      setProp settings property d
    else ret tt.

Definition verifySettings : M unit :=
  let! settings := thisSettings in
  if falsy settings then
    throw (Thrown "Invalid state: Cannot verify settings without settings.")
  else
    each (tokenSchema cfg) verifyProperty ;;
    let! settings := thisSettings in
    let! type := getProp settings "type" in
    if decide (type = VStr "media") then ret tt
    else throw (Thrown "Token not of type 'media'.").

Definition getSettings : M value :=
  let! settings := thisSettings in
  (if falsy settings then
     let! token := thisToken in
     if nonempty token then
       let! parsed :=
         on_heap (fun h =>
           JSON.parse h (replace_first "]]" "" (replace_first "[[" "" token))) in
       setSettings parsed ;;
       verifySettings
     else throw (Thrown "Instance missing basic info")
   else ret tt) ;;
  thisSettings.

(** The constructor, on a state whose [self] it initialises.
    [placeholderBase] is [None] when the argument is left out. *)
Definition new (instanceInfo : value) (placeholderBase : option string) : M unit :=
  modify (with_self (Instance "" VNull "" (Some "") None)) ;;
  (if String.eqb (typeof instanceInfo) "object" then
     setSettings instanceInfo ;;
     verifySettings ;;
     let! settings := thisSettings in
     let! file_type := getProp settings "file_type" in
     if truthy file_type then
       let! fid := getProp settings "fid" in
       modify (fun st =>
         with_fidTypeMap (prop_set (fidTypeMap st) (toString fid) file_type) st)
     else ret tt
   else
     match instanceInfo with
     | VStr token => setToken token
     | _ => ret tt
     end) ;;
  match placeholderBase with
  | Some html => if nonempty html then assignPlaceholderBase (Some html) else ret tt
  | None => ret tt
  end.

(** [settings[name] != ''] with [==] as ECMAScript compares: the empty
    string equals [0] and [false] as well. *)
Definition loosely_empty (v : value) : bool :=
  match v with
  | VStr EmptyString => true
  | VNum 0 => true
  | VBool false => true
  | _ => false
  end.

(** [overrideLinkTitle]: the callback of [$.each(settings, ...)] calls
    [field.indexOf], which a name has and an index, being a number, has
    not. *)
Definition overrideLinkTitle : M value :=
  let! settings := getSettings in
  match DOM.attr_lookup (attributeFields cfg) "title" with
  | Some title =>
      if nonempty title then
        let! fields := eachKeys settings in
        let! file_title_field_machine_name :=
          each_with fields
            (fun name field =>
               match field with
               | VStr field => ret (if includes field title then field else name)
               | _ => throw TypeError
               end) "" in
        let! v := getProp settings file_title_field_machine_name in
        if negb (String.eqb (typeof v) "undefined") && negb (loosely_empty v)
        then ret v
        else getProp settings "link_text"
      else getProp settings "link_text"
  | None => getProp settings "link_text"
  end.

(** The filter of [classes.filter(...)] in [prepareSettingsForToken]: the
    class names that stay. *)
Definition file_class_re : Regex.regex :=
  Regex.RSeq Regex.RStart
    (Regex.RSeq (Regex.RLit "file-") (Regex.RSeq (Regex.RPlus Regex.RNonSpace) Regex.REnd)).

Definition align_class_re : Regex.regex :=
  Regex.RSeq Regex.RStart
    (Regex.RSeq (Regex.RLit "media-wysiwyg-align-")
       (Regex.RSeq
          (Regex.RGroup (Regex.RAlt (Regex.RLit "left")
                           (Regex.RAlt (Regex.RLit "right") (Regex.RLit "center"))))
          Regex.REnd)).

Definition keeps_class (className : string) : bool :=
  negb (String.eqb className "media-element"
        || Regex.test file_class_re className
        || Regex.test align_class_re className).

(** The clean-up of [pristine.attributes]. *)
Definition cleanAttributes (pristine : value) : M unit :=
  each (attributeFields cfg) (fun entry =>
    let! attributes := getProp pristine "attributes" in
    deleteProp attributes (fst entry)) ;;
  (let! attributes := getProp pristine "attributes" in
   deleteProp attributes "data-fid") ;;
  (let! attributes := getProp pristine "attributes" in
   deleteProp attributes "data-media-element") ;;
  (let! attributes := getProp pristine "attributes" in
   deleteProp attributes "data-media-key") ;;
  let! attributes := getProp pristine "attributes" in
  let! class := getProp attributes "class" in
  (if truthy class then
     match class with
     | VStr names =>
         let classes := List.filter keeps_class (split_char " " names) in
         match classes with
         | [] => deleteProp attributes "class"
         | _ => setProp attributes "class" (VStr (join " " classes))
         end
     | _ => throw TypeError
     end
   else ret tt) ;;
  let! attributes := getProp pristine "attributes" in
  let! n := countKeys attributes in
  match n with
  | O => deleteProp pristine "attributes"
  | _ => ret tt
  end.

(** [prepareSettingsForToken]: in the inner [$.each(settings, ...)] the
    callback calls [property.startsWith], which an index has not. *)
Definition prepareSettingsForToken : M value :=
  let! pristine := newObject in
  let! settings := getSettings in
  each (tokenSchema cfg) (fun entry =>
    let property := fst entry in
    let! v := getProp settings property in
    if truthy v then
      let! c := Utils.copyAsNew v in
      setProp pristine property c
    else ret tt) ;;
  let! fid := getProp settings "fid" in
  let! fields := getOverridableFields fid in
  each fields (fun field =>
    let! properties := eachKeys settings in
    each properties (fun property =>
      match property with
      | VStr property =>
          if startsWith property (field +:+ "[") then
            let! v := getProp settings property in
            setProp pristine property v
          else ret tt
      | _ => throw TypeError
      end)) ;;
  let! attributes := getProp pristine "attributes" in
  (if truthy attributes then cleanAttributes pristine else ret tt) ;;
  ret pristine.

Definition escape_angle_brackets (s : string) : string :=
  replace_all_char ">" "&gt;" (replace_all_char "<" "&lt;" s).

Definition getToken : M string :=
  let! token := thisToken in
  if nonempty token then ret token
  else
    let! settings := getSettings in
    let! link_text := getProp settings "link_text" in
    (if String.eqb (typeof link_text) "string" then
       let! title := overrideLinkTitle in
       setProp settings "link_text" title ;;
       let! link_text := getProp settings "link_text" in
       match link_text with
       | VStr text => setProp settings "link_text" (VStr (escape_angle_brackets text))
       | _ => throw TypeError
       end
     else ret tt) ;;
    let! pristine := prepareSettingsForToken in
    let! text := (fun st => (JSON.stringify (store st) pristine, st)) in
    setToken ("[[" +:+ from_option id "undefined" text +:+ "]]") ;;
    thisToken.

Definition getKey : M string :=
  let! key := thisKey in
  (if nonempty key then ret tt
   else
     let! token := getToken in
     setKey (createKey token)) ;;
  thisKey.

Definition setPlaceholderBase (html : string) : M unit :=
  assignPlaceholderBase (Some html).

Definition is_blank (b : option string) : bool :=
  match b with
  | Some html => negb (nonempty html)
  | None => true
  end.

Definition getPlaceholderBase : M (option string) :=
  let! base := thisPlaceholderBase in
  (if is_blank base then
     let! key := getKey in
     assignPlaceholderBase (tagMap cfg !! key) ;;
     let! base := thisPlaceholderBase in
     match base with
     | Some html =>
         if nonempty html then
           if (String.length (DOM.text (DOM.parseHTML br html)) =? String.length html)%nat
           then assignPlaceholderBase (Some ("<span>" +:+ html +:+ "</span>"))
           else ret tt
         else throw (Thrown "Unable to retrieve media html.")
     | None => throw (Thrown "Unable to retrieve media html.")
     end
   else ret tt) ;;
  thisPlaceholderBase.

(** [/\bfile-\S+/g] and [/\bmedia-wysiwyg-align-\S+/g] *)
Definition generated_class_re (prefix : string) : Regex.regex :=
  Regex.RSeq Regex.RWordBoundary
    (Regex.RSeq (Regex.RLit prefix) (Regex.RPlus Regex.RNonSpace)).

Definition matching_classes (prefix css : string) : string :=
  join " " (from_option id [] (Regex.match_all (generated_class_re prefix) css)).

Definition resetPlaceholderAttributes : M unit :=
  let! p := thisPlaceholder in
  match p with
  | None => throw (Thrown "Invalid state: Instance placeholder is missing.")
  | Some e =>
      let e1 := DOM.removeClassBy e (matching_classes "file-") in
      let e2 := DOM.removeClassBy e1 (matching_classes "media-wysiwyg-align-") in
      let e3 := DOM.removeClass e2 "media-element" in
      let e4 := DOM.removeAttr e3 "data-fid" in
      let e5 := DOM.removeAttr e4 "data-media-element" in
      let e6 := DOM.removeAttr e5 "data-media-key" in
      assignPlaceholder (Some e6)
  end.

(** [$.each] over [attributeFields] in [syncAttributesToFields]. *)
Definition syncAttributeField (reverse : bool) (settings : value)
  (entry : string * string) : M unit :=
  let '(attribute, fieldName) := entry in
  let! fieldId := Utils.propertyStartsWith (fieldName +:+ "[") settings in
  if negb reverse then
    let! attributes := getProp settings "attributes" in
    let! v := getProp attributes attribute in
    setProp settings (toString fieldId) (if truthy v then v else VStr "")
  else
    let! v := getProp settings (toString fieldId) in
    if truthy v then
      let! attributes := getProp settings "attributes" in
      setProp attributes attribute v
    else
      let! attributes := getProp settings "attributes" in
      deleteProp attributes attribute.

Definition syncAttributesToFields (reverse : bool) : M unit :=
  let! settings := getSettings in
  let! attributes := getProp settings "attributes" in
  (if falsy attributes then
     let! o := newObject in
     setProp settings "attributes" o
   else ret tt) ;;
  each (attributeFields cfg) (syncAttributeField reverse settings).

Definition syncFieldsToAttributes : M unit := syncAttributesToFields true.

Definition withPlaceholder (f : DOM.jquery -> DOM.jquery) : M unit :=
  let! p := thisPlaceholder in
  match p with
  | Some e => assignPlaceholder (Some (f e))
  | None => throw TypeError
  end.

Definition syncSettingsToPlaceholder : M unit :=
  let! settings := getSettings in
  let! p := thisPlaceholder in
  match p with
  | None => throw (Thrown "Invalid state: Instance placeholder is missing.")
  | Some e =>
      (if DOM.is_tag e "a" && negb (length (DOM.find_tag e "img") =? 0)%nat
       then assignPlaceholder (Some (DOM.children e))
       else ret tt) ;;
      syncFieldsToAttributes ;;
      (let! attributes := getProp settings "attributes" in
       if truthy attributes then
         each (wysiwygAllowedAttributes cfg) (fun allowed_attribute =>
           let! attributes := getProp settings "attributes" in
           let! v := getProp attributes allowed_attribute in
           if truthy v then
             withPlaceholder (fun e => DOM.setAttr e allowed_attribute (toString v))
           else
             let! p := thisPlaceholder in
             match p with
             | Some e =>
                 if nonempty (from_option id "" (DOM.attr e allowed_attribute))
                 then assignPlaceholder (Some (DOM.removeAttr e allowed_attribute))
                 else ret tt
             | None => throw TypeError
             end) ;;
         deleteProp settings "attributes"
       else ret tt) ;;
      resetPlaceholderAttributes ;;
      (let! fid := getProp settings "fid" in
       match fid with
       | VUndefined => throw TypeError
       | _ => withPlaceholder (fun e => DOM.setAttr e "data-fid" (toString fid))
       end) ;;
      (let! key := getKey in
       withPlaceholder (fun e => DOM.setAttr e "data-media-key" key)) ;;
      (let! view_mode := getProp settings "view_mode" in
       match view_mode with
       | VStr mode =>
           let! alignment := getProp settings "alignment" in
           let classes :=
             ["media-element"; "file-" +:+ replace_all_char "_" "-" mode]
             ++ (if truthy alignment
                 then ["media-wysiwyg-align-" +:+ toString alignment] else []) in
           withPlaceholder (fun e => DOM.addClass e (join " " classes))
       | _ => throw TypeError
       end) ;;
      (let! title := overrideLinkTitle in
       setProp settings "link_text" title) ;;
      let! link_text := getProp settings "link_text" in
      let! external_url := getProp settings "external_url" in
      let! url_length := getProp (if truthy external_url then external_url else VStr "")
                           "length" in
      if truthy link_text
         && (falsy external_url
             || match external_url with
                | VStr _ => false
                | _ => bool_decide (url_length = VNum 0)
                end)
      then
        withPlaceholder
          (map (DOM.set_links_html (DOM.parseHTML br (toString link_text))))
      else ret tt
  end.

Definition getPlaceholder : M DOM.jquery :=
  let! p := thisPlaceholder in
  match p with
  | Some e => ret e
  | None =>
      let! placeholderBase := getPlaceholderBase in
      if is_blank placeholderBase then
        throw (Thrown "Invalid state: PlaceholderBase is missing")
      else
        assignPlaceholder (Some (DOM.parseHTML br (from_option id "" placeholderBase))) ;;
        syncSettingsToPlaceholder ;;
        let! p := thisPlaceholder in
        match p with
        | Some e => ret e
        | None => throw TypeError
        end
  end.

Definition getPlaceholderHtml : M string :=
  let! e := getPlaceholder in
  Utils.outerHTML br e.

(** The callback of [$.each(wysiwygAllowedAttributes, ...)] in
    [syncPlaceholderToSettings]. *)
Definition readAttribute (e : DOM.jquery) (settings : value)
  (allowed_attribute : string) : M unit :=
  match DOM.attr e allowed_attribute with
  | Some value =>
      if nonempty value then
        let value := replace_first "&quot;" (String "092" (String "034" "")) value in
        let! attributes := getProp settings "attributes" in
        setProp attributes allowed_attribute (VStr value)
      else ret tt
  | None => ret tt
  end.

Definition link_html (e : DOM.jquery) : value :=
  match DOM.find_plain_links e with
  | DOM.Element _ _ _ c :: _ => VStr (DOM.serializeHTML br c)
  | _ => VUndefined
  end.

Definition syncPlaceholderToSettings : M unit :=
  let! e := getPlaceholder in
  let! settings := getSettings in
  (let! o := newObject in setProp settings "attributes" o) ;;
  each (wysiwygAllowedAttributes cfg) (readAttribute e settings) ;;
  syncAttributesToFields false ;;
  setProp settings "link_text" (if doLinkText cfg then link_html e else VBool false) ;;
  (let! html := Utils.outerHTML br e in setPlaceholderBase html) ;;
  setToken "" ;;
  setKey "".

Definition setPlaceholder (e : DOM.jquery) : M unit :=
  assignPlaceholder (Some e) ;;
  (let! html := Utils.outerHTML br e in assignPlaceholderBase (Some html)) ;;
  syncPlaceholderToSettings.

End Methods.

End WysiwygInstance.

(** ** Drupal.media.utils.alignMedia *)

Module Align.
Import JS Page.
Local Open Scope m_scope.

Section AlignMedia.

Variable cfg : mediaSettings.
Variable br : DOM.browser.

(** Modelled from the spec: [Drupal.media.filter.getMediaInstanceFromElement]
    is not among the sources.  Section 4.5 has it reach "a linked instance
    settings object" from the element; here it tells whether the instance of
    the state is the one linked to the element. *)
Variable getMediaInstanceFromElement : DOM.jquery -> bool.

(** The inner function [resetAlignment]; [currentAlignment] is the variable
    of the enclosing call. *)
Definition resetAlignment (currentAlignment : option string) (e : DOM.jquery)
  : DOM.jquery :=
  let e1 := DOM.removeClass e
              ("media-wysiwyg-align-" +:+ from_option id "null" currentAlignment) in
  let e2 := DOM.removeAttr e1 "data-picture-align" in
  let e3 := DOM.setFloat e2 "" in
  DOM.removeAttr e3 "float".

(** The inner function [setAlignment]. *)
Definition setAlignment (e : DOM.jquery) (value : string) : M DOM.jquery :=
  let e1 := DOM.addClass e ("media-wysiwyg-align-" +:+ value) in
  (if getMediaInstanceFromElement e1 then
     let! settings := WysiwygInstance.getSettings cfg in
     setProp settings "alignment" (VStr value)
   else ret tt) ;;
  ret e1.

(** [alignMedia($element, value, toggle)]: the result and the element as
    the call leaves it. *)
Definition alignMedia (e : DOM.jquery) (value : string) (toggle : bool)
  : M (bool * DOM.jquery) :=
  if negb (DOM.hasClass e "media-element") then ret (false, e)
  else
    let! currentAlignment := Utils.getMediaAlignment br e in
    if bool_decide (currentAlignment = Some value) then
      if toggle then ret (false, resetAlignment currentAlignment e)
      else ret (true, e)
    else
      let e1 := match currentAlignment with
                | Some a => if nonempty a then resetAlignment currentAlignment e else e
                | None => e
                end in
      let! e2 := setAlignment e1 value in
      ret (true, e2).

End AlignMedia.

End Align.

(** ** Vocabulary of the statements *)

Module Vocabulary.
Import JS Page.

(** Every run of [m] relates the state before to the state after, whether
    it returns or throws. *)
Definition steps {A} (R : state -> state -> Prop) (m : M A) : Prop :=
  forall st, R st (snd (m st)).

(** [token] and [key] are left as they were, and a placeholder that is
    set stays set. *)
Definition same_token_key (st st' : state) : Prop :=
  token (self st') = token (self st) /\ key (self st') = key (self st)
  /\ (placeholder (self st) <> None -> placeholder (self st') <> None).

(** Neither token nor key is computed, and the placeholder is set: the
    state [setPlaceholder] leaves. *)
Definition awaiting_recompute (i : instance) : Prop :=
  token i = "" /\ key i = "" /\ placeholder i <> None.

Definition keeps_awaiting (st st' : state) : Prop :=
  awaiting_recompute (self st) -> awaiting_recompute (self st').

(** A placeholder that is set stays set. *)
Definition placeholder_kept (st st' : state) : Prop :=
  placeholder (self st) <> None -> placeholder (self st') <> None.

(** [key] is left as it was. *)
Definition same_key (st st' : state) : Prop := key (self st') = key (self st).

(** [key] is left as it was, and so is a [token] that was set. *)
Definition token_kept (st st' : state) : Prop :=
  key (self st') = key (self st)
  /\ (nonempty (token (self st)) = true -> token (self st') = token (self st)).

(** The key of an instance is either not computed yet or the key of its
    token: what the constructor sets up and every method keeps. *)
Definition key_valid (i : instance) : Prop :=
  key i = ""
  \/ (nonempty (token i) = true /\ key i = WysiwygInstance.createKey (token i)).

Definition keeps_key_valid (st st' : state) : Prop :=
  key_valid (self st) -> key_valid (self st').

(** [c] occurs in [s]. *)
Fixpoint occurs (c : ascii) (s : string) : bool :=
  match s with
  | EmptyString => false
  | String a s' => Ascii.eqb a c || occurs c s'
  end.

(** The state one round of the forward reconciliation leaves when the field
    property is not found: the attribute's value, or the empty string, sits
    in the settings property named ["null"]. *)
Definition null_assigned (st : state) (l la : loc) (attribute : string) : state :=
  let v := prop_get (heap_get (store st) la) attribute in
  with_store
    (heap_put (store st) l
       (prop_set (heap_get (store st) l) "null" (if truthy v then v else VStr "")))
    st.

(** *** Regions of the store *)

(** Every reference held in [o] points into [P]. *)
Definition refs_in (P : loc -> Prop) (o : object) : Prop :=
  forall k r, In (k, VRef r) o -> P r.

(** The objects at the addresses of [P] refer to addresses of [P] only. *)
Definition closed_in (P : loc -> Prop) (h : heap) : Prop :=
  forall a, P a -> refs_in P (heap_get h a).

(** [h'] holds at the addresses of [P] what [h] holds there. *)
Definition agree_on (P : loc -> Prop) (h h' : heap) : Prop :=
  forall a, P a -> heap_get h' a = heap_get h a.

(** The addresses below [m] form a region of their own: they exist, their
    objects refer to addresses below [m] only, and no object has a property
    name twice.  This is where the page keeps server-supplied tables such as
    the defaults of the token schema. *)
Definition region (m : nat) (h : heap) : Prop :=
  (m <= length h)%nat
  /\ closed_in (fun a => (a < m)%nat) h
  /\ (forall a, (a < m)%nat -> NoDup (keys (heap_get h a))).

Fixpoint distinct (names : list string) : bool :=
  match names with
  | [] => true
  | n :: names' => negb (existsb (String.eqb n) names') && distinct names'
  end.

Definition object_within (m : nat) (o : object) : bool :=
  forallb (fun kv => match snd kv with VRef r => (r <? m)%nat | _ => true end) o
  && distinct (keys o).

(** [region], decided. *)
Definition region_ok (m : nat) (h : heap) : bool :=
  (m <=? length h)%nat && forallb (object_within m) (firstn m h).

(** The members of two parts of an object, one after the other. *)
Definition app_members (a b : option (list (string * JSON.json)))
  : option (list (string * JSON.json)) :=
  match a, b with
  | Some x, Some y => Some (x ++ y)
  | _, _ => None
  end.

(** What a deep copy does: the copy is the next new address, the store
    only grows, what existed stays as it was, the new objects refer to new
    objects only, and the copy of an object of the region [m] reads as its
    original does. *)
Definition copier_ok (m : nat) (rec : heap -> loc -> option (heap * loc)) : Prop :=
  forall h s h' c,
    rec h s = Some (h', c) ->
    c = length h
    /\ (length h < length h')%nat
    /\ agree_on (fun a => (a < length h)%nat) h h'
    /\ closed_in (fun a => (length h <= a < length h')%nat) h'
    /\ (region m h -> (s < m)%nat ->
        forall n, JSON.serialize n h' (VRef c) = JSON.serialize n h (VRef s)).

(** [v'], read in the store [h'], is what filling in the default [d] of the
    store [h] gives: the default itself when it is no object; else a new
    object, at an address [h] did not have, that reads as the default does
    when the default lies in the region [m]. *)
Definition filled (m : nat) (h : heap) (d : value) (h' : heap) (v' : value) : Prop :=
  match d with
  | VRef s =>
      exists t, v' = VRef t /\ (length h <= t < length h')%nat
                /\ (region m h -> (s < m)%nat ->
                    forall n, JSON.serialize n h' (VRef t) = JSON.serialize n h (VRef s))
  | _ => v' = d
  end.

(** The message of [verifySettings] for a missing required property. *)
Definition missing_required (property : string) : exn :=
  Thrown ("Media token parse error: Missing required property '" +:+ property +:+ "'.").

(** The settings property [propertyStartsWith] finds for a field name. *)
Definition field_of (o : object) (fieldName : string) : value :=
  Utils.first_starting_with (fieldName +:+ "[") (keys o).

(** The value the attributes-to-fields direction gives the field of an
    attribute. *)
Definition forwarded (attrs : object) (attribute : string) : value :=
  if truthy (prop_get attrs attribute) then prop_get attrs attribute else VStr "".





(** No white space in a string; a class name is such a string, not empty. *)
Fixpoint space_free (s : string) : bool :=
  match s with
  | EmptyString => true
  | String a s' => negb (DOM.is_white a) && space_free s'
  end.

Definition is_name (s : string) : bool := nonempty s && space_free s.





(** *** JSON texts *)

(** The members of an object as [print] writes them. *)
Fixpoint print_members (ms : list (string * JSON.json)) : string :=
  match ms with
  | [] => ""
  | [(k, v)] => JSON.quote k +:+ ":" +:+ JSON.print v
  | (k, v) :: ms' => JSON.quote k +:+ ":" +:+ JSON.print v +:+ "," +:+ print_members ms'
  end.

(** The number of values and members of a JSON value: what parsing its text
    costs at most. *)
Fixpoint size (j : JSON.json) : nat :=
  match j with
  | JSON.JObj members =>
      S ((fix size_members (ms : list (string * JSON.json)) : nat :=
            match ms with
            | [] => O
            | (_, v) :: ms' => S (size v + size_members ms')
            end) members)
  | _ => 1%nat
  end.

Fixpoint size_members (ms : list (string * JSON.json)) : nat :=
  match ms with
  | [] => O
  | (_, v) :: ms' => S (size v + size_members ms')
  end.

(** What may follow a value in a text: nothing, a comma or a closing brace. *)
Definition ends_value (rest : string) : bool :=
  match rest with
  | EmptyString => true
  | String c _ => Ascii.eqb c "," || Ascii.eqb c "}"
  end.

(** The members of a parsed object as [JSON.build] stores them. *)
Fixpoint build_members (ms : list (string * JSON.json)) (h : heap) (o : object)
  : heap * object :=
  match ms with
  | [] => (h, o)
  | (k, v) :: ms' =>
      let '(h1, x) := JSON.build v h in
      build_members ms' h1 (prop_set o k x)
  end.

(** *** Settings and their token *)

(** A value that is no object. *)
Definition primitive (v : value) : Prop := forall a, v <> VRef a.

(** The JSON value of a primitive; [undefined] has none. *)
Definition json_of (v : value) : option JSON.json :=
  match v with
  | VNull => Some JSON.JNull
  | VBool b => Some (JSON.JBool b)
  | VNum n => Some (JSON.JNum n)
  | VStr s => Some (JSON.JStr s)
  | VUndefined | VRef _ => None
  end.

(** An object whose properties are all strings, as the attributes of an
    element are. *)
Definition strings (o : object) : Prop :=
  forall k v, In (k, v) o -> exists s, v = VStr s.

(** Settings as a token holds them: [attributes] is an object of the store
    with strings for properties, and every other property is a primitive. *)
Definition plain_settings (R : object) (h : heap) : Prop :=
  forall k v, In (k, v) R ->
    (k = "attributes" ->
     exists la, v = VRef la /\ (la < length h)%nat /\ strings (heap_get h la))
    /\ (k <> "attributes" -> primitive v).

(** Settings as [verifySettings] leaves them: of type [media], and every
    property of the schema truthy or, when optional, at its default. *)
Definition resolved (schema : list (string * propSettings)) (R : object) : Prop :=
  prop_get R "type" = VStr "media"
  /\ forall p ps, In (p, ps) schema ->
       truthy (prop_get R p) = true
       \/ (required ps = false /\ prop_get R p = default ps).

(** A schema as the page supplies it: no property twice, [type] among them,
    no bracket in a name, [attributes] and [link_text] optional, and the
    defaults that are objects kept in the region [m] of the store. *)
Definition plain_schema (m : nat) (schema : list (string * propSettings)) (h : heap)
  : Prop :=
  NoDup (map fst schema)
  /\ In "type" (map fst schema)
  /\ (forall p, In p (map fst schema) -> occurs "[" p = false)
  /\ (forall p ps, In (p, ps) schema -> p = "attributes" \/ p = "link_text" ->
        required ps = false)
  /\ (forall p ps s, In (p, ps) schema -> default ps = VRef s ->
        (s < m)%nat /\ JSON.stringify h (VRef s) <> Throw TypeError).

(** When [link_text] is a string, the title that replaces it is one. *)
Definition link_title_text (cfg : mediaSettings) (st : state) (R : object) : Prop :=
  typeof (prop_get R "link_text") = "string" ->
  exists s, fst (WysiwygInstance.overrideLinkTitle cfg st) = Ok (VStr s).

(** The token holds the closing brackets at its end only: without its last
    character and the opening brackets, no [ ]] ] is left in it. *)
Definition closes_once (token : string) : bool :=
  negb (includes
          (drop_chars 2 (Regex.take_chars (String.length token - 1) token)) "]]").

(** [st'] is [st0] with a store that kept the addresses below [n]. *)
Definition extends (n : nat) (st0 st' : state) : Prop :=
  self st' = self st0 /\ fidTypeMap st' = fidTypeMap st0
  /\ agree_on (fun a => (a < n)%nat) (store st0) (store st').

(** The object [prepareSettingsForToken] builds at address [n]: no property
    twice, [attributes] a later object of strings, everything else
    primitive. *)
Definition shaped (n : nat) (h' : heap) : Prop :=
  (n < length h')%nat
  /\ NoDup (keys (heap_get h' n))
  /\ (forall k v, In (k, v) (heap_get h' n) ->
        (k = "attributes" ->
         exists lc, v = VRef lc /\ (n < lc < length h')%nat
                    /\ strings (heap_get h' lc))
        /\ (k <> "attributes" -> primitive v)).

(** What it carries of the settings [R], the schema properties [done]
    behind it: a property without bracket is the truthy one of [R], if
    any. *)
Definition carries (R : object) (done : list string) (P : object) : Prop :=
  forall q, occurs "[" q = false -> q <> "attributes" ->
    prop_get P q
    = if truthy (prop_get R q) && existsb (String.eqb q) done
      then prop_get R q else VUndefined.

(** The state while [prepareSettingsForToken] cleans the attributes of the
    object it builds: they are the object at [lc]. *)
Definition cleaning (R : object) (n : nat) (done : list string) (lc : loc)
  (st0 st' : state) : Prop :=
  extends n st0 st' /\ shaped n (store st')
  /\ carries R done (heap_get (store st') n)
  /\ prop_get (heap_get (store st') n) "attributes" = VRef lc.

(** The block of [getToken] that replaces a string [link_text] by the
    overridden title, its angle brackets escaped. *)
Definition rewriteLinkText (cfg : mediaSettings) (settings link_text : value) : M unit :=
  if String.eqb (typeof link_text) "string" then
    bind (WysiwygInstance.overrideLinkTitle cfg) (fun title =>
    bind (setProp settings "link_text" title) (fun _ =>
    bind (getProp settings "link_text") (fun link_text =>
    match link_text with
    | VStr text =>
        setProp settings "link_text"
          (VStr (WysiwygInstance.escape_angle_brackets text))
    | _ => throw TypeError
    end)))
  else ret tt.

(** The two directions of the reconciliation, one after the other. *)
Definition reconcile_both (cfg : mediaSettings) : M unit :=
  bind (WysiwygInstance.syncAttributesToFields cfg false)
    (fun _ => WysiwygInstance.syncAttributesToFields cfg true).

(** The calls a client of an instance can make. *)
Inductive call : Type :=
| GetSettings
| VerifySettings
| GetToken
| GetKey
| SetPlaceholderBase (html : string)
| GetPlaceholderBase
| SetPlaceholder (e : DOM.jquery)
| GetPlaceholder
| GetPlaceholderHtml
| ResetPlaceholderAttributes
| SyncSettingsToPlaceholder
| SyncPlaceholderToSettings
| SyncAttributesToFields (reverse : bool)
| SyncFieldsToAttributes
| PrepareSettingsForToken
| OverrideLinkTitle
| AlignMedia (e : DOM.jquery) (value : string) (toggle : bool).

Definition ignore {A} (m : M A) : M unit := bind m (fun _ => ret tt).

Definition run (cfg : mediaSettings) (br : DOM.browser)
  (linked : DOM.jquery -> bool) (c : call) : M unit :=
  match c with
  | GetSettings => ignore (WysiwygInstance.getSettings cfg)
  | VerifySettings => WysiwygInstance.verifySettings cfg
  | GetToken => ignore (WysiwygInstance.getToken cfg)
  | GetKey => ignore (WysiwygInstance.getKey cfg)
  | SetPlaceholderBase html => WysiwygInstance.setPlaceholderBase html
  | GetPlaceholderBase => ignore (WysiwygInstance.getPlaceholderBase cfg br)
  | SetPlaceholder e => WysiwygInstance.setPlaceholder cfg br e
  | GetPlaceholder => ignore (WysiwygInstance.getPlaceholder cfg br)
  | GetPlaceholderHtml => ignore (WysiwygInstance.getPlaceholderHtml cfg br)
  | ResetPlaceholderAttributes => WysiwygInstance.resetPlaceholderAttributes
  | SyncSettingsToPlaceholder => WysiwygInstance.syncSettingsToPlaceholder cfg br
  | SyncPlaceholderToSettings => WysiwygInstance.syncPlaceholderToSettings cfg br
  | SyncAttributesToFields reverse => WysiwygInstance.syncAttributesToFields cfg reverse
  | SyncFieldsToAttributes => WysiwygInstance.syncFieldsToAttributes cfg
  | PrepareSettingsForToken => ignore (WysiwygInstance.prepareSettingsForToken cfg)
  | OverrideLinkTitle => ignore (WysiwygInstance.overrideLinkTitle cfg)
  | AlignMedia e value toggle => ignore (Align.alignMedia cfg br linked e value toggle)
  end.

(** The calls that compute the token or the key, themselves or through
    [getKey]. *)
Definition recomputes (c : call) : bool :=
  match c with
  | GetToken | GetKey | GetPlaceholderBase | SyncSettingsToPlaceholder => true
  | _ => false
  end.

(** The state after a sequence of calls, thrown errors caught by the caller. *)
Fixpoint after_calls (cfg : mediaSettings) (br : DOM.browser)
  (linked : DOM.jquery -> bool) (cs : list call) (st : state) : state :=
  match cs with
  | [] => st
  | c :: cs' => after_calls cfg br linked cs' (snd (run cfg br linked c st))
  end.

(** What [f] reads of the state is left as it was. *)
Definition same {A} (f : state -> A) (st st' : state) : Prop := f st' = f st.

(** The placeholder an instance holds and the template it was built on. *)
Definition held_placeholder (st : state) : option DOM.jquery * option string :=
  (placeholder (self st), placeholderBase (self st)).

(** What [resetPlaceholderAttributes] makes of a node: the generated class
    and the three data attributes are gone; the tag, the children and the
    attributes other than [class] are as they were. *)
Definition reset_of (n n' : DOM.node) : Prop :=
  DOM.tag_of n' = DOM.tag_of n
  /\ DOM.children_of n' = DOM.children_of n
  /\ DOM.has_name "media-element" (DOM.node_classes n') = false
  /\ DOM.attr_lookup (DOM.attributes_of n') "data-fid" = None
  /\ DOM.attr_lookup (DOM.attributes_of n') "data-media-element" = None
  /\ DOM.attr_lookup (DOM.attributes_of n') "data-media-key" = None
  /\ forall a, ~ In a ["class"; "data-fid"; "data-media-element"; "data-media-key"] ->
       DOM.attr_lookup (DOM.attributes_of n') a = DOM.attr_lookup (DOM.attributes_of n) a.

(** One node under [removeClass(f)] and under [removeAttr(name)]. *)
Definition without_classes (f : string -> string) (n : DOM.node) : DOM.node :=
  match DOM.attr_lookup (DOM.attributes_of n) "class" with
  | Some cls =>
      DOM.set_classes (DOM.remove_names (DOM.class_names cls) (DOM.class_names (f cls))) n
  | None => n
  end.

Definition without_attr (name : string) (n : DOM.node) : DOM.node :=
  DOM.with_attributes (fun a => DOM.attr_remove a name) n.

(** One node under the chain of calls of [resetPlaceholderAttributes]. *)
Definition reset_node (n : DOM.node) : DOM.node :=
  without_attr "data-media-key"
    (without_attr "data-media-element"
       (without_attr "data-fid"
          (without_classes (fun _ => "media-element")
             (without_classes (WysiwygInstance.matching_classes "media-wysiwyg-align-")
                (without_classes (WysiwygInstance.matching_classes "file-") n))))).

(** What [syncPlaceholderToSettings] reads of the placeholder: an
    attribute is read when the first node has it with a value that is not
    empty, and its first [&quot;] is written as an escaped quote. *)
Definition is_read (e : DOM.jquery) (a : string) : bool :=
  match DOM.attr e a with
  | Some v => nonempty v
  | None => false
  end.

Definition attribute_value (e : DOM.jquery) (a : string) : value :=
  VStr (replace_first "&quot;" (String "092" (String "034" ""))
          (from_option id "" (DOM.attr e a))).

Definition read_of (e : DOM.jquery) (allowed : list string) (a : string) : value :=
  if existsb (String.eqb a) allowed && is_read e a then attribute_value e a
  else VUndefined.

(** The key an instance holds. *)
Definition held_key (st : state) : string := key (self st).

(** A node that is marked as the media element of a key: an element
    carries the key and the class [media-element]. *)
Definition marked (k : string) (n : DOM.node) : Prop :=
  DOM.is_element n = true ->
  DOM.attr_lookup (DOM.attributes_of n) "data-media-key" = Some k
  /\ DOM.has_name "media-element" (DOM.node_classes n) = true.

(** *** What [prepareSettingsForToken] makes of the attributes *)

(** The copy [$.extend] makes of an object of strings: its properties, set
    one by one on a new object. *)
Definition copy_of (o : object) : object :=
  fold_left (fun acc kv => prop_set acc (fst kv) (snd kv)) o [].

(** The attributes that are generated from fields or by the filter. *)
Definition generated_attributes (cfg : mediaSettings) : list string :=
  map fst (attributeFields cfg) ++ ["data-fid"; "data-media-element"; "data-media-key"].

Definition without_generated (cfg : mediaSettings) (C : object) : object :=
  fold_left prop_delete (generated_attributes cfg) C.

(** The [class] attribute without the generated class names; [undefined]
    when no name is left. *)
Definition clean_class (v : value) : value :=
  match v with
  | VStr names =>
      if truthy v then
        match List.filter WysiwygInstance.keeps_class (split_char " " names) with
        | [] => VUndefined
        | c :: cs => VStr (join " " (c :: cs))
        end
      else v
  | _ => v
  end.

Definition with_clean_class (C : object) : object :=
  if truthy (prop_get C "class") then
    match clean_class (prop_get C "class") with
    | VUndefined => prop_delete C "class"
    | v => prop_set C "class" v
    end
  else C.

(** The attribute [k] of the token of settings whose attributes are [A]. *)
Definition cleaned_attribute (cfg : mediaSettings) (A : object) (k : string) : value :=
  if existsb (String.eqb k) (generated_attributes cfg) then VUndefined
  else if String.eqb k "class" then clean_class (prop_get A "class")
  else prop_get A k.

(** While [prepareSettingsForToken] builds its object at [n] from the
    state [st0]: what existed is as it was, the object has no property
    twice, and once the schema property [attributes] is behind it, its
    [attributes] are the object [C] at a later address. *)
Definition building (n : nat) (C : object) (done : list string) (st0 st' : state)
  : Prop :=
  extends n st0 st' /\ (n < length (store st'))%nat
  /\ NoDup (keys (heap_get (store st') n))
  /\ (existsb (String.eqb "attributes") done = true ->
      exists lc, prop_get (heap_get (store st') n) "attributes" = VRef lc
                 /\ (n < lc < length (store st'))%nat
                 /\ heap_get (store st') lc = C).

(** A property name that starts with the prefix of one of the fields. *)
Definition overridden (fields : list string) (q : string) : bool :=
  existsb (fun field => startsWith q (field +:+ "[")) fields.

(** The properties with a bracket in their name that [P] carries of the
    settings [R]: those that [sel] selects. *)
Definition carries_selected (R : object) (sel : string -> bool) (P : object) : Prop :=
  forall q, occurs "[" q = true ->
    prop_get P q = if sel q && prop_has R q then prop_get R q else VUndefined.

(** *** Settings that [$.each] walks by name *)

(** [$.each] walks the object by its names, or not at all: no index is
    handed to the callback. *)
Definition not_indexed (o : object) : Prop := forall k, arrayLength o <> Some (S k).

(** The names [$.each] hands to its callback then: every name of an object
    that is not walked by index, none when its [length] is 0. *)
Definition walked (o : object) : list string :=
  match arrayLength o with
  | Some _ => []
  | None => keys o
  end.

(** *** A token read back *)

(** What [getToken] leaves in [settings.link_text], and writes into the
    token: a string is replaced by the overridden title, its angle
    brackets escaped; anything else stays.  (A title that is no string
    makes [getToken] throw; nothing is written then.) *)
Definition rewritten_link_text (cfg : mediaSettings) (st : state) (R : object) : value :=
  if String.eqb (typeof (prop_get R "link_text")) "string" then
    match fst (WysiwygInstance.overrideLinkTitle cfg st) with
    | Ok (VStr title) => VStr (WysiwygInstance.escape_angle_brackets title)
    | _ => prop_get R "link_text"
    end
  else prop_get R "link_text".

(** [v'], read in the store [h'], is structurally what [v] is in the store
    [h]: the same primitive, or an object with the same properties. *)
Definition same_value (h : heap) (v : value) (h' : heap) (v' : value) : Prop :=
  match v with
  | VRef a =>
      exists a', v' = VRef a'
                 /\ forall k, prop_get (heap_get h' a') k = prop_get (heap_get h a) k
  | _ => v' = v
  end.

(** Settings that [getToken] writes as they are: [link_text] is what the
    rewriting leaves of it; the [attributes], when there are any, name no
    attribute twice and hold nothing that the cleaning drops or changes;
    and empty [attributes] are what the schema has for default, an empty
    object of the region [m]. *)
Definition canonical (cfg : mediaSettings) (m : nat) (st : state) (R : object) : Prop :=
  rewritten_link_text cfg st R = prop_get R "link_text"
  /\ forall la,
       prop_get R "attributes" = VRef la ->
       NoDup (keys (heap_get (store st) la))
       /\ (forall k, cleaned_attribute cfg (heap_get (store st) la) k
                     = prop_get (heap_get (store st) la) k)
       /\ (heap_get (store st) la = [] ->
           forall ps, In ("attributes", ps) (tokenSchema cfg) ->
             exists s, default ps = VRef s /\ (s < m)%nat
                       /\ heap_get (store st) s = []).

(** *** Decimal digits *)

Definition is_digit (c : ascii) : bool :=
  (48 <=? nat_of_ascii c)%nat && (nat_of_ascii c <=? 57)%nat.

(** A string of decimal digits only. *)
Fixpoint all_digits (s : string) : bool :=
  match s with
  | EmptyString => true
  | String c s' => is_digit c && all_digits s'
  end.

End Vocabulary.

(** ** Sample pages *)

Module Samples.
Import JS Page.

(** A token schema: [type] and [fid] required, the rest with defaults; the
    default of [attributes] is the empty object at address 0. *)
Definition schema : list (string * propSettings) :=
  [("type", PropSettings true VUndefined);
   ("fid", PropSettings true VUndefined);
   ("view_mode", PropSettings false (VStr "default"));
   ("attributes", PropSettings false (VRef 0%nat));
   ("alignment", PropSettings false (VStr ""));
   ("link_text", PropSettings false VNull)].

(** The page settings; the template cache knows the token of the sample
    instance below. *)
Definition cfg : mediaSettings :=
  MediaSettings schema
    ["alt"; "title"; "class"; "data-delta"]
    [("alt", "field_file_image_alt_text"); ("title", "field_file_image_title_text")]
    [("image", ["field_file_image_alt_text"; "field_file_image_title_text"])]
    true
    {[ "token-1647443583" := "A caption" ]}.




Definition dq : string := String JSON.dquote "".

(** A serializer for the samples: tags, attributes and children. *)
Fixpoint render (n : DOM.node) : string :=
  match n with
  | DOM.Text d => d
  | DOM.Element t a _ c =>
      "<" +:+ t
      +:+ fold_right (fun kv acc => " " +:+ fst kv +:+ "=" +:+ dq +:+ snd kv +:+ dq +:+ acc)
            "" a
      +:+ ">"
      +:+ (fix walk (ns : list DOM.node) : string :=
             match ns with
             | [] => ""
             | m :: ns' => render m +:+ walk ns'
             end) c
      +:+ "</" +:+ t +:+ ">"
  end.

(** A parser for the samples: a fragment starting with a tag is one image,
    anything else is text. *)
Definition browser : DOM.browser :=
  DOM.Browser
    (fun html => if String.prefix "<" html then [DOM.Element "img" [] "" []]
                 else [DOM.Text html])
    (fun ns => fold_right (fun n acc => render n +:+ acc) "" ns)
    (fun n => match n with
              | DOM.Element _ _ fl _ => if nonempty fl then fl else "none"
              | DOM.Text _ => "none"
              end).


(** A page whose store holds the schema's default object and the settings
    [{type: "media", fid: 42}] at address 1. *)
Definition page : state :=
  State [[]; [("type", VStr "media"); ("fid", VNum 42)]] []
    (Instance "" VNull "" (Some "") None).

(** The same page, the instance holding these settings unverified. *)
Definition unverified : state :=
  State (store page) [] (Instance "" (VRef 1%nat) "" (Some "") None).

(** Settings whose required [fid] is present but 0. *)
Definition zero_fid : state :=
  State [[]; [("type", VStr "media"); ("fid", VNum 0)]] []
    (Instance "" (VRef 1%nat) "" (Some "") None).

(** Settings whose optional [view_mode] is present but empty. *)
Definition empty_view_mode : state :=
  State [[]; [("type", VStr "media"); ("fid", VNum 42); ("view_mode", VStr "")]] []
    (Instance "" (VRef 1%nat) "" (Some "") None).

(** Settings with an image whose [alt] is present and empty, and with the
    field that feeds it. *)
Definition empty_alt : state :=
  State [[];
         [("type", VStr "media"); ("fid", VNum 42); ("attributes", VRef 2%nat);
          ("field_file_image_alt_text[und][0][value]", VStr "A view");
          ("field_file_image_title_text[und][0][value]", VStr "A title")];
         [("alt", VStr ""); ("class", VStr "wide")]] []
    (Instance "" (VRef 1%nat) "" (Some "") None).

(** Settings whose mapped attributes are set and fed by fields of their own. *)
Definition fed_by_fields : state :=
  State [[];
         [("type", VStr "media"); ("fid", VNum 42); ("attributes", VRef 2%nat);
          ("field_file_image_alt_text[und][0][value]", VStr "Old");
          ("field_file_image_title_text[und][0][value]", VStr "Old title")];
         [("alt", VStr "A view"); ("class", VStr "wide")]] []
    (Instance "" (VRef 1%nat) "" (Some "") None).

(** A token whose [attributes] hold a class that the filter generates and an
    attribute that a field feeds. *)
Definition classy_token : string :=
  "[[" +:+ JSON.print
             (JSON.JObj
                [("type", JSON.JStr "media"); ("fid", JSON.JNum 42);
                 ("attributes",
                  JSON.JObj [("class", JSON.JStr "media-element wide");
                             ("alt", JSON.JStr "A view")])])
  +:+ "]]".

(** The instance built on these settings. *)
Definition built : state := snd (WysiwygInstance.new cfg (VRef 1%nat) None page).

(** Its token, as [getToken] computes it, and the state after. *)
Definition built_token : string * state :=
  match WysiwygInstance.getToken cfg built with
  | (Ok t, st) => (t, st)
  | (Throw _, st) => ("", st)
  end.

(** The state after [getKey]: token and key are both set. *)
Definition with_key : state := snd (WysiwygInstance.getKey cfg built).

Definition image : DOM.jquery :=
  [DOM.Element "img"
     [("class", "media-element file-default media-wysiwyg-align-left"); ("alt", "A view")]
     "" []].

(** The instance after the editor handed it the image as placeholder. *)
Definition attached : state :=
  snd (WysiwygInstance.setPlaceholder cfg browser image with_key).

(** A store whose object at address 1 holds an object of its own: both lie
    in the region of the first two addresses. *)
Definition nested : state :=
  State [[("class", VStr "wide"); ("alt", VStr "A view")];
         [("attributes", VRef 0%nat); ("fid", VNum 42)];
         [("type", VStr "media"); ("fid", VNum 42)]] []
    (Instance "" (VRef 2%nat) "" (Some "") None).

(** A page whose settings name the type of their file. *)
Definition typed : state :=
  State [[]; [("type", VStr "media"); ("fid", VNum 42); ("file_type", VStr "image")]] []
    (Instance "" VNull "" (Some "") None).

(** Settings whose link text holds markup. *)
Definition linked_text : state :=
  State [[];
         [("type", VStr "media"); ("fid", VNum 42);
          ("link_text", VStr "<b>A view</b>")]] []
    (Instance "" (VRef 1%nat) "" (Some "") None).

(** A schema whose default for [attributes] is the object at address 0,
    which holds a class, and settings whose [attributes] are [null]. *)
Definition styled : mediaSettings :=
  MediaSettings
    [("type", PropSettings true VUndefined);
     ("fid", PropSettings true VUndefined);
     ("attributes", PropSettings false (VRef 0%nat))]
    (wysiwygAllowedAttributes cfg) (attributeFields cfg) (overridableFields cfg)
    true ∅.

Definition null_attributes : state :=
  State [[("class", VStr "wide")];
         [("type", VStr "media"); ("fid", VNum 42); ("attributes", VNull)]] []
    (Instance "" (VRef 1%nat) "" (Some "") None).

(** The same settings on a page that knows the type of file 42. *)
Definition fed_typed : state :=
  State (store fed_by_fields) [("42", VStr "image")] (self fed_by_fields).

(** Settings that [$.each] walks by index: they have a [length] of 1 and
    a property [0]; the page knows the type of file 42. *)
Definition indexed : state :=
  State [[];
         [("type", VStr "media"); ("fid", VNum 42); ("link_text", VStr "A link");
          ("0", VStr "first"); ("length", VNum 1)]]
    [("42", VStr "image")] (Instance "" (VRef 1%nat) "" (Some "") None).

(** A page that knows the type of file 42 and holds the schema's default
    object, and a token with two properties that name the title field:
    one is the field of the file, the other is not. *)
Definition catalogued : state :=
  State [[]] [("42", VStr "image")] (Instance "" VNull "" (Some "") None).

Definition titled_token : string :=
  "[[" +:+ JSON.print
             (JSON.JObj
                [("type", JSON.JStr "media"); ("fid", JSON.JNum 42);
                 ("link_text", JSON.JStr "A link");
                 ("field_file_image_title_text[und][0][value]", JSON.JStr "A title");
                 ("caption_field_file_image_title_text", JSON.JStr "A caption")])
  +:+ "]]".

End Samples.

(** * Part II: properties *)

(** ** The hash *)

Section HashFacts.
Import Utils.

Lemma toInt32_mod31 (x : Z) : toInt32 x mod 2 ^ 31 = x mod 2 ^ 31.
Proof.
  unfold toInt32.
  pose proof (Z.div_mod (x + 2 ^ 31) (2 ^ 32) ltac:(lia)) as Hdm.
  set (q := (x + 2 ^ 31) / 2 ^ 32) in *.
  replace ((x + 2 ^ 31) mod 2 ^ 32 - 2 ^ 31) with (x + (- 2 * q) * 2 ^ 31) by lia.
  apply Z.mod_add. lia.
Qed.

Lemma and32_mask31 (x : Z) : and32 x 0x7fffffff = x mod 2 ^ 31.
Proof.
  unfold and32. change 0x7fffffff with (Z.ones 31).
  rewrite Z.land_ones by lia. apply toInt32_mod31.
Qed.

Lemma hashRound_reference (h c : Z) :
  hashRound h c = (31 * h + c) mod 2 ^ 31.
Proof.
  unfold hashRound, shl32. rewrite and32_mask31.
  rewrite Z.shiftl_mul_pow2 by lia.
  rewrite <- (Zplus_mod_idemp_l (_ - h)), <- Zminus_mod_idemp_l.
  rewrite toInt32_mod31.
  rewrite <- (Zmult_mod_idemp_l (toInt32 h)), toInt32_mod31.
  rewrite Zmult_mod_idemp_l, Zminus_mod_idemp_l, Zplus_mod_idemp_l.
  f_equal. change (2 ^ 5) with 32. lia.
Qed.

Lemma hashRound_land (h c : Z) :
  hashRound h c = Z.land (Z.shiftl h 5 - h + c) 0x7fffffff.
Proof.
  rewrite hashRound_reference. change 0x7fffffff with (Z.ones 31).
  rewrite Z.land_ones, Z.shiftl_mul_pow2 by lia.
  f_equal. change (2 ^ 5) with 32. lia.
Qed.

Lemma hashRound_range (h c : Z) : 0 <= hashRound h c <= 0x7fffffff.
Proof.
  rewrite hashRound_reference.
  pose proof (Z.mod_pos_bound (31 * h + c) (2 ^ 31) ltac:(lia)).
  change 0x7fffffff with (2 ^ 31 - 1). lia.
Qed.

Lemma hashLoop_snoc (h : Z) (cs : list Z) (c : Z) :
  hashLoop h (cs ++ [c]) = hashRound (hashLoop h cs) c.
Proof. revert h. induction cs as [|c' cs IH]; intros h; simpl; [done|apply IH]. Qed.

Lemma hashLoop_range (h : Z) (cs : list Z) :
  0 <= h <= 0x7fffffff -> 0 <= hashLoop h cs <= 0x7fffffff.
Proof.
  revert h. induction cs as [|c cs IH]; intros h Hh; simpl; [done|].
  apply IH, hashRound_range.
Qed.

Lemma hashCodeUnits_loop (cs : list Z) : hashCodeUnits cs = hashLoop 0 cs.
Proof. unfold hashCodeUnits. by destruct cs. Qed.

Lemma hashLoop_fold (h : Z) (cs : list Z) :
  hashLoop h cs = fold_left (fun h c => (31 * h + c) mod 2 ^ 31) cs h.
Proof.
  revert h. induction cs as [|c cs IH]; intros h; simpl; [done|].
  by rewrite IH, hashRound_reference.
Qed.

Lemma hashCodeUnits_range (cs : list Z) : 0 <= hashCodeUnits cs <= 0x7fffffff.
Proof. rewrite hashCodeUnits_loop. apply hashLoop_range. lia. Qed.

Lemma hashCodeUnits_snoc (cs : list Z) (c : Z) :
  hashCodeUnits (cs ++ [c]) =
  Z.land (Z.shiftl (hashCodeUnits cs) 5 - hashCodeUnits cs + c) 0x7fffffff.
Proof. by rewrite !hashCodeUnits_loop, hashLoop_snoc, hashRound_land. Qed.

Lemma charCodes_snoc (s : string) (c : ascii) :
  charCodes (s +:+ String c "") = charCodes s ++ [Z.of_N (N_of_ascii c)].
Proof.
  unfold charCodes. induction s as [|a s IH]; simpl; [done|].
  f_equal. apply IH.
Qed.

(** C1: [hashCode] of the empty string is 0; every result lies in
    [0, 0x7fffffff], for strings and for arbitrary sequences of code units;
    appending one character applies the recurrence
    [hash = ((hash << 5) - hash + charCode) & 0x7fffffff] to the hash of the
    text before it, so the hash is computed from 0, left to right; the
    result agrees with the reference 31-bit rolling hash on every input and
    takes the tabulated values on the sample strings. *)
Theorem hashCode_rolling_hash :
  hashCode "" = 0
  /\ (forall str, 0 <= hashCode str <= 0x7fffffff)
  /\ (forall chars, 0 <= hashCodeUnits chars <= 0x7fffffff)
  /\ (forall str c,
        hashCode (str +:+ String c "") =
        Z.land (Z.shiftl (hashCode str) 5 - hashCode str + Z.of_N (N_of_ascii c))
          0x7fffffff)
  /\ (forall chars c,
        hashCodeUnits (chars ++ [c]) =
        Z.land (Z.shiftl (hashCodeUnits chars) 5 - hashCodeUnits chars + c) 0x7fffffff)
  /\ (forall chars, hashCodeUnits chars = referenceHash chars)
  /\ hashCode "a" = 97
  /\ hashCode "abc" = 96354
  /\ hashCode "hello" = 99162322
  /\ hashCode "[[{}]]" = 545596898
  /\ hashCode "media-wysiwyg-align-left" = 568270360
  /\ hashCodeUnits [0xD83D; 0xDE00] = 1772899.
Proof.
  split; [reflexivity|].
  split; [intros str; apply hashCodeUnits_range|].
  split; [apply hashCodeUnits_range|].
  split.
  { intros str c. unfold hashCode. rewrite charCodes_snoc. apply hashCodeUnits_snoc. }
  split; [apply hashCodeUnits_snoc|].
  split.
  { intros chars. rewrite hashCodeUnits_loop. apply hashLoop_fold. }
  repeat split; vm_compute; reflexivity.
Qed.

End HashFacts.

(** ** Reasoning about statements *)

Section StatementFacts.
Import JS Page.
Local Open Scope m_scope.

(** A pair whose first component is known. *)
Lemma pair_fst {A B} (p : A * B) (a : A) : fst p = a -> p = (a, snd p).
Proof. destruct p. simpl. by intros ->. Qed.

Lemma bind_ok {A B} (m : M A) (f : A -> M B) st a st1 :
  m st = (Ok a, st1) -> bind m f st = f a st1.
Proof. unfold bind. by intros ->. Qed.

Lemma bind_throw {A B} (m : M A) (f : A -> M B) st e st1 :
  m st = (Throw e, st1) -> bind m f st = (Throw e, st1).
Proof. unfold bind. by intros ->. Qed.

Lemma bind_ok_inv {A B} (m : M A) (f : A -> M B) st b st' :
  bind m f st = (Ok b, st') ->
  exists a st1, m st = (Ok a, st1) /\ f a st1 = (Ok b, st').
Proof.
  unfold bind. destruct (m st) as [[a|e] st1]; [eauto|discriminate].
Qed.

Lemma each_app {A} (xs ys : list A) (f : A -> M unit) st :
  each (xs ++ ys) f st = bind (each xs f) (fun _ => each ys f) st.
Proof.
  revert st. induction xs as [|x xs IH]; intros st; simpl.
  - reflexivity.
  - unfold bind. destruct (f x st) as [[[]|e] st1]; [|reflexivity].
    rewrite IH. reflexivity.
Qed.

(** *** Properties of one object *)

Lemma prop_get_set_eq (o : object) k v : prop_get (prop_set o k v) k = v.
Proof.
  induction o as [|[k' v'] o IH]; simpl.
  - by rewrite String.eqb_refl.
  - destruct (String.eqb k' k) eqn:E; simpl; rewrite E; [done|apply IH].
Qed.

Lemma prop_get_set_ne (o : object) k k' v :
  k <> k' -> prop_get (prop_set o k v) k' = prop_get o k'.
Proof.
  intros Hne. induction o as [|[k0 v0] o IH]; simpl.
  - destruct (String.eqb k k') eqn:E; [|done].
    apply String.eqb_eq in E. contradiction.
  - destruct (String.eqb k0 k) eqn:E; simpl.
    + apply String.eqb_eq in E. subst k0.
      destruct (String.eqb k k') eqn:E'; [|done].
      apply String.eqb_eq in E'. contradiction.
    + destruct (String.eqb k0 k'); [done|apply IH].
Qed.

Lemma prop_has_set_eq (o : object) k v : prop_has (prop_set o k v) k = true.
Proof.
  induction o as [|[k' v'] o IH]; simpl.
  - by rewrite String.eqb_refl.
  - destruct (String.eqb k' k) eqn:E; simpl; rewrite E; [done|apply IH].
Qed.

Lemma prop_get_delete_ne (o : object) k k' :
  k <> k' -> prop_get (prop_delete o k) k' = prop_get o k'.
Proof.
  intros Hne. induction o as [|[k0 v0] o IH]; simpl; [done|].
  destruct (String.eqb k0 k) eqn:E; simpl.
  - apply String.eqb_eq in E. subst k0.
    destruct (String.eqb k k') eqn:E'; [|done].
    apply String.eqb_eq in E'. contradiction.
  - destruct (String.eqb k0 k'); [done|apply IH].
Qed.

Lemma prop_get_absent (o : object) k : prop_has o k = false -> prop_get o k = VUndefined.
Proof.
  induction o as [|[k' v'] o IH]; simpl; [done|].
  destruct (String.eqb k' k); [done|apply IH].
Qed.

(** *** The store *)

Lemma heap_get_put_eq (h : heap) l o : (l < length h)%nat -> heap_get (heap_put h l o) l = o.
Proof.
  intros Hl. unfold heap_get, heap_put.
  by rewrite list_lookup_insert_eq.
Qed.

Lemma heap_get_put_ne (h : heap) l l' o : l <> l' -> heap_get (heap_put h l o) l' = heap_get h l'.
Proof.
  intros Hne. unfold heap_get, heap_put.
  by rewrite list_lookup_insert_ne.
Qed.

Lemma heap_put_length (h : heap) l o : length (heap_put h l o) = length h.
Proof. unfold heap_put. apply length_insert. Qed.

Lemma heap_get_alloc_old (h : heap) o l :
  (l < length h)%nat -> heap_get (fst (heap_alloc h o)) l = heap_get h l.
Proof.
  intros Hl. unfold heap_get, heap_alloc; simpl.
  by rewrite lookup_app_l.
Qed.

Lemma heap_get_alloc_new (h : heap) o : heap_get (fst (heap_alloc h o)) (length h) = o.
Proof.
  unfold heap_get, heap_alloc; simpl.
  rewrite lookup_app_r by lia. by rewrite Nat.sub_diag.
Qed.

Lemma getProp_ref l k st :
  getProp (VRef l) k st = (Ok (prop_get (heap_get (store st) l) k), st).
Proof. reflexivity. Qed.

Lemma setProp_ref l k x st :
  setProp (VRef l) k x st
  = (Ok tt, with_store (heap_put (store st) l (prop_set (heap_get (store st) l) k x)) st).
Proof. reflexivity. Qed.

Lemma deleteProp_ref l k st :
  deleteProp (VRef l) k st
  = (Ok tt, with_store (heap_put (store st) l (prop_delete (heap_get (store st) l) k)) st).
Proof. reflexivity. Qed.

Lemma newObject_run st :
  newObject st = (Ok (VRef (length (store st))), with_store (store st ++ [[]]) st).
Proof. reflexivity. Qed.

Lemma thisSettings_run st : thisSettings st = (Ok (settings (self st)), st).
Proof. reflexivity. Qed.

Lemma thisToken_run st : thisToken st = (Ok (token (self st)), st).
Proof. reflexivity. Qed.

End StatementFacts.

(** ** Which methods touch [token] and [key] *)

Section TokenAndKey.
Import JS Page Vocabulary WysiwygInstance.
Local Open Scope m_scope.

Variable cfg : mediaSettings.
Variable br : DOM.browser.
Variable linked : DOM.jquery -> bool.

#[local] Instance same_token_key_preorder : PreOrder same_token_key.
Proof.
  split.
  - by intros st.
  - intros st1 st2 st3 (H1 & H2 & H3) (H4 & H5 & H6).
    split; [congruence|]. split; [congruence|auto].
Qed.

#[local] Instance token_kept_preorder : PreOrder token_kept.
Proof.
  split.
  - by intros st.
  - intros st1 st2 st3 [H1 H2] [H3 H4]. split; [congruence|].
    intros Hne. rewrite <- (H2 Hne). apply H4. by rewrite (H2 Hne).
Qed.

#[local] Instance same_key_preorder : PreOrder same_key.
Proof. split; unfold same_key; [by intros st|intros st1 st2 st3; congruence]. Qed.

#[local] Instance keeps_awaiting_preorder : PreOrder keeps_awaiting.
Proof. split; unfold keeps_awaiting; [by intros st|intros st1 st2 st3; tauto]. Qed.

#[local] Instance placeholder_kept_preorder : PreOrder placeholder_kept.
Proof. split; unfold placeholder_kept; [by intros st|intros st1 st2 st3; tauto]. Qed.

#[local] Instance keeps_key_valid_preorder : PreOrder keeps_key_valid.
Proof. split; unfold keeps_key_valid; [by intros st|intros st1 st2 st3; tauto]. Qed.

Lemma same_token_key_kept st st' : same_token_key st st' -> token_kept st st'.
Proof. intros (H1 & H2 & _). by split. Qed.

Lemma token_kept_valid st st' : token_kept st st' -> keeps_key_valid st st'.
Proof.
  intros [Hk Ht] [Hv|[Hne Hv]].
  - left. congruence.
  - right. rewrite (Ht Hne), Hk. by split.
Qed.

Lemma steps_weaken {A} (R R' : state -> state -> Prop) (m : M A) :
  (forall st st', R st st' -> R' st st') -> steps R m -> steps R' m.
Proof. intros HR Hm st. apply HR, Hm. Qed.

Section Steps.
Context (R : state -> state -> Prop) `{!PreOrder R}.

Lemma steps_ret {A} (a : A) : steps R (ret a).
Proof. intros st. reflexivity. Qed.

Lemma steps_throw {A} (e : exn) : steps R (@throw A e).
Proof. intros st. reflexivity. Qed.

Lemma steps_gets {A} (f : state -> A) : steps R (gets f).
Proof. intros st. reflexivity. Qed.

Lemma steps_bind {A B} (m : M A) (f : A -> M B) :
  steps R m -> (forall a, steps R (f a)) -> steps R (bind m f).
Proof.
  intros Hm Hf st. unfold bind.
  specialize (Hm st). destruct (m st) as [[a|e] st1]; simpl in *; [|done].
  etrans; [exact Hm|apply Hf].
Qed.

Lemma steps_each {A} (xs : list A) (f : A -> M unit) :
  (forall x, steps R (f x)) -> steps R (each xs f).
Proof.
  intros Hf. induction xs as [|x xs IH]; simpl.
  - apply steps_ret.
  - apply steps_bind; [apply Hf|intros _; apply IH].
Qed.

Lemma steps_each_with {A S} (xs : list A) (f : S -> A -> M S) :
  (forall s x, steps R (f s x)) -> forall s, steps R (each_with xs f s).
Proof.
  intros Hf. induction xs as [|x xs IH]; intros s; simpl.
  - apply steps_ret.
  - apply steps_bind; [apply Hf|intros s'; apply IH].
Qed.

Lemma steps_modify (f : state -> state) :
  (forall st, R st (f st)) -> steps R (modify f).
Proof. intros Hf st. apply Hf. Qed.

Lemma steps_on_heap {A} (f : heap -> outcome (heap * A)) :
  (forall st h, R st (with_store h st)) -> steps R (on_heap f).
Proof.
  intros Hf st. unfold on_heap.
  destruct (f (store st)) as [[h a]|e]; simpl; [apply Hf|reflexivity].
Qed.

Lemma steps_state_fun {A} (f : state -> outcome A) : steps R (fun st => (f st, st)).
Proof. intros st. reflexivity. Qed.

End Steps.

Ltac steps_side :=
  first [ reflexivity
        | split; [reflexivity|split; [reflexivity|simpl; intros; first [assumption|discriminate]]]
        | unfold keeps_key_valid; intros; assumption
        | unfold placeholder_kept; simpl; intros; first [assumption|discriminate]
        | unfold keeps_awaiting, awaiting_recompute; simpl; intros (? & ? & ?);
          repeat split; first [assumption|discriminate] ].

Ltac steps_prim :=
  first
    [ apply steps_ret; apply _ | apply steps_throw; apply _ | apply steps_gets; apply _
    | apply steps_state_fun; apply _
    | apply steps_on_heap; first [apply _|intros; steps_side]
    | apply steps_modify; first [apply _|intros; steps_side] ].

Ltac steps_go :=
  repeat first
    [ steps_prim
    | match goal with H : _ |- _ => apply H end
    | apply steps_bind; [try apply _..|intros ?]
    | apply steps_each; [try apply _..|intros ?]
    | apply steps_each_with; [try apply _..|intros ? ?]
    | progress unfold getProp, setProp, deleteProp, newObject, ownKeys, eachKeys, countKeys,
        thisToken, thisSettings, thisKey, thisPlaceholderBase, thisPlaceholder,
        setSettings, assignPlaceholderBase, assignPlaceholder, withPlaceholder
    | match goal with
      | |- steps _ (if ?b then _ else _) => destruct b
      | |- steps _ (match ?x with _ => _ end) => destruct x
      | |- steps _ (let '(_, _) := ?x in _) => destruct x
      end ].

Lemma copyAsNew_quiet v : steps same_token_key (Utils.copyAsNew v).
Proof. unfold Utils.copyAsNew. steps_go. Qed.

Lemma propertyStartsWith_quiet needle v :
  steps same_token_key (Utils.propertyStartsWith needle v).
Proof. unfold Utils.propertyStartsWith. steps_go. Qed.

Lemma outerHTML_quiet e : steps same_token_key (Utils.outerHTML br e).
Proof. unfold Utils.outerHTML. steps_go. Qed.

Lemma getMediaAlignment_quiet e : steps same_token_key (Utils.getMediaAlignment br e).
Proof. unfold Utils.getMediaAlignment. steps_go. Qed.

Lemma verifyProperty_quiet entry : steps same_token_key (verifyProperty entry).
Proof.
  unfold verifyProperty. pose proof copyAsNew_quiet. steps_go.
Qed.

Lemma verifySettings_quiet : steps same_token_key (verifySettings cfg).
Proof.
  unfold verifySettings. pose proof verifyProperty_quiet. steps_go.
Qed.

Lemma getSettings_quiet : steps same_token_key (getSettings cfg).
Proof.
  unfold getSettings. pose proof verifySettings_quiet. steps_go.
Qed.

Lemma getOverridableFields_quiet fid : steps same_token_key (getOverridableFields cfg fid).
Proof. unfold getOverridableFields. steps_go. Qed.

Lemma overrideLinkTitle_quiet : steps same_token_key (overrideLinkTitle cfg).
Proof.
  unfold overrideLinkTitle. pose proof getSettings_quiet. steps_go.
Qed.

Lemma cleanAttributes_quiet pristine : steps same_token_key (cleanAttributes cfg pristine).
Proof. unfold cleanAttributes. steps_go. Qed.

Lemma prepareSettingsForToken_quiet : steps same_token_key (prepareSettingsForToken cfg).
Proof.
  unfold prepareSettingsForToken.
  pose proof getSettings_quiet. pose proof copyAsNew_quiet.
  pose proof getOverridableFields_quiet. pose proof cleanAttributes_quiet.
  steps_go.
Qed.

Lemma syncAttributeField_quiet reverse settings entry :
  steps same_token_key (syncAttributeField reverse settings entry).
Proof.
  unfold syncAttributeField. pose proof propertyStartsWith_quiet. steps_go.
Qed.

Lemma syncAttributesToFields_quiet reverse :
  steps same_token_key (syncAttributesToFields cfg reverse).
Proof.
  unfold syncAttributesToFields.
  pose proof getSettings_quiet. pose proof syncAttributeField_quiet. steps_go.
Qed.

Lemma setPlaceholderBase_quiet html : steps same_token_key (setPlaceholderBase html).
Proof. unfold setPlaceholderBase. steps_go. Qed.

Lemma resetPlaceholderAttributes_quiet : steps same_token_key resetPlaceholderAttributes.
Proof. unfold resetPlaceholderAttributes. steps_go. Qed.

Lemma readAttribute_quiet e settings a : steps same_token_key (readAttribute e settings a).
Proof. unfold readAttribute. steps_go. Qed.

Lemma steps_run {A} (R : state -> state -> Prop) (m : M A) st r st1 :
  steps R m -> m st = (r, st1) -> R st st1.
Proof. intros H E. specialize (H st). by rewrite E in H. Qed.

Lemma nonempty_token_text text : nonempty ("[[" +:+ text +:+ "]]") = true.
Proof. reflexivity. Qed.

(** A token that is set is returned as it is. *)
Lemma getToken_cached st :
  nonempty (token (self st)) = true -> getToken cfg st = (Ok (token (self st)), st).
Proof.
  intros Hne. unfold getToken, bind, thisToken, gets, ret. by rewrite Hne.
Qed.

(** A token that is computed is stored, and it is never empty. *)
Lemma getToken_computed st t st' :
  nonempty (token (self st)) = false ->
  getToken cfg st = (Ok t, st') ->
  token (self st') = t /\ nonempty t = true /\ key (self st') = key (self st).
Proof.
  intros Hempty H. unfold getToken in H.
  apply bind_ok_inv in H as (tok & st0 & E0 & H).
  unfold thisToken, gets in E0. injection E0 as <- <-. rewrite Hempty in H.
  apply bind_ok_inv in H as (settings & st1 & E1 & H).
  apply bind_ok_inv in H as (link_text & st2 & E2 & H).
  apply bind_ok_inv in H as (u & st3 & E3 & H).
  apply bind_ok_inv in H as (pristine & st4 & E4 & H).
  apply bind_ok_inv in H as (text & st5 & E5 & H).
  apply bind_ok_inv in H as (u' & st6 & E6 & H).
  assert (R1 : same_token_key st st1) by (eapply steps_run; [apply getSettings_quiet|exact E1]).
  assert (R2 : same_token_key st1 st2).
  { eapply steps_run; [|exact E2]. steps_go. }
  assert (R3 : same_token_key st2 st3).
  { eapply steps_run; [|exact E3]. pose proof overrideLinkTitle_quiet. steps_go. }
  assert (R4 : same_token_key st3 st4)
    by (eapply steps_run; [apply prepareSettingsForToken_quiet|exact E4]).
  assert (R5 : st5 = st4) by (by injection E5).
  subst st5.
  unfold setToken, modify in E6. unfold thisToken, gets in H.
  inversion E6; subst. inversion H; subst. simpl.
  split; [reflexivity|]. split; [reflexivity|].
  destruct R1 as (_ & R1 & _), R2 as (_ & R2 & _), R3 as (_ & R3 & _),
    R4 as (_ & R4 & _). congruence.
Qed.

Lemma same_token_key_same_key st st' : same_token_key st st' -> same_key st st'.
Proof. by intros (_ & H & _). Qed.

Lemma getToken_same_key : steps same_key (getToken cfg).
Proof.
  unfold getToken, setToken.
  pose proof (steps_weaken _ _ _ same_token_key_same_key getSettings_quiet).
  pose proof (steps_weaken _ _ _ same_token_key_same_key overrideLinkTitle_quiet).
  pose proof (steps_weaken _ _ _ same_token_key_same_key prepareSettingsForToken_quiet).
  steps_go.
Qed.

Lemma getToken_kept : steps token_kept (getToken cfg).
Proof.
  intros st. destruct (nonempty (token (self st))) eqn:Hne.
  - rewrite getToken_cached by done. reflexivity.
  - split; [apply getToken_same_key|]. rewrite Hne. discriminate.
Qed.

(** [getKey]: when it returns, the key is stored, it is the key of the
    token the instance then holds, and that token is set. *)
Lemma getKey_returns st k st' :
  key_valid (self st) ->
  getKey cfg st = (Ok k, st') ->
  key (self st') = k /\ nonempty (token (self st')) = true
  /\ k = createKey (token (self st')).
Proof.
  intros Hv H. unfold getKey in H.
  apply bind_ok_inv in H as (key0 & st0 & E0 & H).
  unfold thisKey, gets in E0. simplify_eq.
  apply bind_ok_inv in H as (u & st1 & E1 & H).
  unfold thisKey, gets in H. simplify_eq.
  destruct (nonempty (key (self st0))) eqn:Hk.
  - unfold ret in E1. simplify_eq.
    destruct Hv as [Hv|[Hne Hv]]; [rewrite Hv in Hk; discriminate|done].
  - apply bind_ok_inv in E1 as (t & st2 & E2 & E1).
    unfold setKey, modify in E1. simplify_eq. simpl.
    destruct (nonempty (token (self st0))) eqn:Hne.
    + rewrite getToken_cached in E2 by done. by simplify_eq.
    + apply getToken_computed in E2 as (<- & Ht & _); done.
Qed.

Lemma getKey_valid : steps keeps_key_valid (getKey cfg).
Proof.
  intros st Hv. destruct (getKey cfg st) as [[k|e] st'] eqn:E; simpl.
  - apply getKey_returns in E as (Hk & Hne & ->); [|done]. by right.
  - unfold getKey in E.
    unfold bind at 1 in E. unfold thisKey at 1, gets in E.
    destruct (nonempty (key (self st))) eqn:Hk.
    { unfold bind, ret, thisKey, gets in E. discriminate. }
    assert (Hkey : key (self st) = "") by (by destruct (key (self st))).
    unfold bind in E.
    destruct (getToken cfg st) as [[t|e'] st1] eqn:Et.
    { unfold setKey, modify, thisKey, gets in E. discriminate. }
    simplify_eq. left.
    pose proof (getToken_same_key st) as Hs. rewrite Et in Hs. simpl in Hs.
    unfold same_key in Hs. congruence.
Qed.

Lemma quiet_valid {A} (m : M A) : steps same_token_key m -> steps keeps_key_valid m.
Proof.
  apply steps_weaken. intros st st' H. by apply token_kept_valid, same_token_key_kept.
Qed.

Lemma getToken_valid : steps keeps_key_valid (getToken cfg).
Proof. eapply steps_weaken; [apply token_kept_valid|apply getToken_kept]. Qed.

Ltac valid_go :=
  pose proof getKey_valid; pose proof getToken_valid;
  pose proof (quiet_valid _ getSettings_quiet);
  pose proof (quiet_valid _ verifySettings_quiet);
  pose proof (quiet_valid _ overrideLinkTitle_quiet);
  pose proof (quiet_valid _ resetPlaceholderAttributes_quiet);
  pose proof (fun r => quiet_valid _ (syncAttributesToFields_quiet r));
  pose proof (fun e => quiet_valid _ (outerHTML_quiet e));
  pose proof (fun e s a => quiet_valid _ (readAttribute_quiet e s a));
  steps_go.

Lemma getPlaceholderBase_valid : steps keeps_key_valid (getPlaceholderBase cfg br).
Proof. unfold getPlaceholderBase. valid_go. Qed.

Lemma alignMedia_quiet e value toggle :
  steps same_token_key (Align.alignMedia cfg br linked e value toggle).
Proof.
  unfold Align.alignMedia, Align.setAlignment.
  pose proof getMediaAlignment_quiet. pose proof getSettings_quiet. steps_go.
Qed.

Lemma end_of_sync_valid : steps keeps_key_valid (setToken "" ;; setKey "")%M.
Proof. intros st _. by left. Qed.

Lemma syncSettingsToPlaceholder_valid :
  steps keeps_key_valid (syncSettingsToPlaceholder cfg br).
Proof.
  unfold syncSettingsToPlaceholder, syncFieldsToAttributes. valid_go.
Qed.

Lemma getPlaceholder_valid : steps keeps_key_valid (getPlaceholder cfg br).
Proof.
  unfold getPlaceholder.
  pose proof getPlaceholderBase_valid. pose proof syncSettingsToPlaceholder_valid.
  valid_go.
Qed.

Lemma syncPlaceholderToSettings_valid :
  steps keeps_key_valid (syncPlaceholderToSettings cfg br).
Proof.
  unfold syncPlaceholderToSettings, setPlaceholderBase.
  pose proof getPlaceholder_valid. pose proof end_of_sync_valid. valid_go.
Qed.

(** Every call keeps the key valid. *)
Lemma run_valid c : steps keeps_key_valid (run cfg br linked c).
Proof.
  destruct c; unfold run, ignore, getPlaceholderHtml, setPlaceholder,
    syncFieldsToAttributes, setPlaceholderBase;
    pose proof getPlaceholderBase_valid; pose proof getPlaceholder_valid;
    pose proof syncSettingsToPlaceholder_valid;
    pose proof syncPlaceholderToSettings_valid;
    pose proof (quiet_valid _ prepareSettingsForToken_quiet);
    pose proof (fun e v t => quiet_valid _ (alignMedia_quiet e v t));
    valid_go.
Qed.

(** The constructor leaves a valid key: none. *)
Lemma new_valid instanceInfo placeholderBase st :
  key_valid (self (snd (new cfg instanceInfo placeholderBase st))).
Proof.
  left. unfold new. unfold bind at 1. unfold modify at 1.
  set (st0 := with_self _ st).
  match goal with
  | |- context [?m st0] =>
      assert (Hs : steps same_key m);
      [|specialize (Hs st0); unfold same_key in Hs;
        destruct (m st0) as [[u|e] st1]; simpl in *; exact Hs]
  end.
  unfold setToken.
  pose proof (steps_weaken _ _ _ same_token_key_same_key verifySettings_quiet).
  steps_go.
Qed.

(** *** After [setPlaceholder] *)

Lemma getPlaceholder_set st e :
  placeholder (self st) = Some e -> getPlaceholder cfg br st = (Ok e, st).
Proof.
  intros He. unfold getPlaceholder, bind, thisPlaceholder, gets, ret. by rewrite He.
Qed.

Lemma getPlaceholder_placeholder_kept : steps placeholder_kept (getPlaceholder cfg br).
Proof.
  intros st Hp. destruct (placeholder (self st)) as [e|] eqn:He; [|done].
  rewrite (getPlaceholder_set _ _ He). simpl. by rewrite He.
Qed.

Lemma getPlaceholder_awaiting : steps keeps_awaiting (getPlaceholder cfg br).
Proof.
  intros st Hp. destruct (placeholder (self st)) as [e|] eqn:He.
  - by rewrite (getPlaceholder_set _ _ He).
  - by destruct Hp as (_ & _ & Hp).
Qed.

Lemma quiet_awaiting {A} (m : M A) : steps same_token_key m -> steps keeps_awaiting m.
Proof.
  apply steps_weaken. intros st st' (Ht & Hk & Hp) (H1 & H2 & H3).
  repeat split; [congruence|congruence|auto].
Qed.

Lemma quiet_placeholder_kept {A} (m : M A) :
  steps same_token_key m -> steps placeholder_kept m.
Proof. apply steps_weaken. by intros st st' (_ & _ & Hp). Qed.

Lemma syncPlaceholderToSettings_awaiting :
  steps keeps_awaiting (syncPlaceholderToSettings cfg br).
Proof.
  unfold syncPlaceholderToSettings, setPlaceholderBase, setToken, setKey.
  pose proof getPlaceholder_awaiting.
  pose proof (quiet_awaiting _ getSettings_quiet).
  pose proof (fun r => quiet_awaiting _ (syncAttributesToFields_quiet r)).
  pose proof (fun e => quiet_awaiting _ (outerHTML_quiet e)).
  pose proof (fun e s a => quiet_awaiting _ (readAttribute_quiet e s a)).
  steps_go.
Qed.

Lemma syncPlaceholderToSettings_placeholder_kept :
  steps placeholder_kept (syncPlaceholderToSettings cfg br).
Proof.
  unfold syncPlaceholderToSettings, setPlaceholderBase, setToken, setKey.
  pose proof getPlaceholder_placeholder_kept.
  pose proof (quiet_placeholder_kept _ getSettings_quiet).
  pose proof (fun r => quiet_placeholder_kept _ (syncAttributesToFields_quiet r)).
  pose proof (fun e => quiet_placeholder_kept _ (outerHTML_quiet e)).
  pose proof (fun e s a => quiet_placeholder_kept _ (readAttribute_quiet e s a)).
  steps_go.
Qed.

(** Every call that does not compute token or key keeps both empty. *)
Lemma run_awaiting c : recomputes c = false -> steps keeps_awaiting (run cfg br linked c).
Proof.
  intros Hc.
  destruct c; try discriminate Hc; unfold run, ignore, getPlaceholderHtml,
    setPlaceholder, syncFieldsToAttributes, setPlaceholderBase;
    pose proof getPlaceholder_awaiting;
    pose proof syncPlaceholderToSettings_awaiting;
    pose proof (quiet_awaiting _ getSettings_quiet);
    pose proof (quiet_awaiting _ verifySettings_quiet);
    pose proof (quiet_awaiting _ overrideLinkTitle_quiet);
    pose proof (quiet_awaiting _ resetPlaceholderAttributes_quiet);
    pose proof (quiet_awaiting _ prepareSettingsForToken_quiet);
    pose proof (fun r => quiet_awaiting _ (syncAttributesToFields_quiet r));
    pose proof (fun e => quiet_awaiting _ (outerHTML_quiet e));
    pose proof (fun e v t => quiet_awaiting _ (alignMedia_quiet e v t));
    steps_go.
Qed.

Lemma after_calls_awaiting cs st :
  Forall (fun c => recomputes c = false) cs ->
  awaiting_recompute (self st) ->
  awaiting_recompute (self (after_calls cfg br linked cs st)).
Proof.
  intros Hcs. revert st. induction Hcs as [|c cs Hc _ IH]; intros st Hst; simpl.
  - exact Hst.
  - apply IH. by apply (run_awaiting c Hc st).
Qed.

Lemma syncPlaceholderToSettings_returns st st' :
  syncPlaceholderToSettings cfg br st = (Ok tt, st') ->
  token (self st') = "" /\ key (self st') = "".
Proof.
  intros H. unfold syncPlaceholderToSettings in H.
  apply bind_ok_inv in H as (e & st1 & _ & H).
  apply bind_ok_inv in H as (settings & st2 & _ & H).
  apply bind_ok_inv in H as (u3 & st3 & _ & H).
  apply bind_ok_inv in H as (u4 & st4 & _ & H).
  apply bind_ok_inv in H as (u5 & st5 & _ & H).
  apply bind_ok_inv in H as (u6 & st6 & _ & H).
  apply bind_ok_inv in H as (u7 & st7 & _ & H).
  apply bind_ok_inv in H as (u8 & st8 & E8 & H).
  unfold setToken, setKey, modify in *. by simplify_eq.
Qed.

Lemma setPlaceholder_returns e st st' :
  setPlaceholder cfg br e st = (Ok tt, st') -> awaiting_recompute (self st').
Proof.
  intros H. unfold setPlaceholder in H.
  apply bind_ok_inv in H as (u1 & st1 & E1 & H).
  apply bind_ok_inv in H as (u2 & st2 & E2 & H).
  assert (Hp1 : placeholder (self st1) <> None).
  { unfold assignPlaceholder, modify in E1. by simplify_eq. }
  assert (Hp2 : placeholder (self st2) <> None).
  { eapply (steps_run placeholder_kept) in E2; [by apply E2|].
    pose proof (fun e => quiet_placeholder_kept _ (outerHTML_quiet e)). steps_go. }
  pose proof (steps_run _ _ _ _ _ syncPlaceholderToSettings_placeholder_kept H) as Hp3.
  apply syncPlaceholderToSettings_returns in H as [Ht Hk].
  split; [done|]. split; [done|]. by apply Hp3.
Qed.

Lemma getKey_cached st :
  nonempty (key (self st)) = true -> getKey cfg st = (Ok (key (self st)), st).
Proof.
  intros Hne. unfold getKey, bind, thisKey, gets, ret. by rewrite Hne.
Qed.

Lemma getKey_of_token st t st1 :
  key_valid (self st) ->
  getToken cfg st = (Ok t, st1) ->
  exists st', getKey cfg st = (Ok (createKey t), st').
Proof.
  intros Hv Ht. destruct (nonempty (key (self st))) eqn:Hk.
  - exists st. rewrite getKey_cached by done.
    destruct Hv as [Hv|[Hne Hv]]; [rewrite Hv in Hk; discriminate|].
    rewrite getToken_cached in Ht by done. simplify_eq. by rewrite Hv.
  - eexists. unfold getKey, bind, thisKey, gets. rewrite Hk, Ht.
    unfold setKey, modify. reflexivity.
Qed.

(** C2: [getKey()] returns ["token-" + hashCode(getToken())]: whenever
    [getToken()] gives a token, [getKey()] gives the key of that token; the
    key it returns is the key of the token the instance holds afterwards,
    and a second call returns the same key without changing the state; two
    instances whose tokens are equal as strings get equal keys.  The
    statements hold for every instance whose key is valid, which is what the
    constructor sets up and every call keeps. *)
Theorem getKey_is_key_of_token :
  (forall st t st1,
      key_valid (self st) -> getToken cfg st = (Ok t, st1) ->
      exists st',
        getKey cfg st = (Ok ("token-" +:+ string_of_Z (Utils.hashCode t)), st'))
  /\ (forall st k st',
        key_valid (self st) -> getKey cfg st = (Ok k, st') ->
        getToken cfg st' = (Ok (token (self st')), st')
        /\ k = "token-" +:+ string_of_Z (Utils.hashCode (token (self st')))
        /\ getKey cfg st' = (Ok k, st'))
  /\ (forall st1 st2 t s1 s2,
        key_valid (self st1) -> key_valid (self st2) ->
        getToken cfg st1 = (Ok t, s1) -> getToken cfg st2 = (Ok t, s2) ->
        exists k s1' s2',
          getKey cfg st1 = (Ok k, s1') /\ getKey cfg st2 = (Ok k, s2'))
  /\ (forall instanceInfo placeholderBase st,
        key_valid (self (snd (new cfg instanceInfo placeholderBase st))))
  /\ (forall c st,
        key_valid (self st) -> key_valid (self (snd (run cfg br linked c st)))).
Proof.
  split; [exact getKey_of_token|].
  split.
  { intros st k st' Hv Hk.
    destruct (getKey_returns _ _ _ Hv Hk) as (Hkey & Hne & ->).
    split; [by apply getToken_cached|]. split; [reflexivity|].
    rewrite <- Hkey. apply getKey_cached. rewrite Hkey. reflexivity. }
  split.
  { intros st1 st2 t s1 s2 Hv1 Hv2 Ht1 Ht2.
    destruct (getKey_of_token _ _ _ Hv1 Ht1) as [s1' H1].
    destruct (getKey_of_token _ _ _ Hv2 Ht2) as [s2' H2].
    by exists (createKey t), s1', s2'. }
  split; [exact new_valid|].
  intros c st. apply run_valid.
Qed.

(** A token that is computed is the text of the settings as
    [prepareSettingsForToken] leaves them, between the brackets: the run of
    [getToken], step by step. *)
Lemma getToken_recomputes st t st' :
  nonempty (token (self st)) = false ->
  getToken cfg st = (Ok t, st') ->
  exists settings st1 link_text st3 pristine st4 text,
    getSettings cfg st = (Ok settings, st1)
    /\ JS.get (store st1) settings "link_text" = Ok link_text
    /\ rewriteLinkText cfg settings link_text st1 = (Ok tt, st3)
    /\ prepareSettingsForToken cfg st3 = (Ok pristine, st4)
    /\ JSON.stringify (store st4) pristine = Ok text
    /\ t = "[[" +:+ from_option id "undefined" text +:+ "]]"
    /\ st' = with_self (with_token t (self st4)) st4.
Proof.
  intros Hempty H. unfold getToken in H.
  apply bind_ok_inv in H as (tok & st0 & E0 & H).
  unfold thisToken, gets in E0. simplify_eq. rewrite Hempty in H.
  apply bind_ok_inv in H as (settings & st1 & E1 & H).
  apply bind_ok_inv in H as (link_text & st2 & E2 & H).
  apply bind_ok_inv in H as ([] & st3 & E3 & H).
  apply bind_ok_inv in H as (pristine & st4 & E4 & H).
  apply bind_ok_inv in H as (text & st5 & E5 & H).
  apply bind_ok_inv in H as (u' & st6 & E6 & H).
  exists settings, st1, link_text, st3, pristine, st4, text.
  unfold getProp in E2. injection E2 as E2 <-.
  unfold setToken, modify in E6. unfold thisToken, gets in H.
  simplify_eq. done.
Qed.

(** C6: when [setPlaceholder(element)] returns, [token] and [key] are both
    the empty string; they stay empty through every sequence of calls that
    compute neither; and the next [getToken()] or [getKey()] does not return
    a stale value: the token is built from the settings as they are then
    ([getSettings], the rewriting of a string [link_text],
    [prepareSettingsForToken] and [JSON.stringify], run from the state that
    [setPlaceholder] left), and the key is the key of that token. *)
Theorem setPlaceholder_resets_token_and_key :
  forall e st st',
    setPlaceholder cfg br e st = (Ok tt, st') ->
    token (self st') = "" /\ key (self st') = ""
    /\ (forall cs,
          Forall (fun c => recomputes c = false) cs ->
          token (self (after_calls cfg br linked cs st')) = ""
          /\ key (self (after_calls cfg br linked cs st')) = "")
    /\ (forall t st'',
          getToken cfg st' = (Ok t, st'') ->
          token (self st'') = t
          /\ exists settings st1 link_text st3 pristine st4 text,
               getSettings cfg st' = (Ok settings, st1)
               /\ JS.get (store st1) settings "link_text" = Ok link_text
               /\ rewriteLinkText cfg settings link_text st1 = (Ok tt, st3)
               /\ prepareSettingsForToken cfg st3 = (Ok pristine, st4)
               /\ JSON.stringify (store st4) pristine = Ok text
               /\ t = "[[" +:+ from_option id "undefined" text +:+ "]]"
               /\ st'' = with_self (with_token t (self st4)) st4)
    /\ (forall k st'',
          getKey cfg st' = (Ok k, st'') ->
          key (self st'') = k /\ nonempty (token (self st'')) = true
          /\ k = createKey (token (self st''))).
Proof.
  intros e st st' H.
  pose proof (setPlaceholder_returns _ _ _ H) as Haw.
  destruct Haw as (Ht & Hk & Hp).
  split; [exact Ht|]. split; [exact Hk|].
  split.
  { intros cs Hcs.
    destruct (after_calls_awaiting cs st' Hcs) as (Ht' & Hk' & _); [by repeat split|].
    by split. }
  assert (Hempty : nonempty (token (self st')) = false) by (by rewrite Ht).
  split.
  { intros t st'' Hg. split.
    - by destruct (getToken_computed _ _ _ Hempty Hg) as (Htok & _).
    - by apply (getToken_recomputes st' t st''). }
  intros k st'' Hg. apply (getKey_returns st'); [|exact Hg].
  left. exact Hk.
Qed.

End TokenAndKey.

Lemma getKey_is_key_of_token_witness :
  exists st',
    WysiwygInstance.getKey Samples.cfg Samples.built
    = (JS.Ok ("token-" +:+ JS.string_of_Z
                (Utils.hashCode (fst (Samples.built_token)))), st').
Proof.
  destruct (getKey_is_key_of_token Samples.cfg Samples.browser (fun _ => false))
    as [H _].
  apply (H Samples.built (fst Samples.built_token) (snd Samples.built_token)).
  - left. reflexivity.
  - vm_compute. reflexivity.
Defined.

Lemma setPlaceholder_resets_token_and_key_witness :
  Page.token (Page.self Samples.attached) = ""
  /\ Page.key (Page.self Samples.attached) = "".
Proof.
  destruct (setPlaceholder_resets_token_and_key Samples.cfg Samples.browser
              (fun _ => false) Samples.image Samples.with_key Samples.attached)
    as (Ht & Hk & _).
  - vm_compute. reflexivity.
  - split; [exact Ht|exact Hk].
Defined.

(** ** Strings *)

Section StringFacts.
Import JS Vocabulary.

Lemma prefix_app (s1 s2 : string) :
  String.prefix s1 s2 = true <-> exists r, s2 = s1 +:+ r.
Proof.
  revert s2. induction s1 as [|a s1 IH]; intros s2.
  - split; [intros _; by exists s2|by destruct s2].
  - destruct s2 as [|b s2]; simpl.
    + split; [done|]. intros [r Hr]. discriminate.
    + destruct (ascii_dec a b) as [->|Hne].
      * rewrite IH. split; intros [r Hr]; exists r.
        -- by rewrite Hr.
        -- by injection Hr.
      * split; [done|]. intros [r Hr]. injection Hr as -> _. done.
Qed.

Lemma occurs_app c s1 s2 : occurs c (s1 +:+ s2) = occurs c s1 || occurs c s2.
Proof.
  induction s1 as [|a s1 IH]; simpl; [done|].
  rewrite IH. by rewrite orb_assoc.
Qed.

(** A name without an opening bracket starts with no field prefix. *)
Lemma startsWith_field_prefix (name fieldName : string) :
  occurs "[" name = false -> startsWith name (fieldName +:+ "[") = false.
Proof.
  intros Hno. unfold startsWith.
  destruct (String.prefix (fieldName +:+ "[") name) eqn:E; [|done].
  apply prefix_app in E as [r ->].
  rewrite !occurs_app in Hno. simpl in Hno.
  by rewrite orb_true_r in Hno.
Qed.

End StringFacts.

(** ** Field and attribute reconciliation: the property named ["null"] *)

Section NullProperty.
Import JS Page Vocabulary WysiwygInstance.
Local Open Scope m_scope.

(** Settings that are materialized are returned as they are. *)
Lemma getSettings_materialized cfg st l :
  settings (self st) = VRef l -> getSettings cfg st = (Ok (VRef l), st).
Proof.
  intros Hs. unfold getSettings, bind, thisSettings, gets, ret.
  rewrite Hs. simpl. rewrite Hs. reflexivity.
Qed.

Lemma first_starting_with_none needle (properties : list string) :
  (forall k, In k properties -> startsWith k needle = false) ->
  Utils.first_starting_with needle properties = VNull.
Proof.
  induction properties as [|p ps IH]; intros H; simpl; [done|].
  rewrite (H p) by (by left). apply IH. intros k Hk. apply H. by right.
Qed.

Lemma propertyStartsWith_none needle l st :
  (forall k, In k (keys (heap_get (store st) l)) -> startsWith k needle = false) ->
  Utils.propertyStartsWith needle (VRef l) st = (Ok VNull, st).
Proof.
  intros H. unfold Utils.propertyStartsWith, bind, ownKeys, gets, ret.
  by rewrite first_starting_with_none.
Qed.

Lemma keys_prop_set (o : object) k v :
  forall k', In k' (keys (prop_set o k v)) -> In k' (keys o) \/ k' = k.
Proof.
  induction o as [|[k0 v0] o IH]; intros k'; simpl.
  - intros [<-|[]]. by right.
  - destruct (String.eqb k0 k); simpl.
    + intros [<-|H]; [left; by left|left; by right].
    + intros [<-|H]; [left; by left|].
      destruct (IH _ H) as [H'|H']; [left; by right|by right].
Qed.

Lemma syncAttributeField_null st l la attribute fieldName :
  prop_get (heap_get (store st) l) "attributes" = VRef la ->
  (forall k, In k (keys (heap_get (store st) l)) ->
             startsWith k (fieldName +:+ "[") = false) ->
  syncAttributeField false (VRef l) (attribute, fieldName) st
  = (Ok tt, null_assigned st l la attribute).
Proof.
  intros Ha Hnone. unfold syncAttributeField.
  rewrite (bind_ok _ _ _ _ _ (propertyStartsWith_none _ _ _ Hnone)).
  simpl. unfold bind, getProp, setProp, on_heap. simpl. rewrite Ha. simpl.
  reflexivity.
Qed.

Lemma syncAttributeField_null_loop (table : list (string * string)) :
  forall st l la attribute fieldName,
    (l < length (store st))%nat -> la <> l ->
    prop_get (heap_get (store st) l) "attributes" = VRef la ->
    (forall entry k, In entry (table ++ [(attribute, fieldName)]) ->
                     In k (keys (heap_get (store st) l)) ->
                     startsWith k (snd entry +:+ "[") = false) ->
    exists st',
      each (table ++ [(attribute, fieldName)]) (syncAttributeField false (VRef l)) st
      = (Ok tt, st')
      /\ self st' = self st
      /\ heap_get (store st') la = heap_get (store st) la
      /\ prop_get (heap_get (store st') l) "null"
         = (if truthy (prop_get (heap_get (store st) la) attribute)
            then prop_get (heap_get (store st) la) attribute
            else VStr "").
Proof.
  induction table as [|[a f] table IH]; intros st l la attribute fieldName Hl Hla Ha Hnone.
  - simpl. rewrite (bind_ok _ _ _ _ _ (syncAttributeField_null st l la attribute fieldName Ha
      (fun k Hk => Hnone (attribute, fieldName) k (or_introl eq_refl) Hk))).
    exists (null_assigned st l la attribute). split; [reflexivity|].
    unfold null_assigned; simpl.
    rewrite heap_get_put_eq, heap_get_put_ne by done.
    split; [reflexivity|]. split; [reflexivity|apply prop_get_set_eq].
  - simpl. rewrite (bind_ok _ _ _ _ _ (syncAttributeField_null st l la a f Ha
      (fun k Hk => Hnone (a, f) k (or_introl eq_refl) Hk))).
    set (st1 := null_assigned st l la a).
    assert (Hget1 : heap_get (store st1) l
                    = prop_set (heap_get (store st) l) "null"
                        (if truthy (prop_get (heap_get (store st) la) a)
                         then prop_get (heap_get (store st) la) a else VStr "")).
    { unfold st1, null_assigned; simpl. by rewrite heap_get_put_eq. }
    assert (Hla1 : heap_get (store st1) la = heap_get (store st) la).
    { unfold st1, null_assigned; simpl. by rewrite heap_get_put_ne. }
    destruct (IH st1 l la attribute fieldName) as (st' & Hrun & Hself & Hsame & Hnull).
    + unfold st1, null_assigned; simpl. by rewrite heap_put_length.
    + done.
    + rewrite Hget1. by rewrite prop_get_set_ne.
    + intros entry k Hentry Hk. rewrite Hget1 in Hk.
      apply keys_prop_set in Hk as [Hk| ->].
      * apply Hnone; [by right|done].
      * by apply startsWith_field_prefix.
    + exists st'. split; [exact Hrun|]. split; [by rewrite Hself|].
      split; [congruence|]. by rewrite Hnull, Hla1.
Qed.

(** C10: if no settings property starts with the mapped field-name prefix,
    [propertyStartsWith] returns [null], and the forward direction of the
    reconciliation does not skip the attribute: one round assigns the
    attribute's value, or the empty string when that value is falsy or
    absent, to the settings property named ["null"]; after the whole
    direction, with no mapped prefix found at all, that property holds the
    value for the last attribute of the table. *)
Theorem syncAttributesToFields_assigns_null_property :
  forall cfg st l la attribute fieldName,
    (l < length (store st))%nat -> la <> l ->
    prop_get (heap_get (store st) l) "attributes" = VRef la ->
    (forall k, In k (keys (heap_get (store st) l)) ->
               startsWith k (fieldName +:+ "[") = false) ->
    Utils.propertyStartsWith (fieldName +:+ "[") (VRef l) st = (Ok VNull, st)
    /\ (exists st',
          syncAttributeField false (VRef l) (attribute, fieldName) st = (Ok tt, st')
          /\ prop_has (heap_get (store st') l) "null" = true
          /\ prop_get (heap_get (store st') l) "null"
             = (if truthy (prop_get (heap_get (store st) la) attribute)
                then prop_get (heap_get (store st) la) attribute
                else VStr ""))
    /\ (forall table,
          settings (self st) = VRef l ->
          attributeFields cfg = table ++ [(attribute, fieldName)] ->
          (forall entry k, In entry table ->
                           In k (keys (heap_get (store st) l)) ->
                           startsWith k (snd entry +:+ "[") = false) ->
          exists st',
            syncAttributesToFields cfg false st = (Ok tt, st')
            /\ prop_get (heap_get (store st') l) "null"
               = (if truthy (prop_get (heap_get (store st) la) attribute)
                  then prop_get (heap_get (store st) la) attribute
                  else VStr "")).
Proof.
  intros cfg st l la attribute fieldName Hl Hla Ha Hnone.
  split; [by apply propertyStartsWith_none|].
  split.
  { exists (null_assigned st l la attribute).
    split; [by apply syncAttributeField_null|].
    unfold null_assigned; simpl.
    rewrite heap_get_put_eq by done.
    split; [apply prop_has_set_eq|apply prop_get_set_eq]. }
  intros table Hs Htable Hnone'.
  destruct (syncAttributeField_null_loop table st l la attribute fieldName Hl Hla Ha)
    as (st' & Hrun & _ & _ & Hnull).
  { intros entry k [Hentry|[<-|[]]]%in_app_or Hk; [by apply Hnone'|by apply Hnone]. }
  exists st'. split; [|exact Hnull].
  unfold syncAttributesToFields.
  rewrite (bind_ok _ _ _ _ _ (getSettings_materialized cfg st l Hs)).
  unfold bind at 1. unfold getProp at 1. simpl.
  rewrite Ha. simpl. rewrite Htable. exact Hrun.
Qed.

End NullProperty.

Lemma syncAttributesToFields_assigns_null_property_witness :
  Utils.propertyStartsWith "field_file_image_alt_text[" (JS.VRef 1%nat) Samples.built
  = (JS.Ok JS.VNull, Samples.built)
  /\ exists st',
       WysiwygInstance.syncAttributesToFields Samples.cfg false Samples.built
       = (JS.Ok tt, st')
       /\ JS.prop_get (JS.heap_get (Page.store st') 1%nat) "null" = JS.VStr "".
Proof.
  destruct (syncAttributesToFields_assigns_null_property Samples.cfg Samples.built
              1%nat 2%nat "title" "field_file_image_title_text")
    as (Hnull & _ & Hall).
  - vm_compute. lia.
  - discriminate.
  - reflexivity.
  - intros k Hk. vm_compute in Hk.
    repeat (destruct Hk as [<-|Hk]; [reflexivity|]). destruct Hk.
  - split.
    + reflexivity.
    + apply (Hall [("alt", "field_file_image_alt_text")]).
      * reflexivity.
      * reflexivity.
      * intros entry k [<-|[]] Hk. vm_compute in Hk.
        repeat (destruct Hk as [<-|Hk]; [reflexivity|]). destruct Hk.
Defined.

(** ** The placeholder template *)

Section PlaceholderBase.
Import JS Page Vocabulary WysiwygInstance.
Local Open Scope m_scope.

Variable cfg : mediaSettings.
Variable br : DOM.browser.


End PlaceholderBase.



(** ** The store: regions, serialization and deep copies *)

Section Regions.
Import JS JSON Page Vocabulary.

Lemma distinct_NoDup (names : list string) : distinct names = true -> NoDup names.
Proof.
  induction names as [|n names IH]; simpl; intros H; [constructor|].
  apply andb_true_iff in H as [Hn Hd]. constructor; [|by apply IH].
  intros Hin. apply negb_true_iff in Hn.
  assert (existsb (String.eqb n) names = true); [|congruence].
  apply existsb_exists. exists n. split; [by apply list_elem_of_In|apply String.eqb_refl].
Qed.

Lemma heap_get_firstn (h : heap) m a :
  (a < m)%nat -> (m <= length h)%nat -> In (heap_get h a) (firstn m h).
Proof.
  intros Ha Hm. unfold heap_get.
  destruct (h !! a) as [o|] eqn:E.
  - simpl. apply list_elem_of_In, list_elem_of_lookup. exists a.
    change (firstn m h) with (take m h). by rewrite lookup_take_lt.
  - apply lookup_ge_None in E. lia.
Qed.

Lemma region_ok_region m h : region_ok m h = true -> region m h.
Proof.
  unfold region_ok. intros [Hm Hall]%andb_true_iff.
  apply Nat.leb_le in Hm. rewrite forallb_forall in Hall.
  split; [done|]. split.
  - intros a Ha k r Hin.
    specialize (Hall _ (heap_get_firstn h m a Ha Hm)).
    apply andb_true_iff in Hall as [Hrefs _].
    rewrite forallb_forall in Hrefs. specialize (Hrefs _ Hin). simpl in Hrefs.
    by apply Nat.ltb_lt.
  - intros a Ha.
    specialize (Hall _ (heap_get_firstn h m a Ha Hm)).
    apply andb_true_iff in Hall as [_ Hd]. by apply distinct_NoDup.
Qed.

Lemma serialize_members_ext (rec1 rec2 : value -> option (option json)) (o : object) :
  (forall k x, In (k, x) o -> rec1 x = rec2 x) ->
  serialize_members rec1 o = serialize_members rec2 o.
Proof.
  induction o as [|[k x] o IH]; intros H; simpl; [done|].
  rewrite (H k x) by (by left).
  rewrite IH; [done|]. intros k' x' Hin. apply (H k'). by right.
Qed.

(** What [JSON.stringify] reads of a value depends only on a region that
    holds the value and is closed. *)
Lemma serialize_frame (P : loc -> Prop) (h h' : heap) :
  closed_in P h -> agree_on P h h' ->
  forall n v, (forall a, v = VRef a -> P a) -> serialize n h' v = serialize n h v.
Proof.
  intros Hclosed Hagree. induction n as [|n IH]; intros v Hv.
  - by destruct v.
  - destruct v as [| | | | |a]; try reflexivity. simpl.
    rewrite (Hagree a) by (by apply Hv).
    rewrite (serialize_members_ext (serialize n h') (serialize n h)); [done|].
    intros k x Hin. apply IH. intros r ->.
    apply (Hclosed a (Hv a eq_refl) k r Hin).
Qed.

Lemma serialize_members_app rec (o1 o2 : object) :
  serialize_members rec (o1 ++ o2)
  = app_members (serialize_members rec o1) (serialize_members rec o2).
Proof.
  induction o1 as [|[k x] o1 IH]; simpl.
  - by destruct (serialize_members rec o2).
  - destruct (rec x) as [[j|]|]; [|exact IH|done].
    rewrite IH.
    destruct (serialize_members rec o1), (serialize_members rec o2); done.
Qed.

Lemma app_members_assoc a b c :
  app_members (app_members a b) c = app_members a (app_members b c).
Proof. destruct a, b, c; simpl; by rewrite <- ?app_assoc. Qed.

Lemma prop_set_fresh (o : object) k v :
  ~ In k (keys o) -> prop_set o k v = o ++ [(k, v)].
Proof.
  induction o as [|[k' v'] o IH]; simpl; intros Hk; [done|].
  destruct (String.eqb k' k) eqn:E.
  - apply String.eqb_eq in E. subst. tauto.
  - rewrite IH; [done|tauto].
Qed.

Lemma refs_in_prop_set (P : loc -> Prop) (o : object) k v :
  refs_in P o -> (forall r, v = VRef r -> P r) -> refs_in P (prop_set o k v).
Proof.
  intros Ho Hv. induction o as [|[k' v'] o IH]; simpl.
  - intros k0 r [H|[]]. apply Hv. congruence.
  - destruct (String.eqb k' k); intros k0 r [H|Hin].
    + apply Hv. congruence.
    + apply (Ho k0). by right.
    + apply (Ho k0). left. exact H.
    + apply (IH (fun k1 r1 H1 => Ho k1 r1 (or_intror H1)) k0 r Hin).
Qed.

Lemma refs_in_weaken (P Q : loc -> Prop) (o : object) :
  (forall a, P a -> Q a) -> refs_in P o -> refs_in Q o.
Proof. intros HPQ Ho k r Hin. apply HPQ, (Ho k r Hin). Qed.

Lemma app_members_nil_r a : app_members a (Some []) = a.
Proof. destruct a; simpl; by rewrite ?app_nil_r. Qed.

Lemma serialize_primitive n h h' v :
  (forall a, v <> VRef a) -> serialize n h' v = serialize n h v.
Proof. intros Hv. destruct n, v; try reflexivity; by destruct (Hv l). Qed.

Lemma region_agree m h h' :
  region m h -> agree_on (fun a => (a < m)%nat) h h' -> (m <= length h')%nat ->
  region m h'.
Proof.
  intros (Hm & Hc & Hd) Hagree Hm'. split; [done|]. split.
  - intros a Ha. rewrite (Hagree a Ha). by apply Hc.
  - intros a Ha. rewrite (Hagree a Ha). by apply Hd.
Qed.

Lemma keys_app (o1 o2 : object) : keys (o1 ++ o2) = keys o1 ++ keys o2.
Proof. unfold keys. apply map_app. Qed.

(** One property copied into the target. *)
Lemma extend_step (h h1 : heap) (t : loc) name (v' : value) :
  (t < length h)%nat -> (length h <= length h1)%nat ->
  agree_on (fun a => (a < length h)%nat) h h1 ->
  closed_in (fun a => (length h <= a < length h1)%nat) h1 ->
  (forall r, v' = VRef r -> (length h <= r < length h1)%nat) ->
  closed_in (fun a => (t < a < length h)%nat) h ->
  refs_in (fun a => (t < a < length h)%nat) (heap_get h t) ->
  let h2 := heap_put h1 t (prop_set (heap_get h1 t) name v') in
  length h2 = length h1
  /\ heap_get h2 t = prop_set (heap_get h t) name v'
  /\ agree_on (fun a => a <> t) h1 h2
  /\ agree_on (fun a => (a < length h)%nat /\ a <> t) h h2
  /\ closed_in (fun a => (t < a < length h2)%nat) h2
  /\ refs_in (fun a => (t < a < length h2)%nat) (heap_get h2 t).
Proof.
  intros Ht Hlen Hagree Hnew Hv Hclosed Hrefs h2.
  assert (Hlen2 : length h2 = length h1) by apply heap_put_length.
  assert (Hget : heap_get h2 t = prop_set (heap_get h t) name v').
  { unfold h2. rewrite heap_get_put_eq by lia. by rewrite (Hagree t Ht). }
  assert (Hne : agree_on (fun a => a <> t) h1 h2).
  { intros a Ha. unfold h2. by rewrite heap_get_put_ne. }
  split; [done|]. split; [done|]. split; [done|]. split.
  { intros a [Ha Hat]. rewrite (Hne a Hat). by apply Hagree. }
  split.
  - intros a [Ha1 Ha2]. rewrite (Hne a) by lia. rewrite Hlen2.
    destruct (Nat.lt_ge_cases a (length h)) as [Hlt|Hge].
    + rewrite (Hagree a Hlt).
      eapply refs_in_weaken; [|apply (Hclosed a); lia]. simpl. lia.
    + eapply refs_in_weaken; [|apply (Hnew a); lia]. simpl. lia.
  - rewrite Hget, Hlen2. apply refs_in_prop_set.
    + eapply refs_in_weaken; [|exact Hrefs]. simpl. lia.
    + intros r Hr. specialize (Hv r Hr). lia.
Qed.

Section ExtendProps.
Variable m : nat.
Variable rec : heap -> loc -> option (heap * loc).
Hypothesis Hrec : copier_ok m rec.

Lemma extend_props_spec (o : object) :
  forall (h h' : heap) (t : loc),
    Utils.extend_props rec t o h = Some h' ->
    (t < length h)%nat ->
    closed_in (fun a => (t < a < length h)%nat) h ->
    refs_in (fun a => (t < a < length h)%nat) (heap_get h t) ->
    (length h <= length h')%nat
    /\ agree_on (fun a => (a < length h)%nat /\ a <> t) h h'
    /\ closed_in (fun a => (t < a < length h')%nat) h'
    /\ refs_in (fun a => (t < a < length h')%nat) (heap_get h' t)
    /\ (region m h -> (m <= t)%nat ->
        (forall k r, In (k, VRef r) o -> (r < m)%nat) ->
        NoDup (keys o) ->
        (forall k, In k (keys o) -> ~ In k (keys (heap_get h t))) ->
        forall n,
          serialize_members (serialize n h') (heap_get h' t)
          = app_members (serialize_members (serialize n h) (heap_get h t))
              (serialize_members (serialize n h) o)).
Proof.
  induction o as [|[name copy] o IH]; intros h h' t Hrun Ht Hclosed Hrefs.
  { simpl in Hrun. simplify_eq. split; [done|]. split; [by intros a _|].
    split; [done|]. split; [done|].
    intros _ _ _ _ _ n. simpl. by rewrite app_members_nil_r. }
  (* what one step gives, whatever the kind of value copied *)
  assert (Hstep : forall h1 v',
    (length h <= length h1)%nat ->
    agree_on (fun a => (a < length h)%nat) h h1 ->
    closed_in (fun a => (length h <= a < length h1)%nat) h1 ->
    (forall r, v' = VRef r -> (length h <= r < length h1)%nat) ->
    (region m h -> (m <= t)%nat -> (forall r, copy = VRef r -> (r < m)%nat) ->
     forall n, serialize n h1 v' = serialize n h copy) ->
    (forall n, serialize n h copy <> Some None) ->
    Utils.extend_props rec t o
      (heap_put h1 t (prop_set (heap_get h1 t) name v')) = Some h' ->
    (length h <= length h')%nat
    /\ agree_on (fun a => (a < length h)%nat /\ a <> t) h h'
    /\ closed_in (fun a => (t < a < length h')%nat) h'
    /\ refs_in (fun a => (t < a < length h')%nat) (heap_get h' t)
    /\ (region m h -> (m <= t)%nat ->
        (forall k r, In (k, VRef r) ((name, copy) :: o) -> (r < m)%nat) ->
        NoDup (keys ((name, copy) :: o)) ->
        (forall k, In k (keys ((name, copy) :: o)) -> ~ In k (keys (heap_get h t))) ->
        forall n,
          serialize_members (serialize n h') (heap_get h' t)
          = app_members (serialize_members (serialize n h) (heap_get h t))
              (serialize_members (serialize n h) ((name, copy) :: o)))).
  { intros h1 v' Hlen Hagree Hnew Hv Hser Hdef Hrun'.
    destruct (extend_step h h1 t name v' Ht Hlen Hagree Hnew Hv Hclosed Hrefs)
      as (Hlen2 & Hget & Hne & Hagree2 & Hclosed2 & Hrefs2).
    set (h2 := heap_put h1 t (prop_set (heap_get h1 t) name v')) in *.
    destruct (IH h2 h' t Hrun') as (Hlen' & Hagree' & Hclosed' & Hrefs' & Hser');
      [lia|done|done|].
    split; [lia|]. split.
    { intros a [Ha Hat]. rewrite (Hagree' a) by (split; [lia|done]).
      by apply Hagree2. }
    split; [done|]. split; [done|].
    intros Hreg Hmt Hbelow Hnodup Hdisj n.
    assert (Hreg2 : region m h2).
    { eapply region_agree; [exact Hreg| |destruct Hreg; lia].
      intros a Ha. apply Hagree2. destruct Hreg. lia. }
    simpl in Hnodup. apply NoDup_cons in Hnodup as [Hname Hnodup'].
    rewrite Hser'; [|done|done|..]; cycle 1.
    { intros k r Hin. apply (Hbelow k). by right. }
    { done. }
    { intros k Hk. rewrite Hget. intros Hin.
      apply (keys_prop_set (heap_get h t) name v') in Hin as [Hin| ->].
      - apply (Hdisj k); [by right|done].
      - apply Hname, list_elem_of_In, Hk. }
    rewrite Hget, prop_set_fresh by (apply Hdisj; by left).
    rewrite serialize_members_app, app_members_assoc. f_equal.
    { apply serialize_members_ext. intros k x Hin.
      apply (serialize_frame (fun a => (t < a < length h)%nat)); [done| |].
      - intros a Ha. apply Hagree2. lia.
      - intros r ->. apply (Hrefs k r Hin). }
    assert (Hrest : serialize_members (serialize n h2) o
                    = serialize_members (serialize n h) o).
    { apply serialize_members_ext. intros k x Hin.
      apply (serialize_frame (fun a => (a < m)%nat)); [by destruct Hreg as (_ & ? & _)| |].
      - intros a Ha. apply Hagree2. destruct Hreg. lia.
      - intros r ->. apply (Hbelow k). by right. }
    rewrite Hrest.
    assert (Hcopy : serialize n h2 v' = serialize n h copy).
    { rewrite <- (Hser Hreg Hmt); [|intros r ->; apply (Hbelow name); by left].
      assert (Hkind : (exists r, v' = VRef r) \/ (forall a, v' <> VRef a)).
      { destruct v'; try (right; intros a; discriminate). left. by eexists. }
      destruct Hkind as [[r ->]|Hnr].
      - apply (serialize_frame (fun a => (length h <= a < length h1)%nat)); [done| |].
        + intros a Ha. apply Hne. lia.
        + intros a [= <-]. by apply Hv.
      - by apply serialize_primitive. }
    simpl. rewrite Hcopy.
    destruct (serialize n h copy) as [[j|]|] eqn:Ej; [| |done].
    - by destruct (serialize_members (serialize n h) o).
    - by destruct (Hdef n). }
  simpl in Hrun. destruct copy as [| | | | |c].
  - (* undefined: skipped *)
    destruct (IH h h' t Hrun Ht Hclosed Hrefs) as (H1 & H2 & H3 & H4 & H5).
    split; [done|]. split; [done|]. split; [done|]. split; [done|].
    intros Hreg Hmt Hbelow Hnodup Hdisj n.
    simpl in Hnodup. apply NoDup_cons in Hnodup as [Hname Hnodup'].
    rewrite H5; [|done|done|..]; cycle 1.
    { intros k r Hin. apply (Hbelow k). by right. }
    { done. }
    { intros k Hk. apply Hdisj. by right. }
    simpl. by destruct n.
  - apply (Hstep h VNull);
      [done|by intros a _|intros a Ha; lia|done|done|intros n; by destruct n|done].
  - apply (Hstep h (VBool b));
      [done|by intros a _|intros a Ha; lia|done|done|intros n; by destruct n|done].
  - apply (Hstep h (VNum n));
      [done|by intros a _|intros a Ha; lia|done|done|intros n0; by destruct n0|done].
  - apply (Hstep h (VStr s));
      [done|by intros a _|intros a Ha; lia|done|done|intros n; by destruct n|done].
  - destruct (rec h c) as [[h1 clone]|] eqn:Erec; [|done].
    destruct (Hrec h c h1 clone Erec) as (-> & Hlen & Hagree & Hnew & Hser).
    apply (Hstep h1 (VRef (length h))); try done.
    + lia.
    + intros r [= <-]. lia.
    + intros Hreg Hmt Hc n. apply Hser; [done|]. by apply Hc.
    + intros n. destruct n; [done|]. simpl.
      by destruct (serialize_members _ _).
Qed.

End ExtendProps.

Lemma heap_alloc_length (h : heap) o : length (fst (heap_alloc h o)) = S (length h).
Proof. unfold heap_alloc; simpl. rewrite length_app. simpl. lia. Qed.

(** [$.extend(true, {}, src)] is a deep copy, whatever the nesting. *)
Lemma extend_deep_ok (m fuel : nat) : copier_ok m (Utils.extend_deep fuel).
Proof.
  induction fuel as [|fuel IH]; intros h s h' c Hrun; [done|].
  simpl in Hrun.
  destruct (Utils.extend_props (Utils.extend_deep fuel) (length h) (heap_get h s)
              (h ++ [[]])) as [h1|] eqn:Eprops; [|done].
  simplify_eq.
  set (h0 := h ++ [[]]) in *.
  assert (Hlen0 : length h0 = S (length h)) by apply (heap_alloc_length h []).
  assert (Hold : agree_on (fun a => (a < length h)%nat) h h0).
  { intros a Ha. by apply (heap_get_alloc_old h []). }
  assert (Hnew : heap_get h0 (length h) = []) by apply (heap_get_alloc_new h []).
  destruct (extend_props_spec m _ IH _ _ _ _ Eprops)
    as (Hlen & Hagree & Hclosed & Hrefs & Hser).
  { lia. }
  { intros a Ha. lia. }
  { rewrite Hnew. by intros k r []. }
  split; [done|]. split; [lia|]. split.
  { intros a Ha. rewrite (Hagree a) by lia. by apply Hold. }
  split.
  { intros a Ha. destruct (decide (a = length h)) as [->|Hne].
    - eapply refs_in_weaken; [|exact Hrefs]. simpl. lia.
    - eapply refs_in_weaken; [|apply (Hclosed a); lia]. simpl. lia. }
  intros Hreg Hs n. destruct n as [|n]; [done|]. simpl.
  destruct Hreg as (Hm & Hc & Hd).
  assert (Hreg0 : region m h0).
  { apply (region_agree m h); [done| |lia]. intros a Ha. apply Hold. lia. }
  rewrite Hser; [|done|lia|..]; cycle 1.
  { intros k r Hin. apply (Hc s Hs k r Hin). }
  { by apply Hd. }
  { rewrite Hnew. by intros k _ []. }
  rewrite Hnew. simpl.
  rewrite (serialize_members_ext (serialize n h0) (serialize n h)).
  - by destruct (serialize_members (serialize n h) (heap_get h s)).
  - intros k x Hin. apply (serialize_frame (fun a => (a < m)%nat)); [done| |].
    + intros a Ha. apply Hold. lia.
    + intros r ->. apply (Hc s Hs k r Hin).
Qed.

End Regions.

(** ** Settings verification *)

Section CopyReturns.
Import JS JSON Page Vocabulary.

Lemma serialize_members_defined rec (o : object) :
  serialize_members rec o <> None -> forall k x, In (k, x) o -> rec x <> None.
Proof.
  induction o as [|[k0 x0] o IH]; simpl; intros Hdef k x Hin; [done|].
  destruct (rec x0) as [[j|]|] eqn:E; [| |done].
  - destruct Hin as [[= <- <-]|Hin]; [by rewrite E|].
    apply (IH ltac:(by destruct (serialize_members rec o)) k x Hin).
  - destruct Hin as [[= <- <-]|Hin]; [by rewrite E|]. by apply (IH Hdef k x).
Qed.

Lemma extend_props_returns (m n fuel : nat)
  (IHn : forall h s, region m h -> (s < m)%nat -> serialize n h (VRef s) <> None ->
                     exists h' t, Utils.extend_deep fuel h s = Some (h', t))
  (o : object) :
  forall h t,
    region m h -> (m <= t < length h)%nat ->
    (forall k r, In (k, VRef r) o -> (r < m)%nat /\ serialize n h (VRef r) <> None) ->
    exists h', Utils.extend_props (Utils.extend_deep fuel) t o h = Some h'.
Proof.
  induction o as [|[name copy] o IH]; intros h t Hreg Ht Ho; simpl; [by eexists|].
  assert (Hnext : forall h1 v',
    (length h <= length h1)%nat ->
    agree_on (fun a => (a < length h)%nat) h h1 ->
    exists h', Utils.extend_props (Utils.extend_deep fuel) t o
                 (heap_put h1 t (prop_set (heap_get h1 t) name v')) = Some h').
  { intros h1 v' Hlen Hagree.
    assert (Hbelow : agree_on (fun a => (a < m)%nat) h
                       (heap_put h1 t (prop_set (heap_get h1 t) name v'))).
    { intros a Ha. rewrite heap_get_put_ne by lia. apply Hagree. lia. }
    apply IH.
    - apply (region_agree m h); [done|done|]. rewrite heap_put_length.
      destruct Hreg. lia.
    - rewrite heap_put_length. lia.
    - intros k r Hin. destruct (Ho k r) as [Hr Hdef]; [by right|].
      split; [done|].
      rewrite (serialize_frame (fun a => (a < m)%nat) h); [done| |done|].
      + by destruct Hreg as (_ & ? & _).
      + by intros a [= <-]. }
  destruct copy as [| | | | |c].
  - apply IH; [done|done|]. intros k r Hin. apply (Ho k r). by right.
  - apply (Hnext h); [done|by intros a _].
  - apply (Hnext h); [done|by intros a _].
  - apply (Hnext h); [done|by intros a _].
  - apply (Hnext h); [done|by intros a _].
  - destruct (Ho name c) as [Hc Hdef]; [by left|].
    destruct (IHn h c Hreg Hc Hdef) as (h1 & clone & Hcopy). rewrite Hcopy.
    destruct (extend_deep_ok m _ _ _ _ _ Hcopy) as (_ & Hlen & Hagree & _).
    apply (Hnext h1); [lia|done].
Qed.

(** A default that [JSON.stringify] can read is copied: the copy does not
    run out of fuel. *)
Lemma extend_deep_returns (m n : nat) :
  forall h s fuel,
    region m h -> (s < m)%nat -> serialize n h (VRef s) <> None -> (n <= fuel)%nat ->
    exists h' t, Utils.extend_deep fuel h s = Some (h', t).
Proof.
  induction n as [|n IH]; intros h s fuel Hreg Hs Hdef Hfuel; [done|].
  destruct fuel as [|fuel]; [lia|]. simpl in *.
  assert (Hmembers : serialize_members (serialize n h) (heap_get h s) <> None).
  { by destruct (serialize_members (serialize n h) (heap_get h s)). }
  assert (Hold : agree_on (fun a => (a < length h)%nat) h (h ++ [[]])).
  { intros a Ha. by apply (heap_get_alloc_old h []). }
  destruct (extend_props_returns m n fuel
              (fun h0 s0 Hr0 Hs0 Hd0 => IH h0 s0 fuel Hr0 Hs0 Hd0 ltac:(lia))
              (heap_get h s) (h ++ [[]]) (length h)) as [h' Hrun].
  - apply (region_agree m h); [done| |].
    + intros a Ha. apply Hold. destruct Hreg. lia.
    + rewrite length_app. simpl. destruct Hreg. lia.
  - rewrite length_app. simpl. destruct Hreg. lia.
  - intros k r Hin. destruct Hreg as (Hm & Hc & Hd).
    assert (Hr : (r < m)%nat) by apply (Hc s Hs k r Hin).
    split; [done|].
    rewrite (serialize_frame (fun a => (a < m)%nat) h); [| | |by intros a [= <-]].
    + apply (serialize_members_defined _ _ Hmembers k _ Hin).
    + done.
    + intros a Ha. apply Hold. lia.
  - rewrite Hrun. by eexists _, _.
Qed.

End CopyReturns.

Section VerifySettings.
Import JS JSON Page Vocabulary WysiwygInstance.
Local Open Scope m_scope.

Lemma copyAsNew_primitive v st :
  (forall a, v <> VRef a) -> Utils.copyAsNew v st = (Ok v, st).
Proof. intros Hv. destruct v; try reflexivity. by destruct (Hv l). Qed.

Lemma copyAsNew_object s st v st' :
  Utils.copyAsNew (VRef s) st = (Ok v, st') ->
  exists h' t,
    Utils.extend_deep (S (length (store st))) (store st) s = Some (h', t)
    /\ v = VRef t /\ st' = with_store h' st.
Proof.
  unfold Utils.copyAsNew, on_heap.
  destruct (Utils.extend_deep (S (length (store st))) (store st) s) as [[h' t]|];
    intros H; simplify_eq. by exists h', t.
Qed.

(** One entry of the schema, verified without error. *)
Lemma verifyProperty_ok (m : nat) p ps st st' l :
  settings (self st) = VRef l ->
  (m <= l < length (store st))%nat ->
  verifyProperty (p, ps) st = (Ok tt, st') ->
  self st' = self st /\ fidTypeMap st' = fidTypeMap st
  /\ (length (store st) <= length (store st'))%nat
  /\ agree_on (fun a => (a < length (store st))%nat /\ a <> l) (store st) (store st')
  /\ closed_in (fun a => (length (store st) <= a < length (store st'))%nat) (store st')
  /\ (forall q, q <> p ->
        prop_get (heap_get (store st') l) q = prop_get (heap_get (store st) l) q)
  /\ (truthy (prop_get (heap_get (store st) l) p) = true -> st' = st)
  /\ (truthy (prop_get (heap_get (store st) l) p) = false ->
      required ps = false
      /\ filled m (store st) (default ps) (store st') (prop_get (heap_get (store st') l) p)).
Proof.
  intros Hs Hl Hrun.
  unfold verifyProperty, bind, thisSettings, gets, getProp, falsy in Hrun.
  rewrite Hs in Hrun. simpl in Hrun.
  destruct (truthy (prop_get (heap_get (store st) l) p)) eqn:Ht.
  { assert (st' = st) as ->.
    { destruct (required ps); simpl in Hrun; rewrite Ht in Hrun; simpl in Hrun;
        unfold ret in Hrun; by simplify_eq. }
    repeat split; try done; lia. }
  destruct (required ps) eqn:Hreq; simpl in Hrun; rewrite Ht in Hrun; simpl in Hrun.
  { discriminate. }
  destruct (Utils.copyAsNew (default ps) st) as [[d|e] st2] eqn:E2; [|discriminate].
  unfold setProp, on_heap in Hrun. simpl in Hrun. simplify_eq. simpl.
  rename st into st1.
  assert (Hcopy : (length (store st1) <= length (store st2))%nat
    /\ agree_on (fun a => (a < length (store st1))%nat) (store st1) (store st2)
    /\ closed_in (fun a => (length (store st1) <= a < length (store st2))%nat) (store st2)
    /\ self st2 = self st1 /\ fidTypeMap st2 = fidTypeMap st1
    /\ filled m (store st1) (default ps) (store st2) d).
  { destruct (default ps) as [| | | | |s] eqn:Hd;
      try (rewrite copyAsNew_primitive in E2 by done; simplify_eq;
           repeat split; first [done|lia]).
    apply copyAsNew_object in E2 as (h' & t & Hext & -> & ->).
    destruct (extend_deep_ok m _ _ _ _ _ Hext) as (-> & Hlen & Hagree & Hclosed & Hser).
    simpl. split; [lia|]. split; [done|]. split; [done|].
    split; [done|]. split; [done|].
    exists (length (store st1)). split; [done|]. split; [lia|done]. }
  destruct Hcopy as (Hlen & Hagree & Hclosed & Hself & Hfid & Hfilled).
  rewrite heap_put_length.
  split; [done|]. split; [done|]. split; [done|].
  split.
  { intros a [Ha Hal]. rewrite heap_get_put_ne by done. by apply Hagree. }
  split.
  { intros a Ha. rewrite heap_get_put_ne by lia. by apply Hclosed. }
  rewrite heap_get_put_eq by lia. rewrite (Hagree l) by lia.
  split.
  { intros q Hq. by rewrite prop_get_set_ne. }
  split; [done|]. intros _. split; [done|].
  rewrite prop_get_set_eq.
  unfold filled in *. destruct (default ps) as [| | | | |s]; try done.
  destruct Hfilled as (t & -> & Ht' & Hser). exists t.
  split; [done|]. split; [by rewrite heap_put_length|].
  intros Hreg Hsm n. rewrite <- (Hser Hreg Hsm n).
  apply (serialize_frame (fun a => (length (store st1) <= a < length (store st2))%nat));
    [done| |].
  - intros a Ha. rewrite heap_get_put_ne by lia. done.
  - intros a [= <-]. done.
Qed.

Lemma filled_later (m : nat) (h h1 h' : heap) d v :
  (length h1 <= length h')%nat ->
  closed_in (fun a => (length h <= a < length h1)%nat) h1 ->
  agree_on (fun a => (length h <= a < length h1)%nat) h1 h' ->
  filled m h d h1 v -> filled m h d h' v.
Proof.
  intros Hlen Hclosed Hagree. unfold filled. destruct d as [| | | | |s]; try done.
  intros (t & -> & Ht & Hser). exists t. split; [done|]. split; [lia|].
  intros Hreg Hs n. rewrite <- (Hser Hreg Hs n).
  apply (serialize_frame (fun a => (length h <= a < length h1)%nat)); [done|done|].
  intros a [= <-]. done.
Qed.

Lemma filled_earlier (m : nat) (h h1 h' : heap) d v :
  (length h <= length h1)%nat ->
  agree_on (fun a => (a < m)%nat) h h1 ->
  filled m h1 d h' v -> filled m h d h' v.
Proof.
  intros Hlen Hagree. unfold filled. destruct d as [| | | | |s]; try done.
  intros (t & -> & Ht & Hser). exists t. split; [done|]. split; [lia|].
  intros Hreg Hs n. rewrite Hser; [|by apply (region_agree m h); [| |destruct Hreg; lia]|done].
  apply (serialize_frame (fun a => (a < m)%nat)); [by destruct Hreg as (_ & ? & _)|done|].
  intros a [= <-]. done.
Qed.

(** The whole schema, verified without error. *)
Lemma each_verify_ok (m : nat) (schema : list (string * propSettings)) :
  forall st st' l,
    settings (self st) = VRef l ->
    (m <= l < length (store st))%nat ->
    each schema verifyProperty st = (Ok tt, st') ->
    self st' = self st /\ fidTypeMap st' = fidTypeMap st
    /\ (length (store st) <= length (store st'))%nat
    /\ agree_on (fun a => (a < length (store st))%nat /\ a <> l) (store st) (store st')
    /\ closed_in (fun a => (length (store st) <= a < length (store st'))%nat) (store st')
    /\ (forall q, ~ In q (map fst schema) ->
          prop_get (heap_get (store st') l) q = prop_get (heap_get (store st) l) q)
    /\ (NoDup (map fst schema) ->
        forall p ps, In (p, ps) schema ->
          (truthy (prop_get (heap_get (store st) l) p) = true ->
           prop_get (heap_get (store st') l) p = prop_get (heap_get (store st) l) p)
          /\ (truthy (prop_get (heap_get (store st) l) p) = false ->
              required ps = false
              /\ filled m (store st) (default ps) (store st')
                   (prop_get (heap_get (store st') l) p))).
Proof.
  induction schema as [|[p0 ps0] rest IH]; intros st st' l Hs Hl Hrun.
  { simpl in Hrun. unfold ret in Hrun. simplify_eq.
    repeat split; first [done|lia]. }
  simpl in Hrun. apply bind_ok_inv in Hrun as ([] & st1 & Hstep & Hrest).
  destruct (verifyProperty_ok m _ _ _ _ _ Hs Hl Hstep)
    as (S1 & S2 & S3 & S4 & S5 & S6 & S7 & S8).
  assert (Hs1 : settings (self st1) = VRef l) by (by rewrite S1).
  destruct (IH st1 st' l Hs1 ltac:(lia) Hrest)
    as (I1 & I2 & I3 & I4 & I5 & I6 & I7).
  split; [congruence|]. split; [congruence|]. split; [lia|].
  split.
  { intros a [Ha Hal]. rewrite (I4 a) by (split; [lia|done]). by apply S4. }
  split.
  { intros a Ha k r Hin. cbv beta in Ha.
    destruct (Nat.lt_ge_cases a (length (store st1))) as [Hlt|Hge].
    - rewrite (I4 a) in Hin by (split; [done|lia]).
      assert (Hr := S5 a (conj (proj1 Ha) Hlt) k r Hin). cbv beta in Hr. lia.
    - assert (Hr := I5 a (conj Hge (proj2 Ha)) k r Hin). cbv beta in Hr. lia. }
  split.
  { intros q Hq. simpl in Hq. rewrite I6 by tauto. apply S6. intros ->. tauto. }
  intros Hnodup p ps Hin. simpl in Hnodup.
  apply NoDup_cons in Hnodup as [Hp0 Hnodup].
  destruct Hin as [[= -> ->]|Hin].
  - rewrite I6 by (intros H; apply Hp0, list_elem_of_In, H).
    split.
    + intros Ht. by rewrite (S7 Ht).
    + intros Ht. destruct (S8 Ht) as [Hreq Hfilled]. split; [done|].
      apply (filled_later m _ (store st1)); [done|done| |done].
      intros a Ha. apply I4. lia.
  - assert (Hne : p <> p0).
    { intros ->. apply Hp0, list_elem_of_In, in_map_iff. by exists (p0, ps). }
    destruct (I7 Hnodup p ps Hin) as [T1 T2]. rewrite (S6 p Hne) in T1, T2.
    split.
    + intros Ht. by rewrite (T1 Ht).
    + intros Ht. destruct (T2 Ht) as [Hreq Hfilled]. split; [done|].
      apply (filled_earlier m _ (store st1)); [done| |done].
      intros a Ha. apply S4. lia.
Qed.

Variable cfg : mediaSettings.

Lemma verifySettings_ok st st' l :
  settings (self st) = VRef l ->
  (l < length (store st))%nat ->
  verifySettings cfg st = (Ok tt, st') ->
  each (tokenSchema cfg) verifyProperty st = (Ok tt, st')
  /\ prop_get (heap_get (store st') l) "type" = VStr "media".
Proof.
  intros Hs Hl Hrun. unfold verifySettings in Hrun.
  apply bind_ok_inv in Hrun as (s0 & st0 & E0 & Hrun).
  unfold thisSettings, gets in E0. simplify_eq. rewrite Hs in Hrun. simpl in Hrun.
  apply bind_ok_inv in Hrun as ([] & st1 & E1 & Hrun).
  apply bind_ok_inv in Hrun as (s2 & st2 & E2 & Hrun).
  unfold thisSettings, gets in E2. simplify_eq.
  apply bind_ok_inv in Hrun as (type & st3 & E3 & Hrun).
  destruct (each_verify_ok 0 _ _ _ _ Hs ltac:(lia) E1) as (Hself & _).
  rewrite Hself, Hs in E3.
  unfold getProp in E3. simpl in E3. simplify_eq.
  destruct (decide (prop_get (heap_get (store st3) l) "type" = VStr "media"));
    [|discriminate].
  unfold ret in Hrun. by simplify_eq.
Qed.

Lemma verifyProperty_required_falsy p d st l :
  settings (self st) = VRef l ->
  truthy (prop_get (heap_get (store st) l) p) = false ->
  verifyProperty (p, PropSettings true d) st = (Throw (missing_required p), st).
Proof.
  intros Hs Ht.
  unfold verifyProperty, bind, thisSettings, gets, getProp, falsy.
  rewrite Hs. simpl. by rewrite Ht.
Qed.

Lemma verifySettings_throws_at pre entry post st st1 e st2 l :
  settings (self st) = VRef l ->
  tokenSchema cfg = pre ++ entry :: post ->
  each pre verifyProperty st = (Ok tt, st1) ->
  verifyProperty entry st1 = (Throw e, st2) ->
  verifySettings cfg st = (Throw e, st2).
Proof.
  intros Hs Hschema Hpre Hentry. unfold verifySettings.
  unfold bind at 1. unfold thisSettings at 1, gets. rewrite Hs. simpl.
  rewrite Hschema. unfold bind at 1. rewrite each_app.
  rewrite (bind_ok _ _ _ _ _ Hpre). simpl.
  by rewrite (bind_throw _ _ _ _ _ Hentry).
Qed.

Lemma truthy_prop_has (o : object) p : truthy (prop_get o p) = true -> prop_has o p = true.
Proof.
  intros Ht. destruct (prop_has o p) eqn:E; [done|].
  by rewrite (prop_get_absent o p E) in Ht.
Qed.

(** A required property with a falsy value stops the verification. *)
Lemma verifySettings_required_falsy st l p d :
  settings (self st) = VRef l ->
  (l < length (store st))%nat ->
  NoDup (map fst (tokenSchema cfg)) ->
  In (p, PropSettings true d) (tokenSchema cfg) ->
  truthy (prop_get (heap_get (store st) l) p) = false ->
  (forall st', verifySettings cfg st <> (Ok tt, st'))
  /\ (forall pre post st1,
        tokenSchema cfg = pre ++ (p, PropSettings true d) :: post ->
        each pre verifyProperty st = (Ok tt, st1) ->
        verifySettings cfg st = (Throw (missing_required p), st1)).
Proof.
  intros Hs Hl Hnodup Hin Ht. split.
  - intros st' Hrun.
    destruct (verifySettings_ok _ _ _ Hs Hl Hrun) as [Heach _].
    destruct (each_verify_ok 0 _ _ _ _ Hs ltac:(lia) Heach)
      as (_ & _ & _ & _ & _ & _ & Hall).
    destruct (Hall Hnodup _ _ Hin) as [_ H]. by destruct (H Ht).
  - intros pre post st1 Hschema Hpre.
    destruct (each_verify_ok 0 _ _ _ _ Hs ltac:(lia) Hpre)
      as (Hself & _ & _ & _ & _ & Hother & _).
    eapply verifySettings_throws_at; [done|done|done|].
    apply (verifyProperty_required_falsy _ _ _ l); [by rewrite Hself|].
    rewrite Hother; [done|].
    rewrite Hschema, map_app in Hnodup. simpl in Hnodup.
    apply NoDup_app in Hnodup as (_ & Hdisj & _).
    intros Hp. apply (Hdisj p); [by apply list_elem_of_In|by left].
Qed.

(** C9: verification tests the value, not the presence of the key.  For a
    property that is present but falsy (such as 0, the empty string or
    false): if the schema requires it, [verifySettings] does not return; it
    throws, and when the entries before it verify without error what it
    throws is the missing-required-property message for that property; if
    the schema has it optional and [verifySettings] returns, the value has
    been overwritten with the schema's default: the default itself when it
    is no object; else a new object, at an address the store did not have,
    that reads as the default does ([JSON.stringify] gives the same for
    both) when the default lies in a region of the store below the
    settings. *)
Theorem verifySettings_tests_truthiness :
  forall st l p v,
    settings (self st) = VRef l ->
    (l < length (store st))%nat ->
    NoDup (map fst (tokenSchema cfg)) ->
    prop_has (heap_get (store st) l) p = true ->
    prop_get (heap_get (store st) l) p = v ->
    In v [VNum 0; VStr ""; VBool false; VNull] ->
    (forall d,
        In (p, PropSettings true d) (tokenSchema cfg) ->
        (forall st', verifySettings cfg st <> (Ok tt, st'))
        /\ (forall pre post st1,
              tokenSchema cfg = pre ++ (p, PropSettings true d) :: post ->
              each pre verifyProperty st = (Ok tt, st1) ->
              verifySettings cfg st
              = (Throw (Thrown ("Media token parse error: Missing required property '"
                                +:+ p +:+ "'.")), st1)))
    /\ (forall d st' m,
          (m <= l)%nat ->
          In (p, PropSettings false d) (tokenSchema cfg) ->
          verifySettings cfg st = (Ok tt, st') ->
          match d with
          | VRef s =>
              exists t, prop_get (heap_get (store st') l) p = VRef t
                        /\ (length (store st) <= t < length (store st'))%nat
                        /\ (region m (store st) -> (s < m)%nat ->
                            forall n, JSON.serialize n (store st') (VRef t)
                                      = JSON.serialize n (store st) (VRef s))
          | _ => prop_get (heap_get (store st') l) p = d
          end).
Proof.
  intros st l p v Hs Hl Hnodup Hhas Hv Hfalsy.
  assert (Ht : truthy (prop_get (heap_get (store st) l) p) = false).
  { rewrite Hv. simpl in Hfalsy.
    destruct Hfalsy as [<-|[<-|[<-|[<-|[]]]]]; reflexivity. }
  split.
  - intros d Hin. by apply (verifySettings_required_falsy st l p d).
  - intros d st' m Hm Hin Hrun.
    destruct (verifySettings_ok _ _ _ Hs Hl Hrun) as [Heach _].
    destruct (each_verify_ok m _ _ _ _ Hs ltac:(lia) Heach)
      as (_ & _ & _ & _ & _ & _ & Hall).
    destruct (Hall Hnodup _ _ Hin) as [_ H]. destruct (H Ht) as [_ Hfilled].
    simpl in Hfilled. unfold filled in Hfilled.
    by destruct d.
Qed.

(** Filling in a default returns: for an object default that lies in the
    region and that [JSON.stringify] can read, the copy is made. *)
Lemma verifyProperty_fills (m : nat) p ps st l :
  settings (self st) = VRef l ->
  (m <= l < length (store st))%nat ->
  region m (store st) ->
  required ps = false ->
  truthy (prop_get (heap_get (store st) l) p) = false ->
  (forall s, default ps = VRef s ->
             (s < m)%nat /\ JSON.stringify (store st) (VRef s) <> Throw TypeError) ->
  exists st', verifyProperty (p, ps) st = (Ok tt, st').
Proof.
  intros Hs Hl Hreg Hreq Ht Hd.
  unfold verifyProperty, bind, thisSettings, gets, getProp, falsy.
  rewrite Hs, Hreq. simpl. rewrite Ht. simpl.
  destruct (default ps) as [| | | | |s] eqn:Ed;
    try (unfold Utils.copyAsNew, ret, setProp, on_heap; simpl; by eexists).
  destruct (Hd s eq_refl) as [Hsm Hstr].
  destruct (extend_deep_returns m (S (length (store st))) (store st) s
              (S (length (store st))) Hreg Hsm) as (h' & t & Hcopy); [|lia|].
  { intros Hnone. apply Hstr. unfold stringify. by rewrite Hnone. }
  unfold Utils.copyAsNew, on_heap. rewrite Hcopy.
  unfold setProp, on_heap. simpl. by eexists.
Qed.

(** The constructor on a settings object: the settings are verified, and
    nothing else touches the store. *)
Lemma new_object_ok l placeholderBase st st' :
  new cfg (VRef l) placeholderBase st = (Ok tt, st') ->
  exists st1,
    verifySettings cfg (with_self (Instance "" (VRef l) "" (Some "") None) st)
    = (Ok tt, st1)
    /\ store st' = store st1.
Proof.
  intros Hrun. unfold new in Hrun.
  apply bind_ok_inv in Hrun as ([] & st0 & E0 & Hrun).
  unfold modify in E0. simplify_eq.
  apply bind_ok_inv in Hrun as ([] & st4 & E4 & Hrun).
  simpl in E4.
  apply bind_ok_inv in E4 as ([] & st1 & E1 & E4).
  unfold setSettings, modify in E1. simplify_eq.
  apply bind_ok_inv in E4 as ([] & st2 & E2 & E4).
  exists st2. split; [exact E2|].
  apply bind_ok_inv in E4 as (s & st3 & E3 & E4).
  unfold thisSettings, gets in E3. simplify_eq.
  apply bind_ok_inv in E4 as (ft & st5 & E5 & E4).
  assert (st5 = st3) as -> by (unfold getProp in E5; by simplify_eq).
  assert (Hst4 : store st4 = store st3).
  { destruct (truthy ft).
    - apply bind_ok_inv in E4 as (fid & st6 & E6 & E4).
      assert (st6 = st3) as -> by (unfold getProp in E6; by simplify_eq).
      unfold modify in E4. by simplify_eq.
    - unfold ret in E4. by simplify_eq. }
  rewrite <- Hst4.
  destruct placeholderBase as [html|]; [destruct (nonempty html)|];
    unfold assignPlaceholderBase, modify, ret in Hrun; by simplify_eq.
Qed.

Lemma verifyProperty_truthy p ps st l :
  settings (self st) = VRef l ->
  truthy (prop_get (heap_get (store st) l) p) = true ->
  verifyProperty (p, ps) st = (Ok tt, st).
Proof.
  intros Hs Ht. unfold verifyProperty, bind, thisSettings, gets, getProp, falsy.
  rewrite Hs. simpl. destruct (required ps); by rewrite Ht.
Qed.

Lemma verifyProperty_fills_fuel (m n0 : nat) p ps st l :
  settings (self st) = VRef l ->
  (m <= l < length (store st))%nat ->
  region m (store st) ->
  (n0 <= S (length (store st)))%nat ->
  required ps = false ->
  truthy (prop_get (heap_get (store st) l) p) = false ->
  (forall s, default ps = VRef s ->
             (s < m)%nat /\ serialize n0 (store st) (VRef s) <> None) ->
  exists st', verifyProperty (p, ps) st = (Ok tt, st').
Proof.
  intros Hs Hl Hreg Hfuel Hreq Ht Hd.
  unfold verifyProperty, bind, thisSettings, gets, getProp, falsy.
  rewrite Hs, Hreq. simpl. rewrite Ht. simpl.
  destruct (default ps) as [| | | | |s] eqn:Ed;
    try (unfold Utils.copyAsNew, ret, setProp, on_heap; simpl; by eexists).
  destruct (Hd s eq_refl) as [Hsm Hstr].
  destruct (extend_deep_returns m n0 (store st) s
              (S (length (store st))) Hreg Hsm Hstr Hfuel) as (h' & t & Hcopy).
  unfold Utils.copyAsNew, on_heap. rewrite Hcopy.
  unfold setProp, on_heap. simpl. by eexists.
Qed.

(** Verification goes through the whole schema when no required property is
    falsy and the defaults that are objects can be copied. *)
Lemma each_verify_returns (m n0 : nat) (schema : list (string * propSettings)) :
  forall st l,
    settings (self st) = VRef l ->
    (m <= l < length (store st))%nat ->
    region m (store st) ->
    (n0 <= S (length (store st)))%nat ->
    (forall p ps, In (p, ps) schema -> required ps = true ->
       truthy (prop_get (heap_get (store st) l) p) = true) ->
    (forall p ps s, In (p, ps) schema -> default ps = VRef s ->
       (s < m)%nat /\ serialize n0 (store st) (VRef s) <> None) ->
    exists st', each schema verifyProperty st = (Ok tt, st').
Proof.
  induction schema as [|[p ps] schema IH]; intros st l Hs Hl Hreg Hfuel Hreq Hdef.
  { by exists st. }
  assert (Hstep : exists st1, verifyProperty (p, ps) st = (Ok tt, st1)).
  { destruct (truthy (prop_get (heap_get (store st) l) p)) eqn:Et.
    - exists st. by apply (verifyProperty_truthy p ps st l).
    - apply (verifyProperty_fills_fuel m n0 p ps st l); try done.
      + destruct (required ps) eqn:Er; [|done].
        rewrite (Hreq p ps) in Et; [done|by left|done].
      + intros s Hd. apply (Hdef p ps); [by left|done]. }
  destruct Hstep as [st1 Hstep].
  destruct (verifyProperty_ok m p ps st st1 l Hs Hl Hstep)
    as (Hself & _ & Hlen & Hagree & _ & Hother & Hsame & Hfilled).
  assert (Hagree_m : agree_on (fun a => (a < m)%nat) (store st) (store st1)).
  { intros a Ha. apply Hagree. lia. }
  destruct (IH st1 l) as [st' Hrun].
  - by rewrite Hself.
  - lia.
  - apply (region_agree m (store st)); [done|done|lia].
  - lia.
  - intros q qs Hin Hq.
    assert (Htq : truthy (prop_get (heap_get (store st) l) q) = true).
    { apply (Hreq q qs); [by right|done]. }
    destruct (decide (q = p)) as [->|Hne].
    + by rewrite (Hsame Htq).
    + by rewrite Hother.
  - intros q qs s Hin Hd. destruct (Hdef q qs s ltac:(by right) Hd) as [Hsm Hser].
    split; [done|].
    rewrite (serialize_frame (fun a => (a < m)%nat) (store st)); [done| |done|].
    + by destruct Hreg as (_ & Hclosed & _).
    + by intros a [= <-].
  - exists st'. cbn [each]. by rewrite (bind_ok _ _ _ _ _ Hstep).
Qed.

(** [verifySettings] returns on settings of type [media] in which no
    required property is falsy, the defaults copied where needed. *)
Lemma verifySettings_returns (m n0 : nat) st l :
  settings (self st) = VRef l ->
  (m <= l < length (store st))%nat ->
  region m (store st) ->
  (n0 <= S (length (store st)))%nat ->
  NoDup (map fst (tokenSchema cfg)) ->
  (forall p ps, In (p, ps) (tokenSchema cfg) -> required ps = true ->
     truthy (prop_get (heap_get (store st) l) p) = true) ->
  (forall p ps s, In (p, ps) (tokenSchema cfg) -> default ps = VRef s ->
     (s < m)%nat /\ serialize n0 (store st) (VRef s) <> None) ->
  prop_get (heap_get (store st) l) "type" = VStr "media" ->
  exists st',
    verifySettings cfg st = (Ok tt, st')
    /\ each (tokenSchema cfg) verifyProperty st = (Ok tt, st').
Proof.
  intros Hs Hl Hreg Hfuel Hnodup Hreq Hdef Htype.
  destruct (each_verify_returns m n0 (tokenSchema cfg) st l Hs Hl Hreg Hfuel Hreq Hdef)
    as [st' Hrun].
  destruct (each_verify_ok m (tokenSchema cfg) st st' l Hs Hl Hrun)
    as (Hself & _ & _ & _ & _ & Hout & Hin).
  exists st'. split; [|done].
  assert (Htype' : prop_get (heap_get (store st') l) "type" = VStr "media").
  { destruct (in_dec string_dec "type" (map fst (tokenSchema cfg))) as [Hi|Hi].
    - apply in_map_iff in Hi as [[p ps] [Hp Hi]]. simpl in Hp. subst p.
      destruct (Hin Hnodup "type" ps Hi) as [Hkeep _].
      rewrite Hkeep; [done|by rewrite Htype].
    - by rewrite Hout. }
  unfold verifySettings.
  rewrite (bind_ok _ _ _ _ _ (thisSettings_run st)), Hs.
  cbn [falsy truthy negb].
  rewrite (bind_ok _ _ _ _ _ Hrun).
  rewrite (bind_ok _ _ _ _ _ (thisSettings_run st')), Hself, Hs.
  rewrite (bind_ok _ _ _ _ _ (getProp_ref l "type" st')), Htype'.
  by rewrite decide_True.
Qed.

(** C4: verification returns on settings of type [media] in which no
    required schema property is falsy, the object defaults kept in a region
    of the store that [JSON.stringify] can read, and so does the filling in
    of a single absent optional property.  When it returns, every
    required schema property is present (and truthy) in the settings, and
    every optional property that was absent holds the schema's default: the
    default itself when it is no object, else a new object at an address the
    store did not have, which reads as the default does; the objects
    verification creates refer to new objects only, so no part of a
    filled-in value is shared with the schema, and the objects that existed,
    the settings apart, are unchanged.  A required property that is absent
    makes verification throw: it never returns, and when the entries before
    the property verify without error it throws the
    missing-required-property message.  In particular, constructing with
    [{type: "media", fid: 42}] under a schema that requires [fid] and
    defaults [view_mode] to ["default"] gives [view_mode == "default"]. *)
Theorem verifySettings_required_and_defaults :
  (forall st st' l m,
      settings (self st) = VRef l ->
      (m <= l < length (store st))%nat ->
      NoDup (map fst (tokenSchema cfg)) ->
      verifySettings cfg st = (Ok tt, st') ->
      (forall p ps,
          In (p, ps) (tokenSchema cfg) -> required ps = true ->
          prop_has (heap_get (store st) l) p = true
          /\ truthy (prop_get (heap_get (store st) l) p) = true
          /\ prop_get (heap_get (store st') l) p = prop_get (heap_get (store st) l) p)
      /\ (forall p ps,
            In (p, ps) (tokenSchema cfg) -> required ps = false ->
            prop_has (heap_get (store st) l) p = false ->
            filled m (store st) (default ps) (store st')
              (prop_get (heap_get (store st') l) p))
      /\ closed_in (fun a => (length (store st) <= a < length (store st'))%nat)
           (store st')
      /\ agree_on (fun a => (a < length (store st))%nat /\ a <> l)
           (store st) (store st'))
  /\ (forall st l p d,
        settings (self st) = VRef l ->
        (l < length (store st))%nat ->
        NoDup (map fst (tokenSchema cfg)) ->
        In (p, PropSettings true d) (tokenSchema cfg) ->
        prop_has (heap_get (store st) l) p = false ->
        (forall st', verifySettings cfg st <> (Ok tt, st'))
        /\ (forall pre post st1,
              tokenSchema cfg = pre ++ (p, PropSettings true d) :: post ->
              each pre verifyProperty st = (Ok tt, st1) ->
              verifySettings cfg st
              = (Throw (Thrown ("Media token parse error: Missing required property '"
                                +:+ p +:+ "'.")), st1)))
  /\ (forall st l p ps m,
        settings (self st) = VRef l ->
        (m <= l < length (store st))%nat ->
        region_ok m (store st) = true ->
        required ps = false ->
        prop_has (heap_get (store st) l) p = false ->
        (forall s, default ps = VRef s ->
                   (s < m)%nat /\ JSON.stringify (store st) (VRef s) <> Throw TypeError) ->
        exists st', verifyProperty (p, ps) st = (Ok tt, st'))
  /\ (forall st st' l d,
        In ("fid", PropSettings true d) (tokenSchema cfg) ->
        In ("view_mode", PropSettings false (VStr "default")) (tokenSchema cfg) ->
        NoDup (map fst (tokenSchema cfg)) ->
        (l < length (store st))%nat ->
        heap_get (store st) l = [("type", VStr "media"); ("fid", VNum 42)] ->
        new cfg (VRef l) None st = (Ok tt, st') ->
        prop_get (heap_get (store st') l) "view_mode" = VStr "default"
        /\ prop_get (heap_get (store st') l) "fid" = VNum 42)
  /\ (forall st l m,
        settings (self st) = VRef l ->
        (m <= l < length (store st))%nat ->
        region_ok m (store st) = true ->
        NoDup (map fst (tokenSchema cfg)) ->
        (forall p ps, In (p, ps) (tokenSchema cfg) -> required ps = true ->
           truthy (prop_get (heap_get (store st) l) p) = true) ->
        (forall p ps s, In (p, ps) (tokenSchema cfg) -> default ps = VRef s ->
           (s < m)%nat /\ JSON.stringify (store st) (VRef s) <> Throw TypeError) ->
        prop_get (heap_get (store st) l) "type" = VStr "media" ->
        exists st', verifySettings cfg st = (Ok tt, st')).
Proof.
  split; [|split; [|split; [|split]]]; cycle 4.
  { intros st l m Hs Hl Hreg Hnodup Hreq Hdef Htype.
    destruct (verifySettings_returns m (S (length (store st))) st l)
      as (st' & Hrun & _); try done.
    - by apply region_ok_region.
    - intros p ps s Hin Hd. destruct (Hdef p ps s Hin Hd) as [Hsm Hstr].
      split; [done|]. intros Hnone. apply Hstr. unfold stringify. by rewrite Hnone.
    - by exists st'. }
  - intros st st' l m Hs Hl Hnodup Hrun.
    destruct (verifySettings_ok _ _ _ Hs ltac:(lia) Hrun) as [Heach _].
    destruct (each_verify_ok m _ _ _ _ Hs Hl Heach)
      as (_ & _ & _ & Hagree & Hclosed & _ & Hall).
    split; [|split; [|by split]].
    + intros p ps Hin Hreq. destruct (Hall Hnodup _ _ Hin) as [H1 H2].
      destruct (truthy (prop_get (heap_get (store st) l) p)) eqn:Ht.
      * split; [by apply truthy_prop_has|]. split; [done|by apply H1].
      * destruct (H2 eq_refl) as [Hreq' _]. congruence.
    + intros p ps Hin Hreq Habsent. destruct (Hall Hnodup _ _ Hin) as [_ H2].
      apply H2. by rewrite (prop_get_absent _ _ Habsent).
  - intros st l p d Hs Hl Hnodup Hin Habsent.
    apply (verifySettings_required_falsy st l p d); try done.
    by rewrite (prop_get_absent _ _ Habsent).
  - intros st l p ps m Hs Hl Hreg Hreq Habsent Hd.
    apply (verifyProperty_fills m _ _ _ l); try done.
    + by apply region_ok_region.
    + by rewrite (prop_get_absent _ _ Habsent).
  - intros st st' l d Hfid Hview Hnodup Hl Ho Hnew.
    apply new_object_ok in Hnew as (st1 & Hrun & ->).
    set (st0 := with_self _ st) in Hrun.
    assert (Hs : settings (self st0) = VRef l) by done.
    destruct (verifySettings_ok _ _ _ Hs Hl Hrun) as [Heach _].
    destruct (each_verify_ok 0 _ _ _ _ Hs ltac:(simpl; lia) Heach)
      as (_ & _ & _ & _ & _ & _ & Hall).
    change (store st0) with (store st) in Hall. rewrite Ho in Hall.
    split.
    + destruct (Hall Hnodup _ _ Hview) as [_ H2]. by destruct (H2 eq_refl).
    + destruct (Hall Hnodup _ _ Hfid) as [H1 _]. by rewrite (H1 eq_refl).
Qed.

End VerifySettings.

Lemma sample_schema_distinct : NoDup (map fst (Page.tokenSchema Samples.cfg)).
Proof. apply distinct_NoDup. reflexivity. Qed.

Lemma verifySettings_tests_truthiness_witness :
  WysiwygInstance.verifySettings Samples.cfg Samples.zero_fid
  = (JS.Throw (JS.Thrown "Media token parse error: Missing required property 'fid'."),
     Samples.zero_fid)
  /\ JS.prop_get
       (JS.heap_get
          (Page.store (snd (WysiwygInstance.verifySettings Samples.cfg
                              Samples.empty_view_mode))) 1%nat)
       "view_mode"
     = JS.VStr "default"
  /\ (exists t,
        JS.prop_get
          (JS.heap_get
             (Page.store (snd (WysiwygInstance.verifySettings Samples.styled
                                 Samples.null_attributes))) 1%nat)
          "attributes"
        = JS.VRef t
        /\ JSON.serialize 2
             (Page.store (snd (WysiwygInstance.verifySettings Samples.styled
                                 Samples.null_attributes))) (JS.VRef t)
           = Some (Some (JSON.JObj [("class", JSON.JStr "wide")]))).
Proof.
  split; [|split].
  - destruct (verifySettings_tests_truthiness Samples.cfg Samples.zero_fid 1%nat
                "fid" (JS.VNum 0)) as [H _].
    + reflexivity.
    + vm_compute. lia.
    + exact sample_schema_distinct.
    + reflexivity.
    + reflexivity.
    + left. reflexivity.
    + destruct (H JS.VUndefined) as [_ H'].
      * right. left. reflexivity.
      * apply (H' [("type", Page.PropSettings true JS.VUndefined)]
                  (List.tl (List.tl (Page.tokenSchema Samples.cfg)))).
        -- reflexivity.
        -- reflexivity.
  - destruct (verifySettings_tests_truthiness Samples.cfg Samples.empty_view_mode 1%nat
                "view_mode" (JS.VStr "")) as [_ H].
    + reflexivity.
    + vm_compute. lia.
    + exact sample_schema_distinct.
    + reflexivity.
    + reflexivity.
    + right. left. reflexivity.
    + apply (H (JS.VStr "default") _ 1%nat).
      * lia.
      * right. right. left. reflexivity.
      * vm_compute. reflexivity.
  - destruct (verifySettings_tests_truthiness Samples.styled Samples.null_attributes 1%nat
                "attributes" JS.VNull) as [_ H].
    + reflexivity.
    + vm_compute. lia.
    + apply distinct_NoDup. reflexivity.
    + reflexivity.
    + reflexivity.
    + right. right. right. left. reflexivity.
    + destruct (H (JS.VRef 0%nat)
                  (snd (WysiwygInstance.verifySettings Samples.styled
                          Samples.null_attributes)) 1%nat)
        as (t & Ht & _ & Hreads).
      * lia.
      * right. right. left. reflexivity.
      * apply pair_fst. vm_compute. reflexivity.
      * exists t. split; [exact Ht|].
        rewrite Hreads; [vm_compute; reflexivity| |lia].
        apply region_ok_region. reflexivity.
Defined.

Lemma verifySettings_required_and_defaults_witness :
  JS.prop_get (JS.heap_get (Page.store Samples.built) 1%nat) "view_mode"
  = JS.VStr "default"
  /\ Vocabulary.filled 1 (Page.store Samples.unverified) (JS.VRef 0%nat)
       (Page.store Samples.built)
       (JS.prop_get (JS.heap_get (Page.store Samples.built) 1%nat) "attributes")
  /\ exists st',
       WysiwygInstance.verifySettings Samples.cfg Samples.unverified = (JS.Ok tt, st').
Proof.
  destruct (verifySettings_required_and_defaults Samples.cfg) as (H1 & _ & _ & H4 & H5).
  split; [|split]; cycle 2.
  { apply (H5 Samples.unverified 1%nat 1%nat).
    - reflexivity.
    - vm_compute. lia.
    - reflexivity.
    - exact sample_schema_distinct.
    - intros p ps Hin Hp. vm_compute in Hin.
      repeat (destruct Hin as [[= <- <-]|Hin]; [first [reflexivity|discriminate Hp]|]).
      destruct Hin.
    - intros p ps s Hin Hd. vm_compute in Hin.
      repeat (destruct Hin as [[= <- <-]|Hin];
              [first [discriminate Hd | injection Hd as <-; split; [lia|by vm_compute]]|]).
      destruct Hin.
    - reflexivity. }
  - apply (H4 Samples.page Samples.built 1%nat JS.VUndefined).
    + right. left. reflexivity.
    + right. right. left. reflexivity.
    + exact sample_schema_distinct.
    + vm_compute. lia.
    + reflexivity.
    + vm_compute. reflexivity.
  - destruct (H1 Samples.unverified Samples.built 1%nat 1%nat) as (_ & Hf & _).
    + reflexivity.
    + vm_compute. lia.
    + exact sample_schema_distinct.
    + vm_compute. reflexivity.
    + apply (Hf "attributes" (Page.PropSettings false (JS.VRef 0%nat))).
      * right. right. right. left. reflexivity.
      * reflexivity.
      * reflexivity.
Defined.

(** ** Field and attribute reconciliation: the two directions *)

Section Reconciliation.
Import JS Page Vocabulary WysiwygInstance.
Local Open Scope m_scope.

Lemma prop_set_same (o : object) k v :
  prop_has o k = true -> prop_get o k = v -> prop_set o k v = o.
Proof.
  induction o as [|[k' v'] o IH]; simpl; [done|].
  destruct (String.eqb k' k) eqn:E; simpl.
  - by intros _ ->.
  - intros Hh Hg. by rewrite IH.
Qed.

Lemma prop_delete_absent (o : object) k : prop_has o k = false -> prop_delete o k = o.
Proof.
  induction o as [|[k' v'] o IH]; simpl; [done|].
  destruct (String.eqb k' k) eqn:E; simpl; [done|].
  intros Hh. by rewrite IH.
Qed.

Lemma keys_prop_set_present (o : object) k v :
  prop_has o k = true -> keys (prop_set o k v) = keys o.
Proof.
  induction o as [|[k' v'] o IH]; simpl; [done|].
  destruct (String.eqb k' k) eqn:E; simpl; [done|].
  intros Hh. f_equal. by apply IH.
Qed.

Lemma prop_has_keys (o : object) k : prop_has o k = true <-> In k (keys o).
Proof.
  induction o as [|[k' v'] o IH]; simpl; [split; [done|tauto]|].
  destruct (String.eqb k' k) eqn:E; simpl.
  - apply String.eqb_eq in E. split; [by left|done].
  - rewrite IH. apply String.eqb_neq in E. split; [by right|]. by intros [?|?].
Qed.

Lemma first_starting_with_found needle (properties : list string) fid :
  Utils.first_starting_with needle properties = VStr fid ->
  In fid properties /\ startsWith fid needle = true.
Proof.
  induction properties as [|p ps IH]; simpl; [done|].
  destruct (startsWith p needle) eqn:E.
  - intros [= <-]. split; [by left|done].
  - intros H. destruct (IH H). split; [by right|done].
Qed.

(** A property found for a field is an own property, and it is not
    [attributes]. *)
Lemma field_of_found (o : object) fieldName fid :
  field_of o fieldName = VStr fid ->
  prop_has o fid = true /\ fid <> "attributes".
Proof.
  intros H. apply first_starting_with_found in H as [Hin Hstart].
  split; [by apply prop_has_keys|].
  intros ->. by rewrite startsWith_field_prefix in Hstart.
Qed.

Lemma heap_put_same (h : heap) l : heap_put h l (heap_get h l) = h \/ (length h <= l)%nat.
Proof.
  destruct (Nat.lt_ge_cases l (length h)) as [Hl|Hl]; [left|by right].
  unfold heap_put, heap_get.
  destruct (h !! l) as [o|] eqn:E.
  - simpl. by apply list_insert_id.
  - apply lookup_ge_None in E. lia.
Qed.

(** One round, forward: the field takes the attribute's value, or the empty
    string. *)
Lemma syncAttributeField_forward st l la attribute fieldName fid :
  prop_get (heap_get (store st) l) "attributes" = VRef la ->
  field_of (heap_get (store st) l) fieldName = VStr fid ->
  syncAttributeField false (VRef l) (attribute, fieldName) st
  = (Ok tt,
     with_store
       (heap_put (store st) l
          (prop_set (heap_get (store st) l) fid
             (if truthy (prop_get (heap_get (store st) la) attribute)
              then prop_get (heap_get (store st) la) attribute else VStr "")))
       st).
Proof.
  intros Ha Hf. unfold syncAttributeField, Utils.propertyStartsWith.
  unfold bind, ownKeys, gets, ret, getProp, setProp, on_heap. simpl.
  unfold field_of in Hf. rewrite Hf. simpl. rewrite Ha. simpl. reflexivity.
Qed.

(** One round, backward: the attribute takes the field's value, or goes. *)
Lemma syncAttributeField_backward st l la attribute fieldName fid :
  prop_get (heap_get (store st) l) "attributes" = VRef la ->
  field_of (heap_get (store st) l) fieldName = VStr fid ->
  syncAttributeField true (VRef l) (attribute, fieldName) st
  = (Ok tt,
     with_store
       (heap_put (store st) la
          (if truthy (prop_get (heap_get (store st) l) fid)
           then prop_set (heap_get (store st) la) attribute
                  (prop_get (heap_get (store st) l) fid)
           else prop_delete (heap_get (store st) la) attribute))
       st).
Proof.
  intros Ha Hf. unfold syncAttributeField, Utils.propertyStartsWith.
  unfold bind, ownKeys, gets, ret, getProp, setProp, deleteProp, on_heap. simpl.
  unfold field_of in Hf. rewrite Hf. simpl.
  destruct (truthy (prop_get (heap_get (store st) l) fid)); simpl; rewrite Ha; reflexivity.
Qed.

Lemma forward_loop (table : list (string * string)) :
  forall st l la,
    (l < length (store st))%nat -> la <> l ->
    prop_get (heap_get (store st) l) "attributes" = VRef la ->
    (forall entry, In entry table ->
       exists fid, field_of (heap_get (store st) l) (snd entry) = VStr fid) ->
    NoDup (map (fun entry => field_of (heap_get (store st) l) (snd entry)) table) ->
    exists st',
      each table (syncAttributeField false (VRef l)) st = (Ok tt, st')
      /\ self st' = self st
      /\ length (store st') = length (store st)
      /\ heap_get (store st') la = heap_get (store st) la
      /\ keys (heap_get (store st') l) = keys (heap_get (store st) l)
      /\ prop_get (heap_get (store st') l) "attributes" = VRef la
      /\ (forall k, ~ In (VStr k)
                      (map (fun entry => field_of (heap_get (store st) l) (snd entry)) table) ->
                    prop_get (heap_get (store st') l) k = prop_get (heap_get (store st) l) k)
      /\ (forall attribute fieldName fid,
            In (attribute, fieldName) table ->
            field_of (heap_get (store st) l) fieldName = VStr fid ->
            prop_get (heap_get (store st') l) fid
            = forwarded (heap_get (store st) la) attribute).
Proof.
  induction table as [|[a f] table IH]; intros st l la Hl Hla Ha Hfound Hnodup.
  { exists st. simpl. repeat split; try done. }
  destruct (Hfound (a, f) ltac:(by left)) as [fid Hfid]. simpl in Hfid.
  destruct (field_of_found _ _ _ Hfid) as [Hhas Hnot].
  simpl. rewrite (bind_ok _ _ _ _ _ (syncAttributeField_forward st l la a f fid Ha Hfid)).
  set (x := if truthy (prop_get (heap_get (store st) la) a)
            then prop_get (heap_get (store st) la) a else VStr "").
  set (st1 := with_store (heap_put (store st) l (prop_set (heap_get (store st) l) fid x)) st).
  assert (Ho1 : heap_get (store st1) l = prop_set (heap_get (store st) l) fid x).
  { unfold st1; simpl. by rewrite heap_get_put_eq. }
  assert (Hla1 : heap_get (store st1) la = heap_get (store st) la).
  { unfold st1; simpl. by rewrite heap_get_put_ne. }
  assert (Hkeys1 : keys (heap_get (store st1) l) = keys (heap_get (store st) l)).
  { rewrite Ho1. by apply keys_prop_set_present. }
  assert (Hfield1 : forall g, field_of (heap_get (store st1) l) g
                              = field_of (heap_get (store st) l) g).
  { intros g. unfold field_of. by rewrite Hkeys1. }
  simpl in Hnodup. apply NoDup_cons in Hnodup as [Hfresh Hnodup].
  destruct (IH st1 l la) as (st' & Hrun & I1 & I2 & I3 & I4 & I5 & I6 & I7).
  - unfold st1; simpl. by rewrite heap_put_length.
  - done.
  - rewrite Ho1. by rewrite prop_get_set_ne.
  - intros entry Hin. rewrite Hfield1. apply Hfound. by right.
  - erewrite map_ext; [exact Hnodup|]. intros entry. by rewrite Hfield1.
  - exists st'. split; [exact Hrun|]. split; [by rewrite I1|].
    split; [rewrite I2; unfold st1; simpl; apply heap_put_length|].
    split; [congruence|]. split; [congruence|]. split; [done|].
    assert (Hmap : map (fun entry => field_of (heap_get (store st1) l) (snd entry)) table
                   = map (fun entry => field_of (heap_get (store st) l) (snd entry)) table).
    { apply map_ext. intros entry. by rewrite Hfield1. }
    rewrite Hmap in I6. split.
    + intros k Hk. simpl in Hk. rewrite I6 by tauto.
      rewrite Ho1. apply prop_get_set_ne. intros ->. apply Hk. left. by rewrite Hfid.
    + intros a' f' fid' [[= -> ->]|Hin] Hfid'.
      * assert (fid' = fid) as -> by congruence.
        rewrite I6.
        -- rewrite Ho1. apply prop_get_set_eq.
        -- intros Hin. apply Hfresh. rewrite Hfid. by apply list_elem_of_In.
      * rewrite (I7 a' f' fid' Hin); [by unfold forwarded; rewrite Hla1|].
        by rewrite Hfield1.
Qed.

Lemma backward_loop (table : list (string * string)) :
  forall st l la,
    (la < length (store st))%nat ->
    prop_get (heap_get (store st) l) "attributes" = VRef la ->
    (forall attribute fieldName, In (attribute, fieldName) table ->
       exists fid,
         field_of (heap_get (store st) l) fieldName = VStr fid
         /\ (if truthy (prop_get (heap_get (store st) l) fid)
             then prop_has (heap_get (store st) la) attribute = true
                  /\ prop_get (heap_get (store st) la) attribute
                     = prop_get (heap_get (store st) l) fid
             else prop_has (heap_get (store st) la) attribute = false)) ->
    each table (syncAttributeField true (VRef l)) st = (Ok tt, st).
Proof.
  induction table as [|[a f] table IH]; intros st l la Hla Ha Hfound; [done|].
  destruct (Hfound a f ltac:(by left)) as (fid & Hfid & Hval).
  simpl. rewrite (bind_ok _ _ _ _ _ (syncAttributeField_backward st l la a f fid Ha Hfid)).
  assert (Hsame : (if truthy (prop_get (heap_get (store st) l) fid)
                   then prop_set (heap_get (store st) la) a
                          (prop_get (heap_get (store st) l) fid)
                   else prop_delete (heap_get (store st) la) a)
                  = heap_get (store st) la).
  { destruct (truthy (prop_get (heap_get (store st) l) fid)).
    - destruct Hval as [Hh Hg]. by apply prop_set_same.
    - by apply prop_delete_absent. }
  rewrite Hsame.
  destruct (heap_put_same (store st) la) as [Hput|Hge]; [|lia].
  rewrite Hput.
  assert (with_store (store st) st = st) as -> by (by destruct st).
  apply (IH st l la Hla Ha). intros a' f' Hin. apply Hfound. by right.
Qed.

Lemma syncAttributesToFields_loop cfg reverse st l la :
  settings (self st) = VRef l ->
  prop_get (heap_get (store st) l) "attributes" = VRef la ->
  syncAttributesToFields cfg reverse st
  = each (attributeFields cfg) (syncAttributeField reverse (VRef l)) st.
Proof.
  intros Hs Ha. unfold syncAttributesToFields.
  rewrite (bind_ok _ _ _ _ _ (getSettings_materialized cfg st l Hs)).
  unfold bind at 1. unfold getProp at 1. simpl. rewrite Ha. simpl.
  reflexivity.
Qed.

(** C5: [syncAttributesToFields(false)] followed by
    [syncAttributesToFields(true)] returns normally and leaves the
    [settings.attributes] object as it was, provided [settings.attributes] is
    an object of its own, every entry of
    [Drupal.settings.media.attributeFields] finds a settings property for its
    field, no two entries find the same one, and every mapped attribute that
    the object has holds a truthy value; [settings.attributes] is still that
    object. *)
Theorem reconciliation_fixed_point cfg st l la :
  settings (self st) = VRef l ->
  (l < length (store st))%nat -> (la < length (store st))%nat -> la <> l ->
  prop_get (heap_get (store st) l) "attributes" = VRef la ->
  (forall entry, In entry (attributeFields cfg) ->
     exists fid, field_of (heap_get (store st) l) (snd entry) = VStr fid) ->
  NoDup (map (fun entry => field_of (heap_get (store st) l) (snd entry))
           (attributeFields cfg)) ->
  (forall entry, In entry (attributeFields cfg) ->
     prop_has (heap_get (store st) la) (fst entry) = true ->
     truthy (prop_get (heap_get (store st) la) (fst entry)) = true) ->
  exists st',
    reconcile_both cfg st = (Ok tt, st')
    /\ prop_get (heap_get (store st') l) "attributes" = VRef la
    /\ heap_get (store st') la = heap_get (store st) la.
Proof.
  intros Hs Hl Hla Hne Ha Hfound Hnodup Htruthy.
  destruct (forward_loop (attributeFields cfg) st l la Hl Hne Ha Hfound Hnodup)
    as (st1 & Hrun & I1 & I2 & I3 & I4 & I5 & I6 & I7).
  exists st1. split; [|split; [exact I5|exact I3]].
  unfold reconcile_both, bind.
  rewrite (syncAttributesToFields_loop cfg false st l la Hs Ha), Hrun.
  rewrite (syncAttributesToFields_loop cfg true st1 l la); [|congruence|exact I5].
  apply (backward_loop _ st1 l la); [lia|exact I5|].
  intros a f Hin.
  destruct (Hfound (a, f) Hin) as [fid Hfid]. simpl in Hfid.
  exists fid. split; [unfold field_of; rewrite I4; exact Hfid|].
  rewrite (I7 a f fid Hin Hfid), I3. unfold forwarded.
  destruct (truthy (prop_get (heap_get (store st) la) a)) eqn:E.
  - rewrite E. split; [by apply truthy_prop_has|done].
  - simpl. destruct (prop_has (heap_get (store st) la) a) eqn:Eh; [|done].
    specialize (Htruthy (a, f) Hin Eh). simpl in Htruthy. congruence.
Qed.

End Reconciliation.

Lemma reconciliation_fixed_point_witness :
  exists st',
    Vocabulary.reconcile_both Samples.cfg Samples.fed_by_fields = (JS.Ok tt, st')
    /\ JS.prop_get (JS.heap_get (Page.store st') 1%nat) "attributes" = JS.VRef 2%nat
    /\ JS.heap_get (Page.store st') 2%nat
       = [("alt", JS.VStr "A view"); ("class", JS.VStr "wide")].
Proof.
  apply (reconciliation_fixed_point Samples.cfg Samples.fed_by_fields 1%nat 2%nat).
  - reflexivity.
  - vm_compute. lia.
  - vm_compute. lia.
  - discriminate.
  - reflexivity.
  - intros entry Hin. vm_compute in Hin.
    destruct Hin as [<-|[<-|[]]]; eexists; vm_compute; reflexivity.
  - apply (bool_decide_unpack _). by vm_compute.
  - intros entry Hin. vm_compute in Hin.
    destruct Hin as [<-|[<-|[]]]; vm_compute; [reflexivity|discriminate].
Defined.

(** With [alt] present and empty in [settings.attributes], the two directions
    return normally and [alt] is gone from the object. *)
Lemma reconciliation_drops_empty_attribute :
  JS.heap_get (Page.store Samples.empty_alt) 2%nat
  = [("alt", JS.VStr ""); ("class", JS.VStr "wide")]
  /\ fst (Vocabulary.reconcile_both Samples.cfg Samples.empty_alt) = JS.Ok tt
  /\ JS.heap_get (Page.store (snd (Vocabulary.reconcile_both Samples.cfg Samples.empty_alt)))
       2%nat
     = [("class", JS.VStr "wide")].
Proof. by vm_compute. Qed.

(** ** The regular-expression matcher: what a capture can be *)

Section Captures.
Import JS Vocabulary Regex.


Lemma take_chars_app (w rest : string) :
  take_chars (String.length (w +:+ rest) - String.length rest) (w +:+ rest) = w.
Proof.
  induction w as [|a w IH]; simpl.
  - rewrite Nat.sub_diag. by destruct rest.
  - assert (Hlen : forall x y : string,
               String.length (x +:+ y) = (String.length x + String.length y)%nat).
    { intros x y. induction x; simpl; [done|]. by f_equal. }
    rewrite Hlen in *.
    replace (S (String.length w + String.length rest) - String.length rest)%nat
      with (S (String.length w + String.length rest - String.length rest)) by lia.
    simpl. by rewrite IH.
Qed.

Lemma string_app_assoc (x y z : string) : (x +:+ y) +:+ z = x +:+ (y +:+ z).
Proof.
  induction x as [|a x IH]; [done|].
  change (String a ((x +:+ y) +:+ z) = String a (x +:+ (y +:+ z))). by rewrite IH.
Qed.







(** *** The alignment class that [alignRe] finds *)
















End Captures.

(** ** Class names *)

Section ClassNames.
Import Vocabulary DOM.

Lemma string_app_nil_r (s : string) : s +:+ "" = s.
Proof.
  induction s as [|a s IH]; [done|].
  change (String a (s +:+ "") = String a s). by rewrite IH.
Qed.

Lemma rev_app_rev_app (t a b : string) :
  String.rev_app (String.rev_app t a) b = String.rev_app a (t +:+ b).
Proof.
  revert a. induction t as [|c t IH]; intros a; [done|].
  simpl. by rewrite IH.
Qed.

Lemma rev_rev_app (t : string) : String.rev (String.rev_app t "") = t.
Proof. unfold String.rev. rewrite rev_app_rev_app. simpl. apply string_app_nil_r. Qed.

Lemma is_name_rev_app (t a : string) :
  Page.nonempty (String.rev_app t a) = Page.nonempty t || Page.nonempty a
  /\ space_free (String.rev_app t a) = space_free t && space_free a.
Proof.
  revert a. induction t as [|c t IH]; intros a; [done|].
  simpl. destruct (IH (String c a)) as [-> ->]. simpl.
  split; [by rewrite orb_true_r|].
  destruct (is_white c); simpl; [by rewrite andb_false_r|done].
Qed.

Lemma is_name_rev (r : string) : is_name r = true -> is_name (String.rev r) = true.
Proof.
  unfold is_name, String.rev. destruct (is_name_rev_app r "") as [-> ->].
  simpl. by rewrite orb_false_r, andb_true_r.
Qed.

(** Reading a run of characters that are no white space. *)
Lemma names_go_free (t : string) :
  space_free t = true ->
  forall cur s,
    names_go cur (t +:+ s)
    = names_go
        (if Page.nonempty t then Some (String.rev_app t (from_option id "" cur)) else cur) s.
Proof.
  induction t as [|a t IH]; intros Hfree cur s; [done|].
  simpl in Hfree. apply andb_true_iff in Hfree as [Ha Hfree].
  apply negb_true_iff in Ha.
  change (String a t +:+ s) with (String a (t +:+ s)). cbn [names_go].
  rewrite Ha, (IH Hfree). by destruct t.
Qed.

(** The names of a class attribute are names. *)
Lemma names_go_names (s : string) :
  forall cur,
    (forall r, cur = Some r -> is_name r = true) ->
    Forall (fun t => is_name t = true) (names_go cur s).
Proof.
  induction s as [|a s IH]; intros cur Hcur; cbn [names_go].
  - destruct cur as [r|]; simpl; [|constructor].
    repeat constructor. apply is_name_rev. by apply Hcur.
  - destruct (is_white a) eqn:Ea.
    + apply Forall_app. split; [|by apply IH].
      destruct cur as [r|]; simpl; [|constructor].
      repeat constructor. apply is_name_rev. by apply Hcur.
    + apply IH. intros r [= <-]. destruct cur as [r|]; simpl.
      * specialize (Hcur r eq_refl). unfold is_name in *. simpl.
        rewrite Ea. simpl. by apply andb_true_iff in Hcur as [_ ->].
      * unfold is_name. simpl. by rewrite Ea.
Qed.

Lemma class_names_names (cls : string) :
  Forall (fun t => is_name t = true) (class_names cls).
Proof. apply names_go_names. done. Qed.

(** Names joined by spaces are read back as they were. *)
Lemma class_names_join (names : list string) :
  Forall (fun t => is_name t = true) names ->
  class_names (JS.join " " names) = names.
Proof.
  unfold class_names.
  induction names as [|t names IH]; intros Hnames; [done|].
  apply Forall_cons in Hnames as [Ht Hnames].
  unfold is_name in Ht. apply andb_true_iff in Ht as [Hne Hfree].
  destruct names as [|t' names].
  - simpl. rewrite <- (string_app_nil_r t) at 1.
    rewrite (names_go_free t Hfree), Hne. simpl. by rewrite rev_rev_app.
  - change (JS.join " " (t :: t' :: names))
      with (t +:+ String " " (JS.join " " (t' :: names))).
    rewrite (names_go_free t Hfree), Hne.
    change (names_go (Some (String.rev_app t (from_option id "" None)))
              (String " " (JS.join " " (t' :: names))))
      with ([String.rev (String.rev_app t "")]
              ++ names_go None (JS.join " " (t' :: names))).
    rewrite rev_rev_app, (IH Hnames). done.
Qed.

Lemma attr_lookup_update a name v : attr_lookup (attr_update a name v) name = Some v.
Proof.
  induction a as [|[k v'] a IH]; simpl; [by rewrite String.eqb_refl|].
  destruct (String.eqb k name) eqn:E; simpl; by rewrite E.
Qed.

Lemma attr_lookup_remove a name k :
  k <> name -> attr_lookup (attr_remove a name) k = attr_lookup a k.
Proof.
  intros Hne. unfold attr_remove.
  induction a as [|[k' v'] a IH]; [done|].
  rewrite filter_cons. simpl. destruct (String.eqb k' name) eqn:E; simpl.
  - apply String.eqb_eq in E as ->. rewrite IH.
    destruct (String.eqb name k) eqn:E'; [|done].
    apply String.eqb_eq in E'. congruence.
  - by rewrite IH.
Qed.

Lemma node_classes_set_classes names n :
  is_element n = true -> Forall (fun t => is_name t = true) names ->
  node_classes (set_classes names n) = names.
Proof.
  intros He Hnames. destruct n as [d|t a fl c]; [done|].
  unfold node_classes, set_classes. simpl.
  rewrite attr_lookup_update. simpl. by apply class_names_join.
Qed.

Lemma has_name_remove c current :
  has_name c (remove_names current [c]) = false.
Proof.
  unfold remove_names. induction current as [|t current IH]; [done|].
  rewrite filter_cons. case_decide as Hk; [|done].
  change (String.eqb c t
          || has_name c (filter (fun c0 => negb (has_name c0 [c]) = true) current)
          = false).
  rewrite IH, orb_false_r.
  simpl in Hk. rewrite orb_false_r in Hk. apply negb_true_iff in Hk.
  by rewrite String.eqb_sym.
Qed.

Lemma remove_names_names current gone :
  Forall (fun t => is_name t = true) current ->
  Forall (fun t => is_name t = true) (remove_names current gone).
Proof.
  unfold remove_names. induction 1 as [|t current Ht Hc IH]; [constructor|].
  rewrite filter_cons. case_decide; [by constructor|done].
Qed.


Lemma has_name_app c l1 l2 : has_name c (l1 ++ l2) = has_name c l1 || has_name c l2.
Proof. apply existsb_app. Qed.





Lemma node_classes_names n : Forall (fun t => is_name t = true) (node_classes n).
Proof. apply class_names_names. Qed.









End ClassNames.

(** ** Alignment of a media element *)

Section Alignment.
Import JS Page Vocabulary DOM Align.
Local Open Scope m_scope.

Variable cfg : mediaSettings.
Variable br : browser.
Variable linked : jquery -> bool.














End Alignment.



(** ** JSON: a printed value is parsed back *)

Section JsonRoundTrip.
Import JS JSON Vocabulary.

Lemma string_app_cons a (s t : string) : String a s +:+ t = String a (s +:+ t).
Proof. reflexivity. Qed.

Lemma string_app_nil_l (t : string) : "" +:+ t = t.
Proof. reflexivity. Qed.

Ltac app_norm :=
  repeat first [rewrite string_app_assoc | rewrite string_app_cons
               | rewrite string_app_nil_l].

Lemma string_length_app (x y : string) :
  String.length (x +:+ y) = (String.length x + String.length y)%nat.
Proof.
  induction x as [|a x IH]; [done|].
  rewrite string_app_cons. simpl. by rewrite IH.
Qed.

Lemma print_object ms : print (JObj ms) = "{" +:+ print_members ms +:+ "}".
Proof. reflexivity. Qed.

Lemma size_object ms : size (JObj ms) = S (size_members ms).
Proof. reflexivity. Qed.

(** One escaped character is read back as the character. *)
Lemma parse_escape_char c tail :
  parse_string_body (escape_char c +:+ tail) = cons_char c (parse_string_body tail).
Proof. destruct c as [[] [] [] [] [] [] [] []]; reflexivity. Qed.

Lemma parse_string_escape s rest :
  parse_string_body (escape s +:+ String dquote rest) = Some (s, rest).
Proof.
  induction s as [|c s IH]; [done|].
  simpl escape. rewrite string_app_assoc, parse_escape_char, IH. done.
Qed.

Lemma parse_quote s rest :
  exists tail, quote s +:+ rest = String dquote tail
               /\ parse_string_body tail = Some (s, rest).
Proof.
  exists (escape s +:+ String dquote rest). split.
  - unfold quote. by rewrite string_app_cons, string_app_assoc.
  - apply parse_string_escape.
Qed.

Lemma uint_beq_refl d : Decimal.uint_beq d d = true.
Proof. induction d; simpl; auto. Qed.

Lemma read_uint_string_of_uint d rest :
  ends_value rest = true ->
  read_uint (string_of_uint d +:+ rest) = (d, rest).
Proof.
  intros Hrest. induction d; simpl string_of_uint;
    rewrite ?string_app_cons; try (simpl; by rewrite IHd).
  rewrite string_app_nil_l. destruct rest as [|c rest]; [done|].
  simpl in Hrest. apply orb_true_iff in Hrest as [H|H];
    apply Ascii.eqb_eq in H as ->; reflexivity.
Qed.

Lemma parse_uint_to_uint n rest :
  ends_value rest = true ->
  parse_uint (string_of_uint (N.to_uint n) +:+ rest) = Some (n, rest).
Proof.
  intros Hrest. unfold parse_uint. rewrite read_uint_string_of_uint by done.
  assert (Hnorm : Decimal.unorm (N.to_uint n) = N.to_uint n).
  { rewrite <- DecimalN.Unsigned.to_of. by rewrite DecimalN.Unsigned.of_to. }
  rewrite Hnorm, uint_beq_refl, DecimalN.Unsigned.of_to.
  assert (fraction_follows rest = false) as ->; [|done].
  destruct rest as [|c rest]; [done|].
  simpl in Hrest. apply orb_true_iff in Hrest as [H|H];
    apply Ascii.eqb_eq in H as ->; reflexivity.
Qed.

(** The decimal notation of a positive number starts with a digit. *)
Lemma string_of_uint_digit p :
  exists c tail, string_of_uint (N.to_uint (Npos p)) = String c tail
                 /\ digit_of c <> None.
Proof.
  pose proof (DecimalPos.Unsigned.to_uint_nonnil p) as Hnonnil.
  change (N.to_uint (Npos p)) with (Pos.to_uint p).
  destruct (Pos.to_uint p); [done|..]; simpl; eexists _, _; (split; [reflexivity|done]).
Qed.

Lemma digit_cases c :
  digit_of c <> None ->
  In c ["0"; "1"; "2"; "3"; "4"; "5"; "6"; "7"; "8"; "9"]%char.
Proof.
  unfold digit_of.
  repeat match goal with
         | |- context [Ascii.eqb c ?d] =>
             destruct (Ascii.eqb_spec c d) as [->|?]; [simpl; tauto|]
         end.
  done.
Qed.

Lemma parse_value_number fuel n rest :
  ends_value rest = true ->
  parse_value (S fuel) (string_of_Z n +:+ rest) = Some (JNum n, rest).
Proof.
  intros Hrest. destruct n as [|p|p].
  - simpl string_of_Z. rewrite string_app_cons, string_app_nil_l. simpl.
    change (String "0" rest) with (string_of_uint (N.to_uint 0) +:+ rest).
    by rewrite parse_uint_to_uint.
  - unfold string_of_Z.
    pose proof (parse_uint_to_uint (Npos p) rest Hrest) as Hparse.
    destruct (string_of_uint_digit p) as (c & tail & Heq & Hc).
    rewrite Heq in *. rewrite string_app_cons in *.
    apply digit_cases in Hc. simpl in Hc.
    repeat (destruct Hc as [<-|Hc]; [simpl; by rewrite Hparse|]). done.
  - unfold string_of_Z. rewrite string_app_assoc, string_app_cons, string_app_nil_l.
    pose proof (parse_uint_to_uint (Npos p) rest Hrest) as Hparse.
    change (parse_value (S fuel)
              (String "-" (string_of_uint (N.to_uint (N.pos p)) +:+ rest)))
      with (match parse_uint (string_of_uint (N.to_uint (N.pos p)) +:+ rest) with
            | Some (n, rest) => Some (JNum (- Z.of_N n), rest)
            | None => None
            end).
    by rewrite Hparse.
Qed.

Lemma drop_chars_app (word rest : string) :
  drop_chars (String.length word) (word +:+ rest) = rest.
Proof. induction word as [|a word IH]; [done|]. by rewrite string_app_cons. Qed.

Lemma literal_word word j rest : literal word j (word +:+ rest) = Some (j, rest).
Proof.
  unfold literal.
  assert (String.prefix word (word +:+ rest) = true) as ->
    by (apply prefix_app; by exists rest).
  by rewrite drop_chars_app.
Qed.

Lemma skip_ws_delimiter rest c :
  In c [","; "}"]%char -> skip_ws (String c rest) = String c rest.
Proof. intros [<-|[<-|[]]]; reflexivity. Qed.

Lemma print_members_head ms rest :
  ms <> [] -> exists tail, print_members ms +:+ rest = String dquote tail.
Proof.
  destruct ms as [|[k v] [|m ms]]; [done|..]; intros _;
    simpl print_members; unfold quote; rewrite string_app_cons; eauto.
Qed.

(** Parsing what [print] wrote gives the value back, with fuel for its
    size. *)
Lemma parse_print_fuel (fuel : nat) :
  (forall j rest,
      (size j <= fuel)%nat -> ends_value rest = true ->
      parse_value fuel (print j +:+ rest) = Some (j, rest))
  /\ (forall ms rest,
        ms <> [] -> (size_members ms <= fuel)%nat ->
        parse_members fuel (print_members ms +:+ String "}" rest) = Some (ms, rest)).
Proof.
  induction fuel as [|fuel [IHv IHm]].
  { split.
    - intros j rest Hsize. destruct j; simpl in Hsize; lia.
    - intros [|[k v] ms] rest Hne Hsize; [done|]. simpl in Hsize. lia. }
  split.
  - intros j rest Hsize Hrest. destruct j as [|[|]|n|s|ms].
    + apply (literal_word "null").
    + apply (literal_word "true").
    + apply (literal_word "false").
    + by apply parse_value_number.
    + destruct (parse_quote s rest) as (tail & Heq & Hparse).
      simpl print. rewrite Heq. simpl. by rewrite Hparse.
    + rewrite print_object, size_object in *. app_norm.
      destruct ms as [|[k v] ms]; [reflexivity|].
      assert (Hm := IHm ((k, v) :: ms) rest ltac:(done) ltac:(lia)).
      destruct (print_members_head ((k, v) :: ms) (String "}" rest) ltac:(done))
        as [tail Hhead].
      rewrite Hhead in *. unfold dquote in Hm. simpl. by rewrite Hm.
  - intros [|[k v] ms] rest Hne Hsize; [done|]. simpl in Hsize.
    set (after := match ms with
                  | [] => String "}" rest
                  | _ => String "," (print_members ms +:+ String "}" rest)
                  end).
    assert (Htext : print_members ((k, v) :: ms) +:+ String "}" rest
                    = quote k +:+ String ":" (print v +:+ after)).
    { unfold after. destruct ms; simpl print_members;
        rewrite ?string_app_assoc, ?string_app_cons, ?string_app_nil_l; reflexivity. }
    rewrite Htext.
    destruct (parse_quote k (String ":" (print v +:+ after))) as (tail & Heq & Hparse).
    rewrite Heq.
    assert (Hafter : ends_value after = true) by (unfold after; by destruct ms).
    assert (Hv := IHv v after ltac:(lia) Hafter).
    cbn [parse_members skip_ws is_ws expect]. simpl. rewrite Hparse. simpl.
    rewrite Hv. unfold after. destruct ms as [|m ms]; [reflexivity|].
    rewrite skip_ws_delimiter by (simpl; tauto). cbv beta iota.
    rewrite IHm; [done|done|simpl in *; lia].
Qed.

Lemma size_le_length j : (size j <= String.length (print j))%nat.
Proof.
  assert (Hquote : forall k, (2 <= String.length (quote k))%nat).
  { intros k. unfold quote. simpl. rewrite string_length_app. simpl. lia. }
  assert (Hnum : forall n, (1 <= String.length (string_of_Z n))%nat).
  { intros [|p|p]; unfold string_of_Z; [simpl; lia| |].
    - destruct (string_of_uint_digit p) as (c & tail & -> & _). simpl. lia.
    - rewrite string_app_cons. simpl. lia. }
  revert j.
  fix IH 1. intros [|[|]|n|s|ms].
  - simpl; lia.
  - simpl; lia.
  - simpl; lia.
  - apply Hnum.
  - apply (Nat.le_trans _ 2); [simpl; lia|apply Hquote].
  - rewrite print_object, size_object.
    rewrite string_app_cons, string_app_nil_l. simpl.
    rewrite string_length_app. simpl.
    assert (Hms : (size_members ms <= String.length (print_members ms))%nat);
      [|lia].
    induction ms as [|[k v] ms IHms]; [simpl; lia|].
    specialize (IH v). specialize (Hquote k).
    destruct ms as [|m ms].
    + simpl size_members. simpl print_members.
      rewrite !string_length_app. simpl. lia.
    + change (print_members ((k, v) :: m :: ms))
        with (quote k +:+ ":" +:+ print v +:+ "," +:+ print_members (m :: ms)).
      change (size_members ((k, v) :: m :: ms))
        with (S (size v + size_members (m :: ms))).
      rewrite !string_length_app. simpl String.length at 2 4. lia.
Qed.

(** [JSON.parse(JSON.stringify(v))] reads the value back. *)
Lemma parse_text_print j : parse_text (print j) = Some j.
Proof.
  unfold parse_text.
  destruct (parse_print_fuel (S (String.length (print j)))) as [Hv _].
  specialize (Hv j "" ltac:(pose proof (size_le_length j); lia) eq_refl).
  rewrite string_app_nil_r in Hv. by rewrite Hv.
Qed.

End JsonRoundTrip.

(** ** Objects: entries and names *)

Section Entries.
Import JS Page Vocabulary.

Lemma In_prop_set (o : object) k v k' v' :
  In (k, v) (prop_set o k' v') -> (k = k' /\ v = v') \/ In (k, v) o.
Proof.
  induction o as [|[k0 v0] o IH]; simpl.
  - intros [[= <- <-]|[]]. by left.
  - destruct (String.eqb k0 k') eqn:E; simpl.
    + apply String.eqb_eq in E as ->. intros [[= <- <-]|H]; [by left|right; by right].
    + intros [H|H]; [right; by left|]. destruct (IH H); [by left|right; by right].
Qed.

Lemma In_prop_delete (o : object) k v k' :
  In (k, v) (prop_delete o k') -> In (k, v) o.
Proof.
  induction o as [|[k0 v0] o IH]; simpl; [done|].
  destruct (String.eqb k0 k'); simpl; [by right|].
  intros [H|H]; [by left|right; by apply IH].
Qed.

Lemma keys_prop_delete_In (o : object) k k' :
  In k (keys (prop_delete o k')) -> In k (keys o).
Proof.
  induction o as [|[k0 v0] o IH]; simpl; [done|].
  destruct (String.eqb k0 k'); simpl; [by right|].
  intros [H|H]; [by left|right; by apply IH].
Qed.

Lemma NoDup_keys_prop_delete (o : object) k :
  NoDup (keys o) -> NoDup (keys (prop_delete o k)).
Proof.
  induction o as [|[k0 v0] o IH]; simpl; [done|].
  intros [Hk0 Ho]%NoDup_cons. destruct (String.eqb k0 k); simpl; [done|].
  apply NoDup_cons. split; [|by apply IH].
  intros Hin%list_elem_of_In%keys_prop_delete_In. apply Hk0. by apply list_elem_of_In.
Qed.

Lemma NoDup_keys_prop_set (o : object) k v :
  NoDup (keys o) -> NoDup (keys (prop_set o k v)).
Proof.
  intros Ho. destruct (prop_has o k) eqn:E.
  - by rewrite keys_prop_set_present.
  - assert (Hk : ~ In k (keys o)).
    { intros Hin%prop_has_keys. congruence. }
    rewrite (prop_set_fresh o k v Hk), keys_app. simpl.
    apply NoDup_app. split; [done|]. split; [|apply NoDup_singleton].
    intros x Hx%list_elem_of_In ->%list_elem_of_singleton. done.
Qed.

Lemma prop_get_In (o : object) k v :
  prop_get o k = v -> v <> VUndefined -> In (k, v) o.
Proof.
  induction o as [|[k0 v0] o IH]; simpl; [congruence|].
  destruct (String.eqb k0 k) eqn:E.
  - apply String.eqb_eq in E as ->. intros -> _. by left.
  - intros H Hv. right. by apply IH.
Qed.

Lemma In_prop_get (o : object) k v :
  NoDup (keys o) -> In (k, v) o -> prop_get o k = v.
Proof.
  induction o as [|[k0 v0] o IH]; simpl; [done|].
  intros [Hk0 Ho]%NoDup_cons [[= -> ->]|Hin].
  - by rewrite String.eqb_refl.
  - destruct (String.eqb k0 k) eqn:E; [|by apply IH].
    apply String.eqb_eq in E as ->. exfalso. apply Hk0.
    apply list_elem_of_In. change k with (fst (k, v)). by apply in_map.
Qed.

Lemma prop_get_delete_eq (o : object) k :
  NoDup (keys o) -> prop_get (prop_delete o k) k = VUndefined.
Proof.
  induction o as [|[k0 v0] o IH]; simpl; [done|].
  intros [Hk0 Ho]%NoDup_cons. destruct (String.eqb k0 k) eqn:E; simpl.
  - apply String.eqb_eq in E as ->. apply prop_get_absent.
    destruct (prop_has o k) eqn:Eh; [|done].
    apply prop_has_keys, list_elem_of_In in Eh. done.
  - rewrite E. by apply IH.
Qed.

Lemma strings_prop_set (o : object) k s : strings o -> strings (prop_set o k (VStr s)).
Proof.
  intros Ho k' v' [[-> ->]|Hin]%In_prop_set; [by exists s|by apply (Ho k')].
Qed.

Lemma strings_prop_delete (o : object) k : strings o -> strings (prop_delete o k).
Proof. intros Ho k' v' Hin%In_prop_delete. by apply (Ho k'). Qed.

Lemma primitive_cases (v : value) : primitive v \/ exists a, v = VRef a.
Proof. destruct v; try (left; intros a; discriminate). right. by eexists. Qed.

End Entries.

(** ** The settings prepared for a token *)

Section Prepared.
Import JS JSON Page Vocabulary WysiwygInstance.
Local Open Scope m_scope.

Lemma heap_get_app_old (h extra : heap) a :
  (a < length h)%nat -> heap_get (h ++ extra) a = heap_get h a.
Proof. intros Ha. unfold heap_get. by rewrite lookup_app_l. Qed.

Lemma heap_get_app_new (h : heap) o : heap_get (h ++ [o]) (length h) = o.
Proof. apply heap_get_alloc_new. Qed.

Lemma heap_put_last (h : heap) o o' : heap_put (h ++ [o]) (length h) o' = h ++ [o'].
Proof.
  unfold heap_put. rewrite insert_app_r_alt by lia.
  by rewrite Nat.sub_diag.
Qed.

(** The copy of an object of strings: its properties, one by one. *)
Lemma extend_props_strings rec (o : object) :
  forall (h : heap) (target : object),
    strings o -> strings target ->
    exists target',
      Utils.extend_props rec (length h) o (h ++ [target]) = Some (h ++ [target'])
      /\ strings target'.
Proof.
  induction o as [|[name v] o IH]; intros h target Ho Ht.
  - by exists target.
  - destruct (Ho name v ltac:(by left)) as [s ->]. simpl.
    rewrite heap_get_app_new, heap_put_last.
    apply IH; [|by apply strings_prop_set].
    intros k' v' Hin. apply (Ho k'). by right.
Qed.

Lemma copyAsNew_strings la st :
  strings (heap_get (store st) la) ->
  exists copy,
    Utils.copyAsNew (VRef la) st
    = (Ok (VRef (length (store st))), with_store (store st ++ [copy]) st)
    /\ strings copy.
Proof.
  intros Hs. unfold Utils.copyAsNew, on_heap. simpl.
  destruct (extend_props_strings (Utils.extend_deep (length (store st)))
              (heap_get (store st) la) (store st) []) as (copy & Hrun & Hcopy);
    [done|by intros ? ? []|].
  unfold heap_alloc. rewrite Hrun. by exists copy.
Qed.

Lemma shaped_alloc n h' o : shaped n h' -> shaped n (h' ++ [o]).
Proof.
  intros (Hn & Hnodup & Hshape).
  split; [rewrite length_app; lia|].
  rewrite heap_get_app_old by done. split; [done|].
  intros k v Hin. destruct (Hshape k v Hin) as [Hattr Hprim]. split; [|done].
  intros Hk. destruct (Hattr Hk) as (lc & -> & Hlc & Hs).
  exists lc. split; [done|]. rewrite length_app, heap_get_app_old by lia.
  split; [lia|done].
Qed.

Lemma shaped_set_primitive n h' k v :
  shaped n h' -> k <> "attributes" -> primitive v ->
  shaped n (heap_put h' n (prop_set (heap_get h' n) k v)).
Proof.
  intros (Hn & Hnodup & Hshape) Hk Hv.
  split; [by rewrite heap_put_length|].
  rewrite heap_get_put_eq by done. split; [by apply NoDup_keys_prop_set|].
  intros k' v' [[-> ->]|Hin]%In_prop_set; [done|].
  destruct (Hshape k' v' Hin) as [Hattr Hprim]. split; [|done].
  intros Hk'. destruct (Hattr Hk') as (lc & -> & Hlc & Hs).
  exists lc. rewrite heap_put_length, heap_get_put_ne by lia. done.
Qed.

Lemma shaped_set_attributes n h' lc :
  shaped n h' -> (n < lc < length h')%nat -> strings (heap_get h' lc) ->
  shaped n (heap_put h' n (prop_set (heap_get h' n) "attributes" (VRef lc))).
Proof.
  intros (Hn & Hnodup & Hshape) Hlc Hs.
  split; [by rewrite heap_put_length|].
  rewrite heap_get_put_eq by done. split; [by apply NoDup_keys_prop_set|].
  intros k' v' [[-> ->]|Hin]%In_prop_set.
  - split; [|done]. intros _. exists lc.
    rewrite heap_put_length, heap_get_put_ne by lia. done.
  - destruct (Hshape k' v' Hin) as [Hattr Hprim]. split; [|done].
    intros Hk'. destruct (Hattr Hk') as (lc' & -> & Hlc' & Hs').
    exists lc'. rewrite heap_put_length, heap_get_put_ne by lia. done.
Qed.

Lemma shaped_attributes n h' lc :
  shaped n h' -> prop_get (heap_get h' n) "attributes" = VRef lc ->
  (n < lc < length h')%nat /\ strings (heap_get h' lc).
Proof.
  intros (Hn & Hnodup & Hshape) Hget.
  apply prop_get_In in Hget; [|done].
  destruct (Hshape _ _ Hget) as [Hattr _].
  destruct (Hattr eq_refl) as (lc' & [= <-] & Hlc & Hs). done.
Qed.

Lemma shaped_update_attributes n h' lc o' :
  shaped n h' -> prop_get (heap_get h' n) "attributes" = VRef lc -> strings o' ->
  shaped n (heap_put h' lc o').
Proof.
  intros Hshaped Hget Ho'.
  destruct (shaped_attributes n h' lc Hshaped Hget) as [Hlc _].
  destruct Hshaped as (Hn & Hnodup & Hshape).
  split; [by rewrite heap_put_length|].
  rewrite heap_get_put_ne by lia. split; [done|].
  intros k v Hin. destruct (Hshape k v Hin) as [Hattr Hprim]. split; [|done].
  intros ->. destruct (Hattr eq_refl) as (lc' & -> & Hlc' & Hs').
  rewrite (In_prop_get _ _ _ Hnodup Hin) in Hget. injection Hget as ->.
  exists lc. rewrite heap_put_length, heap_get_put_eq by lia. done.
Qed.

Lemma shaped_delete_attributes n h' :
  shaped n h' -> shaped n (heap_put h' n (prop_delete (heap_get h' n) "attributes")).
Proof.
  intros (Hn & Hnodup & Hshape).
  split; [by rewrite heap_put_length|].
  rewrite heap_get_put_eq by done. split; [by apply NoDup_keys_prop_delete|].
  intros k v Hin%In_prop_delete.
  destruct (Hshape k v Hin) as [Hattr Hprim]. split; [|done].
  intros Hk. destruct (Hattr Hk) as (lc & -> & Hlc & Hs).
  exists lc. rewrite heap_put_length, heap_get_put_ne by lia. done.
Qed.

Lemma existsb_eqb_app_other q p done :
  q <> p -> existsb (String.eqb q) (done ++ [p]) = existsb (String.eqb q) done.
Proof.
  intros Hne. rewrite existsb_app. simpl.
  apply String.eqb_neq in Hne. by rewrite Hne, !orb_false_r.
Qed.

Lemma existsb_eqb_app_same p done : existsb (String.eqb p) (done ++ [p]) = true.
Proof. rewrite existsb_app. simpl. by rewrite String.eqb_refl, orb_true_r. Qed.

Lemma carries_other R done P k v :
  carries R done P -> occurs "[" k = true \/ k = "attributes" ->
  carries R done (prop_set P k v).
Proof.
  intros Hc Hk q Hq Hqa. rewrite prop_get_set_ne; [by apply Hc|].
  intros ->. destruct Hk; congruence.
Qed.

Lemma carries_delete_attributes R done P :
  carries R done P -> carries R done (prop_delete P "attributes").
Proof.
  intros Hc q Hq Hqa. rewrite prop_get_delete_ne by done. by apply Hc.
Qed.

Lemma carries_done_attributes R done P :
  carries R done P -> carries R (done ++ ["attributes"]) P.
Proof.
  intros Hc q Hq Hqa. rewrite existsb_eqb_app_other by done. by apply Hc.
Qed.

Lemma carries_done_falsy R done P p :
  carries R done P -> truthy (prop_get R p) = false -> carries R (done ++ [p]) P.
Proof.
  intros Hc Hp q Hq Hqa. rewrite (Hc q Hq Hqa).
  destruct (decide (q = p)) as [->|Hne].
  - by rewrite Hp.
  - by rewrite existsb_eqb_app_other.
Qed.

Lemma carries_done_set R done P p :
  carries R done P -> truthy (prop_get R p) = true ->
  carries R (done ++ [p]) (prop_set P p (prop_get R p)).
Proof.
  intros Hc Hp q Hq Hqa. destruct (decide (q = p)) as [->|Hne].
  - by rewrite prop_get_set_eq, Hp, existsb_eqb_app_same.
  - rewrite prop_get_set_ne by done. rewrite existsb_eqb_app_other by done.
    by apply Hc.
Qed.

Lemma extends_put n st0 st' a o :
  extends n st0 st' -> (n <= a)%nat ->
  extends n st0 (with_store (heap_put (store st') a o) st').
Proof.
  intros (Hself & Hmap & Hagree) Ha. split; [done|]. split; [done|].
  intros b Hb. simpl. rewrite heap_get_put_ne by lia. by apply Hagree.
Qed.

Lemma extends_alloc n st0 st' o :
  extends n st0 st' -> (n <= length (store st'))%nat ->
  extends n st0 (with_store (store st' ++ [o]) st').
Proof.
  intros (Hself & Hmap & Hagree) Hn. split; [done|]. split; [done|].
  intros b Hb. simpl. rewrite heap_get_app_old by lia. by apply Hagree.
Qed.

(** [$.each] over the entries of a list that is the image of another. *)
Lemma each_map {A B} (f : A -> B) (xs : list A) (g : B -> M unit) st :
  each (map f xs) g st = each xs (fun x => g (f x)) st.
Proof.
  revert st. induction xs as [|x xs IH]; intros st; [done|].
  cbn [map each]. unfold bind. destruct (g (f x) st) as [[[]|e] st1]; [apply IH|done].
Qed.

(** What [$.each] hands to its callback on an object it does not walk by
    index. *)
Lemma eachKeys_walked l st :
  not_indexed (heap_get (store st) l) ->
  eachKeys (VRef l) st = (Ok (map VStr (walked (heap_get (store st) l))), st).
Proof.
  intros Hwalk. unfold eachKeys, gets, walked. cbv zeta.
  destruct (arrayLength (heap_get (store st) l)) as [[|k]|] eqn:E; [done| |done].
  by destruct (Hwalk k).
Qed.

(** What [$.each] hands to its callback: the names of the object, or
    indices, the first of them 0. *)
Lemma eachKeys_inv l st properties st2 :
  eachKeys (VRef l) st = (Ok properties, st2) ->
  st2 = st
  /\ (properties = map VStr (walked (heap_get (store st) l))
      \/ exists rest, properties = VNum 0 :: rest).
Proof.
  unfold eachKeys, gets, walked. cbv zeta. intros [= <- <-]. split; [done|].
  destruct (arrayLength _) as [[|k]|]; [by left| |by left].
  right. rewrite <- cons_seq. by eexists.
Qed.

Lemma prop_has_set_ne (o : object) k k' v :
  k <> k' -> prop_has (prop_set o k v) k' = prop_has o k'.
Proof.
  intros Hne. induction o as [|[q x] o IH]; simpl.
  - apply String.eqb_neq in Hne. by rewrite Hne.
  - destruct (String.eqb q k) eqn:E; simpl; [|by rewrite IH].
    done.
Qed.

Lemma not_digits_string_of_uint d k :
  all_digits k = false -> k <> string_of_uint d.
Proof.
  intros Hk ->. revert Hk. induction d; simpl; try done.
Qed.

(** Writing a property whose name is neither [length] nor a number leaves
    the way [$.each] walks the object as it was. *)
Lemma arrayLength_set (o : object) k v :
  k <> "length" -> all_digits k = false ->
  arrayLength (prop_set o k v) = arrayLength o.
Proof.
  intros Hk Hd. unfold arrayLength. rewrite prop_get_set_ne by done.
  destruct (prop_get o "length") as [| | |z| |]; try done.
  destruct (z =? 0)%Z; [done|]. destruct (0 <? z)%Z eqn:Ez; [|done]. simpl.
  rewrite prop_has_set_ne; [done|].
  apply Z.ltb_lt in Ez. unfold string_of_Z.
  destruct (z - 1)%Z as [|p|p] eqn:Ep; [by intros ->| |lia].
  by apply not_digits_string_of_uint.
Qed.

Section Run.

Variable cfg : mediaSettings.
Variable st0 : state.
Variable l : loc.

Let n : nat := length (store st0).
Let R : object := heap_get (store st0) l.

Hypothesis Hl : (l < n)%nat.
Hypothesis Hplain : plain_settings R (store st0).
Hypothesis Hwalk : not_indexed R.

Lemma settings_kept st' : extends n st0 st' -> heap_get (store st') l = R.
Proof. intros (_ & _ & Hagree). by apply Hagree. Qed.

Lemma settings_primitive q : q <> "attributes" -> primitive (prop_get R q).
Proof.
  intros Hq a Ha. apply prop_get_In in Ha; [|done].
  destruct (Hplain _ _ Ha) as [_ Hprim]. by apply (Hprim Hq a).
Qed.

Lemma settings_attributes q a :
  prop_get R q = VRef a ->
  q = "attributes" /\ (a < n)%nat /\ strings (heap_get (store st0) a).
Proof.
  intros Ha. destruct (decide (q = "attributes")) as [->|Hq].
  - apply prop_get_In in Ha; [|done].
    destruct (Hplain _ _ Ha) as [Hattr _].
    destruct (Hattr eq_refl) as (la & [= <-] & Hla & Hs). done.
  - by destruct (settings_primitive q Hq a).
Qed.

Lemma settings_attributes_cases :
  prop_get R "attributes" = VUndefined \/ exists a, prop_get R "attributes" = VRef a.
Proof.
  destruct (decide (prop_get R "attributes" = VUndefined)) as [|Hdef]; [by left|].
  right. apply (prop_get_In R "attributes" _ eq_refl) in Hdef.
  destruct (Hplain _ _ Hdef) as [Hattr _].
  destruct (Hattr eq_refl) as (la & Hla & _). by exists la.
Qed.

(** One round of the loop over the token schema in
    [prepareSettingsForToken]. *)
Lemma copy_step p done st' :
  extends n st0 st' -> shaped n (store st') ->
  carries R done (heap_get (store st') n) ->
  exists st1,
    (let! v := getProp (VRef l) p in
     if truthy v then
       let! c := Utils.copyAsNew v in
       setProp (VRef n) p c
     else ret tt) st' = (Ok tt, st1)
    /\ extends n st0 st1 /\ shaped n (store st1)
    /\ carries R (done ++ [p]) (heap_get (store st1) n).
Proof.
  intros Hext Hshaped Hcarries.
  assert (Hn : (n < length (store st'))%nat) by apply Hshaped.
  assert (Hget : getProp (VRef l) p st' = (Ok (prop_get R p), st')).
  { by rewrite getProp_ref, (settings_kept st' Hext). }
  destruct (truthy (prop_get R p)) eqn:Ep.
  - destruct (primitive_cases (prop_get R p)) as [Hprim|[a Ha]].
    + assert (Hp : p <> "attributes").
      { intros ->. destruct settings_attributes_cases as [Hu|[a Ha]].
        - by rewrite Hu in Ep.
        - by apply (Hprim a). }
      exists (with_store
                (heap_put (store st') n (prop_set (heap_get (store st') n) p (prop_get R p)))
                st').
      split; [|split; [|split]].
      * rewrite (bind_ok _ _ _ _ _ Hget), Ep.
        by rewrite (bind_ok _ _ _ _ _ (copyAsNew_primitive _ st' Hprim)), setProp_ref.
      * apply extends_put; [done|lia].
      * by apply shaped_set_primitive.
      * simpl. rewrite heap_get_put_eq by done. by apply carries_done_set.
    + destruct (settings_attributes p a Ha) as (-> & Hla & Hs).
      destruct (copyAsNew_strings a st') as (copy & Hcopy & Hstrings).
      { destruct Hext as (_ & _ & Hagree). by rewrite Hagree. }
      exists (with_store
                (heap_put (store st' ++ [copy]) n
                   (prop_set (heap_get (store st' ++ [copy]) n) "attributes"
                      (VRef (length (store st')))))
                st').
      split; [|split; [|split]].
      * rewrite (bind_ok _ _ _ _ _ Hget), Ep, Ha.
        by rewrite (bind_ok _ _ _ _ _ Hcopy), setProp_ref.
      * apply (extends_put n st0 (with_store (store st' ++ [copy]) st')); [|lia].
        apply extends_alloc; [done|lia].
      * apply shaped_set_attributes; [by apply shaped_alloc| |].
        -- rewrite length_app. simpl. lia.
        -- by rewrite heap_get_app_new.
      * simpl. rewrite heap_get_put_eq by (rewrite length_app; lia).
        rewrite heap_get_app_old by done.
        apply carries_done_attributes, carries_other; [done|by right].
  - exists st'. split; [|split; [done|split; [done|by apply carries_done_falsy]]].
    by rewrite (bind_ok _ _ _ _ _ Hget), Ep.
Qed.

(** The loop over the token schema in [prepareSettingsForToken]. *)
Lemma copy_loop (entries : list (string * propSettings)) :
  forall done st',
    extends n st0 st' -> shaped n (store st') ->
    carries R done (heap_get (store st') n) ->
    exists st'',
      each entries
        (fun entry =>
           let property := fst entry in
           let! v := getProp (VRef l) property in
           if truthy v then
             let! c := Utils.copyAsNew v in
             setProp (VRef n) property c
           else ret tt) st' = (Ok tt, st'')
      /\ extends n st0 st'' /\ shaped n (store st'')
      /\ carries R (done ++ map fst entries) (heap_get (store st'') n).
Proof.
  induction entries as [|[p ps] entries IH]; intros done st' Hext Hshaped Hcarries.
  { exists st'. rewrite app_nil_r. done. }
  destruct (copy_step p done st' Hext Hshaped Hcarries)
    as (st1 & Hstep & Hext1 & Hshaped1 & Hcarries1).
  destruct (IH (done ++ [p]) st1 Hext1 Hshaped1 Hcarries1)
    as (st'' & Hrun & Hext2 & Hshaped2 & Hcarries2).
  exists st''. split; [|split; [done|split; [done|]]].
  - cbn [each fst]. by rewrite (bind_ok _ _ _ _ _ Hstep).
  - simpl. by rewrite <- app_assoc in Hcarries2.
Qed.

Lemma getOverridableFields_returns fid st :
  exists fields, getOverridableFields cfg fid st = (Ok fields, st).
Proof.
  unfold getOverridableFields, bind, gets, ret.
  destruct (truthy _); [|by eexists].
  destruct (find _ _) as [[? fields]|]; by eexists.
Qed.

(** The loop over the properties of the settings for one overridable
    field. *)
Lemma field_loop field (properties : list string) :
  forall done st',
    extends n st0 st' -> shaped n (store st') ->
    carries R done (heap_get (store st') n) ->
    exists st'',
      each properties
        (fun property =>
           if startsWith property (field +:+ "[") then
             let! v := getProp (VRef l) property in
             setProp (VRef n) property v
           else ret tt) st' = (Ok tt, st'')
      /\ extends n st0 st'' /\ shaped n (store st'')
      /\ carries R done (heap_get (store st'') n).
Proof.
  induction properties as [|property properties IH];
    intros done st' Hext Hshaped Hcarries.
  { by exists st'. }
  assert (Hn : (n < length (store st'))%nat) by apply Hshaped.
  cbn [each]. destruct (startsWith property (field +:+ "[")) eqn:Estart.
  - assert (Hbracket : occurs "[" property = true).
    { destruct (occurs "[" property) eqn:E; [done|].
      by rewrite startsWith_field_prefix in Estart. }
    assert (Hp : property <> "attributes") by (by intros ->).
    destruct (IH done
                (with_store
                   (heap_put (store st') n
                      (prop_set (heap_get (store st') n) property (prop_get R property)))
                   st'))
      as (st'' & Hrun & Hext2 & Hshaped2 & Hcarries2).
    + apply extends_put; [done|lia].
    + apply shaped_set_primitive; [done|done|by apply settings_primitive].
    + simpl. rewrite heap_get_put_eq by done. apply carries_other; [done|by left].
    + exists st''. split; [|done].
      unfold bind at 1. unfold bind at 1.
      by rewrite getProp_ref, (settings_kept st' Hext), setProp_ref.
  - destruct (IH done st' Hext Hshaped Hcarries) as (st'' & Hrun & Hrest).
    exists st''. split; [|done]. unfold bind at 1. by unfold ret at 1.
Qed.

(** The loop over the overridable fields in [prepareSettingsForToken]. *)
Lemma fields_loop (fields : list string) :
  forall done st',
    extends n st0 st' -> shaped n (store st') ->
    carries R done (heap_get (store st') n) ->
    exists st'',
      each fields
        (fun field =>
           let! properties := eachKeys (VRef l) in
           each properties
             (fun property =>
                match property with
                | VStr property =>
                    if startsWith property (field +:+ "[") then
                      let! v := getProp (VRef l) property in
                      setProp (VRef n) property v
                    else ret tt
                | _ => throw TypeError
                end)) st' = (Ok tt, st'')
      /\ extends n st0 st'' /\ shaped n (store st'')
      /\ carries R done (heap_get (store st'') n).
Proof.
  induction fields as [|field fields IH]; intros done st' Hext Hshaped Hcarries.
  { by exists st'. }
  destruct (field_loop field (walked R) done st' Hext Hshaped Hcarries)
    as (st1 & Hstep & Hext1 & Hshaped1 & Hcarries1).
  destruct (IH done st1 Hext1 Hshaped1 Hcarries1) as (st'' & Hrun & Hrest).
  exists st''. split; [|done].
  cbn [each]. unfold bind at 1. unfold bind at 1.
  rewrite eachKeys_walked by (by rewrite (settings_kept st' Hext)).
  by rewrite (settings_kept st' Hext), each_map, Hstep.
Qed.

(** Writing an object of strings over the attributes keeps the state in
    shape. *)
Lemma cleaning_update done lc st' o' :
  cleaning R n done lc st0 st' -> strings o' ->
  cleaning R n done lc st0 (with_store (heap_put (store st') lc o') st').
Proof.
  intros (Hext & Hshaped & Hcarries & Hattr) Ho'.
  destruct (shaped_attributes n _ lc Hshaped Hattr) as [Hlc _].
  split; [apply extends_put; [done|lia]|].
  split; [by apply (shaped_update_attributes n _ lc)|].
  simpl. rewrite heap_get_put_ne by lia. done.
Qed.

Lemma cleaning_strings done lc st' :
  cleaning R n done lc st0 st' -> strings (heap_get (store st') lc).
Proof.
  intros (_ & Hshaped & _ & Hattr). by apply (shaped_attributes n _ lc Hshaped Hattr).
Qed.

Lemma clean_delete done lc st' k :
  cleaning R n done lc st0 st' ->
  exists st1,
    (let! attributes := getProp (VRef n) "attributes" in
     deleteProp attributes k) st' = (Ok tt, st1)
    /\ cleaning R n done lc st0 st1.
Proof.
  intros Hc.
  exists (with_store
            (heap_put (store st') lc (prop_delete (heap_get (store st') lc) k)) st').
  split.
  - unfold bind. rewrite getProp_ref. destruct Hc as (_ & _ & _ & ->).
    by rewrite deleteProp_ref.
  - apply cleaning_update; [done|].
    by apply strings_prop_delete, (cleaning_strings done).
Qed.

Lemma clean_delete_loop done lc (table : list (string * string)) :
  forall st',
    cleaning R n done lc st0 st' ->
    exists st1,
      each table
        (fun entry =>
           let! attributes := getProp (VRef n) "attributes" in
           deleteProp attributes (fst entry)) st' = (Ok tt, st1)
      /\ cleaning R n done lc st0 st1.
Proof.
  induction table as [|entry table IH]; intros st' Hc; [by exists st'|].
  destruct (clean_delete done lc st' (fst entry) Hc) as (st1 & Hstep & Hc1).
  destruct (IH st1 Hc1) as (st2 & Hrun & Hc2).
  exists st2. split; [|done]. cbn [each]. by rewrite (bind_ok _ _ _ _ _ Hstep).
Qed.

Lemma clean_class done lc st' :
  cleaning R n done lc st0 st' ->
  exists st1,
    (let class := prop_get (heap_get (store st') lc) "class" in
     if truthy class then
       match class with
       | VStr names =>
           let classes := List.filter keeps_class (split_char " " names) in
           match classes with
           | [] => deleteProp (VRef lc) "class"
           | _ => setProp (VRef lc) "class" (VStr (join " " classes))
           end
       | _ => throw TypeError
       end
     else ret tt) st' = (Ok tt, st1)
    /\ cleaning R n done lc st0 st1.
Proof.
  intros Hc. pose proof (cleaning_strings done lc st' Hc) as Hs.
  cbv zeta. destruct (truthy (prop_get (heap_get (store st') lc) "class")) eqn:Et;
    [|by exists st'].
  destruct (prop_get (heap_get (store st') lc) "class") as [| | | |names|a] eqn:Eclass;
    try (apply prop_get_In in Eclass; [|done];
         destruct (Hs _ _ Eclass) as [s Heq]; discriminate); try done.
  destruct (List.filter keeps_class (split_char " " names)) as [|c classes].
  - eexists. split; [apply deleteProp_ref|].
    apply cleaning_update; [done|by apply strings_prop_delete].
  - eexists. split; [apply setProp_ref|].
    apply cleaning_update; [done|by apply strings_prop_set].
Qed.

Lemma clean_count done lc st' :
  cleaning R n done lc st0 st' ->
  exists st1,
    (let! attributes := getProp (VRef n) "attributes" in
     let! k := countKeys attributes in
     match k with
     | O => deleteProp (VRef n) "attributes"
     | _ => ret tt
     end) st' = (Ok tt, st1)
    /\ extends n st0 st1 /\ shaped n (store st1)
    /\ carries R done (heap_get (store st1) n).
Proof.
  intros (Hext & Hshaped & Hcarries & Hattr).
  assert (Hn : (n < length (store st'))%nat) by apply Hshaped.
  destruct (length (heap_get (store st') lc)) as [|k] eqn:Ek.
  - exists (with_store
              (heap_put (store st') n (prop_delete (heap_get (store st') n) "attributes"))
              st').
    split; [|split; [|split]].
    + unfold bind, countKeys, gets. rewrite getProp_ref, Hattr, Ek.
      by rewrite deleteProp_ref.
    + apply extends_put; [done|lia].
    + by apply shaped_delete_attributes.
    + simpl. rewrite heap_get_put_eq by done. by apply carries_delete_attributes.
  - exists st'. split; [|done].
    unfold bind, countKeys, gets. by rewrite getProp_ref, Hattr, Ek.
Qed.

(** [cleanAttributes] returns and keeps the object in shape. *)
Lemma cleanAttributes_returns done lc st' :
  cleaning R n done lc st0 st' ->
  exists st'',
    cleanAttributes cfg (VRef n) st' = (Ok tt, st'')
    /\ extends n st0 st'' /\ shaped n (store st'')
    /\ carries R done (heap_get (store st'') n).
Proof.
  intros Hc.
  destruct (clean_delete_loop done lc (attributeFields cfg) st' Hc)
    as (st1 & Hrun1 & Hc1).
  destruct (clean_delete done lc st1 "data-fid" Hc1) as (st2 & Hrun2 & Hc2).
  destruct (clean_delete done lc st2 "data-media-element" Hc2) as (st3 & Hrun3 & Hc3).
  destruct (clean_delete done lc st3 "data-media-key" Hc3) as (st4 & Hrun4 & Hc4).
  destruct (clean_class done lc st4 Hc4) as (st5 & Hrun5 & Hc5).
  destruct (clean_count done lc st5 Hc5) as (st6 & Hrun6 & Hrest).
  exists st6. split; [|done].
  unfold cleanAttributes.
  rewrite (bind_ok _ _ _ _ _ Hrun1), (bind_ok _ _ _ _ _ Hrun2).
  rewrite (bind_ok _ _ _ _ _ Hrun3), (bind_ok _ _ _ _ _ Hrun4).
  rewrite (bind_ok _ _ _ _ _ (getProp_ref n "attributes" st4)).
  destruct Hc4 as (_ & _ & _ & ->).
  rewrite (bind_ok _ _ _ _ _ (getProp_ref lc "class" st4)).
  cbv zeta in Hrun5. by rewrite (bind_ok _ _ _ _ _ Hrun5).
Qed.

(** [prepareSettingsForToken] returns a new object, at the next address,
    that carries the truthy schema properties of the settings. *)
Lemma prepareSettingsForToken_returns :
  settings (self st0) = VRef l ->
  exists st',
    prepareSettingsForToken cfg st0 = (Ok (VRef n), st')
    /\ extends n st0 st' /\ shaped n (store st')
    /\ carries R (map fst (tokenSchema cfg)) (heap_get (store st') n).
Proof.
  intros Hs.
  set (sta := with_store (store st0 ++ [[]]) st0).
  assert (Hexta : extends n st0 sta).
  { apply extends_alloc; [|done]. split; [done|]. split; [done|]. by intros a _. }
  assert (Hshapeda : shaped n (store sta)).
  { split; [simpl; rewrite length_app; simpl; lia|].
    simpl. unfold n. rewrite heap_get_app_new. split; [constructor|]. by intros k v []. }
  assert (Hcarriesa : carries R [] (heap_get (store sta) n)).
  { intros q _ _. simpl. unfold n. rewrite heap_get_app_new. simpl.
    by rewrite andb_false_r. }
  destruct (copy_loop (tokenSchema cfg) [] sta Hexta Hshapeda Hcarriesa)
    as (stb & Hrunb & Hextb & Hshapedb & Hcarriesb).
  simpl in Hcarriesb.
  destruct (getOverridableFields_returns (prop_get R "fid") stb) as [fields Hfields].
  destruct (fields_loop fields _ stb Hextb Hshapedb Hcarriesb)
    as (stc & Hrunc & Hextc & Hshapedc & Hcarriesc).
  assert (Hclean : exists st',
             (if truthy (prop_get (heap_get (store stc) n) "attributes")
              then cleanAttributes cfg (VRef n) else ret tt) stc = (Ok tt, st')
             /\ extends n st0 st' /\ shaped n (store st')
             /\ carries R (map fst (tokenSchema cfg)) (heap_get (store st') n)).
  { destruct (truthy (prop_get (heap_get (store stc) n) "attributes")) eqn:Et;
      [|by exists stc].
    assert (Hin : In ("attributes", prop_get (heap_get (store stc) n) "attributes")
                    (heap_get (store stc) n)).
    { apply prop_get_In; [done|]. intros Hu. by rewrite Hu in Et. }
    destruct Hshapedc as (Hn & Hnodup & Hshape).
    destruct (Hshape _ _ Hin) as [Hattr _].
    destruct (Hattr eq_refl) as (lc & Hlc & _).
    by apply (cleanAttributes_returns _ lc). }
  destruct Hclean as (st' & Hrund & Hrest).
  exists st'. split; [|done].
  unfold prepareSettingsForToken.
  rewrite (bind_ok _ _ _ _ _ (newObject_run st0)). fold sta. fold n.
  rewrite (bind_ok _ _ _ _ _ (getSettings_materialized cfg sta l Hs)).
  rewrite (bind_ok _ _ _ _ _ Hrunb).
  rewrite (bind_ok _ _ _ _ _ (getProp_ref l "fid" stb)), (settings_kept stb Hextb).
  rewrite (bind_ok _ _ _ _ _ Hfields), (bind_ok _ _ _ _ _ Hrunc).
  rewrite (bind_ok _ _ _ _ _ (getProp_ref n "attributes" stc)).
  by rewrite (bind_ok _ _ _ _ _ Hrund).
Qed.

End Run.

(** *** The text of the prepared object *)

Lemma serialize_of_primitive fuel h v :
  primitive v -> serialize fuel h v = Some (json_of v).
Proof.
  intros Hv. destruct fuel, v as [| | | | |a]; first [done|by destruct (Hv a)].
Qed.

(** The members [JSON.stringify] writes for an object whose properties it
    can all serialize: those that are not [undefined], in order. *)
Lemma serialize_members_total rec (o : object) :
  (forall k v, In (k, v) o -> exists r, rec v = Some r) ->
  exists ms,
    serialize_members rec o = Some ms
    /\ (forall q, In q (map fst ms) -> In q (keys o))
    /\ (NoDup (keys o) -> NoDup (map fst ms))
    /\ (forall q v j, In (q, v) o -> rec v = Some (Some j) -> In (q, j) ms)
    /\ (forall q j, In (q, j) ms -> exists v, In (q, v) o /\ rec v = Some (Some j)).
Proof.
  induction o as [|[k x] o IH]; intros Hrec.
  { exists []. simpl. repeat split; done. }
  destruct IH as (ms & Hms & Hkeys & Hnodup & Hin & Hback).
  { intros k' v' Hin. apply (Hrec k'). by right. }
  destruct (Hrec k x ltac:(by left)) as [[j|] Hx].
  - exists ((k, j) :: ms). simpl. rewrite Hx, Hms. split; [done|].
    split; [|split; [|split]].
    + intros q [<-|Hq]; [by left|right; by apply Hkeys].
    + intros [Hk Ho]%NoDup_cons. apply NoDup_cons. split; [|by apply Hnodup].
      intros Hk'%list_elem_of_In%Hkeys. apply Hk. by apply list_elem_of_In.
    + intros q v j' [[= <- <-]|Hq] Hv.
      * left. congruence.
      * right. by apply (Hin q v).
    + intros q j' [[= <- <-]|Hq].
      * exists x. split; [by left|done].
      * destruct (Hback q j' Hq) as (v & Hv & Hrv). exists v. split; [by right|done].
  - exists ms. simpl. rewrite Hx, Hms. split; [done|].
    split; [|split; [|split]].
    + intros q Hq. right. by apply Hkeys.
    + intros [Hk Ho]%NoDup_cons. by apply Hnodup.
    + intros q v j' [[= <- <-]|Hq] Hv; [congruence|]. by apply (Hin q v).
    + intros q j' Hq. destruct (Hback q j' Hq) as (v & Hv & Hrv).
      exists v. split; [by right|done].
Qed.

Lemma serialize_strings fuel h lc :
  strings (heap_get h lc) ->
  exists ms, serialize (S fuel) h (VRef lc) = Some (Some (JObj ms)).
Proof.
  intros Hs.
  destruct (serialize_members_total (serialize fuel h) (heap_get h lc)) as (ms & Hms & _).
  { intros k v Hin. destruct (Hs k v Hin) as [s ->].
    rewrite serialize_of_primitive by done. by eexists. }
  exists ms. simpl. by rewrite Hms.
Qed.

(** The text of the prepared object: an object whose members are the
    properties that are not [undefined]. *)
Lemma serialize_shaped n h' fuel :
  shaped n h' ->
  exists ms,
    serialize (S (S fuel)) h' (VRef n) = Some (Some (JObj ms))
    /\ NoDup (map fst ms)
    /\ (forall q, primitive (prop_get (heap_get h' n) q) ->
         match json_of (prop_get (heap_get h' n) q) with
         | Some j => In (q, j) ms
         | None => ~ In q (map fst ms)
         end).
Proof.
  intros (Hn & Hnodup & Hshape).
  assert (Hrec : forall k v, In (k, v) (heap_get h' n) ->
                   exists r, serialize (S fuel) h' v = Some r).
  { intros k v Hin. destruct (Hshape k v Hin) as [Hattr Hprim].
    destruct (decide (k = "attributes")) as [Hk|Hk].
    - destruct (Hattr Hk) as (lc & -> & _ & Hs).
      destruct (serialize_strings fuel h' lc Hs) as [ms Hms]. by eexists.
    - rewrite (serialize_of_primitive _ _ _ (Hprim Hk)). by eexists. }
  destruct (serialize_members_total (serialize (S fuel) h') (heap_get h' n) Hrec)
    as (ms & Hms & Hkeys & Hnd & Hin & Hback).
  exists ms. split; [|split; [by apply Hnd|]].
  { change (serialize (S (S fuel)) h' (VRef n))
      with (match serialize_members (serialize (S fuel) h') (heap_get h' n) with
            | None => None
            | Some ms => Some (Some (JObj ms))
            end).
    by rewrite Hms. }
  intros q Hprim.
  destruct (json_of (prop_get (heap_get h' n) q)) as [j|] eqn:Ej.
  - apply (Hin q (prop_get (heap_get h' n) q)).
    + apply prop_get_In; [done|]. intros Hu. by rewrite Hu in Ej.
    + by rewrite (serialize_of_primitive _ _ _ Hprim), Ej.
  - intros Hq. apply in_map_iff in Hq as [[q' j] [Hq' Hq]]. simpl in Hq'. subst q'.
    destruct (Hback q j Hq) as (v & Hv & Hrv).
    rewrite <- (In_prop_get _ _ _ Hnodup Hv) in Hrv.
    rewrite (serialize_of_primitive _ _ _ Hprim), Ej in Hrv. done.
Qed.

End Prepared.

(** ** Reading a token back *)

Section ReadBack.
Import JS JSON Page Vocabulary WysiwygInstance.
Local Open Scope m_scope.

Lemma build_object ms h :
  build (JObj ms) h
  = (fst (build_members ms h []) ++ [snd (build_members ms h [])],
     VRef (length (fst (build_members ms h [])))).
Proof.
  change (build (JObj ms) h)
    with (let '(h1, o) := build_members ms h [] in
          let '(h2, l) := heap_alloc h1 o in (h2, VRef l)).
  by destruct (build_members ms h []).
Qed.

Lemma build_primitive v j h : json_of v = Some j -> build j h = (h, v).
Proof. destruct v; simpl; intros [= <-]; reflexivity. Qed.

(** Parsing only adds objects to the store. *)
Lemma build_grows : forall j h, exists extra, fst (build j h) = h ++ extra.
Proof.
  fix IH 1. intros [| | | |ms] h; try (exists []; by rewrite app_nil_r).
  rewrite build_object. cbn [fst].
  assert (Hms : forall o, exists extra, fst (build_members ms h o) = h ++ extra).
  { revert h. induction ms as [|[k v] ms IHms]; intros h o.
    - exists []. by rewrite app_nil_r.
    - cbn [build_members]. destruct (IH v h) as [extra1 H1].
      destruct (build v h) as [h1 x]. simpl in H1. subst h1.
      destruct (IHms (h ++ extra1) (prop_set o k x)) as [extra2 H2].
      exists (extra1 ++ extra2). by rewrite H2, app_assoc. }
  destruct (Hms []) as [extra Hextra]. rewrite Hextra.
  exists (extra ++ [snd (build_members ms h [])]). by rewrite app_assoc.
Qed.

(** The object built from members: the primitive ones are its properties. *)
Lemma build_members_props ms :
  forall h o,
    (forall q, ~ In q (map fst ms) ->
       prop_get (snd (build_members ms h o)) q = prop_get o q)
    /\ (NoDup (map fst ms) ->
        forall q j v, In (q, j) ms -> json_of v = Some j ->
          prop_get (snd (build_members ms h o)) q = v).
Proof.
  induction ms as [|[k x] ms IH]; intros h o.
  { split; [done|]. by intros _ q j v []. }
  cbn [build_members]. destruct (build x h) as [h1 xv] eqn:Ex.
  destruct (IH h1 (prop_set o k xv)) as [IH1 IH2].
  split.
  - intros q Hq. rewrite IH1 by (intros Hin; apply Hq; by right).
    apply prop_get_set_ne. intros ->. apply Hq. by left.
  - intros [Hk Hms]%NoDup_cons q j v [[= <- <-]|Hin] Hv.
    + rewrite (build_primitive v x h Hv) in Ex. injection Ex as <- <-.
      rewrite IH1 by (intros Hin; apply Hk; by apply list_elem_of_In).
      apply prop_get_set_eq.
    + by apply (IH2 Hms q j v).
Qed.

Lemma replace_first_prefix pattern replacement s :
  String.prefix pattern s = true ->
  replace_first pattern replacement s
  = replacement +:+ drop_chars (String.length pattern) s.
Proof. intros H. destruct s; cbn [replace_first]; by rewrite H. Qed.

Lemma replace_first_skip pattern replacement c s :
  String.prefix pattern (String c s) = false ->
  replace_first pattern replacement (String c s)
  = String c (replace_first pattern replacement s).
Proof. intros H. cbn [replace_first]. by rewrite H. Qed.

Lemma prefix_cons a s1 b s2 :
  String.prefix (String a s1) (String b s2)
  = if ascii_dec a b then String.prefix s1 s2 else false.
Proof. reflexivity. Qed.

Lemma prefix_nil s : String.prefix "" s = true.
Proof. by destruct s. Qed.

Lemma replace_closing text :
  includes (text +:+ "]") "]]" = false ->
  replace_first "]]" "" (text +:+ "]]") = text.
Proof.
  induction text as [|c text IH]; [done|].
  rewrite !string_app_cons. cbn [includes].
  intros [Hhere Hlater]%orb_false_iff.
  rewrite replace_first_skip, (IH Hlater); [done|].
  rewrite prefix_cons in *. destruct (ascii_dec "]" c) as [<-|]; [|done].
  destruct text as [|d text].
  - by vm_compute in Hhere.
  - rewrite string_app_cons, prefix_cons in *.
    destruct (ascii_dec "]" d); [|done]. by rewrite prefix_nil in Hhere.
Qed.

(** The text between the brackets of a token that closes once. *)
Lemma strip_token text :
  includes (text +:+ "]") "]]" = false ->
  replace_first "]]" "" (replace_first "[[" "" ("[[" +:+ text +:+ "]]")) = text.
Proof.
  intros Hclosing.
  rewrite (replace_first_prefix "[[") by (apply prefix_app; by eexists).
  rewrite drop_chars_app, string_app_nil_l. by apply replace_closing.
Qed.

Variable cfg : mediaSettings.

Lemma each_with_reads {A S} (xs : list A) (f : S -> A -> M S) :
  (forall s x st, snd (f s x st) = st) -> forall s st, snd (each_with xs f s st) = st.
Proof.
  intros Hf. induction xs as [|x xs IH]; intros s st; [done|].
  cbn [each_with]. unfold bind. specialize (Hf s x st).
  destruct (f s x st) as [[s'|e] st1]; simpl in Hf; subst st1; [apply IH|done].
Qed.

Lemma overrideLinkTitle_reads st l :
  settings (self st) = VRef l -> snd (overrideLinkTitle cfg st) = st.
Proof.
  intros Hs. unfold overrideLinkTitle.
  rewrite (bind_ok _ _ _ _ _ (getSettings_materialized cfg st l Hs)).
  destruct (DOM.attr_lookup (attributeFields cfg) "title") as [title|]; [|done].
  destruct (nonempty title); [|done].
  unfold bind at 1. unfold eachKeys at 1, gets at 1. unfold bind at 1.
  match goal with
  | |- context [each_with ?xs ?f ?s st] =>
      pose proof (each_with_reads xs f ltac:(by intros ? [] ?) s st) as Hw;
      destruct (each_with xs f s st) as [[name|e] st1]
  end; simpl in Hw; subst st1; [|done].
  unfold bind, getProp. simpl. by destruct (_ && _).
Qed.

Lemma new_token t st :
  new cfg (VStr t) None st
  = (Ok tt, with_self (Instance t VNull "" (Some "") None) st).
Proof. reflexivity. Qed.

(** What [getToken] does to [link_text] when it is a string. *)
Lemma link_step st l :
  settings (self st) = VRef l -> (l < length (store st))%nat ->
  link_title_text cfg st (heap_get (store st) l) ->
  exists stL,
    (if String.eqb (typeof (prop_get (heap_get (store st) l) "link_text")) "string" then
       let! title := overrideLinkTitle cfg in
       setProp (VRef l) "link_text" title ;;
       let! link_text := getProp (VRef l) "link_text" in
       match link_text with
       | VStr text => setProp (VRef l) "link_text" (VStr (escape_angle_brackets text))
       | _ => throw TypeError
       end
     else ret tt) st = (Ok tt, stL)
    /\ self stL = self st /\ fidTypeMap stL = fidTypeMap st
    /\ length (store stL) = length (store st)
    /\ (forall a, a <> l -> heap_get (store stL) a = heap_get (store st) a)
    /\ (forall q, q <> "link_text" ->
          prop_get (heap_get (store stL) l) q = prop_get (heap_get (store st) l) q)
    /\ (forall k v, In (k, v) (heap_get (store stL) l) ->
          In (k, v) (heap_get (store st) l) \/ (k = "link_text" /\ exists s, v = VStr s))
    /\ arrayLength (heap_get (store stL) l) = arrayLength (heap_get (store st) l)
    /\ (typeof (prop_get (heap_get (store st) l) "link_text") <> "string" -> stL = st)
    /\ (forall s, typeof (prop_get (heap_get (store st) l) "link_text") = "string" ->
          fst (overrideLinkTitle cfg st) = Ok (VStr s) ->
          prop_get (heap_get (store stL) l) "link_text" = VStr (escape_angle_brackets s)).
Proof.
  intros Hs Hl Htitle.
  destruct (String.eqb (typeof (prop_get (heap_get (store st) l) "link_text")) "string")
    eqn:Etype.
  - apply String.eqb_eq in Etype. destruct (Htitle Etype) as [s Hfst].
    assert (Hrun : overrideLinkTitle cfg st = (Ok (VStr s), st)).
    { pose proof (overrideLinkTitle_reads st l Hs) as Hsnd.
      destruct (overrideLinkTitle cfg st) as [r st1]. simpl in *. congruence. }
    set (R1 := prop_set (heap_get (store st) l) "link_text" (VStr s)).
    set (R2 := prop_set R1 "link_text" (VStr (escape_angle_brackets s))).
    exists (with_store (heap_put (heap_put (store st) l R1) l R2) st).
    split; [|split; [done|split; [done|split; [|split; [|split; [|split; [|split]]]]]]].
    + rewrite (bind_ok _ _ _ _ _ Hrun).
      rewrite (bind_ok _ _ _ _ _ (setProp_ref l "link_text" (VStr s) st)). fold R1.
      rewrite (bind_ok _ _ _ _ _ (getProp_ref l "link_text" _)). simpl.
      rewrite heap_get_put_eq by done. unfold R1 at 1. rewrite prop_get_set_eq.
      rewrite setProp_ref. simpl. by rewrite heap_get_put_eq by done.
    + simpl. by rewrite !heap_put_length.
    + intros a Ha. simpl. by rewrite !heap_get_put_ne.
    + intros q Hq. simpl. rewrite heap_get_put_eq by (by rewrite heap_put_length).
      unfold R2, R1. by rewrite !prop_get_set_ne.
    + intros k v. simpl. rewrite heap_get_put_eq by (by rewrite heap_put_length).
      unfold R2, R1. intros [[-> ->]|[[-> ->]|Hin]%In_prop_set]%In_prop_set.
      * right. split; [done|by eexists].
      * right. split; [done|by eexists].
      * by left.
    + simpl. rewrite heap_get_put_eq by (by rewrite heap_put_length).
      unfold R2, R1. by rewrite !arrayLength_set.
    + split; [by intros []|]. intros s' _ Hs'.
      assert (s' = s) as -> by congruence.
      simpl. rewrite heap_get_put_eq by (by rewrite heap_put_length).
      unfold R2. apply prop_get_set_eq.
  - exists st. split; [done|]. repeat split; try done.
    + intros k v Hin. by left.
    + intros s Htype. by rewrite Htype in Etype.
Qed.

End ReadBack.

(** * Part III: further properties of the helpers and of the instance *)

(** ** The stateless helpers *)

Section Helpers.
Import JS Page Vocabulary.
Local Open Scope m_scope.


Lemma first_starting_with_split needle (properties : list string) :
  match Utils.first_starting_with needle properties with
  | VStr k =>
      exists pre post, properties = pre ++ k :: post
        /\ startsWith k needle = true
        /\ Forall (fun k' => startsWith k' needle = false) pre
  | VNull => Forall (fun k' => startsWith k' needle = false) properties
  | _ => False
  end.
Proof.
  induction properties as [|p ps IH]; simpl; [by constructor|].
  destruct (startsWith p needle) eqn:E.
  - by exists [], ps.
  - destruct (Utils.first_starting_with needle ps) as [| | | |k|]; try done.
    + by constructor.
    + destruct IH as (pre & post & -> & Hk & Hpre).
      exists (p :: pre), post. split; [done|]. split; [done|by constructor].
Qed.

(** X1: [propertyStartsWith] on an object returns the first of its property
    names, in the order of enumeration, that starts with the needle, and
    [null] exactly when no name does; it changes nothing. *)
Theorem propertyStartsWith_first_match needle l st :
  exists r, Utils.propertyStartsWith needle (VRef l) st = (Ok r, st)
    /\ match r with
       | VStr k =>
           exists pre post, keys (heap_get (store st) l) = pre ++ k :: post
             /\ startsWith k needle = true
             /\ Forall (fun k' => startsWith k' needle = false) pre
       | VNull =>
           Forall (fun k' => startsWith k' needle = false) (keys (heap_get (store st) l))
       | _ => False
       end.
Proof.
  eexists. split; [reflexivity|]. apply first_starting_with_split.
Qed.

(** *** [createKey] *)







(** *** [copyAsNew] *)

Lemma serialize_members_more rec1 rec2 (o : object) ms :
  (forall k x r, In (k, x) o -> rec1 x = Some r -> rec2 x = Some r) ->
  JSON.serialize_members rec1 o = Some ms -> JSON.serialize_members rec2 o = Some ms.
Proof.
  revert ms. induction o as [|[k x] o IH]; intros ms H; simpl; [done|].
  destruct (rec1 x) as [r|] eqn:E; [|done].
  rewrite (H k x r (or_introl eq_refl) E).
  assert (H' : forall k x r, In (k, x) o -> rec1 x = Some r -> rec2 x = Some r).
  { intros k' x' r' Hin. apply (H k'). by right. }
  destruct r as [j|].
  - destruct (JSON.serialize_members rec1 o) as [ms'|]; [|done].
    intros [= <-]. by rewrite (IH ms' H').
  - apply IH, H'.
Qed.

(** More fuel reads the same value. *)
Lemma serialize_more_fuel n n' h v r :
  (n <= n')%nat -> JSON.serialize n h v = Some r -> JSON.serialize n' h v = Some r.
Proof.
  revert n' v r. induction n as [|n IH]; intros n' v r Hle H.
  - destruct v; by destruct n'.
  - destruct n' as [|n']; [lia|].
    destruct v as [| | | | |l]; try done. simpl in *.
    destruct (JSON.serialize_members (JSON.serialize n h) (heap_get h l)) as [ms|] eqn:E;
      [|done].
    rewrite (serialize_members_more (JSON.serialize n h) (JSON.serialize n' h) _ ms);
      [done| |done].
    intros k x r' _. apply IH. lia.
Qed.

(** X3: [copyAsNew] of an object that [JSON.stringify] can read, in a region
    of the store closed under references, returns a new object: an address
    the store did not have; the objects that existed are as they were, the
    new objects refer to new objects only, and the copy reads as the
    original does. *)
Theorem copyAsNew_deep_copy (m : nat) (l : loc) (st : state) :
  region m (store st) -> (l < m)%nat ->
  JSON.stringify (store st) (VRef l) <> Throw TypeError ->
  exists st',
    Utils.copyAsNew (VRef l) st = (Ok (VRef (length (store st))), st')
    /\ self st' = self st /\ fidTypeMap st' = fidTypeMap st
    /\ (length (store st) < length (store st'))%nat
    /\ agree_on (fun a => (a < length (store st))%nat) (store st) (store st')
    /\ closed_in (fun a => (length (store st) <= a < length (store st'))%nat) (store st')
    /\ JSON.stringify (store st') (VRef (length (store st)))
       = JSON.stringify (store st) (VRef l).
Proof.
  intros Hreg Hl Hstr.
  assert (Hdef : JSON.serialize (S (length (store st))) (store st) (VRef l) <> None).
  { unfold JSON.stringify in Hstr.
    by destruct (JSON.serialize (S (length (store st))) (store st) (VRef l)). }
  destruct (extend_deep_returns m _ (store st) l (S (length (store st)))
              Hreg Hl Hdef ltac:(lia)) as (h' & t & Hcopy).
  destruct (extend_deep_ok m _ _ _ _ _ Hcopy) as (-> & Hlen & Hagree & Hclosed & Hser).
  exists (with_store h' st).
  split. { unfold Utils.copyAsNew, on_heap. by rewrite Hcopy. }
  split; [done|]. split; [done|]. split; [done|]. split; [done|]. split; [done|].
  cbn [store with_store]. unfold JSON.stringify.
  rewrite (Hser Hreg Hl).
  destruct (JSON.serialize (S (length (store st))) (store st) (VRef l)) as [r|] eqn:E;
    [|done].
  by rewrite (serialize_more_fuel (S (length (store st))) (S (length h')) _ _ r)
    by (done || lia).
Qed.

Lemma copyAsNew_deep_copy_witness :
  exists st',
    Utils.copyAsNew (VRef 1%nat) Samples.nested = (Ok (VRef 3%nat), st')
    /\ JSON.stringify (store st') (VRef 3%nat)
       = JSON.stringify (store Samples.nested) (VRef 1%nat).
Proof.
  destruct (copyAsNew_deep_copy 2 1 Samples.nested) as (st' & H1 & _ & _ & _ & _ & _ & H2).
  - apply region_ok_region. reflexivity.
  - lia.
  - by vm_compute.
  - by exists st'.
Defined.

End Helpers.

(** ** The instance: settings *)

#[local] Instance same_preorder {A} (f : Page.state -> A) : PreOrder (Vocabulary.same f).
Proof. split; unfold Vocabulary.same; [by intros st|intros st1 st2 st3; congruence]. Qed.

Ltac frame_prim :=
  first
    [ apply steps_ret; apply _ | apply steps_throw; apply _ | apply steps_gets; apply _
    | apply steps_state_fun; apply _
    | apply steps_on_heap; first [apply _|intros; unfold Vocabulary.same; reflexivity]
    | apply steps_modify; first [apply _|intros; unfold Vocabulary.same; reflexivity] ].

Ltac frame_go :=
  repeat first
    [ frame_prim
    | match goal with H : _ |- _ => apply H end
    | apply steps_bind; [try apply _..|intros ?]
    | apply steps_each; [try apply _..|intros ?]
    | apply steps_each_with; [try apply _..|intros ? ?]
    | progress unfold Page.getProp, Page.setProp, Page.deleteProp, Page.newObject,
        Page.ownKeys, Page.eachKeys, Page.countKeys, Page.thisToken, Page.thisSettings, Page.thisKey,
        Page.thisPlaceholderBase, Page.thisPlaceholder, Page.setSettings, Page.setToken,
        Page.setKey, Page.assignPlaceholderBase, Page.assignPlaceholder,
        WysiwygInstance.withPlaceholder
    | match goal with
      | |- Vocabulary.steps _ (if ?b then _ else _) => destruct b
      | |- Vocabulary.steps _ (match ?x with _ => _ end) => destruct x
      | |- Vocabulary.steps _ (let '(_, _) := ?x in _) => destruct x
      end ].

Section Settings.
Import JS Page Vocabulary WysiwygInstance.
Local Open Scope m_scope.

Variable cfg : mediaSettings.

Lemma copyAsNew_self v : steps (same self) (Utils.copyAsNew v).
Proof. unfold Utils.copyAsNew. frame_go. Qed.

Lemma copyAsNew_fidTypeMap v : steps (same fidTypeMap) (Utils.copyAsNew v).
Proof. unfold Utils.copyAsNew. frame_go. Qed.

Lemma verifySettings_self : steps (same self) (verifySettings cfg).
Proof.
  unfold verifySettings, verifyProperty. pose proof copyAsNew_self. frame_go.
Qed.

Lemma verifySettings_fidTypeMap : steps (same fidTypeMap) (verifySettings cfg).
Proof.
  unfold verifySettings, verifyProperty. pose proof copyAsNew_fidTypeMap. frame_go.
Qed.

(** Settings that pass the verification are an object of type [media]. *)
Lemma verifySettings_object st st' :
  verifySettings cfg st = (Ok tt, st') ->
  exists l, settings (self st) = VRef l
            /\ prop_get (heap_get (store st') l) "type" = VStr "media".
Proof.
  intros Hrun.
  pose proof (steps_run _ _ _ _ _ verifySettings_self Hrun) as Hself.
  unfold same in Hself.
  unfold verifySettings in Hrun.
  apply bind_ok_inv in Hrun as (s0 & st0 & E0 & Hrun).
  unfold thisSettings, gets in E0. simplify_eq.
  destruct (falsy (settings (self st0))); [done|].
  apply bind_ok_inv in Hrun as ([] & st1 & E1 & Hrun).
  apply bind_ok_inv in Hrun as (s2 & st2 & E2 & Hrun).
  unfold thisSettings, gets in E2. simplify_eq.
  apply bind_ok_inv in Hrun as (type & st3 & E3 & Hrun).
  case_decide as Htype; [|done]. unfold ret in Hrun. simplify_eq.
  unfold getProp in E3. injection E3 as E3 <-. rewrite Hself in E3.
  destruct (settings (self st0)) as [| | | | |l]; simpl in E3; simplify_eq.
  by exists l.
Qed.

Lemma with_settings_same i : with_settings (settings i) i = i.
Proof. by destruct i. Qed.

Lemma getSettings_held st :
  truthy (settings (self st)) = true -> getSettings cfg st = (Ok (settings (self st)), st).
Proof.
  intros Ht. unfold getSettings, bind, thisSettings, gets, ret, falsy. by rewrite Ht.
Qed.

(** X4: [getSettings] parses the token once.  Settings that are held are
    returned as they are, with nothing changed; with neither settings nor
    token it throws; and when it returns, the value is stored as the
    settings of the instance, the other fields of the instance are as they
    were, a second call returns the same value and changes nothing, and
    settings read from the token are an object of type [media]. *)
Theorem getSettings_resolves_once :
  (forall st, truthy (settings (self st)) = true ->
     getSettings cfg st = (Ok (settings (self st)), st))
  /\ (forall st, truthy (settings (self st)) = false -> token (self st) = "" ->
        getSettings cfg st = (Throw (Thrown "Instance missing basic info"), st))
  /\ (forall st v st',
        getSettings cfg st = (Ok v, st') ->
        self st' = with_settings v (self st)
        /\ fidTypeMap st' = fidTypeMap st
        /\ truthy v = true
        /\ getSettings cfg st' = (Ok v, st')
        /\ (truthy (settings (self st)) = false ->
            nonempty (token (self st)) = true
            /\ exists l, v = VRef l
                         /\ prop_get (heap_get (store st') l) "type" = VStr "media")).
Proof.
  split; [exact getSettings_held|]. split.
  { intros st Ht Htok.
    unfold getSettings, bind, thisSettings, thisToken, gets, throw, falsy.
    rewrite Ht. simpl. by rewrite Htok. }
  intros st v st' Hrun.
  destruct (truthy (settings (self st))) eqn:Ht.
  { rewrite getSettings_held in Hrun by done. simplify_eq.
    rewrite with_settings_same.
    split; [done|]. split; [done|]. split; [done|].
    split; [by apply getSettings_held|done]. }
  unfold getSettings in Hrun.
  apply bind_ok_inv in Hrun as (s0 & st0 & E0 & Hrun).
  unfold thisSettings at 1, gets in E0. simplify_eq.
  unfold falsy in Hrun. rewrite Ht in Hrun. simpl in Hrun.
  apply bind_ok_inv in Hrun as ([] & st1 & E1 & Hrun).
  unfold thisSettings, gets in Hrun. simplify_eq.
  apply bind_ok_inv in E1 as (tok & st2 & E2 & E1).
  unfold thisToken, gets in E2. simplify_eq.
  destruct (nonempty (token (self st2))) eqn:Hne; [|done].
  apply bind_ok_inv in E1 as (parsed & st3 & E3 & E1).
  apply bind_ok_inv in E1 as ([] & st4 & E4 & E1).
  unfold setSettings, modify in E4. simplify_eq.
  pose proof (steps_run _ _ _ _ _ verifySettings_self E1) as Hself.
  pose proof (steps_run _ _ _ _ _ verifySettings_fidTypeMap E1) as Hmap.
  unfold same in Hself, Hmap. simpl in Hself, Hmap.
  assert (H3 : self st3 = self st2 /\ fidTypeMap st3 = fidTypeMap st2).
  { unfold on_heap in E3.
    destruct (JSON.parse (store st2) _) as [[h a]|e]; by simplify_eq. }
  destruct H3 as [Hself3 Hmap3].
  apply verifySettings_object in E1 as (l & Hl & Htype). simpl in Hl. subst parsed.
  assert (Hv : settings (self st') = VRef l) by (by rewrite Hself).
  split; [by rewrite Hself, Hself3|]. split; [congruence|].
  rewrite Hv. split; [done|].
  split; [by rewrite <- Hv; apply getSettings_held; rewrite Hv|].
  intros _. split; [done|]. by exists l.
Qed.

End Settings.

Lemma getSettings_resolves_once_witness :
  WysiwygInstance.getSettings Samples.cfg
    (snd (WysiwygInstance.getSettings Samples.cfg
            (snd (WysiwygInstance.new Samples.cfg (JS.VStr Samples.classy_token) None
                    Samples.page))))
  = (JS.Ok (JS.VRef 3%nat),
     snd (WysiwygInstance.getSettings Samples.cfg
            (snd (WysiwygInstance.new Samples.cfg (JS.VStr Samples.classy_token) None
                    Samples.page)))).
Proof.
  destruct (getSettings_resolves_once Samples.cfg) as (_ & _ & H).
  destruct (H (snd (WysiwygInstance.new Samples.cfg (JS.VStr Samples.classy_token) None
                      Samples.page))
              (JS.VRef 3%nat)
              (snd (WysiwygInstance.getSettings Samples.cfg
                      (snd (WysiwygInstance.new Samples.cfg
                              (JS.VStr Samples.classy_token) None Samples.page)))))
    as (_ & _ & _ & Hagain & _).
  - apply pair_fst. vm_compute. reflexivity.
  - exact Hagain.
Defined.

(** ** Verification, once more *)

Section Verified.
Import JS Page Vocabulary WysiwygInstance.
Local Open Scope m_scope.

Variable cfg : mediaSettings.

Lemma heap_put_get_same (h : heap) l : heap_put h l (heap_get h l) = h.
Proof.
  destruct (heap_put_same h l) as [H|H]; [done|].
  unfold heap_put. by apply list_insert_ge.
Qed.

Lemma with_store_same st : with_store (store st) st = st.
Proof. by destruct st. Qed.

Lemma prop_has_set_mono (o : object) k v q :
  prop_has o q = true -> prop_has (prop_set o k v) q = true.
Proof.
  induction o as [|[k' v'] o IH]; simpl; [done|].
  destruct (String.eqb k' k) eqn:E; simpl.
  - done.
  - destruct (String.eqb k' q); [done|apply IH].
Qed.

(** One entry of the schema, verified without error: what it leaves of the
    settings object. *)
Lemma verifyProperty_leaves p ps st st' l :
  settings (self st) = VRef l -> (l < length (store st))%nat ->
  verifyProperty (p, ps) st = (Ok tt, st') ->
  self st' = self st
  /\ (l < length (store st'))%nat
  /\ (forall q, prop_has (heap_get (store st) l) q = true ->
        prop_has (heap_get (store st') l) q = true)
  /\ (forall q, q <> p ->
        prop_get (heap_get (store st') l) q = prop_get (heap_get (store st) l) q)
  /\ (truthy (prop_get (heap_get (store st') l) p) = true
      \/ (required ps = false /\ prop_has (heap_get (store st') l) p = true
          /\ prop_get (heap_get (store st') l) p = default ps
          /\ primitive (default ps))).
Proof.
  intros Hs Hl Hrun.
  destruct (truthy (prop_get (heap_get (store st) l) p)) eqn:Ht.
  { rewrite (verifyProperty_truthy p ps st l Hs Ht) in Hrun. simplify_eq.
    repeat split; try done. by left. }
  unfold verifyProperty in Hrun.
  apply bind_ok_inv in Hrun as (s0 & st0 & E0 & Hrun).
  unfold thisSettings, gets in E0. simplify_eq. rewrite Hs in Hrun.
  destruct (required ps) eqn:Hreq.
  { apply bind_ok_inv in Hrun as (v & st1 & E1 & Hrun).
    rewrite getProp_ref in E1. simplify_eq. unfold falsy in Hrun.
    by rewrite Ht in Hrun. }
  apply bind_ok_inv in Hrun as (v & st1 & E1 & Hrun).
  rewrite getProp_ref in E1. simplify_eq. unfold falsy in Hrun.
  rewrite Ht in Hrun. simpl in Hrun.
  apply bind_ok_inv in Hrun as (d & st2 & E2 & Hrun).
  rewrite setProp_ref in Hrun. simplify_eq.
  assert (Hcopy : self st2 = self st1
                  /\ (length (store st1) <= length (store st2))%nat
                  /\ heap_get (store st2) l = heap_get (store st1) l
                  /\ (truthy d = true \/ (d = default ps /\ primitive (default ps)))).
  { destruct (default ps) as [| | | | |s] eqn:Ed;
      try (rewrite copyAsNew_primitive in E2 by done; simplify_eq;
           split; [done|]; split; [done|]; split; [done|]; right; by split).
    apply copyAsNew_object in E2 as (h' & t & Hdeep & -> & ->).
    destruct (extend_deep_ok 0 _ _ _ _ _ Hdeep) as (_ & Hlen & Hagree & _).
    split; [done|]. split; [simpl; lia|]. split; [by apply Hagree|by left]. }
  destruct Hcopy as (Hself & Hlen & Hget & Hd).
  assert (Hl2 : (l < length (store st2))%nat) by lia.
  cbn [store self with_store].
  rewrite heap_put_length, heap_get_put_eq, Hget by done.
  split; [done|]. split; [done|].
  split; [intros q; apply prop_has_set_mono|].
  split; [intros q Hq; by apply prop_get_set_ne|].
  rewrite prop_get_set_eq, prop_has_set_eq.
  destruct Hd as [Hd|[-> Hprim]]; [by left|by right].
Qed.

(** An entry that is truthy, or optional and at its primitive default, is
    verified without a change. *)
Lemma verifyProperty_settled p ps st l :
  settings (self st) = VRef l ->
  truthy (prop_get (heap_get (store st) l) p) = true
  \/ (required ps = false /\ prop_has (heap_get (store st) l) p = true
      /\ prop_get (heap_get (store st) l) p = default ps
      /\ primitive (default ps)) ->
  verifyProperty (p, ps) st = (Ok tt, st).
Proof.
  intros Hs [Ht|(Hreq & Hhas & Hget & Hprim)]; [by apply (verifyProperty_truthy p ps st l)|].
  destruct (truthy (prop_get (heap_get (store st) l) p)) eqn:Ht;
    [by apply (verifyProperty_truthy p ps st l)|].
  unfold verifyProperty.
  rewrite (bind_ok _ _ _ _ _ (thisSettings_run st)), Hs, Hreq.
  rewrite (bind_ok _ _ _ _ _ (getProp_ref l p st)).
  unfold falsy. rewrite Ht. simpl.
  rewrite (bind_ok _ _ _ _ _ (copyAsNew_primitive _ st Hprim)).
  rewrite setProp_ref, prop_set_same by done.
  by rewrite heap_put_get_same, with_store_same.
Qed.

Lemma each_verify_again (schema : list (string * propSettings)) :
  NoDup (map fst schema) ->
  forall st st' l,
    settings (self st) = VRef l -> (l < length (store st))%nat ->
    each schema verifyProperty st = (Ok tt, st') ->
    self st' = self st
    /\ (l < length (store st'))%nat
    /\ (forall q, prop_has (heap_get (store st) l) q = true ->
          prop_has (heap_get (store st') l) q = true)
    /\ (forall q, ~ In q (map fst schema) ->
          prop_get (heap_get (store st') l) q = prop_get (heap_get (store st) l) q)
    /\ each schema verifyProperty st' = (Ok tt, st').
Proof.
  induction schema as [|[p ps] rest IH]; intros Hnodup st st' l Hs Hl Hrun.
  { simpl in Hrun. unfold ret in Hrun. by simplify_eq. }
  change (map fst ((p, ps) :: rest)) with (p :: map fst rest) in Hnodup.
  apply NoDup_cons in Hnodup as [Hp Hnodup]. rewrite list_elem_of_In in Hp.
  cbn [each] in Hrun. apply bind_ok_inv in Hrun as ([] & st1 & E1 & Hrun).
  destruct (verifyProperty_leaves p ps st st1 l Hs Hl E1)
    as (Hself1 & Hl1 & Hhas1 & Hget1 & Hsettled).
  assert (Hs1 : settings (self st1) = VRef l) by (by rewrite Hself1).
  destruct (IH Hnodup st1 st' l Hs1 Hl1 Hrun) as (Hself & Hl' & Hhas & Hget & Hagain).
  split; [congruence|]. split; [done|].
  split; [intros q Hq; by apply Hhas, Hhas1|].
  split.
  { intros q Hq. simpl in Hq. rewrite Hget by tauto. apply Hget1. intros ->. tauto. }
  assert (Hs' : settings (self st') = VRef l) by (by rewrite Hself).
  cbn [each].
  rewrite (bind_ok _ _ st' tt st'); [done|].
  apply (verifyProperty_settled p ps st' l Hs').
  rewrite (Hget p Hp).
  destruct Hsettled as [Ht|(Hreq & Hh & Hg & Hprim)]; [by left|right].
  split; [done|]. split; [by apply Hhas|done].
Qed.

(** X5: verification is idempotent.  Settings that passed the verification
    pass it again, and the second run changes nothing: no default is
    copied a second time.  The schema names each property once, and the
    settings object is one of the store. *)
Theorem verifySettings_idempotent st st' :
  NoDup (map fst (tokenSchema cfg)) ->
  (forall l, settings (self st) = VRef l -> (l < length (store st))%nat) ->
  verifySettings cfg st = (Ok tt, st') ->
  verifySettings cfg st' = (Ok tt, st').
Proof.
  intros Hnodup Hstore Hrun.
  destruct (verifySettings_object cfg st st' Hrun) as (l & Hs & Htype).
  pose proof (Hstore l Hs) as Hl.
  destruct (verifySettings_ok cfg st st' l Hs Hl Hrun) as [Heach _].
  destruct (each_verify_again _ Hnodup st st' l Hs Hl Heach) as (Hself & _ & _ & _ & Hagain).
  assert (Hs' : settings (self st') = VRef l) by (by rewrite Hself).
  unfold verifySettings.
  rewrite (bind_ok _ _ _ _ _ (thisSettings_run st')), Hs'. simpl.
  rewrite (bind_ok _ _ _ _ _ Hagain).
  rewrite (bind_ok _ _ _ _ _ (thisSettings_run st')), Hs'.
  rewrite (bind_ok _ _ _ _ _ (getProp_ref l "type" st')), Htype.
  by case_decide.
Qed.

End Verified.

Lemma verifySettings_idempotent_witness :
  WysiwygInstance.verifySettings Samples.cfg
    (snd (WysiwygInstance.verifySettings Samples.cfg Samples.unverified))
  = (JS.Ok tt, snd (WysiwygInstance.verifySettings Samples.cfg Samples.unverified)).
Proof.
  apply (verifySettings_idempotent Samples.cfg Samples.unverified).
  - exact sample_schema_distinct.
  - intros l Hl. vm_compute in Hl. injection Hl as <-. vm_compute. lia.
  - apply pair_fst. vm_compute. reflexivity.
Defined.

(** ** The instance: placeholder and template *)

Section Placeholders.
Import JS Page Vocabulary WysiwygInstance.
Local Open Scope m_scope.

Variable cfg : mediaSettings.
Variable br : DOM.browser.

Lemma getPlaceholderBase_held st :
  is_blank (placeholderBase (self st)) = false ->
  getPlaceholderBase cfg br st = (Ok (placeholderBase (self st)), st).
Proof.
  intros Hb. unfold getPlaceholderBase, bind, thisPlaceholderBase, gets, ret.
  by rewrite Hb.
Qed.

(** X6: a template that [getPlaceholderBase] returns is never blank, it is
    the one the instance then holds, and it is looked up once: a template
    that is held is returned with nothing changed, so a second call returns
    the same template. *)
Theorem getPlaceholderBase_never_blank st b st' :
  getPlaceholderBase cfg br st = (Ok b, st') ->
  is_blank b = false
  /\ placeholderBase (self st') = b
  /\ getPlaceholderBase cfg br st' = (Ok b, st')
  /\ (is_blank (placeholderBase (self st)) = false -> st' = st).
Proof.
  intros Hrun.
  assert (Hmain : is_blank b = false /\ placeholderBase (self st') = b
                  /\ (is_blank (placeholderBase (self st)) = false -> st' = st)).
  { destruct (is_blank (placeholderBase (self st))) eqn:Hb.
    - unfold getPlaceholderBase in Hrun.
      apply bind_ok_inv in Hrun as (b0 & st0 & E0 & Hrun).
      unfold thisPlaceholderBase at 1, gets in E0. simplify_eq. rewrite Hb in Hrun.
      apply bind_ok_inv in Hrun as ([] & st1 & E1 & Hrun).
      unfold thisPlaceholderBase, gets in Hrun. simplify_eq.
      split; [|done].
      apply bind_ok_inv in E1 as (k & st2 & E2 & E1).
      apply bind_ok_inv in E1 as ([] & st3 & E3 & E1).
      unfold assignPlaceholderBase, modify in E3. simplify_eq.
      apply bind_ok_inv in E1 as (b1 & st4 & E4 & E1).
      unfold thisPlaceholderBase, gets in E4. simplify_eq. simpl in E1.
      destruct (tagMap cfg !! k) as [html|]; [|done].
      destruct (nonempty html) eqn:Hne; [|done].
      destruct (_ =? _)%nat.
      + unfold assignPlaceholderBase, modify in E1. by simplify_eq.
      + unfold ret in E1. simplify_eq. simpl. by rewrite Hne.
    - rewrite getPlaceholderBase_held in Hrun by done. by simplify_eq. }
  destruct Hmain as (Hblank & Hheld & Hsame).
  split; [done|]. split; [done|]. split; [|done].
  rewrite <- Hheld in *. by apply getPlaceholderBase_held.
Qed.

(** *** [resetPlaceholderAttributes] *)

Lemma attr_lookup_removed a name : DOM.attr_lookup (DOM.attr_remove a name) name = None.
Proof.
  unfold DOM.attr_remove. induction a as [|[k v] a IH]; [done|].
  rewrite filter_cons. simpl. destruct (String.eqb k name) eqn:E; simpl; [done|].
  by rewrite E.
Qed.

Lemma attr_lookup_update_other a name v k :
  k <> name -> DOM.attr_lookup (DOM.attr_update a name v) k = DOM.attr_lookup a k.
Proof.
  intros Hne. induction a as [|[k' v'] a IH]; simpl.
  - destruct (String.eqb name k) eqn:E; [|done].
    apply String.eqb_eq in E. congruence.
  - destruct (String.eqb k' name) eqn:E; simpl.
    + apply String.eqb_eq in E as ->.
      destruct (String.eqb name k) eqn:E'; [|done].
      apply String.eqb_eq in E'. congruence.
    + by rewrite IH.
Qed.

(** What removing classes leaves of a node. *)
Lemma without_classes_node f n :
  DOM.tag_of (without_classes f n) = DOM.tag_of n
  /\ DOM.children_of (without_classes f n) = DOM.children_of n
  /\ (forall a, a <> "class" ->
        DOM.attr_lookup (DOM.attributes_of (without_classes f n)) a
        = DOM.attr_lookup (DOM.attributes_of n) a)
  /\ DOM.node_classes (without_classes f n)
     = DOM.remove_names (DOM.node_classes n)
         (DOM.class_names
            (f (from_option id "" (DOM.attr_lookup (DOM.attributes_of n) "class")))).
Proof.
  unfold without_classes. destruct n as [d|t a fl c]; simpl.
  { repeat split; by destruct (DOM.class_names (f "")). }
  destruct (DOM.attr_lookup a "class") as [cls|] eqn:E; simpl.
  - split; [done|]. split; [done|]. split.
    + intros k Hk. by apply attr_lookup_update_other.
    + unfold DOM.node_classes. simpl. rewrite attr_lookup_update, E. simpl.
      apply class_names_join, remove_names_names, class_names_names.
  - split; [done|]. split; [done|]. split; [done|].
    unfold DOM.node_classes. simpl. by rewrite E.
Qed.

Lemma has_name_remove_names c current gone :
  DOM.has_name c (DOM.remove_names current gone) = true -> DOM.has_name c current = true.
Proof.
  unfold DOM.remove_names. induction current as [|t current IH]; [done|].
  rewrite filter_cons. case_decide as Hk.
  - change (String.eqb c t
            || DOM.has_name c
                 (filter (fun c0 => negb (DOM.has_name c0 gone) = true) current) = true
            -> String.eqb c t || DOM.has_name c current = true).
    intros [H|H]%orb_true_iff; apply orb_true_iff; [by left|right; by apply IH].
  - intros H. change (String.eqb c t || DOM.has_name c current = true).
    apply orb_true_iff. right. by apply IH.
Qed.

Lemma without_attr_node name n :
  DOM.tag_of (without_attr name n) = DOM.tag_of n
  /\ DOM.children_of (without_attr name n) = DOM.children_of n
  /\ DOM.attr_lookup (DOM.attributes_of (without_attr name n)) name = None
  /\ (forall a, a <> name ->
        DOM.attr_lookup (DOM.attributes_of (without_attr name n)) a
        = DOM.attr_lookup (DOM.attributes_of n) a).
Proof.
  unfold without_attr. destruct n as [d|t a fl c]; simpl; [done|].
  split; [done|]. split; [done|]. split; [apply attr_lookup_removed|].
  intros k Hk. by apply attr_lookup_remove.
Qed.

Lemma reset_node_reset n : reset_of n (reset_node n).
Proof.
  unfold reset_node.
  set (n1 := without_classes (matching_classes "file-") n).
  set (n2 := without_classes (matching_classes "media-wysiwyg-align-") n1).
  set (n3 := without_classes (fun _ => "media-element") n2).
  set (n4 := without_attr "data-fid" n3).
  set (n5 := without_attr "data-media-element" n4).
  destruct (without_classes_node (matching_classes "file-") n) as (T1 & C1 & A1 & _).
  destruct (without_classes_node (matching_classes "media-wysiwyg-align-") n1)
    as (T2 & C2 & A2 & _).
  destruct (without_classes_node (fun _ => "media-element") n2) as (T3 & C3 & A3 & N3).
  destruct (without_attr_node "data-fid" n3) as (T4 & C4 & R4 & A4).
  destruct (without_attr_node "data-media-element" n4) as (T5 & C5 & R5 & A5).
  destruct (without_attr_node "data-media-key" n5) as (T6 & C6 & R6 & A6).
  fold n1 in T1, C1, A1. fold n2 in T2, C2, A2. fold n3 in T3, C3, A3, N3.
  fold n4 in T4, C4, R4, A4. fold n5 in T5, C5, R5, A5.
  split; [congruence|]. split; [congruence|]. split.
  { unfold DOM.node_classes.
    rewrite A6, A5, A4 by done. fold (DOM.node_classes n3). rewrite N3.
    apply (has_name_remove "media-element"). }
  split; [by rewrite A6, A5 by done|]. split; [by rewrite A6 by done|].
  split; [done|].
  intros a Ha. simpl in Ha.
  rewrite A6, A5, A4, A3, A2, A1 by (intros ->; tauto). done.
Qed.

Lemma reset_nodes e :
  DOM.removeAttr
    (DOM.removeAttr
       (DOM.removeAttr
          (DOM.removeClass
             (DOM.removeClassBy (DOM.removeClassBy e (matching_classes "file-"))
                (matching_classes "media-wysiwyg-align-"))
             "media-element")
          "data-fid")
       "data-media-element")
    "data-media-key"
  = map reset_node e.
Proof.
  unfold DOM.removeAttr, DOM.removeClass, DOM.removeClassBy.
  rewrite !map_map. reflexivity.
Qed.

(** X7: [resetPlaceholderAttributes] throws when the instance has no
    placeholder.  Otherwise it returns, and of every node of the
    placeholder it takes the class [media-element] and the attributes
    [data-fid], [data-media-element] and [data-media-key]; the tag, the
    children and every attribute other than [class] and these three stay as
    they were, and so does the rest of the instance. *)
Theorem resetPlaceholderAttributes_clears :
  (forall st, placeholder (self st) = None ->
     resetPlaceholderAttributes st
     = (Throw (Thrown "Invalid state: Instance placeholder is missing."), st))
  /\ (forall st e, placeholder (self st) = Some e ->
        exists e',
          resetPlaceholderAttributes st
          = (Ok tt, with_self (with_placeholder (Some e') (self st)) st)
          /\ Forall2 reset_of e e'
          /\ DOM.hasClass e' "media-element" = false).
Proof.
  split.
  - intros st Hp. unfold resetPlaceholderAttributes, bind, thisPlaceholder, gets, throw.
    by rewrite Hp.
  - intros st e Hp. exists (map reset_node e).
    split.
    { unfold resetPlaceholderAttributes, bind, thisPlaceholder, gets, assignPlaceholder,
        modify.
      rewrite Hp. cbv zeta. by rewrite reset_nodes. }
    split.
    + clear Hp. induction e as [|n e IH]; simpl; constructor; [apply reset_node_reset|done].
    + clear Hp. unfold DOM.hasClass. induction e as [|n e IH]; [done|].
      simpl. rewrite IH, orb_false_r. apply (reset_node_reset n).
Qed.

(** *** [setPlaceholder] and [getPlaceholder] *)

Lemma getSettings_placeholder : steps (same held_placeholder) (getSettings cfg).
Proof.
  unfold getSettings, verifySettings, verifyProperty, Utils.copyAsNew. frame_go.
Qed.

Lemma syncAttributesToFields_placeholder reverse :
  steps (same held_placeholder) (syncAttributesToFields cfg reverse).
Proof.
  unfold syncAttributesToFields, syncAttributeField, Utils.propertyStartsWith.
  pose proof getSettings_placeholder. frame_go.
Qed.

Lemma readAttribute_placeholder e settings a :
  steps (same held_placeholder) (readAttribute e settings a).
Proof. unfold readAttribute. frame_go. Qed.

Lemma getPlaceholder_held st e :
  placeholder (self st) = Some e -> getPlaceholder cfg br st = (Ok e, st).
Proof.
  intros Hp. unfold getPlaceholder, bind, thisPlaceholder, gets, ret. by rewrite Hp.
Qed.

(** When [syncPlaceholderToSettings] returns on an instance that holds a
    placeholder, the placeholder is the one it held and the template is the
    markup of its first node. *)
Lemma syncPlaceholderToSettings_holds e st st' :
  placeholder (self st) = Some e ->
  syncPlaceholderToSettings cfg br st = (Ok tt, st') ->
  exists n rest, e = n :: rest
    /\ placeholder (self st') = Some e
    /\ placeholderBase (self st') = Some (DOM.serializeHTML br [n]).
Proof.
  intros Hp Hrun. unfold syncPlaceholderToSettings in Hrun.
  rewrite (bind_ok _ _ _ _ _ (getPlaceholder_held st e Hp)) in Hrun.
  apply bind_ok_inv in Hrun as (settings & st1 & E1 & Hrun).
  apply bind_ok_inv in Hrun as ([] & st2 & E2 & Hrun).
  apply bind_ok_inv in Hrun as ([] & st3 & E3 & Hrun).
  apply bind_ok_inv in Hrun as ([] & st4 & E4 & Hrun).
  apply bind_ok_inv in Hrun as ([] & st5 & E5 & Hrun).
  apply bind_ok_inv in Hrun as ([] & st6 & E6 & Hrun).
  apply bind_ok_inv in Hrun as ([] & st7 & E7 & Hrun).
  assert (R1 : same held_placeholder st st1)
    by (eapply steps_run; [apply getSettings_placeholder|exact E1]).
  assert (R2 : same held_placeholder st1 st2).
  { eapply steps_run; [|exact E2]. frame_go. }
  assert (R3 : same held_placeholder st2 st3).
  { eapply steps_run; [|exact E3]. pose proof readAttribute_placeholder. frame_go. }
  assert (R4 : same held_placeholder st3 st4)
    by (eapply steps_run; [apply syncAttributesToFields_placeholder|exact E4]).
  assert (R5 : same held_placeholder st4 st5).
  { eapply steps_run; [|exact E5]. frame_go. }
  assert (Hp5 : placeholder (self st5) = Some e).
  { unfold same, held_placeholder in *. congruence. }
  destruct e as [|n rest].
  { unfold Utils.outerHTML, bind, throw in E6. discriminate. }
  exists n, rest. split; [done|].
  unfold Utils.outerHTML, bind, ret, setPlaceholderBase, assignPlaceholderBase, modify in E6.
  unfold setToken, modify in E7. unfold setKey, modify in Hrun. simplify_eq.
  by split.
Qed.

(** X8: when [setPlaceholder] returns, the instance holds the element it
    was given and the markup of its first node as template, and
    [getPlaceholder] and [getPlaceholderHtml] return them with nothing
    changed.  On an empty jQuery object [setPlaceholder] throws a
    [TypeError], after it has stored the object as placeholder. *)
Theorem setPlaceholder_keeps_element :
  (forall st,
     fst (setPlaceholder cfg br [] st) = Throw TypeError
     /\ placeholder (self (snd (setPlaceholder cfg br [] st))) = Some [])
  /\ (forall e st st',
        setPlaceholder cfg br e st = (Ok tt, st') ->
        exists n rest, e = n :: rest
          /\ placeholder (self st') = Some e
          /\ placeholderBase (self st') = Some (DOM.serializeHTML br [n])
          /\ getPlaceholder cfg br st' = (Ok e, st')
          /\ getPlaceholderHtml cfg br st' = (Ok (DOM.serializeHTML br [n]), st')).
Proof.
  split; [done|].
  intros e st st' Hrun. unfold setPlaceholder in Hrun.
  apply bind_ok_inv in Hrun as ([] & st1 & E1 & Hrun).
  apply bind_ok_inv in Hrun as ([] & st2 & E2 & Hrun).
  unfold assignPlaceholder, modify in E1. simplify_eq.
  assert (Hp2 : placeholder (self st2) = Some e).
  { apply bind_ok_inv in E2 as (html & st3 & E3 & E2).
    unfold Utils.outerHTML in E3. destruct e as [|n rest]; [done|].
    unfold ret in E3. unfold assignPlaceholderBase, modify in E2. by simplify_eq. }
  destruct (syncPlaceholderToSettings_holds e st2 st' Hp2 Hrun)
    as (n & rest & -> & Hp & Hb).
  exists n, rest. split; [done|]. split; [done|]. split; [done|].
  split; [by apply getPlaceholder_held|].
  unfold getPlaceholderHtml.
  by rewrite (bind_ok _ _ _ _ _ (getPlaceholder_held st' _ Hp)).
Qed.

(** *** What [syncPlaceholderToSettings] takes from the placeholder *)

Lemma prop_has_set (o : object) k v q :
  prop_has (prop_set o k v) q = String.eqb k q || prop_has o q.
Proof.
  induction o as [|[k' v'] o IH]; simpl; [by rewrite orb_false_r|].
  destruct (String.eqb k' k) eqn:E; simpl.
  - apply String.eqb_eq in E as ->. by destruct (String.eqb k q).
  - rewrite IH. by destruct (String.eqb k' q), (String.eqb k q).
Qed.

Lemma prop_get_set (o : object) k v q :
  prop_get (prop_set o k v) q = if String.eqb k q then v else prop_get o q.
Proof.
  destruct (String.eqb k q) eqn:E.
  - apply String.eqb_eq in E as ->. apply prop_get_set_eq.
  - apply String.eqb_neq in E. by apply prop_get_set_ne.
Qed.

(** One attribute read. *)
Lemma readAttribute_run e st l la x :
  prop_get (heap_get (store st) l) "attributes" = VRef la ->
  readAttribute e (VRef l) x st
  = (Ok tt,
     if is_read e x
     then with_store
            (heap_put (store st) la
               (prop_set (heap_get (store st) la) x (attribute_value e x))) st
     else st).
Proof.
  intros Ha. unfold readAttribute, is_read, attribute_value.
  destruct (DOM.attr e x) as [v|]; [|done].
  destruct (nonempty v); [|done].
  rewrite (bind_ok _ _ _ _ _ (getProp_ref l "attributes" st)), Ha.
  by rewrite setProp_ref.
Qed.

Lemma read_loop e (xs : list string) :
  forall st l la,
    (la < length (store st))%nat -> la <> l ->
    prop_get (heap_get (store st) l) "attributes" = VRef la ->
    exists st',
      each xs (readAttribute e (VRef l)) st = (Ok tt, st')
      /\ self st' = self st /\ fidTypeMap st' = fidTypeMap st
      /\ length (store st') = length (store st)
      /\ (forall a, a <> la -> heap_get (store st') a = heap_get (store st) a)
      /\ (forall a, prop_get (heap_get (store st') la) a
                    = if existsb (String.eqb a) xs && is_read e a
                      then attribute_value e a
                      else prop_get (heap_get (store st) la) a)
      /\ (forall a, prop_has (heap_get (store st') la) a
                    = existsb (String.eqb a) xs && is_read e a
                      || prop_has (heap_get (store st) la) a).
Proof.
  induction xs as [|x xs IH]; intros st l la Hla Hne Ha.
  { exists st. by repeat split. }
  cbn [each]. rewrite (bind_ok _ _ _ _ _ (readAttribute_run e st l la x Ha)).
  set (st1 := if is_read e x
              then with_store
                     (heap_put (store st) la
                        (prop_set (heap_get (store st) la) x (attribute_value e x))) st
              else st).
  assert (H1 : self st1 = self st /\ fidTypeMap st1 = fidTypeMap st
               /\ length (store st1) = length (store st)
               /\ (forall a, a <> la -> heap_get (store st1) a = heap_get (store st) a)
               /\ heap_get (store st1) la
                  = if is_read e x
                    then prop_set (heap_get (store st) la) x (attribute_value e x)
                    else heap_get (store st) la).
  { unfold st1. destruct (is_read e x); [|done]. simpl.
    split; [done|]. split; [done|]. split; [apply heap_put_length|].
    split; [intros a Hne'; by apply heap_get_put_ne|by apply heap_get_put_eq]. }
  destruct H1 as (Hself1 & Hmap1 & Hlen1 & Hother1 & HA1).
  destruct (IH st1 l la) as (st' & Hrun & Hself & Hmap & Hlen & Hother & Hget & Hhas).
  { by rewrite Hlen1. }
  { done. }
  { rewrite Hother1 by done. exact Ha. }
  exists st'. split; [exact Hrun|].
  split; [congruence|]. split; [congruence|]. split; [congruence|].
  split; [intros a Hne'; rewrite Hother by done; by apply Hother1|].
  split.
  - intros a. rewrite Hget, HA1. cbn [existsb].
    destruct (String.eqb a x) eqn:Eax.
    + apply String.eqb_eq in Eax as ->. simpl.
      destruct (is_read e x) eqn:Er.
      * rewrite prop_get_set_eq. by destruct (existsb _ xs).
      * by rewrite andb_false_r.
    + simpl. destruct (existsb (String.eqb a) xs && is_read e a); [done|].
      destruct (is_read e x); [|done].
      apply prop_get_set_ne. intros ->. by rewrite String.eqb_refl in Eax.
  - intros a. rewrite Hhas, HA1. cbn [existsb].
    destruct (String.eqb a x) eqn:Eax.
    + apply String.eqb_eq in Eax as ->. simpl.
      destruct (is_read e x) eqn:Er.
      * rewrite prop_has_set, String.eqb_refl. simpl.
        by rewrite andb_true_r, orb_true_r.
      * by rewrite andb_false_r.
    + simpl. destruct (is_read e x); [|done].
      rewrite prop_has_set. rewrite String.eqb_sym in Eax. by rewrite Eax.
Qed.

(** One round of the forward reconciliation, whatever the property found. *)
Lemma syncAttributeField_forward_any st l la attribute fieldName :
  prop_get (heap_get (store st) l) "attributes" = VRef la ->
  exists fid x,
    syncAttributeField false (VRef l) (attribute, fieldName) st
    = (Ok tt, with_store (heap_put (store st) l (prop_set (heap_get (store st) l) fid x)) st)
    /\ fid <> "attributes".
Proof.
  intros Ha.
  exists (toString (field_of (heap_get (store st) l) fieldName)),
    (forwarded (heap_get (store st) la) attribute).
  split.
  - unfold syncAttributeField, Utils.propertyStartsWith.
    unfold bind, ownKeys, gets, ret, getProp, setProp, on_heap. simpl.
    rewrite Ha. reflexivity.
  - unfold field_of.
    pose proof (first_starting_with_split (fieldName +:+ "[") (keys (heap_get (store st) l)))
      as H.
    destruct (Utils.first_starting_with _ _) as [| | | |k|]; try done.
    destruct H as (pre & post & _ & Hk & _). simpl. intros ->.
    by rewrite startsWith_field_prefix in Hk.
Qed.

Lemma forward_frame (table : list (string * string)) :
  forall st l la,
    (l < length (store st))%nat -> la <> l ->
    prop_get (heap_get (store st) l) "attributes" = VRef la ->
    exists st',
      each table (syncAttributeField false (VRef l)) st = (Ok tt, st')
      /\ self st' = self st /\ fidTypeMap st' = fidTypeMap st
      /\ length (store st') = length (store st)
      /\ (forall a, a <> l -> heap_get (store st') a = heap_get (store st) a)
      /\ prop_get (heap_get (store st') l) "attributes" = VRef la.
Proof.
  induction table as [|[a f] table IH]; intros st l la Hl Hne Ha.
  { exists st. by repeat split. }
  destruct (syncAttributeField_forward_any st l la a f Ha) as (fid & x & Hstep & Hfid).
  cbn [each]. rewrite (bind_ok _ _ _ _ _ Hstep).
  destruct (IH (with_store (heap_put (store st) l (prop_set (heap_get (store st) l) fid x))
                  st) l la)
    as (st' & Hrun & Hself & Hmap & Hlen & Hother & Hattr).
  { simpl. by rewrite heap_put_length. }
  { done. }
  { simpl. rewrite heap_get_put_eq by done. by rewrite prop_get_set_ne. }
  exists st'. split; [exact Hrun|]. split; [done|]. split; [done|].
  split; [rewrite Hlen; simpl; apply heap_put_length|].
  split; [|done].
  intros b Hb. rewrite Hother by done. simpl. by apply heap_get_put_ne.
Qed.

(** X9: [syncPlaceholderToSettings] on an instance that holds settings and
    a placeholder returns, and it replaces [settings.attributes] by a new
    object that holds the allowed attributes the first node of the
    placeholder has with a value that is not empty, and nothing else;
    [link_text] is the markup of the first link without image, or [false]
    when link texts are off, and token and key are reset. *)
Theorem syncPlaceholderToSettings_reads_allowed n rest st l :
  placeholder (self st) = Some (n :: rest) ->
  settings (self st) = VRef l -> (l < length (store st))%nat ->
  exists st',
    syncPlaceholderToSettings cfg br st = (Ok tt, st')
    /\ settings (self st') = VRef l
    /\ prop_get (heap_get (store st') l) "attributes" = VRef (length (store st))
    /\ (forall a, prop_get (heap_get (store st') (length (store st))) a
                  = read_of (n :: rest) (wysiwygAllowedAttributes cfg) a)
    /\ (forall a, prop_has (heap_get (store st') (length (store st))) a
                  = existsb (String.eqb a) (wysiwygAllowedAttributes cfg)
                    && is_read (n :: rest) a)
    /\ prop_get (heap_get (store st') l) "link_text"
       = (if doLinkText cfg then link_html br (n :: rest) else VBool false)
    /\ token (self st') = "" /\ key (self st') = "".
Proof.
  intros Hp Hs Hl. set (e := n :: rest) in *. set (la := length (store st)).
  set (st2 := with_store
                (heap_put (store st ++ [[]]) l
                   (prop_set (heap_get (store st ++ [[]]) l) "attributes" (VRef la))) st).
  assert (Hlen2 : length (store st2) = S (length (store st))).
  { unfold st2. simpl. rewrite heap_put_length, length_app. simpl. lia. }
  assert (Hattr2 : prop_get (heap_get (store st2) l) "attributes" = VRef la).
  { unfold st2. simpl. rewrite heap_get_put_eq by (rewrite length_app; lia).
    apply prop_get_set_eq. }
  assert (Hla2 : heap_get (store st2) la = []).
  { unfold st2. simpl. rewrite heap_get_put_ne by (unfold la; lia).
    apply (heap_get_alloc_new (store st) []). }
  destruct (read_loop e (wysiwygAllowedAttributes cfg) st2 l la)
    as (st3 & Hrun3 & Hself3 & Hmap3 & Hlen3 & Hother3 & Hget3 & Hhas3).
  { rewrite Hlen2. unfold la. lia. }
  { unfold la. lia. }
  { done. }
  assert (Hs3 : settings (self st3) = VRef l) by (by rewrite Hself3).
  assert (Hattr3 : prop_get (heap_get (store st3) l) "attributes" = VRef la).
  { rewrite Hother3 by (unfold la; lia). done. }
  destruct (forward_frame (attributeFields cfg) st3 l la)
    as (st4 & Hrun4 & Hself4 & Hmap4 & Hlen4 & Hother4 & Hattr4).
  { rewrite Hlen3, Hlen2. lia. }
  { unfold la. lia. }
  { done. }
  set (text := if doLinkText cfg then link_html br e else VBool false).
  set (st5 := with_store
                (heap_put (store st4) l (prop_set (heap_get (store st4) l) "link_text" text))
                st4).
  exists (with_self
            (with_key ""
               (with_token ""
                  (with_placeholderBase (Some (DOM.serializeHTML br [n])) (self st5))))
            st5).
  split.
  { unfold syncPlaceholderToSettings.
    rewrite (bind_ok _ _ _ _ _ (getPlaceholder_held st e Hp)).
    rewrite (bind_ok _ _ _ _ _ (getSettings_materialized cfg st l Hs)).
    rewrite (bind_ok _ _ st tt st2); cycle 1.
    { rewrite (bind_ok _ _ _ _ _ (newObject_run st)). by rewrite setProp_ref. }
    rewrite (bind_ok _ _ _ _ _ Hrun3).
    rewrite (bind_ok _ _ st3 tt st4); cycle 1.
    { unfold syncAttributesToFields.
      rewrite (bind_ok _ _ _ _ _ (getSettings_materialized cfg st3 l Hs3)).
      rewrite (bind_ok _ _ _ _ _ (getProp_ref l "attributes" st3)), Hattr3.
      simpl. exact Hrun4. }
    rewrite (bind_ok _ _ _ _ _ (setProp_ref l "link_text" text st4)).
    reflexivity. }
  assert (Hl4 : (l < length (store st4))%nat) by (rewrite Hlen4, Hlen3, Hlen2; lia).
  cbn [self store with_self with_store settings token key with_key with_token
         with_placeholderBase st5].
  rewrite heap_get_put_eq by done.
  rewrite heap_get_put_ne by (unfold la; lia).
  rewrite (Hother4 la) by (unfold la; lia).
  split; [by rewrite Hself4|].
  split; [by rewrite prop_get_set_ne|].
  split.
  { intros a. rewrite Hget3, Hla2. unfold read_of. simpl.
    by destruct (_ && _). }
  split.
  { intros a. rewrite Hhas3, Hla2. simpl. by rewrite orb_false_r. }
  split; [apply prop_get_set_eq|done].
Qed.

End Placeholders.

Lemma getPlaceholderBase_never_blank_witness :
  WysiwygInstance.is_blank (Some "<span>A caption</span>") = false
  /\ WysiwygInstance.getPlaceholderBase Samples.cfg Samples.browser
       (snd (WysiwygInstance.getPlaceholderBase Samples.cfg Samples.browser Samples.built))
     = (JS.Ok (Some "<span>A caption</span>"),
        snd (WysiwygInstance.getPlaceholderBase Samples.cfg Samples.browser Samples.built)).
Proof.
  destruct (getPlaceholderBase_never_blank Samples.cfg Samples.browser Samples.built
              (Some "<span>A caption</span>")
              (snd (WysiwygInstance.getPlaceholderBase Samples.cfg Samples.browser
                      Samples.built)))
    as (H1 & _ & H2 & _).
  - apply pair_fst. vm_compute. reflexivity.
  - split; [exact H1|exact H2].
Defined.

Lemma resetPlaceholderAttributes_clears_witness :
  exists e',
    WysiwygInstance.resetPlaceholderAttributes Samples.attached
    = (JS.Ok tt,
       Page.with_self (Page.with_placeholder (Some e') (Page.self Samples.attached))
         Samples.attached)
    /\ DOM.hasClass e' "media-element" = false.
Proof.
  destruct resetPlaceholderAttributes_clears as [_ H].
  destruct (H Samples.attached Samples.image) as (e' & H1 & _ & H2).
  - vm_compute. reflexivity.
  - exists e'. split; [exact H1|exact H2].
Defined.

Lemma setPlaceholder_keeps_element_witness :
  WysiwygInstance.getPlaceholder Samples.cfg Samples.browser
    (snd (WysiwygInstance.setPlaceholder Samples.cfg Samples.browser Samples.image
            Samples.with_key))
  = (JS.Ok Samples.image,
     snd (WysiwygInstance.setPlaceholder Samples.cfg Samples.browser Samples.image
            Samples.with_key)).
Proof.
  destruct (setPlaceholder_keeps_element Samples.cfg Samples.browser) as [_ H].
  destruct (H Samples.image Samples.with_key
              (snd (WysiwygInstance.setPlaceholder Samples.cfg Samples.browser
                      Samples.image Samples.with_key)))
    as (n & rest & _ & _ & _ & Hget & _).
  - apply pair_fst. vm_compute. reflexivity.
  - exact Hget.
Defined.

Lemma syncPlaceholderToSettings_reads_allowed_witness :
  exists st',
    WysiwygInstance.syncPlaceholderToSettings Samples.cfg Samples.browser Samples.attached
    = (JS.Ok tt, st')
    /\ JS.prop_get (JS.heap_get (Page.store st') (length (Page.store Samples.attached)))
         "alt" = JS.VStr "A view"
    /\ JS.prop_has (JS.heap_get (Page.store st') (length (Page.store Samples.attached)))
         "data-fid" = false.
Proof.
  destruct (syncPlaceholderToSettings_reads_allowed Samples.cfg Samples.browser
              (DOM.Element "img"
                 [("class", "media-element file-default media-wysiwyg-align-left");
                  ("alt", "A view")] "" [])
              [] Samples.attached 1%nat)
    as (st' & Hrun & _ & _ & Hget & Hhas & _).
  - vm_compute. reflexivity.
  - vm_compute. reflexivity.
  - vm_compute. lia.
  - exists st'. split; [exact Hrun|].
    split; [rewrite Hget|rewrite Hhas]; reflexivity.
Defined.

(** ** The constructor *)

Section Constructor.
Import JS Page Vocabulary WysiwygInstance.
Local Open Scope m_scope.

Variable cfg : mediaSettings.

(** X10: the constructor on a settings object.  When it returns, the
    instance holds the object as its settings, verified, with neither token
    nor key nor placeholder, and the template it was given, if that is not
    empty.  Settings with a truthy [file_type] register the type under
    their [fid], so that [getOverridableFields] of that [fid] finds the
    fields of the type; other settings leave the map of file types as it
    was. *)
Theorem new_registers_file_type l pb st st' :
  new cfg (VRef l) pb st = (Ok tt, st') ->
  self st'
  = Instance "" (VRef l) ""
      (Some (match pb with
             | Some html => html
             | None => ""
             end)) None
  /\ prop_get (heap_get (store st') l) "type" = VStr "media"
  /\ (truthy (prop_get (heap_get (store st') l) "file_type") = true ->
      prop_get (fidTypeMap st') (toString (prop_get (heap_get (store st') l) "fid"))
      = prop_get (heap_get (store st') l) "file_type"
      /\ getOverridableFields cfg (prop_get (heap_get (store st') l) "fid") st'
         = (Ok (from_option snd []
                  (List.find
                     (fun entry =>
                        String.eqb (fst entry)
                          (toString (prop_get (heap_get (store st') l) "file_type")))
                     (overridableFields cfg))),
            st'))
  /\ (truthy (prop_get (heap_get (store st') l) "file_type") = false ->
      fidTypeMap st' = fidTypeMap st).
Proof.
  intros Hrun. unfold new in Hrun.
  apply bind_ok_inv in Hrun as ([] & st0 & E0 & Hrun).
  unfold modify in E0. simplify_eq.
  apply bind_ok_inv in Hrun as ([] & st4 & E4 & Hrun).
  cbn [typeof String.eqb Ascii.eqb Bool.eqb] in E4.
  apply bind_ok_inv in E4 as ([] & st1 & E1 & E4).
  unfold setSettings, modify in E1. simplify_eq.
  apply bind_ok_inv in E4 as ([] & st2 & E2 & E4).
  pose proof (steps_run _ _ _ _ _ (verifySettings_self cfg) E2) as Hself2.
  pose proof (steps_run _ _ _ _ _ (verifySettings_fidTypeMap cfg) E2) as Hmap2.
  unfold same in Hself2, Hmap2. simpl in Hself2, Hmap2.
  apply verifySettings_object in E2 as (l' & Hl' & Htype). simpl in Hl'. simplify_eq.
  apply bind_ok_inv in E4 as (s & st3 & E3 & E4).
  unfold thisSettings, gets in E3. simplify_eq. rewrite Hself2 in E4. simpl in E4.
  apply bind_ok_inv in E4 as (file_type & st5 & E5 & E4).
  rewrite getProp_ref in E5. simplify_eq.
  set (o := heap_get (store st5) l') in *.
  assert (Hmain : store st4 = store st5
                  /\ self st4 = self st5
                  /\ (truthy (prop_get o "file_type") = true ->
                      fidTypeMap st4
                      = prop_set (fidTypeMap st5) (toString (prop_get o "fid"))
                          (prop_get o "file_type"))
                  /\ (truthy (prop_get o "file_type") = false ->
                      fidTypeMap st4 = fidTypeMap st5)).
  { destruct (truthy (prop_get o "file_type")) eqn:Ht.
    - apply bind_ok_inv in E4 as (fid & st6 & E6 & E4).
      rewrite getProp_ref in E6. unfold modify in E4. simplify_eq. by simpl.
    - unfold ret in E4. by simplify_eq. }
  destruct Hmain as (Hstore & Hself4 & Hreg & Hkeep).
  assert (Hend : store st' = store st4 /\ fidTypeMap st' = fidTypeMap st4
                 /\ self st'
                    = with_placeholderBase
                        (Some (match pb with
                               | Some html => html
                               | None => ""
                               end)) (self st4)).
  { destruct pb as [html|].
    - destruct html as [|c html]; simpl in Hrun.
      + unfold ret in Hrun. simplify_eq.
        split; [done|]. split; [done|]. by rewrite Hself4, Hself2.
      + unfold assignPlaceholderBase, modify in Hrun. by simplify_eq.
    - unfold ret in Hrun. simplify_eq.
      split; [done|]. split; [done|]. by rewrite Hself4, Hself2. }
  destruct Hend as (Hstore' & Hmap' & Hself').
  rewrite Hstore', Hstore. fold o.
  split; [by rewrite Hself', Hself4, Hself2|].
  split; [done|]. split.
  - intros Ht. rewrite Hmap', (Hreg Ht). split; [apply prop_get_set_eq|].
    unfold getOverridableFields.
    rewrite (bind_ok _ _ st' (prop_get o "file_type") st'); cycle 1.
    { unfold gets. by rewrite Hmap', (Hreg Ht), prop_get_set_eq. }
    rewrite Ht. by destruct (List.find _ _) as [[t fields]|].
  - intros Ht. by rewrite Hmap', (Hkeep Ht).
Qed.

(** X11: the constructor on anything but an object verifies nothing.  A
    string is kept as the token without being parsed, so that [getToken]
    returns it as it is, whatever it holds; [null] is refused; and with
    neither settings nor token, as after an empty string, a number or no
    argument at all, [getSettings] and [getToken] throw. *)
Theorem new_without_settings :
  (forall t pb st,
     nonempty t = true ->
     (new cfg (VStr t) pb ;; getToken cfg) st
     = (Ok t,
        with_self
          (Instance t VNull ""
             (Some (match pb with
                    | Some html => html
                    | None => ""
                    end)) None) st))
  /\ (forall pb st,
        fst (new cfg VNull pb st)
        = Throw (Thrown "Invalid state: Cannot verify settings without settings."))
  /\ (forall v pb st,
        typeof v <> "object" -> toString v = "" \/ typeof v <> "string" ->
        fst ((new cfg v pb ;; getSettings cfg) st)
        = Throw (Thrown "Instance missing basic info")
        /\ fst ((new cfg v pb ;; getToken cfg) st)
           = Throw (Thrown "Instance missing basic info")).
Proof.
  split; [|split].
  - intros t pb st Hne. destruct t as [|c t]; [done|].
    destruct pb as [[|c' html]|]; reflexivity.
  - intros pb st. reflexivity.
  - intros v pb st Hobj Hstr.
    destruct v as [| |b|z|s|l]; try done;
      try (destruct pb as [[|c' html]|]; split; reflexivity).
    destruct Hstr as [Hs|Hs]; [|done]. simpl in Hs. subst s.
    destruct pb as [[|c' html]|]; split; reflexivity.
Qed.

End Constructor.

Lemma new_registers_file_type_witness :
  JS.prop_get
    (Page.fidTypeMap
       (snd (WysiwygInstance.new Samples.cfg (JS.VRef 1%nat) None Samples.typed)))
    (JS.toString
       (JS.prop_get
          (JS.heap_get
             (Page.store
                (snd (WysiwygInstance.new Samples.cfg (JS.VRef 1%nat) None Samples.typed)))
             1%nat) "fid"))
  = JS.prop_get
      (JS.heap_get
         (Page.store
            (snd (WysiwygInstance.new Samples.cfg (JS.VRef 1%nat) None Samples.typed)))
         1%nat) "file_type".
Proof.
  destruct (new_registers_file_type Samples.cfg 1%nat None Samples.typed
              (snd (WysiwygInstance.new Samples.cfg (JS.VRef 1%nat) None Samples.typed)))
    as (_ & _ & H & _).
  - apply pair_fst. vm_compute. reflexivity.
  - apply H. vm_compute. reflexivity.
Defined.

Lemma new_without_settings_witness :
  fst (Page.bind (WysiwygInstance.new Samples.cfg (JS.VNum 5) None)
         (fun _ => WysiwygInstance.getSettings Samples.cfg) Samples.page)
  = JS.Throw (JS.Thrown "Instance missing basic info").
Proof.
  destruct (new_without_settings Samples.cfg) as (_ & _ & H).
  destruct (H (JS.VNum 5) None Samples.page) as [H1 _].
  - discriminate.
  - right. discriminate.
  - exact H1.
Defined.

(** ** The token: the link text *)

Section LinkText.
Import JS JSON Page Vocabulary WysiwygInstance.
Local Open Scope m_scope.

Variable cfg : mediaSettings.

Lemma NoDup_fst_unique {A} (ms : list (string * A)) k a b :
  NoDup (map fst ms) -> In (k, a) ms -> In (k, b) ms -> a = b.
Proof.
  induction ms as [|[k0 v0] ms IH]; [done|].
  change (map fst ((k0, v0) :: ms)) with (k0 :: map fst ms).
  intros [Hk0 Hnd]%NoDup_cons [Ha|Ha] [Hb|Hb].
  - congruence.
  - injection Ha as -> ->. destruct Hk0. apply list_elem_of_In.
    change k with (fst (k, b)). by apply in_map.
  - injection Hb as -> ->. destruct Hk0. apply list_elem_of_In.
    change k with (fst (k, a)). by apply in_map.
  - by apply IH.
Qed.

Lemma occurs_replace_same c rep s :
  occurs c rep = false -> occurs c (replace_all_char c rep s) = false.
Proof.
  intros Hrep. induction s as [|a s IH]; [done|].
  cbn [replace_all_char]. rewrite occurs_app, IH, orb_false_r.
  destruct (Ascii.eqb a c) eqn:E; [done|]. simpl. by rewrite E.
Qed.

Lemma occurs_replace_other c d rep s :
  occurs c rep = false -> occurs c s = false ->
  occurs c (replace_all_char d rep s) = false.
Proof.
  intros Hrep. induction s as [|a s IH]; [done|].
  simpl. intros [Ha Hs]%orb_false_iff.
  change (occurs c ((if Ascii.eqb a d then rep else String a "")
                    +:+ replace_all_char d rep s) = false).
  rewrite occurs_app, (IH Hs), orb_false_r.
  destruct (Ascii.eqb a d); [done|]. simpl. by rewrite Ha.
Qed.

Lemma nonempty_replace c rep s :
  nonempty rep = true -> nonempty (replace_all_char c rep s) = nonempty s.
Proof.
  intros Hrep. destruct s as [|a s]; [done|]. cbn [replace_all_char].
  destruct (Ascii.eqb a c); [|done]. by destruct rep.
Qed.

(** Escaping leaves no angle bracket. *)
Lemma escape_angle_brackets_free s :
  occurs "<" (escape_angle_brackets s) = false
  /\ occurs ">" (escape_angle_brackets s) = false.
Proof.
  unfold escape_angle_brackets. split.
  - apply occurs_replace_other; [done|]. by apply occurs_replace_same.
  - by apply occurs_replace_same.
Qed.

(** X12: [getToken] on settings with a string [link_text] writes the
    overridden title, its angle brackets escaped, to [settings.link_text]
    and into the token: the token is the text of an object whose
    [link_text] member, if it has one, is that escaped title, and it has
    one when the schema declares [link_text] and the title is not empty.
    The settings are as a token holds them: primitives, and [attributes] an
    object of strings; [$.each] walks them by name. *)
Theorem getToken_escapes_link_text st l s :
  settings (self st) = VRef l ->
  token (self st) = "" ->
  (l < length (store st))%nat ->
  plain_settings (heap_get (store st) l) (store st) ->
  not_indexed (heap_get (store st) l) ->
  typeof (prop_get (heap_get (store st) l) "link_text") = "string" ->
  fst (overrideLinkTitle cfg st) = Ok (VStr s) ->
  exists ms st',
    getToken cfg st = (Ok ("[[" +:+ print (JObj ms) +:+ "]]"), st')
    /\ prop_get (heap_get (store st') l) "link_text" = VStr (escape_angle_brackets s)
    /\ occurs "<" (escape_angle_brackets s) = false
    /\ occurs ">" (escape_angle_brackets s) = false
    /\ (forall j, In ("link_text", j) ms -> j = JStr (escape_angle_brackets s))
    /\ (In "link_text" (map fst (tokenSchema cfg)) -> nonempty s = true ->
        In ("link_text", JStr (escape_angle_brackets s)) ms).
Proof.
  intros Hs Htok Hl Hplain Hwalk Htype Htitle.
  assert (Hlink : link_title_text cfg st (heap_get (store st) l)).
  { intros _. by exists s. }
  destruct (link_step cfg st l Hs Hl Hlink)
    as (stL & HrunL & HselfL & HmapL & HlenL & HagreeL & HpropL & HinL & HwalkL & _ & HtextL).
  specialize (HtextL s Htype Htitle).
  assert (HwalkL' : not_indexed (heap_get (store stL) l)).
  { intros k. by rewrite HwalkL. }
  assert (HplainL : plain_settings (heap_get (store stL) l) (store stL)).
  { intros k v Hin. destruct (HinL k v Hin) as [Hold|[-> [s' ->]]].
    - destruct (Hplain k v Hold) as [Hattr Hprim]. split; [|done].
      intros Hk. destruct (Hattr Hk) as (la & -> & Hla & Hstr).
      exists la. split; [done|]. rewrite HlenL. split; [done|].
      rewrite HagreeL; [done|]. intros ->.
      destruct (Hstr _ _ Hold) as [s' Hs']. discriminate.
    - split; [done|]. by intros _ a. }
  assert (HsL : settings (self stL) = VRef l) by (by rewrite HselfL).
  assert (HlL : (l < length (store stL))%nat) by (by rewrite HlenL).
  destruct (prepareSettingsForToken_returns cfg stL l HlL HplainL HwalkL' HsL)
    as (st' & Hprep & Hext & Hshaped & Hcarries).
  assert (Hn : (length (store stL) < length (store st'))%nat) by apply Hshaped.
  destruct (length (store st')) as [|fuel] eqn:Elen; [lia|].
  destruct (serialize_shaped _ _ fuel Hshaped) as (ms & Hser & Hnodup & Hms).
  destruct (escape_angle_brackets_free s) as [Hlt Hgt].
  exists ms, (with_self (with_token ("[[" +:+ print (JObj ms) +:+ "]]") (self st')) st').
  split.
  { unfold getToken.
    rewrite (bind_ok _ _ _ _ _ (thisToken_run st)), Htok. cbn [nonempty].
    rewrite (bind_ok _ _ _ _ _ (getSettings_materialized cfg st l Hs)).
    rewrite (bind_ok _ _ _ _ _ (getProp_ref l "link_text" st)).
    rewrite (bind_ok _ _ _ _ _ HrunL), (bind_ok _ _ _ _ _ Hprep).
    unfold bind at 1. unfold stringify. rewrite Elen, Hser. reflexivity. }
  split.
  { cbn [store with_self]. destruct Hext as (_ & _ & Hagree).
    by rewrite Hagree. }
  split; [done|]. split; [done|].
  assert (Hmember :
    match json_of
            (if truthy (VStr (escape_angle_brackets s))
                && existsb (String.eqb "link_text") (map fst (tokenSchema cfg))
             then VStr (escape_angle_brackets s) else VUndefined) with
    | Some j => In ("link_text", j) ms
    | None => ~ In "link_text" (map fst ms)
    end).
  { specialize (Hms "link_text"). rewrite (Hcarries "link_text") in Hms by done.
    rewrite HtextL in Hms. apply Hms. by destruct (_ && _). }
  split.
  - intros j Hj. destruct (_ && _) eqn:E; simpl in Hmember.
    + symmetry. by apply (NoDup_fst_unique ms "link_text").
    + destruct Hmember. change "link_text" with (fst ("link_text", j)).
      by apply in_map.
  - intros Hschema Hne.
    assert (Hin : existsb (String.eqb "link_text") (map fst (tokenSchema cfg)) = true).
    { apply existsb_exists. exists "link_text". split; [done|apply String.eqb_refl]. }
    assert (Htruthy : truthy (VStr (escape_angle_brackets s)) = true).
    { unfold escape_angle_brackets, truthy.
      fold (nonempty (replace_all_char ">" "&gt;" (replace_all_char "<" "&lt;" s))).
      by rewrite !nonempty_replace. }
    by rewrite Htruthy, Hin in Hmember.
Qed.

End LinkText.

Lemma getToken_escapes_link_text_witness :
  exists ms st',
    WysiwygInstance.getToken Samples.cfg Samples.linked_text
    = (JS.Ok ("[[" +:+ JSON.print (JSON.JObj ms) +:+ "]]"), st')
    /\ In ("link_text", JSON.JStr (WysiwygInstance.escape_angle_brackets "<b>A view</b>")) ms.
Proof.
  destruct (getToken_escapes_link_text Samples.cfg Samples.linked_text 1%nat "<b>A view</b>")
    as (ms & st' & Hrun & _ & _ & _ & _ & Hin).
  - reflexivity.
  - reflexivity.
  - vm_compute. lia.
  - intros k v Hin. vm_compute in Hin.
    repeat (destruct Hin as [Heq|Hin];
            [injection Heq as <- <-; split; [discriminate|intros _ a; discriminate]|]).
    destruct Hin.
  - intros k Hk. vm_compute in Hk. discriminate Hk.
  - reflexivity.
  - vm_compute. reflexivity.
  - exists ms, st'. split; [exact Hrun|]. apply Hin; [|reflexivity].
    vm_compute. tauto.
Defined.

(** ** The placeholder that is built from the template *)

Section Marks.
Import JS Page Vocabulary WysiwygInstance.
Local Open Scope m_scope.

Variable cfg : mediaSettings.
Variable br : DOM.browser.

Lemma getKey_placeholder : steps (same held_placeholder) (getKey cfg).
Proof.
  unfold getKey, getToken, overrideLinkTitle, prepareSettingsForToken, cleanAttributes,
    getOverridableFields.
  pose proof (getSettings_placeholder cfg). pose proof copyAsNew_self.
  assert (Hcopy : forall v, steps (same held_placeholder) (Utils.copyAsNew v)).
  { intros v. unfold Utils.copyAsNew. frame_go. }
  frame_go.
Qed.

Lemma getKey_held st k st' : getKey cfg st = (Ok k, st') -> key (self st') = k.
Proof.
  intros Hrun. unfold getKey in Hrun.
  apply bind_ok_inv in Hrun as (k0 & st0 & E0 & Hrun).
  apply bind_ok_inv in Hrun as ([] & st1 & E1 & Hrun).
  unfold thisKey, gets in Hrun. by simplify_eq.
Qed.

Lemma getSettings_key : steps (same held_key) (getSettings cfg).
Proof.
  unfold getSettings, verifySettings, verifyProperty, Utils.copyAsNew. frame_go.
Qed.

Lemma overrideLinkTitle_key : steps (same held_key) (overrideLinkTitle cfg).
Proof. unfold overrideLinkTitle. pose proof getSettings_key. frame_go. Qed.

(** *** Nodes under [attr], [addClass] and [html] *)

Lemma Forall_map_kept (P : DOM.node -> Prop) (f : DOM.node -> DOM.node) e :
  (forall n, P n -> P (f n)) -> Forall P e -> Forall P (map f e).
Proof.
  intros Hf. induction 1 as [|n e Hn He IH]; simpl; constructor; [by apply Hf|done].
Qed.

Lemma Forall_map_all (P : DOM.node -> Prop) (f : DOM.node -> DOM.node) e :
  (forall n, P (f n)) -> Forall P (map f e).
Proof. intros Hf. induction e as [|n e IH]; simpl; constructor; [apply Hf|done]. Qed.

Lemma add_names_grows c extra :
  forall current,
    DOM.has_name c current = true \/ DOM.has_name c extra = true ->
    DOM.has_name c (DOM.add_names current extra) = true.
Proof.
  unfold DOM.add_names.
  induction extra as [|x extra IH]; intros current H; simpl.
  - destruct H as [H|H]; [done|discriminate].
  - apply IH. destruct H as [H|H].
    + left. destruct (DOM.has_name x current); [done|].
      rewrite has_name_app, H. done.
    + change (String.eqb c x || DOM.has_name c extra = true) in H.
      apply orb_true_iff in H as [H|H]; [|by right].
      apply String.eqb_eq in H as ->. left.
      destruct (DOM.has_name x current) eqn:E; [done|].
      rewrite has_name_app. simpl. by rewrite String.eqb_refl, orb_true_r.
Qed.

Lemma add_names_all_names extra :
  forall current,
    Forall (fun t => is_name t = true) current ->
    Forall (fun t => is_name t = true) extra ->
    Forall (fun t => is_name t = true) (DOM.add_names current extra).
Proof.
  unfold DOM.add_names.
  induction extra as [|x extra IH]; intros current Hc Hx; simpl; [done|].
  apply Forall_cons in Hx as [Hx Hextra].
  apply IH; [|done]. destruct (DOM.has_name x current); [done|].
  apply Forall_app. split; [done|]. by repeat constructor.
Qed.

Lemma class_names_media_element rest :
  DOM.class_names ("media-element" +:+ " " +:+ rest)
  = "media-element" :: DOM.class_names rest.
Proof.
  unfold DOM.class_names.
  rewrite (names_go_free "media-element" eq_refl None (" " +:+ rest)).
  reflexivity.
Qed.

(** [attr(name, v)] on a node. *)
Lemma setAttr_node name v n :
  let n' := DOM.with_attributes (fun a => DOM.attr_update a name v) n in
  DOM.is_element n' = DOM.is_element n
  /\ (DOM.is_element n = true -> DOM.attr_lookup (DOM.attributes_of n') name = Some v)
  /\ (forall a, a <> name ->
        DOM.attr_lookup (DOM.attributes_of n') a = DOM.attr_lookup (DOM.attributes_of n) a).
Proof.
  destruct n as [d|t a fl c]; simpl; [done|].
  split; [done|]. split; [intros _; apply attr_lookup_update|].
  intros k Hk. by apply attr_lookup_update_other.
Qed.

(** [addClass] of [media-element] and more on a node. *)
Lemma addClass_node rest n :
  let n' := if DOM.is_element n
            then DOM.set_classes
                   (DOM.add_names (DOM.node_classes n)
                      (DOM.class_names ("media-element" +:+ " " +:+ rest))) n
            else n in
  DOM.is_element n' = DOM.is_element n
  /\ (DOM.is_element n = true ->
      DOM.has_name "media-element" (DOM.node_classes n') = true)
  /\ (forall a, a <> "class" ->
        DOM.attr_lookup (DOM.attributes_of n') a = DOM.attr_lookup (DOM.attributes_of n) a).
Proof.
  destruct n as [d|t a fl c]; [done|]. cbn [DOM.is_element].
  split; [done|]. split.
  - intros _.
    rewrite node_classes_set_classes; [|done|].
    + apply add_names_grows. right. by rewrite class_names_media_element.
    + apply add_names_all_names; [apply node_classes_names|apply class_names_names].
  - intros k Hk. simpl. by apply attr_lookup_update_other.
Qed.

Lemma set_links_html_node content n :
  DOM.is_element (DOM.set_links_html content n) = DOM.is_element n
  /\ DOM.attributes_of (DOM.set_links_html content n) = DOM.attributes_of n.
Proof. by destruct n. Qed.

(** What the last steps of [syncSettingsToPlaceholder] make of a node. *)
Lemma marked_node k fid rest n :
  marked k
    (let n1 := DOM.with_attributes (fun a => DOM.attr_update a "data-fid" fid) n in
     let n2 := DOM.with_attributes (fun a => DOM.attr_update a "data-media-key" k) n1 in
     if DOM.is_element n2
     then DOM.set_classes
            (DOM.add_names (DOM.node_classes n2)
               (DOM.class_names ("media-element" +:+ " " +:+ rest))) n2
     else n2).
Proof.
  cbv zeta.
  set (n1 := DOM.with_attributes (fun a => DOM.attr_update a "data-fid" fid) n).
  set (n2 := DOM.with_attributes (fun a => DOM.attr_update a "data-media-key" k) n1).
  destruct (setAttr_node "data-fid" fid n) as (E1 & S1 & _).
  destruct (setAttr_node "data-media-key" k n1) as (E2 & S2 & A2).
  destruct (addClass_node rest n2) as (E3 & S3 & A3).
  fold n1 in E1, S1. fold n2 in E2, S2, A2. cbv zeta in E3, S3, A3.
  intros He. rewrite E3, E2, E1 in He.
  assert (He1 : DOM.is_element n1 = true) by (by rewrite E1).
  assert (He2 : DOM.is_element n2 = true) by (by rewrite E2).
  split; [rewrite A3 by done; by apply S2|by apply S3].
Qed.

Lemma marked_links k content n : marked k n -> marked k (DOM.set_links_html content n).
Proof.
  unfold marked, DOM.node_classes.
  destruct (set_links_html_node content n) as [-> ->]. done.
Qed.

Lemma getProp_reads v k st r st' : getProp v k st = (r, st') -> st' = st.
Proof. unfold getProp. by intros [= _ <-]. Qed.

Lemma withPlaceholder_run f st st' :
  withPlaceholder f st = (Ok tt, st') ->
  exists e, placeholder (self st) = Some e
            /\ st' = with_self (with_placeholder (Some (f e)) (self st)) st.
Proof.
  unfold withPlaceholder, bind, thisPlaceholder, gets.
  destruct (placeholder (self st)) as [e|]; [|done].
  unfold assignPlaceholder, modify. intros [= <-]. by exists e.
Qed.

(** When [syncSettingsToPlaceholder] returns, every element of the
    placeholder is marked with the key the instance then holds. *)
Lemma syncSettingsToPlaceholder_marks st st' :
  syncSettingsToPlaceholder cfg br st = (Ok tt, st') ->
  exists e, placeholder (self st') = Some e /\ Forall (marked (key (self st'))) e.
Proof.
  intros Hrun. unfold syncSettingsToPlaceholder in Hrun.
  apply bind_ok_inv in Hrun as (settings & st0 & E0 & Hrun).
  apply bind_ok_inv in Hrun as (p & st0' & Ep & Hrun).
  unfold thisPlaceholder, gets in Ep. injection Ep as <- <-.
  destruct (placeholder (self st0)) as [e|] eqn:Hp; [|done].
  apply bind_ok_inv in Hrun as ([] & st1 & E1 & Hrun).
  apply bind_ok_inv in Hrun as ([] & st2 & E2 & Hrun).
  apply bind_ok_inv in Hrun as ([] & st3 & E3 & Hrun).
  apply bind_ok_inv in Hrun as ([] & st4 & E4 & Hrun).
  apply bind_ok_inv in Hrun as ([] & st5 & E5 & Hrun).
  apply bind_ok_inv in Hrun as ([] & st6 & E6 & Hrun).
  apply bind_ok_inv in Hrun as ([] & st7 & E7 & Hrun).
  apply bind_ok_inv in Hrun as ([] & st8 & E8 & Hrun).
  apply bind_ok_inv in Hrun as (link_text & st9 & E9 & Hrun).
  apply bind_ok_inv in Hrun as (external_url & st10 & E10 & Hrun).
  apply bind_ok_inv in Hrun as (url_length & st11 & E11 & Hrun).
  apply getProp_reads in E9, E10, E11. subst st9 st10 st11.
  clear E0 E1 E2 E3 E4 Hp e.
  (* data-fid *)
  apply bind_ok_inv in E5 as (fid & st4' & Efid & E5).
  apply getProp_reads in Efid. subst st4'.
  assert (H5 : exists e4 fid', placeholder (self st5) = Some (DOM.setAttr e4 "data-fid" fid')).
  { destruct fid; try done;
      apply withPlaceholder_run in E5 as (e4 & _ & ->); by eexists _, _. }
  destruct H5 as (e4 & fid' & Hp5). clear E5.
  (* data-media-key *)
  apply bind_ok_inv in E6 as (k & st5' & Ek & E6).
  pose proof (steps_run _ _ _ _ _ getKey_placeholder Ek) as Hframe.
  apply getKey_held in Ek.
  apply withPlaceholder_run in E6 as (e5 & Hp5' & Hst6).
  assert (e5 = DOM.setAttr e4 "data-fid" fid') as ->.
  { unfold same, held_placeholder in Hframe. congruence. }
  assert (H6 : placeholder (self st6)
               = Some (DOM.setAttr (DOM.setAttr e4 "data-fid" fid') "data-media-key" k)
               /\ key (self st6) = k) by (by subst st6).
  destruct H6 as [Hp6 Hk6]. clear Hp5 Hp5' Hframe Hst6 Ek.
  (* the classes *)
  apply bind_ok_inv in E7 as (view_mode & st6' & Ev & E7).
  apply getProp_reads in Ev. subst st6'.
  destruct view_mode as [| | | |mode|]; try done.
  apply bind_ok_inv in E7 as (alignment & st6' & Ea & E7).
  apply getProp_reads in Ea. subst st6'.
  apply withPlaceholder_run in E7 as (e6 & Hp6' & Hst7).
  assert (e6 = DOM.setAttr (DOM.setAttr e4 "data-fid" fid') "data-media-key" k) as ->
    by congruence.
  set (rest := join " " (("file-" +:+ replace_all_char "_" "-" mode)
                         :: (if truthy alignment
                             then ["media-wysiwyg-align-" +:+ toString alignment]
                             else []))).
  set (e7 := DOM.addClass
               (DOM.setAttr (DOM.setAttr e4 "data-fid" fid') "data-media-key" k)
               ("media-element" +:+ " " +:+ rest)).
  assert (H7 : placeholder (self st7) = Some e7 /\ key (self st7) = k).
  { subst st7. split; [|done]. reflexivity. }
  assert (Hmarked : Forall (marked k) e7).
  { unfold e7, DOM.addClass, DOM.setAttr. rewrite !map_map.
    apply Forall_map_all. intros n. apply (marked_node k fid' rest n). }
  clearbody e7. destruct H7 as [Hp7 Hk7]. clear Hst7 Hp6 Hp6' Hk6.
  (* the link text *)
  assert (H8 : placeholder (self st8) = Some e7 /\ key (self st8) = k).
  { assert (R1 : same held_placeholder st7 st8).
    { eapply steps_run; [|exact E8].
      pose proof (getSettings_placeholder cfg). unfold overrideLinkTitle. frame_go. }
    assert (R2 : same held_key st7 st8).
    { eapply steps_run; [|exact E8]. pose proof overrideLinkTitle_key. frame_go. }
    unfold same, held_placeholder, held_key in R1, R2. split; congruence. }
  destruct H8 as [Hp8 Hk8].
  destruct (_ && _).
  - apply withPlaceholder_run in Hrun as (e8 & Hp8' & ->).
    assert (e8 = e7) as -> by congruence.
    eexists. split; [reflexivity|]. cbn [self with_self key with_placeholder].
    rewrite Hk8. apply Forall_map_kept; [|done]. intros n. apply marked_links.
  - unfold ret in Hrun. simplify_eq. exists e7. split; [done|]. by rewrite Hk8.
Qed.

(** X13: [getPlaceholder] returns the placeholder the instance holds, and
    holds the one it returns: a second call returns the same element with
    nothing changed.  A placeholder that it builds from the template comes
    out of [syncSettingsToPlaceholder] with every element marked: the key
    of the instance in [data-media-key], and the class [media-element]. *)
Theorem getPlaceholder_marks st e st' :
  getPlaceholder cfg br st = (Ok e, st') ->
  placeholder (self st') = Some e
  /\ getPlaceholder cfg br st' = (Ok e, st')
  /\ (placeholder (self st) <> None -> st' = st)
  /\ (placeholder (self st) = None -> Forall (marked (key (self st'))) e).
Proof.
  intros Hrun.
  assert (Hmain : placeholder (self st') = Some e
                  /\ (placeholder (self st) <> None -> st' = st)
                  /\ (placeholder (self st) = None -> Forall (marked (key (self st'))) e)).
  { destruct (placeholder (self st)) as [e0|] eqn:Hp.
    - rewrite (getPlaceholder_held cfg br st e0 Hp) in Hrun. by simplify_eq.
    - unfold getPlaceholder in Hrun.
      apply bind_ok_inv in Hrun as (p & st0 & E0 & Hrun).
      unfold thisPlaceholder at 1, gets in E0. simplify_eq. rewrite Hp in Hrun.
      apply bind_ok_inv in Hrun as (base & st1 & E1 & Hrun).
      destruct (is_blank base); [done|].
      apply bind_ok_inv in Hrun as ([] & st2 & E2 & Hrun).
      apply bind_ok_inv in Hrun as ([] & st3 & E3 & Hrun).
      apply bind_ok_inv in Hrun as (p & st4 & E4 & Hrun).
      unfold thisPlaceholder, gets in E4. simplify_eq.
      destruct (syncSettingsToPlaceholder_marks _ _ E3) as (e3 & Hp3 & Hmarked).
      rewrite Hp3 in Hrun. unfold ret in Hrun. simplify_eq.
      split; [done|]. split; [done|]. by intros _. }
  destruct Hmain as (Hp' & Hsame & Hmarked).
  split; [done|]. split; [by apply getPlaceholder_held|]. by split.
Qed.

End Marks.

Lemma getPlaceholder_marks_witness :
  Forall
    (Vocabulary.marked
       (Page.key
          (Page.self
             (snd (WysiwygInstance.getPlaceholder Samples.cfg Samples.browser
                     Samples.built)))))
    [DOM.Element "img"
       [("data-fid", "42"); ("data-media-key", "token-1647443583");
        ("class", "media-element file-default")] "" []].
Proof.
  destruct (getPlaceholder_marks Samples.cfg Samples.browser Samples.built
              [DOM.Element "img"
                 [("data-fid", "42"); ("data-media-key", "token-1647443583");
                  ("class", "media-element file-default")] "" []]
              (snd (WysiwygInstance.getPlaceholder Samples.cfg Samples.browser
                      Samples.built)))
    as (_ & _ & _ & H).
  - apply pair_fst. vm_compute. reflexivity.
  - apply H. vm_compute. reflexivity.
Defined.

(** ** The link title and the two directions of the reconciliation *)

Section Reading.
Import JS Page Vocabulary WysiwygInstance.
Local Open Scope m_scope.

Variable cfg : mediaSettings.

Lemma last_including title (ks : list string) :
  forall init,
    (Forall (fun k => includes k title = false) ks
     /\ fold_left (fun name field => if includes field title then field else name) ks init
        = init)
    \/ exists pre k post,
         ks = pre ++ k :: post /\ includes k title = true
         /\ Forall (fun k' => includes k' title = false) post
         /\ fold_left (fun name field => if includes field title then field else name)
              ks init = k.
Proof.
  induction ks as [|x ks IH]; intros init; [left; by split|].
  cbn [fold_left].
  destruct (IH (if includes x title then x else init))
    as [[Hnone Hfold]|(pre & k & post & -> & Hk & Hpost & Hfold)].
  - destruct (includes x title) eqn:Ex.
    + right. exists [], x, ks. by repeat split.
    + left. split; [by constructor|done].
  - right. exists (x :: pre), k, post. by repeat split.
Qed.

(** The callback of [overrideLinkTitle] over names: the last name that
    contains the title field is kept. *)
Lemma each_with_names title (ks : list string) :
  forall name st,
    each_with (map VStr ks)
      (fun name field =>
         match field with
         | VStr field => ret (if includes field title then field else name)
         | _ => throw TypeError
         end) name st
    = (Ok (fold_left (fun name field => if includes field title then field else name)
             ks name), st).
Proof.
  induction ks as [|k ks IH]; intros name st; [done|].
  cbn [map each_with fold_left]. unfold bind at 1. unfold ret at 1. apply IH.
Qed.

(** X14: [overrideLinkTitle] reads the settings and changes nothing.  With
    no title field configured it returns [link_text].  Otherwise it walks
    the settings as [$.each] does.  Settings that are walked by index, with
    an index to hand to the callback, make it throw a [TypeError].  On
    settings walked by name the last property, in the order of
    enumeration, whose name contains the name of the title field decides:
    its value is returned unless it is [undefined] or loosely equal to the
    empty string, in which case [link_text] is; an earlier property of
    that kind is not looked at.  With no such property, and on settings
    whose [length] is 0, the property named by the empty string is read in
    its place. *)
Theorem overrideLinkTitle_last_match st l :
  settings (self st) = VRef l ->
  (from_option nonempty false (DOM.attr_lookup (attributeFields cfg) "title") = false ->
   overrideLinkTitle cfg st = (Ok (prop_get (heap_get (store st) l) "link_text"), st))
  /\ forall title,
       DOM.attr_lookup (attributeFields cfg) "title" = Some title ->
       nonempty title = true ->
       (forall k, arrayLength (heap_get (store st) l) = Some (S k) ->
          overrideLinkTitle cfg st = (Throw TypeError, st))
       /\ (not_indexed (heap_get (store st) l) ->
           exists name v,
             overrideLinkTitle cfg st = (Ok v, st)
             /\ (Forall (fun k => includes k title = false) (walked (heap_get (store st) l))
                 /\ name = ""
                 \/ exists pre post,
                      walked (heap_get (store st) l) = pre ++ name :: post
                      /\ includes name title = true
                      /\ Forall (fun k' => includes k' title = false) post)
             /\ v = if negb (String.eqb (typeof (prop_get (heap_get (store st) l) name))
                               "undefined")
                       && negb (loosely_empty (prop_get (heap_get (store st) l) name))
                    then prop_get (heap_get (store st) l) name
                    else prop_get (heap_get (store st) l) "link_text").
Proof.
  intros Hs. unfold overrideLinkTitle.
  rewrite (bind_ok _ _ _ _ _ (getSettings_materialized cfg st l Hs)).
  destruct (DOM.attr_lookup (attributeFields cfg) "title") as [title|] eqn:Et; cycle 1.
  { split; [intros _; apply getProp_ref|]. by intros title [=]. }
  destruct (nonempty title) eqn:Hne; cycle 1.
  { split; [intros _; apply getProp_ref|]. intros title' [= <-] Hne'. congruence. }
  split; [simpl; congruence|].
  intros title' [= <-] _. split.
  - intros k Hk. unfold bind at 1. unfold eachKeys, gets. rewrite Hk.
    by rewrite <- cons_seq.
  - intros Hwalk. rewrite (bind_ok _ _ _ _ _ (eachKeys_walked l st Hwalk)).
    rewrite (bind_ok _ _ _ _ _ (each_with_names title _ "" st)).
    set (name := fold_left (fun name field => if includes field title then field else name)
                   (walked (heap_get (store st) l)) "").
    rewrite (bind_ok _ _ _ _ _ (getProp_ref l name st)).
    exists name,
      (if negb (String.eqb (typeof (prop_get (heap_get (store st) l) name)) "undefined")
          && negb (loosely_empty (prop_get (heap_get (store st) l) name))
       then prop_get (heap_get (store st) l) name
       else prop_get (heap_get (store st) l) "link_text").
    split.
    { destruct (_ && _); [reflexivity|apply getProp_ref]. }
    split; [|done].
    destruct (last_including title (walked (heap_get (store st) l)) "")
      as [[Hnone Hfold]|(pre & k & post & Hkeys & Hk & Hpost & Hfold)].
    + left. by split.
    + right. exists pre, post. fold name in Hfold. by subst k.
Qed.

(** One round of the backward reconciliation, whatever the property found. *)
Lemma syncAttributeField_backward_any st l la attribute fieldName :
  prop_get (heap_get (store st) l) "attributes" = VRef la ->
  exists o',
    syncAttributeField true (VRef l) (attribute, fieldName) st
    = (Ok tt, with_store (heap_put (store st) la o') st).
Proof.
  intros Ha. unfold syncAttributeField, Utils.propertyStartsWith.
  unfold bind, ownKeys, gets, ret, getProp, setProp, deleteProp, on_heap. simpl.
  destruct (truthy _); simpl; rewrite Ha; by eexists.
Qed.

Lemma backward_frame (table : list (string * string)) :
  forall st l la,
    (la < length (store st))%nat -> la <> l ->
    prop_get (heap_get (store st) l) "attributes" = VRef la ->
    exists st',
      each table (syncAttributeField true (VRef l)) st = (Ok tt, st')
      /\ self st' = self st /\ fidTypeMap st' = fidTypeMap st
      /\ length (store st') = length (store st)
      /\ (forall a, a <> la -> heap_get (store st') a = heap_get (store st) a).
Proof.
  induction table as [|[a f] table IH]; intros st l la Hla Hne Ha.
  { exists st. by repeat split. }
  destruct (syncAttributeField_backward_any st l la a f Ha) as (o' & Hstep).
  cbn [each]. rewrite (bind_ok _ _ _ _ _ Hstep).
  destruct (IH (with_store (heap_put (store st) la o') st) l la)
    as (st' & Hrun & Hself & Hmap & Hlen & Hother).
  { simpl. by rewrite heap_put_length. }
  { done. }
  { simpl. by rewrite heap_get_put_ne. }
  exists st'. split; [exact Hrun|]. split; [done|]. split; [done|].
  split; [rewrite Hlen; simpl; apply heap_put_length|].
  intros b Hb. rewrite Hother by done. simpl. by apply heap_get_put_ne.
Qed.

(** X15: on settings whose [attributes] are an object of their own, the
    reconciliation returns in either direction, and the two directions
    write to different objects: from attributes to fields only the settings
    object changes, and it keeps its [attributes]; from fields to
    attributes only the attributes object changes.  Every other object and
    the instance are as they were. *)
Theorem syncAttributesToFields_writes reverse st l la :
  settings (self st) = VRef l ->
  (l < length (store st))%nat -> (la < length (store st))%nat -> la <> l ->
  prop_get (heap_get (store st) l) "attributes" = VRef la ->
  exists st',
    syncAttributesToFields cfg reverse st = (Ok tt, st')
    /\ self st' = self st /\ fidTypeMap st' = fidTypeMap st
    /\ length (store st') = length (store st)
    /\ (forall a, a <> (if reverse then la else l) ->
          heap_get (store st') a = heap_get (store st) a)
    /\ prop_get (heap_get (store st') l) "attributes" = VRef la.
Proof.
  intros Hs Hl Hla Hne Ha.
  assert (Hrun : forall st',
            each (attributeFields cfg) (syncAttributeField reverse (VRef l)) st
            = (Ok tt, st') ->
            syncAttributesToFields cfg reverse st = (Ok tt, st')).
  { intros st' Heach. unfold syncAttributesToFields.
    rewrite (bind_ok _ _ _ _ _ (getSettings_materialized cfg st l Hs)).
    rewrite (bind_ok _ _ _ _ _ (getProp_ref l "attributes" st)), Ha.
    simpl. exact Heach. }
  destruct reverse.
  - destruct (backward_frame (attributeFields cfg) st l la Hla Hne Ha)
      as (st' & Heach & Hself & Hmap & Hlen & Hother).
    exists st'. split; [by apply Hrun|]. split; [done|]. split; [done|].
    split; [done|]. split; [done|]. rewrite Hother by done. exact Ha.
  - destruct (forward_frame (attributeFields cfg) st l la Hl Hne Ha)
      as (st' & Heach & Hself & Hmap & Hlen & Hother & Hattr).
    exists st'. split; [by apply Hrun|]. by repeat split.
Qed.

End Reading.

Lemma overrideLinkTitle_last_match_witness :
  exists v,
    WysiwygInstance.overrideLinkTitle Samples.cfg Samples.empty_alt
    = (JS.Ok v, Samples.empty_alt).
Proof.
  destruct (overrideLinkTitle_last_match Samples.cfg Samples.empty_alt 1%nat eq_refl)
    as [_ H].
  destruct (H "field_file_image_title_text" eq_refl eq_refl) as [_ Hnames].
  destruct Hnames as (name & v & Hrun & _).
  - intros k Hk. vm_compute in Hk. discriminate Hk.
  - exists v. exact Hrun.
Defined.

Lemma syncAttributesToFields_writes_witness :
  exists st',
    WysiwygInstance.syncAttributesToFields Samples.cfg true Samples.fed_by_fields
    = (JS.Ok tt, st')
    /\ JS.heap_get (Page.store st') 1%nat
       = JS.heap_get (Page.store Samples.fed_by_fields) 1%nat.
Proof.
  destruct (syncAttributesToFields_writes Samples.cfg true Samples.fed_by_fields
              1%nat 2%nat)
    as (st' & Hrun & _ & _ & _ & Hother & _).
  - reflexivity.
  - vm_compute. lia.
  - vm_compute. lia.
  - lia.
  - reflexivity.
  - exists st'. split; [exact Hrun|]. apply Hother. lia.
Defined.

(** ** The attributes of the token *)

Section CleanedObject.
Import JS Page Vocabulary WysiwygInstance.

Variable cfg : mediaSettings.

Lemma copy_fold_keys (o acc : object) :
  NoDup (keys acc) ->
  NoDup (keys (fold_left (fun acc kv => prop_set acc (fst kv) (snd kv)) o acc)).
Proof.
  revert acc. induction o as [|[k v] o IH]; intros acc Hacc; [done|].
  simpl. by apply IH, NoDup_keys_prop_set.
Qed.

Lemma prop_has_false_keys (o : object) k : ~ In k (keys o) -> prop_has o k = false.
Proof.
  intros Hk. destruct (prop_has o k) eqn:E; [|done].
  by apply prop_has_keys in E.
Qed.

Lemma copy_fold_get (o : object) :
  NoDup (keys o) ->
  forall acc k,
    prop_get (fold_left (fun acc kv => prop_set acc (fst kv) (snd kv)) o acc) k
    = if prop_has o k then prop_get o k else prop_get acc k.
Proof.
  induction o as [|[k0 v0] o IH]; intros Hnd acc k; [done|].
  change (keys ((k0, v0) :: o)) with (k0 :: keys o) in Hnd.
  apply NoDup_cons in Hnd as [Hk0 Hnd]. rewrite list_elem_of_In in Hk0.
  cbn [fold_left fst snd prop_has prop_get]. rewrite (IH Hnd).
  destruct (String.eqb k0 k) eqn:E; simpl.
  - apply String.eqb_eq in E as <-.
    rewrite (prop_has_false_keys o k0 Hk0). apply prop_get_set_eq.
  - destruct (prop_has o k); [done|].
    apply prop_get_set_ne. intros ->. by rewrite String.eqb_refl in E.
Qed.

(** The copy has no property twice, and it reads as the original does. *)
Lemma copy_of_reads (o : object) :
  NoDup (keys (copy_of o))
  /\ (NoDup (keys o) -> forall k, prop_get (copy_of o) k = prop_get o k).
Proof.
  split; [apply copy_fold_keys; constructor|].
  intros Hnd k. unfold copy_of. rewrite (copy_fold_get o Hnd).
  destruct (prop_has o k) eqn:E; [done|]. simpl. symmetry. by apply prop_get_absent.
Qed.

Lemma strings_copy_fold (o acc : object) :
  strings o -> strings acc ->
  strings (fold_left (fun acc kv => prop_set acc (fst kv) (snd kv)) o acc).
Proof.
  revert acc. induction o as [|[k v] o IH]; intros acc Ho Hacc; [done|].
  simpl. destruct (Ho k v ltac:(by left)) as [s ->].
  apply IH; [|by apply strings_prop_set].
  intros k' v' Hin. apply (Ho k'). by right.
Qed.

Lemma delete_fold_reads (ks : list string) :
  forall C,
    NoDup (keys C) ->
    NoDup (keys (fold_left prop_delete ks C))
    /\ forall k, prop_get (fold_left prop_delete ks C) k
                 = if existsb (String.eqb k) ks then VUndefined else prop_get C k.
Proof.
  induction ks as [|x ks IH]; intros C Hnd; [done|].
  cbn [fold_left existsb].
  destruct (IH (prop_delete C x) (NoDup_keys_prop_delete C x Hnd)) as [Hnd' Hget].
  split; [done|]. intros k. rewrite Hget.
  destruct (existsb (String.eqb k) ks); [by rewrite orb_true_r|].
  rewrite orb_false_r. destruct (String.eqb k x) eqn:E.
  - apply String.eqb_eq in E as ->. by apply prop_get_delete_eq.
  - apply prop_get_delete_ne. intros ->. by rewrite String.eqb_refl in E.
Qed.

Lemma strings_delete_fold (ks : list string) :
  forall C, strings C -> strings (fold_left prop_delete ks C).
Proof.
  induction ks as [|x ks IH]; intros C HC; [done|].
  simpl. by apply IH, strings_prop_delete.
Qed.

Lemma with_clean_class_reads (D : object) :
  NoDup (keys D) ->
  forall k, prop_get (with_clean_class D) k
            = if String.eqb k "class" then clean_class (prop_get D "class")
              else prop_get D k.
Proof.
  intros Hnd k. unfold with_clean_class.
  assert (Hfalsy : truthy (prop_get D "class") = false ->
                   clean_class (prop_get D "class") = prop_get D "class").
  { unfold clean_class. destruct (prop_get D "class") as [| | | |names|]; try done.
    by intros ->. }
  destruct (String.eqb k "class") eqn:E.
  - apply String.eqb_eq in E as ->.
    destruct (truthy (prop_get D "class")) eqn:Et.
    + destruct (clean_class (prop_get D "class")) eqn:Ec;
        first [by apply prop_get_delete_eq|apply prop_get_set_eq].
    + by rewrite (Hfalsy eq_refl).
  - assert (Hne : "class" <> k) by (intros <-; by rewrite String.eqb_refl in E).
    destruct (truthy (prop_get D "class")); [|done].
    destruct (clean_class (prop_get D "class"));
      first [by apply prop_get_delete_ne|by apply prop_get_set_ne].
Qed.

Lemma with_clean_class_shape (D : object) :
  NoDup (keys D) -> strings D ->
  NoDup (keys (with_clean_class D)) /\ strings (with_clean_class D).
Proof.
  intros Hnd Hs. unfold with_clean_class.
  destruct (truthy (prop_get D "class")) eqn:Et; [|done].
  assert (Hc : clean_class (prop_get D "class") = VUndefined
               \/ exists s, clean_class (prop_get D "class") = VStr s).
  { destruct (prop_get D "class") as [| |b|n|names|a] eqn:Ec; try done.
    - apply prop_get_In in Ec; [|done]. by destruct (Hs _ _ Ec) as [s ?].
    - apply prop_get_In in Ec; [|done]. by destruct (Hs _ _ Ec) as [s ?].
    - unfold clean_class. rewrite Et.
      destruct (List.filter keeps_class (split_char " " names)); [by left|right; by eexists].
    - apply prop_get_In in Ec; [|done]. by destruct (Hs _ _ Ec) as [s ?]. }
  destruct Hc as [->|[s ->]].
  - split; [by apply NoDup_keys_prop_delete|by apply strings_prop_delete].
  - split; [by apply NoDup_keys_prop_set|by apply strings_prop_set].
Qed.

(** What is left of the attributes [C], read property by property. *)
Lemma cleaned_reads (C : object) :
  NoDup (keys C) ->
  forall k, prop_get (with_clean_class (without_generated cfg C)) k
            = cleaned_attribute cfg C k.
Proof.
  intros Hnd k. unfold without_generated, cleaned_attribute.
  destruct (delete_fold_reads (generated_attributes cfg) C Hnd) as [Hnd' Hget].
  rewrite (with_clean_class_reads _ Hnd'), !Hget.
  destruct (String.eqb k "class") eqn:E.
  - apply String.eqb_eq in E as ->.
    by destruct (existsb (String.eqb "class") (generated_attributes cfg)).
  - done.
Qed.

End CleanedObject.

Section CleanedRun.
Import JS JSON Page Vocabulary WysiwygInstance.
Local Open Scope m_scope.

Variable cfg : mediaSettings.

Lemma heap_put_put (h : heap) l a b : heap_put (heap_put h l a) l b = heap_put h l b.
Proof. unfold heap_put. apply list_insert_insert_eq. Qed.

Lemma extend_props_strings_copy rec (o : object) :
  forall (h : heap) (target : object),
    strings o ->
    Utils.extend_props rec (length h) o (h ++ [target])
    = Some (h ++ [fold_left (fun acc kv => prop_set acc (fst kv) (snd kv)) o target]).
Proof.
  induction o as [|[name v] o IH]; intros h target Ho; [done|].
  destruct (Ho name v ltac:(by left)) as [s ->]. simpl.
  rewrite heap_get_app_new, heap_put_last.
  apply IH. intros k' v' Hin. apply (Ho k'). by right.
Qed.

(** The copy of an object of strings, as [copyAsNew] stores it. *)
Lemma copyAsNew_strings_copy la st :
  strings (heap_get (store st) la) ->
  Utils.copyAsNew (VRef la) st
  = (Ok (VRef (length (store st))),
     with_store (store st ++ [copy_of (heap_get (store st) la)]) st).
Proof.
  intros Hs. unfold Utils.copyAsNew, on_heap. simpl.
  unfold heap_alloc.
  by rewrite (extend_props_strings_copy (Utils.extend_deep (length (store st)))
                (heap_get (store st) la) (store st) [] Hs).
Qed.

(** *** The clean-up, step by step *)

Lemma delete_attribute_step st n lc X k :
  prop_get (heap_get (store st) n) "attributes" = VRef lc ->
  lc <> n -> (lc < length (store st))%nat ->
  (let! attributes := getProp (VRef n) "attributes" in deleteProp attributes k)
    (with_store (heap_put (store st) lc X) st)
  = (Ok tt, with_store (heap_put (store st) lc (prop_delete X k)) st).
Proof.
  intros Ha Hne Hlc.
  rewrite (bind_ok _ _ _ _ _ (getProp_ref n "attributes" _)).
  cbn [store with_store]. rewrite heap_get_put_ne, Ha by done.
  rewrite deleteProp_ref. cbn [store with_store].
  by rewrite heap_get_put_eq, heap_put_put by done.
Qed.

Lemma delete_attributes_loop st n lc (table : list (string * string)) :
  prop_get (heap_get (store st) n) "attributes" = VRef lc ->
  lc <> n -> (lc < length (store st))%nat ->
  forall X,
    each table
      (fun entry =>
         let! attributes := getProp (VRef n) "attributes" in
         deleteProp attributes (fst entry))
      (with_store (heap_put (store st) lc X) st)
    = (Ok tt, with_store (heap_put (store st) lc (fold_left prop_delete (map fst table) X))
               st).
Proof.
  intros Ha Hne Hlc. induction table as [|entry table IH]; intros X; [done|].
  cbn [each map fold_left].
  rewrite (bind_ok _ _ _ _ _ (delete_attribute_step st n lc X (fst entry) Ha Hne Hlc)).
  apply IH.
Qed.

(** The class names that stay, written back. *)
Lemma clean_class_step st lc X :
  (lc < length (store st))%nat -> strings X ->
  (if truthy (prop_get X "class") then
     match prop_get X "class" with
     | VStr names =>
         let classes := List.filter keeps_class (split_char " " names) in
         match classes with
         | [] => deleteProp (VRef lc) "class"
         | _ => setProp (VRef lc) "class" (VStr (join " " classes))
         end
     | _ => throw TypeError
     end
   else ret tt) (with_store (heap_put (store st) lc X) st)
  = (Ok tt, with_store (heap_put (store st) lc (with_clean_class X)) st).
Proof.
  intros Hlc Hs. unfold with_clean_class.
  destruct (truthy (prop_get X "class")) eqn:Et; [|done].
  destruct (prop_get X "class") as [| | | |names|a] eqn:Eclass;
    try (apply prop_get_In in Eclass; [|done];
         destruct (Hs _ _ Eclass) as [s Heq]; discriminate); try done.
  unfold clean_class. rewrite Et. cbv zeta.
  destruct (List.filter keeps_class (split_char " " names)) as [|c classes].
  - rewrite deleteProp_ref. cbn [store with_store].
    by rewrite heap_get_put_eq, heap_put_put by done.
  - rewrite setProp_ref. cbn [store with_store].
    by rewrite heap_get_put_eq, heap_put_put by done.
Qed.

(** [cleanAttributes] on an object at [n] whose [attributes] are an object
    of strings at [lc]: what it leaves at the two addresses. *)
Lemma cleanAttributes_run st n lc :
  prop_get (heap_get (store st) n) "attributes" = VRef lc ->
  lc <> n -> (lc < length (store st))%nat ->
  strings (heap_get (store st) lc) ->
  cleanAttributes cfg (VRef n) st
  = (Ok tt,
     with_store
       (match length (with_clean_class (without_generated cfg (heap_get (store st) lc))) with
        | O =>
            heap_put
              (heap_put (store st) lc
                 (with_clean_class (without_generated cfg (heap_get (store st) lc))))
              n (prop_delete (heap_get (store st) n) "attributes")
        | S _ =>
            heap_put (store st) lc
              (with_clean_class (without_generated cfg (heap_get (store st) lc)))
        end) st).
Proof.
  intros Ha Hne Hlc Hs.
  set (X0 := heap_get (store st) lc) in *.
  transitivity (cleanAttributes cfg (VRef n) (with_store (heap_put (store st) lc X0) st)).
  { unfold X0. by rewrite heap_put_get_same, with_store_same. }
  unfold cleanAttributes.
  rewrite (bind_ok _ _ _ _ _ (delete_attributes_loop st n lc _ Ha Hne Hlc X0)).
  rewrite (bind_ok _ _ _ _ _ (delete_attribute_step st n lc _ "data-fid" Ha Hne Hlc)).
  rewrite (bind_ok _ _ _ _ _
             (delete_attribute_step st n lc _ "data-media-element" Ha Hne Hlc)).
  rewrite (bind_ok _ _ _ _ _ (delete_attribute_step st n lc _ "data-media-key" Ha Hne Hlc)).
  assert (HX4 : prop_delete
                  (prop_delete
                     (prop_delete (fold_left prop_delete (map fst (attributeFields cfg)) X0)
                        "data-fid")
                     "data-media-element")
                  "data-media-key"
                = without_generated cfg X0).
  { unfold without_generated, generated_attributes. by rewrite fold_left_app. }
  rewrite HX4. set (X4 := without_generated cfg X0).
  assert (Hs4 : strings X4) by (by apply strings_delete_fold).
  rewrite (bind_ok _ _ _ _ _ (getProp_ref n "attributes" _)).
  cbn [store with_store]. rewrite heap_get_put_ne, Ha by done.
  rewrite (bind_ok _ _ _ _ _ (getProp_ref lc "class" _)).
  cbn [store with_store]. rewrite heap_get_put_eq by done.
  rewrite (bind_ok _ _ _ _ _ (clean_class_step st lc X4 Hlc Hs4)).
  rewrite (bind_ok _ _ _ _ _ (getProp_ref n "attributes" _)).
  cbn [store with_store]. rewrite heap_get_put_ne, Ha by done.
  unfold bind, countKeys, gets. cbn [store with_store].
  rewrite heap_get_put_eq by done.
  destruct (length (with_clean_class X4)); [|done].
  rewrite deleteProp_ref. cbn [store with_store].
  by rewrite heap_get_put_ne by done.
Qed.

(** [copyAsNew] leaves what existed as it was. *)
Lemma copyAsNew_grows v st c stx :
  Utils.copyAsNew v st = (Ok c, stx) ->
  (forall a, (a < length (store st))%nat -> heap_get (store stx) a = heap_get (store st) a)
  /\ (length (store st) <= length (store stx))%nat.
Proof.
  intros Hrun. destruct (primitive_cases v) as [Hprim|[a ->]].
  - rewrite (copyAsNew_primitive v st Hprim) in Hrun. injection Hrun as <- <-. by split.
  - apply copyAsNew_object in Hrun as (h' & t & Hdeep & -> & ->).
    destruct (extend_deep_ok 0 _ _ _ _ _ Hdeep) as (_ & Hlen & Hagree & _).
    split; [exact Hagree|simpl; lia].
Qed.

End CleanedRun.

Section Built.
Import JS JSON Page Vocabulary WysiwygInstance.
Local Open Scope m_scope.

Variable cfg : mediaSettings.
Variable st0 : state.
Variables l la : loc.

Let n : nat := length (store st0).
Let R : object := heap_get (store st0) l.
Let A : object := heap_get (store st0) la.

Hypothesis Hl : (l < n)%nat.
Hypothesis Hplain : plain_settings R (store st0).
Hypothesis Hattr : prop_get R "attributes" = VRef la.

Lemma attributes_strings : (la < n)%nat /\ strings A.
Proof. by destruct (settings_attributes st0 l Hplain "attributes" la Hattr) as (_ & ? & ?). Qed.

Lemma building_done done done' st' :
  building n (copy_of A) done st0 st' ->
  (existsb (String.eqb "attributes") done' = true ->
   existsb (String.eqb "attributes") done = true) ->
  building n (copy_of A) done' st0 st'.
Proof.
  intros (Hext & Hn & Hnd & Hcopy) Hdone.
  split; [done|]. split; [done|]. split; [done|]. intros Hd. by apply Hcopy, Hdone.
Qed.

Lemma building_set done st' p v :
  building n (copy_of A) done st0 st' -> p <> "attributes" ->
  building n (copy_of A) done st0
    (with_store (heap_put (store st') n (prop_set (heap_get (store st') n) p v)) st').
Proof.
  intros (Hext & Hn & Hnd & Hcopy) Hp. split; [apply extends_put; [done|lia]|].
  cbn [store with_store]. rewrite heap_put_length, heap_get_put_eq by done.
  split; [done|]. split; [by apply NoDup_keys_prop_set|].
  intros Hdone. destruct (Hcopy Hdone) as (lc & Hget & Hlc & HC). exists lc.
  rewrite prop_get_set_ne by done. split; [done|]. split; [done|].
  by rewrite heap_get_put_ne by lia.
Qed.

Lemma existsb_attributes_snoc done p :
  p <> "attributes" ->
  existsb (String.eqb "attributes") (done ++ [p]) = existsb (String.eqb "attributes") done.
Proof.
  intros Hp. rewrite existsb_app. cbn [existsb].
  assert (E : String.eqb "attributes" p = false) by (by apply String.eqb_neq).
  by rewrite E, !orb_false_r.
Qed.

(** One round of the loop over the token schema. *)
Lemma copy_step_building p done st' st1 :
  building n (copy_of A) done st0 st' ->
  (let! v := getProp (VRef l) p in
   if truthy v then
     let! c := Utils.copyAsNew v in
     setProp (VRef n) p c
   else ret tt) st' = (Ok tt, st1) ->
  building n (copy_of A) (done ++ [p]) st0 st1.
Proof.
  intros Hb Hrun. pose proof Hb as (Hext & Hn & Hnd & Hcopy).
  pose proof Hext as (_ & _ & Hagree).
  assert (HR : heap_get (store st') l = R) by (by apply Hagree).
  rewrite (bind_ok _ _ _ _ _ (getProp_ref l p st')), HR in Hrun.
  destruct (decide (p = "attributes")) as [->|Hp].
  - rewrite Hattr in Hrun. cbn [truthy] in Hrun.
    destruct attributes_strings as [Hla Hs].
    assert (HA : heap_get (store st') la = A) by (by apply Hagree).
    rewrite (bind_ok _ _ _ _ _
               (copyAsNew_strings_copy la st' ltac:(by rewrite HA))) in Hrun.
    rewrite HA, setProp_ref in Hrun. injection Hrun as <-.
    split.
    { apply (extends_put n st0 (with_store (store st' ++ [copy_of A]) st')); [|lia].
      apply extends_alloc; [done|lia]. }
    cbn [store with_store]. rewrite heap_put_length, length_app. simpl.
    split; [lia|].
    rewrite heap_get_put_eq by (rewrite length_app; lia).
    rewrite heap_get_app_old by done.
    split; [by apply NoDup_keys_prop_set|].
    intros _. exists (length (store st')). rewrite prop_get_set_eq.
    split; [done|]. split; [lia|].
    rewrite heap_get_put_ne by lia. apply heap_get_app_new.
  - apply (building_done done); [|by rewrite existsb_attributes_snoc].
    destruct (truthy (prop_get R p)) eqn:Ep.
    + rewrite (bind_ok _ _ _ _ _
                 (copyAsNew_primitive _ st' (settings_primitive st0 l Hplain p Hp))) in Hrun.
      rewrite setProp_ref in Hrun. injection Hrun as <-. by apply building_set.
    + unfold ret in Hrun. by injection Hrun as <-.
Qed.

Lemma copy_loop_building (entries : list (string * propSettings)) :
  forall done st' st'',
    building n (copy_of A) done st0 st' ->
    each entries
      (fun entry =>
         let property := fst entry in
         let! v := getProp (VRef l) property in
         if truthy v then
           let! c := Utils.copyAsNew v in
           setProp (VRef n) property c
         else ret tt) st' = (Ok tt, st'') ->
    building n (copy_of A) (done ++ map fst entries) st0 st''.
Proof.
  induction entries as [|[p ps] entries IH]; intros done st' st'' Hb Hrun.
  { unfold each, ret in Hrun. injection Hrun as <-. by rewrite app_nil_r. }
  cbn [each fst] in Hrun.
  apply bind_ok_inv in Hrun as ([] & st1 & Hstep & Hrun).
  pose proof (copy_step_building p done st' st1 Hb Hstep) as Hb1.
  pose proof (IH (done ++ [p]) st1 st'' Hb1 Hrun) as Hb2.
  simpl. by rewrite <- app_assoc in Hb2.
Qed.

(** The loops over the overridable fields. *)
Lemma field_loop_building field (properties : list string) :
  forall done st' st'',
    building n (copy_of A) done st0 st' ->
    each properties
      (fun property =>
         if startsWith property (field +:+ "[") then
           let! v := getProp (VRef l) property in
           setProp (VRef n) property v
         else ret tt) st' = (Ok tt, st'') ->
    building n (copy_of A) done st0 st''.
Proof.
  induction properties as [|property properties IH]; intros done st' st'' Hb Hrun.
  { unfold each, ret in Hrun. by injection Hrun as <-. }
  cbn [each] in Hrun.
  apply bind_ok_inv in Hrun as ([] & st1 & Hstep & Hrun).
  apply (IH done st1 st''); [|done].
  destruct (startsWith property (field +:+ "[")) eqn:Estart.
  - assert (Hp : property <> "attributes").
    { intros ->. by rewrite startsWith_field_prefix in Estart. }
    rewrite (bind_ok _ _ _ _ _ (getProp_ref l property st')) in Hstep.
    rewrite setProp_ref in Hstep. injection Hstep as <-. by apply building_set.
  - unfold ret in Hstep. by injection Hstep as <-.
Qed.

Lemma fields_loop_building (fields : list string) :
  forall done st' st'',
    building n (copy_of A) done st0 st' ->
    each fields
      (fun field =>
         let! properties := eachKeys (VRef l) in
         each properties
           (fun property =>
              match property with
              | VStr property =>
                  if startsWith property (field +:+ "[") then
                    let! v := getProp (VRef l) property in
                    setProp (VRef n) property v
                  else ret tt
              | _ => throw TypeError
              end)) st' = (Ok tt, st'') ->
    building n (copy_of A) done st0 st''.
Proof.
  induction fields as [|field fields IH]; intros done st' st'' Hb Hrun.
  { unfold each, ret in Hrun. by injection Hrun as <-. }
  cbn [each] in Hrun.
  apply bind_ok_inv in Hrun as ([] & st1 & Hstep & Hrun).
  apply (IH done st1 st''); [|done].
  apply bind_ok_inv in Hstep as (properties & st2 & Hkeys & Hstep).
  apply eachKeys_inv in Hkeys as [-> [->|[rest ->]]]; [|discriminate Hstep].
  rewrite each_map in Hstep.
  by apply (field_loop_building field (walked (heap_get (store st') l)) done st' st1).
Qed.

End Built.

Section Absent.
Import JS JSON Page Vocabulary WysiwygInstance.
Local Open Scope m_scope.

Variable cfg : mediaSettings.
Variable st0 : state.
Variable l : loc.

Let n : nat := length (store st0).
Let R : object := heap_get (store st0) l.

Hypothesis Hl : (l < n)%nat.
Hypothesis Habsent : prop_get R "attributes" = VUndefined.


(** Settings without [attributes]: the object that is being built gets
    none. *)
Lemma copy_loop_absent (entries : list (string * propSettings)) :
  forall st' st'',
    (n < length (store st'))%nat -> heap_get (store st') l = R ->
    prop_get (heap_get (store st') n) "attributes" = VUndefined ->
    each entries
      (fun entry =>
         let property := fst entry in
         let! v := getProp (VRef l) property in
         if truthy v then
           let! c := Utils.copyAsNew v in
           setProp (VRef n) property c
         else ret tt) st' = (Ok tt, st'') ->
    (n < length (store st''))%nat /\ heap_get (store st'') l = R
    /\ prop_get (heap_get (store st'') n) "attributes" = VUndefined.
Proof.
  induction entries as [|[p ps] entries IH]; intros st' st'' Hn HR Hnone Hrun.
  { unfold each, ret in Hrun. by injection Hrun as <-. }
  cbn [each fst] in Hrun.
  apply bind_ok_inv in Hrun as ([] & st1 & Hstep & Hrun).
  apply (IH st1 st''); try done;
    rewrite (bind_ok _ _ _ _ _ (getProp_ref l p st')), HR in Hstep;
    (destruct (truthy (prop_get R p)) eqn:Ep;
     [|unfold ret in Hstep; by injection Hstep as <-]);
    apply bind_ok_inv in Hstep as (c & stx & Ecopy & Hstep);
    destruct (copyAsNew_grows _ _ _ _ Ecopy) as [Hagree Hlen];
    rewrite setProp_ref in Hstep; injection Hstep as <-;
    cbn [store with_store]; rewrite ?heap_put_length.
  - lia.
  - rewrite heap_get_put_ne by lia. by rewrite Hagree by lia.
  - rewrite heap_get_put_eq by lia. rewrite Hagree by lia.
    rewrite prop_get_set_ne; [done|]. intros ->. by rewrite Habsent in Ep.
Qed.

Lemma field_loop_absent field (properties : list string) :
  forall st' st'',
    (n < length (store st'))%nat -> heap_get (store st') l = R ->
    prop_get (heap_get (store st') n) "attributes" = VUndefined ->
    each properties
      (fun property =>
         if startsWith property (field +:+ "[") then
           let! v := getProp (VRef l) property in
           setProp (VRef n) property v
         else ret tt) st' = (Ok tt, st'') ->
    (n < length (store st''))%nat /\ heap_get (store st'') l = R
    /\ prop_get (heap_get (store st'') n) "attributes" = VUndefined.
Proof.
  induction properties as [|x properties IH]; intros st' st'' Hn HR Hnone Hrun.
  { unfold each, ret in Hrun. by injection Hrun as <-. }
  cbn [each] in Hrun.
  apply bind_ok_inv in Hrun as ([] & st1 & Hstep & Hrun).
  destruct (startsWith x (field +:+ "[")) eqn:Estart.
  - rewrite (bind_ok _ _ _ _ _ (getProp_ref l x st')) in Hstep.
    rewrite setProp_ref in Hstep. injection Hstep as <-.
    eapply IH; [| | |exact Hrun]; cbn [store with_store]; rewrite ?heap_put_length.
    + done.
    + by rewrite heap_get_put_ne by lia.
    + rewrite heap_get_put_eq by done. rewrite prop_get_set_ne; [done|].
      intros ->. by rewrite startsWith_field_prefix in Estart.
  - unfold ret in Hstep. injection Hstep as <-. by apply (IH st' st'').
Qed.

Lemma fields_loop_absent (fields : list string) :
  forall st' st'',
    (n < length (store st'))%nat -> heap_get (store st') l = R ->
    prop_get (heap_get (store st') n) "attributes" = VUndefined ->
    each fields
      (fun field =>
         let! properties := eachKeys (VRef l) in
         each properties
           (fun property =>
              match property with
              | VStr property =>
                  if startsWith property (field +:+ "[") then
                    let! v := getProp (VRef l) property in
                    setProp (VRef n) property v
                  else ret tt
              | _ => throw TypeError
              end)) st' = (Ok tt, st'') ->
    (n < length (store st''))%nat /\ heap_get (store st'') l = R
    /\ prop_get (heap_get (store st'') n) "attributes" = VUndefined.
Proof.
  induction fields as [|field fields IH]; intros st' st'' Hn HR Hnone Hrun.
  { unfold each, ret in Hrun. by injection Hrun as <-. }
  cbn [each] in Hrun.
  apply bind_ok_inv in Hrun as ([] & st1 & Hstep & Hrun).
  apply bind_ok_inv in Hstep as (properties & st2 & Hkeys & Hstep).
  apply eachKeys_inv in Hkeys as [-> [->|[rest ->]]]; [|discriminate Hstep].
  rewrite each_map in Hstep.
  destruct (field_loop_absent field _ st' st1 Hn HR Hnone Hstep) as (Hn1 & HR1 & Hnone1).
  by apply (IH st1 st'').
Qed.

End Absent.

Section Cleaned.
Import JS JSON Page Vocabulary WysiwygInstance.
Local Open Scope m_scope.

Variable cfg : mediaSettings.

(** [prepareSettingsForToken] on settings as a token holds them, walked by
    name: it returns a new object that carries the truthy schema properties
    of the settings; its [attributes] are none when the settings have
    none, and else a new object with the attributes that are left. *)
Lemma prepareSettingsForToken_prepared st l :
  settings (self st) = VRef l ->
  (l < length (store st))%nat ->
  plain_settings (heap_get (store st) l) (store st) ->
  not_indexed (heap_get (store st) l) ->
  exists st',
    prepareSettingsForToken cfg st = (Ok (VRef (length (store st))), st')
    /\ extends (length (store st)) st st'
    /\ shaped (length (store st)) (store st')
    /\ carries (heap_get (store st) l) (map fst (tokenSchema cfg))
         (heap_get (store st') (length (store st)))
    /\ (prop_get (heap_get (store st) l) "attributes" = VUndefined ->
        prop_get (heap_get (store st') (length (store st))) "attributes" = VUndefined)
    /\ (forall la,
          prop_get (heap_get (store st) l) "attributes" = VRef la ->
          NoDup (keys (heap_get (store st) la)) ->
          In "attributes" (map fst (tokenSchema cfg)) ->
          (forall k, cleaned_attribute cfg (heap_get (store st) la) k = VUndefined)
          /\ prop_get (heap_get (store st') (length (store st))) "attributes" = VUndefined
          \/ exists lc,
               prop_get (heap_get (store st') (length (store st))) "attributes" = VRef lc
               /\ (length (store st) < lc < length (store st'))%nat
               /\ (forall k, prop_get (heap_get (store st') lc) k
                             = cleaned_attribute cfg (heap_get (store st) la) k)
               /\ NoDup (keys (heap_get (store st') lc))
               /\ exists k, cleaned_attribute cfg (heap_get (store st) la) k
                            <> VUndefined).
Proof.
  intros Hs Hl Hplain Hwalk.
  set (n := length (store st)).
  destruct (prepareSettingsForToken_returns cfg st l Hl Hplain Hwalk Hs)
    as (st' & Hprep & Hext & Hshaped & Hcarries).
  exists st'. split; [exact Hprep|]. split; [exact Hext|].
  split; [exact Hshaped|]. split; [exact Hcarries|].
  (* the run, once more, for the attributes *)
  pose proof Hprep as Hrun. unfold prepareSettingsForToken in Hrun.
  rewrite (bind_ok _ _ _ _ _ (newObject_run st)) in Hrun.
  set (sta := with_store (store st ++ [[]]) st) in Hrun.
  rewrite (bind_ok _ _ _ _ _ (getSettings_materialized cfg sta l Hs)) in Hrun.
  apply bind_ok_inv in Hrun as ([] & stb & Eb & Hrun).
  rewrite (bind_ok _ _ _ _ _ (getProp_ref l "fid" stb)) in Hrun.
  destruct (getOverridableFields_returns cfg
              (prop_get (heap_get (store stb) l) "fid") stb) as [fields Hf].
  rewrite (bind_ok _ _ _ _ _ Hf) in Hrun.
  apply bind_ok_inv in Hrun as ([] & stc & Ec & Hrun).
  rewrite (bind_ok _ _ _ _ _ (getProp_ref n "attributes" stc)) in Hrun.
  assert (Hna : (n < length (store sta))%nat).
  { cbn [store with_store sta]. rewrite length_app. simpl. unfold n. lia. }
  split.
  - intros Habsent.
    assert (HRa : heap_get (store sta) l = heap_get (store st) l).
    { cbn [store with_store sta]. by apply heap_get_app_old. }
    assert (Hnonea : prop_get (heap_get (store sta) n) "attributes" = VUndefined).
    { cbn [store with_store sta]. unfold n. by rewrite heap_get_app_new. }
    destruct (copy_loop_absent st l Hl Habsent _ sta stb Hna HRa Hnonea Eb)
      as (Hnb & HRb & Hnoneb).
    destruct (fields_loop_absent st l Hl _ stb stc Hnb HRb Hnoneb Ec)
      as (Hnc & HRc & Hnonec).
    fold n in Hnonec. rewrite Hnonec in Hrun. cbn [truthy] in Hrun.
    unfold bind, ret in Hrun. by injection Hrun as <-.
  - intros la Hattr Hnd Hschema. set (A := heap_get (store st) la).
    assert (Hba : building n (copy_of A) [] st sta).
    { split.
      { apply extends_alloc; [|done]. split; [done|]. split; [done|]. by intros a _. }
      split; [done|]. cbn [store with_store sta].
      unfold n. rewrite heap_get_app_new. split; [constructor|done]. }
    pose proof (copy_loop_building st l la Hl Hplain Hattr _ [] sta stb Hba Eb) as Hbb.
    pose proof (fields_loop_building st l la Hl _ _ stb stc Hbb Ec)
      as (_ & Hn & HndP & Hcopy).
    destruct Hcopy as (lc & Hget & Hlc & HC).
    { apply existsb_exists. exists "attributes". split; [done|apply String.eqb_refl]. }
    fold n in Hget, Hlc, HC, Hn, HndP.
    rewrite Hget in Hrun. cbn [truthy] in Hrun.
    assert (HsA : strings A).
    { by destruct (settings_attributes st l Hplain "attributes" la Hattr) as (_ & _ & ?). }
    assert (HsC : strings (heap_get (store stc) lc)).
    { rewrite HC. unfold copy_of. apply strings_copy_fold; [done|by intros ? ? []]. }
    assert (Hne : lc <> n) by lia.
    assert (Hlc' : (lc < length (store stc))%nat) by lia.
    rewrite (bind_ok _ _ _ _ _ (cleanAttributes_run cfg stc n lc Hget Hne Hlc' HsC)) in Hrun.
    unfold ret in Hrun. injection Hrun as <-.
    clear Hprep Hext Hshaped Hcarries.
    subst n A. rewrite HC. rewrite HC in HsC.
    set (C5 := with_clean_class (without_generated cfg (copy_of (heap_get (store st) la)))).
    destruct (copy_of_reads (heap_get (store st) la)) as [HndC HgetC].
    assert (Hreads : forall k,
              prop_get C5 k = cleaned_attribute cfg (heap_get (store st) la) k).
    { intros k. unfold C5. rewrite (cleaned_reads cfg _ HndC).
      unfold cleaned_attribute. by rewrite !(HgetC Hnd). }
    assert (Hshape : NoDup (keys C5) /\ strings C5).
    { unfold C5.
      destruct (delete_fold_reads (generated_attributes cfg) _ HndC) as [Hnd' _].
      apply with_clean_class_shape; [exact Hnd'|].
      unfold without_generated. by apply strings_delete_fold. }
    destruct Hshape as [HndC5 HsC5].
    cbn [store with_store].
    clearbody C5. destruct C5 as [|[k0 v0] rest]; cbn [length].
    + left. split; [intros k; by rewrite <- Hreads|].
      rewrite heap_get_put_eq by (rewrite heap_put_length; lia).
      by apply prop_get_delete_eq.
    + right. exists lc. rewrite heap_put_length.
      rewrite heap_get_put_ne by lia. split; [done|]. split; [lia|].
      rewrite heap_get_put_eq by lia. split; [exact Hreads|]. split; [exact HndC5|].
      exists k0. rewrite <- Hreads. simpl. rewrite String.eqb_refl.
      by destruct (HsC5 k0 v0 ltac:(by left)) as [s ->].
Qed.


End Cleaned.

Lemma fed_by_fields_plain :
  Vocabulary.plain_settings (JS.heap_get (Page.store Samples.fed_by_fields) 1%nat)
    (Page.store Samples.fed_by_fields).
Proof.
  intros k v Hin. vm_compute in Hin.
  destruct Hin as [Heq|Hin];
    [injection Heq as <- <-; split; [discriminate|intros _ a; discriminate]|].
  destruct Hin as [Heq|Hin];
    [injection Heq as <- <-; split; [discriminate|intros _ a; discriminate]|].
  destruct Hin as [Heq|Hin].
  { injection Heq as <- <-. split; [|done]. intros _. exists 2%nat.
    split; [done|]. split; [vm_compute; lia|].
    intros k v Hin. vm_compute in Hin.
    destruct Hin as [Heq|[Heq|[]]]; injection Heq as <- <-; by eexists. }
  destruct Hin as [Heq|Hin];
    [injection Heq as <- <-; split; [discriminate|intros _ a; discriminate]|].
  destruct Hin as [Heq|Hin];
    [injection Heq as <- <-; split; [discriminate|intros _ a; discriminate]|].
  destruct Hin.
Qed.


(** Settings that [$.each] walks by index are another matter: the
    callbacks get a number for name, and [overrideLinkTitle], [getToken] and
    [prepareSettingsForToken] throw a [TypeError]. *)
Lemma indexed_settings_throw :
  Page.arrayLength (JS.heap_get (Page.store Samples.indexed) 1%nat) = Some 1%nat
  /\ fst (WysiwygInstance.overrideLinkTitle Samples.cfg Samples.indexed)
     = JS.Throw JS.TypeError
  /\ fst (WysiwygInstance.getToken Samples.cfg Samples.indexed) = JS.Throw JS.TypeError
  /\ fst (WysiwygInstance.prepareSettingsForToken Samples.cfg Samples.indexed)
     = JS.Throw JS.TypeError.
Proof. repeat split; vm_compute; reflexivity. Qed.

(** ** The token, once computed *)

Section Cached.
Import JS Page Vocabulary WysiwygInstance.
Local Open Scope m_scope.

Variable cfg : mediaSettings.

(** X17: a token that [getToken] returns is never empty and it is the one
    the instance then holds, so that a second call returns the same token
    and changes nothing; the key is not touched.  A token that is held is
    returned with nothing changed, whatever it holds; a token that is
    computed stands between [[ and ]]. *)
Theorem getToken_held_after st t st' :
  getToken cfg st = (Ok t, st') ->
  token (self st') = t /\ nonempty t = true
  /\ getToken cfg st' = (Ok t, st')
  /\ key (self st') = key (self st)
  /\ (nonempty (token (self st)) = true -> st' = st)
  /\ (nonempty (token (self st)) = false -> exists text, t = "[[" +:+ text +:+ "]]").
Proof.
  intros Hrun.
  assert (Hheld : token (self st') = t /\ nonempty t = true
                  /\ key (self st') = key (self st)
                  /\ (nonempty (token (self st)) = true -> st' = st)
                  /\ (nonempty (token (self st)) = false ->
                      exists text, t = "[[" +:+ text +:+ "]]")).
  { destruct (nonempty (token (self st))) eqn:Hne.
    - rewrite (getToken_cached cfg st Hne) in Hrun. injection Hrun as <- <-.
      by repeat split.
    - destruct (getToken_computed cfg st t st' Hne Hrun) as (Ht & Hnt & Hk).
      split; [done|]. split; [done|]. split; [done|]. split; [done|]. intros _.
      destruct (getToken_recomputes cfg st t st' Hne Hrun)
        as (? & ? & ? & ? & ? & ? & text & _ & _ & _ & _ & _ & -> & _).
      by eexists. }
  destruct Hheld as (Ht & Hnt & Hk & Hsame & Hshape).
  split; [done|]. split; [done|]. split; [|by repeat split].
  rewrite <- Ht in Hnt |- *. by apply getToken_cached.
Qed.

End Cached.

Lemma getToken_held_after_witness :
  WysiwygInstance.getToken Samples.cfg
    (snd (WysiwygInstance.getToken Samples.cfg Samples.built))
  = (JS.Ok (fst Samples.built_token),
     snd (WysiwygInstance.getToken Samples.cfg Samples.built)).
Proof.
  destruct (getToken_held_after Samples.cfg Samples.built (fst Samples.built_token)
              (snd (WysiwygInstance.getToken Samples.cfg Samples.built)))
    as (_ & _ & H & _).
  - apply pair_fst. vm_compute. reflexivity.
  - exact H.
Defined.

(** ** The field overrides of the token *)

Section Overrides.
Import JS JSON Page Vocabulary WysiwygInstance.
Local Open Scope m_scope.

Variable cfg : mediaSettings.
Variable st0 : state.
Variable l : loc.

Let n : nat := length (store st0).
Let R : object := heap_get (store st0) l.

Hypothesis Hl : (l < n)%nat.

Lemma carries_selected_ext sel sel' P :
  (forall q, sel q && prop_has R q = sel' q && prop_has R q) ->
  carries_selected R sel P -> carries_selected R sel' P.
Proof. intros Hext Hc q Hq. rewrite <- Hext. by apply Hc. Qed.

Lemma existsb_eqb_keys (o : object) q : existsb (String.eqb q) (keys o) = prop_has o q.
Proof.
  induction o as [|[k v] o IH]; [done|].
  simpl. by rewrite IH, String.eqb_sym.
Qed.

(** One round of the loop over the token schema. *)
Lemma copy_step_selected p sel st' st1 :
  occurs "[" p = false ->
  (n < length (store st'))%nat -> heap_get (store st') l = R ->
  carries_selected R sel (heap_get (store st') n) ->
  (let! v := getProp (VRef l) p in
   if truthy v then
     let! c := Utils.copyAsNew v in
     setProp (VRef n) p c
   else ret tt) st' = (Ok tt, st1) ->
  (n < length (store st1))%nat /\ heap_get (store st1) l = R
  /\ carries_selected R sel (heap_get (store st1) n).
Proof.
  intros Hp Hn HR Hc Hrun.
  apply bind_ok_inv in Hrun as (v & stv & Ev & Hrun).
  apply getProp_reads in Ev. subst stv.
  destruct (truthy v); cycle 1.
  { unfold ret in Hrun. by injection Hrun as <-. }
  apply bind_ok_inv in Hrun as (c & stx & Ecopy & Hrun).
  destruct (copyAsNew_grows _ _ _ _ Ecopy) as [Hagree Hlen].
  rewrite setProp_ref in Hrun. injection Hrun as <-.
  cbn [store with_store]. rewrite heap_put_length.
  rewrite heap_get_put_eq by lia. rewrite heap_get_put_ne by lia.
  rewrite !Hagree by lia.
  split; [lia|]. split; [done|].
  intros q Hq. rewrite prop_get_set_ne; [by apply Hc|].
  intros ->. congruence.
Qed.

Lemma copy_loop_selected (entries : list (string * propSettings)) sel :
  (forall p, In p (map fst entries) -> occurs "[" p = false) ->
  forall st' st'',
    (n < length (store st'))%nat -> heap_get (store st') l = R ->
    carries_selected R sel (heap_get (store st') n) ->
    each entries
      (fun entry =>
         let property := fst entry in
         let! v := getProp (VRef l) property in
         if truthy v then
           let! c := Utils.copyAsNew v in
           setProp (VRef n) property c
         else ret tt) st' = (Ok tt, st'') ->
    (n < length (store st''))%nat /\ heap_get (store st'') l = R
    /\ carries_selected R sel (heap_get (store st'') n).
Proof.
  induction entries as [|[p ps] entries IH]; intros Hnames st' st'' Hn HR Hc Hrun.
  { unfold each, ret in Hrun. by injection Hrun as <-. }
  cbn [each fst] in Hrun.
  apply bind_ok_inv in Hrun as ([] & st1 & Hstep & Hrun).
  destruct (copy_step_selected p sel st' st1) as (Hn1 & HR1 & Hc1); try done.
  { apply Hnames. by left. }
  apply (IH ltac:(intros p' Hp'; apply Hnames; by right) st1 st''); done.
Qed.

(** The loop over the properties of the settings for one field. *)
Lemma field_loop_selected field (properties : list string) :
  Forall (fun x => prop_has R x = true) properties ->
  forall sel st' st'',
    (n < length (store st'))%nat -> heap_get (store st') l = R ->
    carries_selected R sel (heap_get (store st') n) ->
    each properties
      (fun property =>
         if startsWith property (field +:+ "[") then
           let! v := getProp (VRef l) property in
           setProp (VRef n) property v
         else ret tt) st' = (Ok tt, st'') ->
    (n < length (store st''))%nat /\ heap_get (store st'') l = R
    /\ carries_selected R
         (fun q => sel q
                   || startsWith q (field +:+ "[") && existsb (String.eqb q) properties)
         (heap_get (store st'') n).
Proof.
  induction 1 as [|x properties Hx Hrest IH]; intros sel st' st'' Hn HR Hc Hrun.
  { unfold each, ret in Hrun. injection Hrun as <-.
    split; [done|]. split; [done|].
    apply (carries_selected_ext sel); [|done].
    intros q. cbn [existsb]. by rewrite andb_false_r, orb_false_r. }
  cbn [each] in Hrun.
  apply bind_ok_inv in Hrun as ([] & st1 & Hstep & Hrun).
  assert (H1 : (n < length (store st1))%nat /\ heap_get (store st1) l = R
               /\ carries_selected R
                    (fun q => sel q || startsWith q (field +:+ "[") && String.eqb q x)
                    (heap_get (store st1) n)).
  { destruct (startsWith x (field +:+ "[")) eqn:Estart.
    - rewrite (bind_ok _ _ _ _ _ (getProp_ref l x st')), HR in Hstep.
      rewrite setProp_ref in Hstep. injection Hstep as <-.
      cbn [store with_store]. rewrite heap_put_length.
      rewrite heap_get_put_eq by done. rewrite heap_get_put_ne by lia.
      split; [done|]. split; [done|].
      intros q Hq. destruct (String.eqb q x) eqn:Eq.
      + apply String.eqb_eq in Eq as ->.
        by rewrite prop_get_set_eq, Estart, orb_true_r, Hx.
      + rewrite andb_false_r, orb_false_r.
        rewrite prop_get_set_ne; [by apply Hc|].
        intros ->. by rewrite String.eqb_refl in Eq.
    - unfold ret in Hstep. injection Hstep as <-.
      split; [done|]. split; [done|].
      apply (carries_selected_ext sel); [|done].
      intros q. destruct (String.eqb q x) eqn:Eq.
      + apply String.eqb_eq in Eq as ->. by rewrite Estart, orb_false_r.
      + by rewrite andb_false_r, orb_false_r. }
  destruct H1 as (Hn1 & HR1 & Hc1).
  destruct (IH _ st1 st'' Hn1 HR1 Hc1 Hrun) as (Hn2 & HR2 & Hc2).
  split; [done|]. split; [done|].
  eapply carries_selected_ext; [|exact Hc2].
  intros q. cbn [existsb]. cbv beta.
  by destruct (sel q), (startsWith q (field +:+ "[")), (String.eqb q x),
    (existsb (String.eqb q) properties).
Qed.

(** The loop over the overridable fields. *)
Lemma fields_loop_selected (fields : list string) :
  forall sel st' st'',
    (n < length (store st'))%nat -> heap_get (store st') l = R ->
    carries_selected R sel (heap_get (store st') n) ->
    each fields
      (fun field =>
         let! properties := eachKeys (VRef l) in
         each properties
           (fun property =>
              match property with
              | VStr property =>
                  if startsWith property (field +:+ "[") then
                    let! v := getProp (VRef l) property in
                    setProp (VRef n) property v
                  else ret tt
              | _ => throw TypeError
              end)) st' = (Ok tt, st'') ->
    (n < length (store st''))%nat /\ heap_get (store st'') l = R
    /\ carries_selected R
         (fun q => sel q || overridden fields q && existsb (String.eqb q) (walked R))
         (heap_get (store st'') n).
Proof.
  induction fields as [|field fields IH]; intros sel st' st'' Hn HR Hc Hrun.
  { unfold each, ret in Hrun. injection Hrun as <-.
    split; [done|]. split; [done|].
    apply (carries_selected_ext sel); [|done].
    intros q. unfold overridden. cbn [existsb]. by rewrite orb_false_r. }
  cbn [each] in Hrun.
  apply bind_ok_inv in Hrun as ([] & st1 & Hstep & Hrun).
  apply bind_ok_inv in Hstep as (properties & st2 & Hkeys & Hstep).
  apply eachKeys_inv in Hkeys as [-> [->|[rest ->]]]; [|discriminate Hstep].
  rewrite HR, each_map in Hstep.
  destruct (field_loop_selected field (walked R)) with (sel := sel) (st' := st') (st'' := st1)
    as (Hn1 & HR1 & Hc1); try done.
  { apply Forall_forall. intros x Hx. apply prop_has_keys.
    apply list_elem_of_In in Hx. unfold walked in Hx.
    by destruct (arrayLength R). }
  destruct (IH _ st1 st'' Hn1 HR1 Hc1 Hrun) as (Hn2 & HR2 & Hc2).
  split; [done|]. split; [done|].
  eapply carries_selected_ext; [|exact Hc2].
  intros q. unfold overridden. cbn [existsb]. cbv beta.
  by destruct (sel q), (startsWith q (field +:+ "[")), (prop_has R q),
    (existsb (String.eqb q) (walked R)),
    (existsb (fun field0 => startsWith q (field0 +:+ "[")) fields).
Qed.

End Overrides.

Section Overridden.
Import JS JSON Page Vocabulary WysiwygInstance.
Local Open Scope m_scope.

Variable cfg : mediaSettings.

(** The overridable fields of a file depend on the map of file types
    only, and looking them up changes nothing. *)
Lemma getOverridableFields_of_map fid st1 st2 :
  fidTypeMap st1 = fidTypeMap st2 ->
  getOverridableFields cfg fid st1 = (fst (getOverridableFields cfg fid st2), st1).
Proof.
  unfold getOverridableFields, bind, gets, ret. intros ->.
  destruct (truthy _); [|done]. by destruct (List.find _ _) as [[t fields]|].
Qed.

Lemma walked_has (o : object) q :
  existsb (String.eqb q) (walked o) = true -> prop_has o q = true.
Proof.
  unfold walked. destruct (arrayLength o); [done|]. by rewrite existsb_eqb_keys.
Qed.

(** X18: the object that [prepareSettingsForToken] returns carries the
    field overrides of the file's type, and no other property with a
    bracket in its name: such a property is the one of the settings when
    its name is one that [$.each] hands to the callback and starts with the
    name of an overridable field of the type ([getOverridableFields] of
    [settings.fid]) followed by a bracket; otherwise the object has no
    such property.  The settings are as a token holds them, and [$.each]
    walks them by name, or not at all when their [length] is 0: then no
    override is carried.  No name of the schema holds a bracket. *)
Theorem prepareSettingsForToken_carries_overrides st l fields :
  settings (self st) = VRef l ->
  (l < length (store st))%nat ->
  plain_settings (heap_get (store st) l) (store st) ->
  not_indexed (heap_get (store st) l) ->
  (forall p, In p (map fst (tokenSchema cfg)) -> occurs "[" p = false) ->
  fst (getOverridableFields cfg (prop_get (heap_get (store st) l) "fid") st) = Ok fields ->
  exists st',
    prepareSettingsForToken cfg st = (Ok (VRef (length (store st))), st')
    /\ forall q, occurs "[" q = true ->
         prop_get (heap_get (store st') (length (store st))) q
         = if overridden fields q
              && existsb (String.eqb q) (walked (heap_get (store st) l))
           then prop_get (heap_get (store st) l) q
           else VUndefined.
Proof.
  intros Hs Hl Hplain Hwalk Hschema Hfields.
  set (sta := with_store (store st ++ [[]]) st).
  assert (Hexta : extends (length (store st)) st sta).
  { apply extends_alloc; [|done]. split; [done|]. split; [done|]. by intros a _. }
  assert (Hshapeda : shaped (length (store st)) (store sta)).
  { split; [simpl; rewrite length_app; simpl; lia|].
    simpl. rewrite heap_get_app_new. split; [constructor|]. by intros k v []. }
  assert (Hcarriesa : carries (heap_get (store st) l) []
                        (heap_get (store sta) (length (store st)))).
  { intros q _ _. simpl. rewrite heap_get_app_new. simpl. by rewrite andb_false_r. }
  destruct (copy_loop st l Hl Hplain (tokenSchema cfg) [] sta Hexta Hshapeda Hcarriesa)
    as (stb & Hrunb & Hextb & Hshapedb & Hcarriesb).
  assert (HRb : heap_get (store stb) l = heap_get (store st) l).
  { destruct Hextb as (_ & _ & Hagree). by apply Hagree. }
  assert (Hfb : getOverridableFields cfg (prop_get (heap_get (store st) l) "fid") stb
                = (Ok fields, stb)).
  { rewrite (getOverridableFields_of_map _ stb st); [by rewrite Hfields|].
    by destruct Hextb as (_ & ? & _). }
  destruct (fields_loop st l Hl Hplain Hwalk fields _ stb Hextb Hshapedb Hcarriesb)
    as (stc & Hrunc & Hextc & Hshapedc & Hcarriesc).
  (* what the loops leave of the properties with a bracket *)
  assert (Hna : (length (store st) < length (store sta))%nat).
  { simpl. rewrite length_app. simpl. lia. }
  assert (HRa : heap_get (store sta) l = heap_get (store st) l).
  { simpl. by apply heap_get_app_old. }
  assert (Hca : carries_selected (heap_get (store st) l) (fun _ => false)
                  (heap_get (store sta) (length (store st)))).
  { intros q _. simpl. by rewrite heap_get_app_new. }
  destruct (copy_loop_selected st l Hl (tokenSchema cfg) (fun _ => false) Hschema
              sta stb Hna HRa Hca Hrunb) as (Hnb & _ & Hcb).
  destruct (fields_loop_selected st l Hl fields (fun _ => false) stb stc Hnb HRb Hcb Hrunc)
    as (Hnc & _ & Hcc).
  (* the clean-up *)
  assert (Hclean : exists st5,
            (if truthy (prop_get (heap_get (store stc) (length (store st))) "attributes")
             then cleanAttributes cfg (VRef (length (store st))) else ret tt) stc
            = (Ok tt, st5)
            /\ forall q, q <> "attributes" ->
                 prop_get (heap_get (store st5) (length (store st))) q
                 = prop_get (heap_get (store stc) (length (store st))) q).
  { destruct (truthy (prop_get (heap_get (store stc) (length (store st))) "attributes"))
      eqn:Et; [|by exists stc].
    assert (Hin : In ("attributes",
                      prop_get (heap_get (store stc) (length (store st))) "attributes")
                    (heap_get (store stc) (length (store st)))).
    { apply prop_get_In; [done|]. intros Hu. by rewrite Hu in Et. }
    destruct Hshapedc as (_ & _ & Hshape).
    destruct (Hshape _ _ Hin) as [Hattr _].
    destruct (Hattr eq_refl) as (lc & Hget & Hlc & Hstrings).
    assert (Hne : lc <> length (store st)) by lia.
    assert (Hlc' : (lc < length (store stc))%nat) by lia.
    eexists. split;
      [apply (cleanAttributes_run cfg stc (length (store st)) lc Hget Hne Hlc' Hstrings)|].
    intros q Hq. cbn [store with_store].
    destruct (length (with_clean_class _)).
    - rewrite heap_get_put_eq by (rewrite heap_put_length; lia).
      by apply prop_get_delete_ne.
    - by rewrite heap_get_put_ne by lia. }
  destruct Hclean as (st5 & Hrun5 & Hkept).
  exists st5. split.
  - unfold prepareSettingsForToken.
    rewrite (bind_ok _ _ _ _ _ (newObject_run st)).
    rewrite (bind_ok _ _ _ _ _ (getSettings_materialized cfg sta l Hs)).
    rewrite (bind_ok _ _ _ _ _ Hrunb).
    rewrite (bind_ok _ _ _ _ _ (getProp_ref l "fid" stb)), HRb.
    rewrite (bind_ok _ _ _ _ _ Hfb), (bind_ok _ _ _ _ _ Hrunc).
    rewrite (bind_ok _ _ _ _ _ (getProp_ref (length (store st)) "attributes" stc)).
    by rewrite (bind_ok _ _ _ _ _ Hrun5).
  - intros q Hq. rewrite Hkept by (intros ->; discriminate).
    rewrite (Hcc q Hq). cbn [orb].
    destruct (overridden fields q); [|done]. cbn [andb].
    destruct (existsb (String.eqb q) (walked (heap_get (store st) l))) eqn:Ew; [|done].
    by rewrite (walked_has _ q Ew).
Qed.

End Overridden.

Lemma prepareSettingsForToken_carries_overrides_witness :
  exists st',
    WysiwygInstance.prepareSettingsForToken Samples.cfg Samples.fed_typed
    = (JS.Ok (JS.VRef (length (Page.store Samples.fed_typed))), st')
    /\ JS.prop_get
         (JS.heap_get (Page.store st') (length (Page.store Samples.fed_typed)))
         "field_file_image_alt_text[und][0][value]"
       = JS.VStr "Old".
Proof.
  destruct (prepareSettingsForToken_carries_overrides Samples.cfg Samples.fed_typed 1%nat
              ["field_file_image_alt_text"; "field_file_image_title_text"])
    as (st' & Hrun & Hget).
  - reflexivity.
  - vm_compute. lia.
  - exact fed_by_fields_plain.
  - intros k Hk. vm_compute in Hk. discriminate Hk.
  - intros p Hp. vm_compute in Hp.
    repeat (destruct Hp as [<-|Hp]; [reflexivity|]). destruct Hp.
  - vm_compute. reflexivity.
  - exists st'. split; [exact Hrun|].
    rewrite (Hget "field_file_image_alt_text[und][0][value]" eq_refl). reflexivity.
Defined.

(** * Part IV: a token written and read back *)

Section RoundTrip.
Import JS JSON Page Vocabulary WysiwygInstance.
Local Open Scope m_scope.

Variable cfg : mediaSettings.

(** ** The members [JSON.stringify] writes *)

Lemma serialize_members_In rec (o : object) ms q v j :
  serialize_members rec o = Some ms ->
  In (q, v) o -> rec v = Some (Some j) -> In (q, j) ms.
Proof.
  revert ms. induction o as [|[k x] o IH]; intros ms Hms Hin Hv; [done|].
  simpl in Hms. destruct Hin as [[= -> ->]|Hin].
  - rewrite Hv in Hms. destruct (serialize_members rec o); [|done].
    injection Hms as <-. by left.
  - destruct (rec x) as [[j'|]|]; [| |done].
    + destruct (serialize_members rec o) as [ms'|]; [|done].
      injection Hms as <-. right. by apply IH.
    + by apply IH.
Qed.

Lemma serialize_members_none rec (o : object) :
  serialize_members rec o = Some [] -> forall k x, In (k, x) o -> rec x = Some None.
Proof.
  induction o as [|[k0 x0] o IH]; intros Hms k x Hin; [done|].
  simpl in Hms. destruct (rec x0) as [[j|]|] eqn:E0; [| |done].
  - by destruct (serialize_members rec o).
  - destruct Hin as [[= <- <-]|Hin]; [done|]. by apply (IH Hms k).
Qed.

(** An object of strings is written member by member. *)
Lemma serialize_strings_members fuel h lc :
  strings (heap_get h lc) -> NoDup (keys (heap_get h lc)) ->
  exists ams,
    serialize (S fuel) h (VRef lc) = Some (Some (JObj ams))
    /\ NoDup (map fst ams)
    /\ (forall k j, In (k, j) ams ->
          exists s, j = JStr s /\ prop_get (heap_get h lc) k = VStr s)
    /\ (forall k, ~ In k (map fst ams) -> prop_get (heap_get h lc) k = VUndefined).
Proof.
  intros Hs Hnd.
  destruct (serialize_members_total (serialize fuel h) (heap_get h lc))
    as (ams & Hms & _ & Hnodup & Hin & Hback).
  { intros k v Hin. destruct (Hs k v Hin) as [s ->].
    rewrite serialize_of_primitive by done. by eexists. }
  exists ams. split; [simpl; by rewrite Hms|]. split; [by apply Hnodup|]. split.
  - intros k j Hj. destruct (Hback k j Hj) as (v & Hv & Hrv).
    destruct (Hs k v Hv) as [s ->]. rewrite serialize_of_primitive in Hrv by done.
    injection Hrv as <-. exists s. split; [done|]. by apply In_prop_get.
  - intros k Hk. destruct (decide (prop_get (heap_get h lc) k = VUndefined)) as [|Hne];
      [done|].
    exfalso. apply Hk. pose proof (prop_get_In _ _ _ eq_refl Hne) as Hin'.
    destruct (Hs _ _ Hin') as [s Hv].
    change k with (fst (k, JStr s)). apply in_map. apply (Hin k _ _ Hin').
    rewrite Hv. by rewrite serialize_of_primitive.
Qed.

(** An object whose text is the text of the empty object has no property
    to read. *)
Lemma serialize_empty h t :
  serialize 1 h (VRef t) = Some (Some (JObj [])) ->
  forall k, prop_get (heap_get h t) k = VUndefined.
Proof.
  intros Hser k.
  change (serialize 1 h (VRef t))
    with (match serialize_members (serialize 0 h) (heap_get h t) with
          | None => None
          | Some ms => Some (Some (JObj ms))
          end) in Hser.
  destruct (serialize_members (serialize 0 h) (heap_get h t)) as [ms|] eqn:Hms; [|done].
  injection Hser as ->.
  destruct (decide (prop_get (heap_get h t) k = VUndefined)) as [|Hne]; [done|].
  pose proof (prop_get_In _ _ _ eq_refl Hne) as Hin.
  pose proof (serialize_members_none _ _ Hms _ _ Hin) as Hx.
  by destruct (prop_get (heap_get h t) k).
Qed.

(** ** The objects [JSON.parse] builds *)

Lemma build_members_grows ms :
  forall h o, exists extra, fst (build_members ms h o) = h ++ extra.
Proof.
  induction ms as [|[k v] ms IH]; intros h o.
  - exists []. by rewrite app_nil_r.
  - cbn [build_members]. destruct (build_grows v h) as [extra1 H1].
    destruct (build v h) as [h1 x]. simpl in H1. subst h1.
    destruct (IH (h ++ extra1) (prop_set o k x)) as [extra2 H2].
    exists (extra1 ++ extra2). by rewrite H2, app_assoc.
Qed.

(** A member that is an object of strings becomes a property that refers
    to a new object with these strings. *)
Lemma build_members_object ms :
  forall h o q ams,
    NoDup (map fst ms) -> In (q, JObj ams) ms ->
    NoDup (map fst ams) ->
    (forall k j, In (k, j) ams -> exists s, j = JStr s) ->
    exists a,
      prop_get (snd (build_members ms h o)) q = VRef a
      /\ (length h <= a < length (fst (build_members ms h o)))%nat
      /\ (forall k s, In (k, JStr s) ams ->
            prop_get (heap_get (fst (build_members ms h o)) a) k = VStr s)
      /\ (forall k, ~ In k (map fst ams) ->
            prop_get (heap_get (fst (build_members ms h o)) a) k = VUndefined).
Proof.
  induction ms as [|[k x] ms IH]; intros h o q ams Hnd Hin Hams Hstr; [done|].
  apply NoDup_cons in Hnd as [Hk Hnd]. cbn [build_members].
  destruct Hin as [[= -> ->]|Hin].
  - rewrite build_object.
    set (hb := fst (build_members ams h [])).
    set (ob := snd (build_members ams h [])).
    destruct (build_members_grows ams h []) as [extra1 H1]. fold hb in H1.
    destruct (build_members_grows ms (hb ++ [ob]) (prop_set o q (VRef (length hb))))
      as [extra2 H2].
    destruct (build_members_props ms (hb ++ [ob]) (prop_set o q (VRef (length hb))))
      as [Hx _].
    destruct (build_members_props ams h []) as [Habsent Hpresent]. fold ob in Habsent, Hpresent.
    exists (length hb). split; [|split; [|split]].
    + rewrite Hx by (by rewrite <- list_elem_of_In). apply prop_get_set_eq.
    + rewrite H2, H1, !length_app. simpl. lia.
    + intros k s Hks. rewrite H2.
      rewrite heap_get_app_old by (rewrite length_app; simpl; lia).
      rewrite heap_get_app_new. by apply (Hpresent Hams k (JStr s) (VStr s)).
    + intros k Hk'. rewrite H2.
      rewrite heap_get_app_old by (rewrite length_app; simpl; lia).
      rewrite heap_get_app_new. by rewrite Habsent.
  - destruct (build_grows x h) as [extra1 H1].
    destruct (build x h) as [h1 xv]. simpl in H1. subst h1.
    destruct (IH (h ++ extra1) (prop_set o k xv) q ams Hnd Hin Hams Hstr)
      as (a & Hget & Ha & Hp & Hu).
    exists a. split; [done|]. split; [|done]. rewrite length_app in Ha. lia.
Qed.

(** ** The token of settings *)

(** [getToken] on an instance that holds its settings and no token: the
    token is the text of an object whose members are the truthy schema
    properties of the settings, [link_text] as the rewriting leaves it and
    [attributes] as the cleaning leaves them. *)
Lemma getToken_serializes st l :
  settings (self st) = VRef l ->
  token (self st) = "" ->
  (l < length (store st))%nat ->
  plain_settings (heap_get (store st) l) (store st) ->
  not_indexed (heap_get (store st) l) ->
  link_title_text cfg st (heap_get (store st) l) ->
  exists ms st',
    getToken cfg st
    = (Ok ("[[" +:+ print (JObj ms) +:+ "]]"),
       with_self (with_token ("[[" +:+ print (JObj ms) +:+ "]]") (self st')) st')
    /\ (length (store st) < length (store st'))%nat
    /\ agree_on (fun a => (a < length (store st))%nat /\ a <> l) (store st) (store st')
    /\ NoDup (map fst ms)
    /\ (forall q, occurs "[" q = false -> q <> "attributes" -> q <> "link_text" ->
          match json_of
                  (if truthy (prop_get (heap_get (store st) l) q)
                      && existsb (String.eqb q) (map fst (tokenSchema cfg))
                   then prop_get (heap_get (store st) l) q else VUndefined) with
          | Some j => In (q, j) ms
          | None => ~ In q (map fst ms)
          end)
    /\ match json_of
               (if truthy (rewritten_link_text cfg st (heap_get (store st) l))
                   && existsb (String.eqb "link_text") (map fst (tokenSchema cfg))
                then rewritten_link_text cfg st (heap_get (store st) l)
                else VUndefined) with
       | Some j => In ("link_text", j) ms
       | None => ~ In "link_text" (map fst ms)
       end
    /\ (prop_get (heap_get (store st) l) "attributes" = VUndefined ->
        ~ In "attributes" (map fst ms))
    /\ (forall la,
          prop_get (heap_get (store st) l) "attributes" = VRef la ->
          NoDup (keys (heap_get (store st) la)) ->
          In "attributes" (map fst (tokenSchema cfg)) ->
          ((forall k, cleaned_attribute cfg (heap_get (store st) la) k = VUndefined)
           /\ ~ In "attributes" (map fst ms))
          \/ ((exists k, cleaned_attribute cfg (heap_get (store st) la) k <> VUndefined)
              /\ exists ams,
                   In ("attributes", JObj ams) ms /\ NoDup (map fst ams)
                   /\ (forall k j, In (k, j) ams ->
                         exists s, j = JStr s
                                   /\ cleaned_attribute cfg (heap_get (store st) la) k
                                      = VStr s)
                   /\ (forall k, ~ In k (map fst ams) ->
                         cleaned_attribute cfg (heap_get (store st) la) k = VUndefined))).
Proof.
  intros Hs Htok Hl Hplain Hwalk Htitle.
  destruct (link_step cfg st l Hs Hl Htitle)
    as (stL & HrunL & HselfL & HmapL & HlenL & HagreeL & HpropL & HinL & HarrL
        & HsameL & HlinkL).
  assert (HplainL : plain_settings (heap_get (store stL) l) (store stL)).
  { intros k v Hin. destruct (HinL k v Hin) as [Hold|[-> [s ->]]].
    - destruct (Hplain k v Hold) as [Hattr Hprim]. split; [|done].
      intros Hk. destruct (Hattr Hk) as (la & -> & Hla & Hstr).
      exists la. split; [done|]. rewrite HlenL. split; [done|].
      rewrite HagreeL; [done|]. intros ->.
      destruct (Hstr _ _ Hold) as [s Hs']. discriminate.
    - split; [done|]. by intros _ a. }
  assert (HsL : settings (self stL) = VRef l) by (by rewrite HselfL).
  assert (HlL : (l < length (store stL))%nat) by (by rewrite HlenL).
  assert (HwalkL : not_indexed (heap_get (store stL) l)).
  { intros k. rewrite HarrL. apply Hwalk. }
  destruct (prepareSettingsForToken_prepared cfg stL l HsL HlL HplainL HwalkL)
    as (st' & Hprep & Hext & Hshaped & Hcarries & Hnone & Hclean).
  rewrite HlenL in *.
  assert (Hn : (length (store st) < length (store st'))%nat) by apply Hshaped.
  assert (Hlink : prop_get (heap_get (store stL) l) "link_text"
                  = rewritten_link_text cfg st (heap_get (store st) l)).
  { unfold rewritten_link_text.
    destruct (String.eqb (typeof (prop_get (heap_get (store st) l) "link_text")) "string")
      eqn:Etype.
    - apply String.eqb_eq in Etype. destruct (Htitle Etype) as [s Hfst].
      rewrite Hfst. by apply HlinkL.
    - rewrite HsameL; [done|]. intros Htype. by rewrite Htype in Etype. }
  assert (Hprim : forall q, q <> "attributes" ->
                    primitive (prop_get (heap_get (store st) l) q)).
  { intros q Hqa a Ha. apply prop_get_In in Ha; [|done].
    destruct (Hplain _ _ Ha) as [_ Hp]. by apply (Hp Hqa a). }
  assert (HprimL : forall q, q <> "attributes" ->
                     primitive (prop_get (heap_get (store stL) l) q)).
  { intros q Hqa a Ha. apply prop_get_In in Ha; [|done].
    destruct (HplainL _ _ Ha) as [_ Hp]. by apply (Hp Hqa a). }
  assert (HattrL : prop_get (heap_get (store stL) l) "attributes"
                   = prop_get (heap_get (store st) l) "attributes")
    by (by apply HpropL).
  destruct (length (store st')) as [|fuel] eqn:Elen; [lia|].
  destruct (serialize_shaped _ _ fuel Hshaped) as (ms & Hser & Hnodup & Hms).
  exists ms, st'.
  split; [|split; [lia|split; [|split; [done|split; [|split; [|split]]]]]].
  - unfold getToken.
    rewrite (bind_ok _ _ _ _ _ (thisToken_run st)), Htok. cbn [nonempty].
    rewrite (bind_ok _ _ _ _ _ (getSettings_materialized cfg st l Hs)).
    rewrite (bind_ok _ _ _ _ _ (getProp_ref l "link_text" st)).
    rewrite (bind_ok _ _ _ _ _ HrunL), (bind_ok _ _ _ _ _ Hprep).
    unfold bind at 1. unfold stringify. rewrite Elen, Hser. reflexivity.
  - intros a [Ha Hal]. destruct Hext as (_ & _ & Hagree).
    rewrite Hagree by done. by apply HagreeL.
  - intros q Hq Hqa Hql.
    specialize (Hms q). rewrite (Hcarries q Hq Hqa), (HpropL q Hql) in Hms.
    apply Hms. destruct (_ && _); [by apply Hprim|done].
  - specialize (Hms "link_text").
    rewrite (Hcarries "link_text" eq_refl ltac:(done)), Hlink in Hms.
    apply Hms. destruct (_ && _); [|done].
    rewrite <- Hlink. by apply HprimL.
  - intros Habsent. rewrite <- HattrL in Habsent.
    specialize (Hms "attributes"). rewrite (Hnone Habsent) in Hms. by apply Hms.
  - intros la Hattr Hnd Hschema. rewrite <- HattrL in Hattr.
    assert (Hla : heap_get (store stL) la = heap_get (store st) la).
    { apply HagreeL. intros ->. rewrite HattrL in Hattr.
      apply prop_get_In in Hattr; [|done].
      destruct (Hplain _ _ Hattr) as [Hobj _].
      destruct (Hobj eq_refl) as (la' & [= <-] & _ & Hstr).
      by destruct (Hstr _ _ Hattr) as [s ?]. }
    rewrite <- Hla in Hnd.
    destruct (Hclean la Hattr Hnd Hschema)
      as [[Hall Hgone]|(lc & Hget & Hlc & Hreads & HndC & Hsome)];
      rewrite Hla in *.
    + left. split; [done|].
      specialize (Hms "attributes"). rewrite Hgone in Hms. by apply Hms.
    + right. split; [done|].
      destruct Hshaped as (_ & HndP & Hshape).
      assert (HinP : In ("attributes", VRef lc) (heap_get (store st') (length (store st))))
        by (by apply prop_get_In).
      destruct (Hshape _ _ HinP) as [Hobj _].
      destruct (Hobj eq_refl) as (lc' & [= <-] & _ & HsC).
      destruct (serialize_strings_members fuel (store st') lc HsC HndC)
        as (ams & Hams & Hnda & Hmem & Hnot).
      exists ams. split; [|split; [done|split]].
      * change (serialize (S (S fuel)) (store st') (VRef (length (store st))))
          with (match serialize_members (serialize (S fuel) (store st'))
                        (heap_get (store st') (length (store st))) with
                | None => None
                | Some ms => Some (Some (JObj ms))
                end) in Hser.
        destruct (serialize_members (serialize (S fuel) (store st'))
                    (heap_get (store st') (length (store st)))) as [ms'|] eqn:Ems;
          [|done].
        injection Hser as ->.
        by apply (serialize_members_In _ _ _ _ _ _ Ems HinP).
      * intros k j Hj. destruct (Hmem k j Hj) as (s & -> & Hk).
        exists s. split; [done|]. by rewrite <- Hreads.
      * intros k Hk. rewrite <- Hreads. by apply Hnot.
Qed.

(** ** The token read back *)

(** A new instance on the token of an object reads the object back: the
    truthy primitive members as they are, a member that is an object of
    strings as a new object with these strings, and the defaults for the
    schema properties that are no members. *)
Lemma read_back (m n0 : nat) st1 ms :
  NoDup (map fst ms) ->
  region m (store st1) ->
  (m < length (store st1))%nat ->
  (n0 <= S (length (store st1)))%nat ->
  NoDup (map fst (tokenSchema cfg)) ->
  (forall p ps s, In (p, ps) (tokenSchema cfg) -> default ps = VRef s ->
     (s < m)%nat /\ serialize n0 (store st1) (VRef s) <> None) ->
  includes (print (JObj ms) +:+ "]") "]]" = false ->
  In ("type", JStr "media") ms ->
  (forall p ps, In (p, ps) (tokenSchema cfg) -> required ps = true ->
     exists v j, json_of v = Some j /\ In (p, j) ms /\ truthy v = true) ->
  exists l' st2,
    (new cfg (VStr ("[[" +:+ print (JObj ms) +:+ "]]")) None ;; getSettings cfg) st1
    = (Ok (VRef l'), st2)
    /\ forall p ps, In (p, ps) (tokenSchema cfg) ->
         (forall v j, json_of v = Some j -> In (p, j) ms -> truthy v = true ->
            prop_get (heap_get (store st2) l') p = v)
         /\ (~ In p (map fst ms) ->
             filled m (store st1) (default ps) (store st2)
               (prop_get (heap_get (store st2) l') p))
         /\ (forall ams,
               In (p, JObj ams) ms -> NoDup (map fst ams) ->
               (forall k j, In (k, j) ams -> exists s, j = JStr s) ->
               exists a,
                 prop_get (heap_get (store st2) l') p = VRef a
                 /\ (forall k s, In (k, JStr s) ams ->
                       prop_get (heap_get (store st2) a) k = VStr s)
                 /\ (forall k, ~ In k (map fst ams) ->
                       prop_get (heap_get (store st2) a) k = VUndefined)).
Proof.
  intros Hms Hreg Hmlt Hfuel Hnodup Hdef Hclosing Htype Hreq.
  set (t := "[[" +:+ print (JObj ms) +:+ "]]").
  set (st2 := with_self (Instance t VNull "" (Some "") None) st1).
  set (h0 := fst (build_members ms (store st1) [])).
  set (R0 := snd (build_members ms (store st1) [])).
  destruct (build_members_props ms (store st1) []) as [Habsent Hpresent].
  fold R0 in Habsent, Hpresent. specialize (Hpresent Hms).
  destruct (build_grows (JObj ms) (store st1)) as [extra Hextra].
  rewrite build_object in Hextra. cbn [fst] in Hextra. fold h0 R0 in Hextra.
  assert (Hlen : (length h0 + 1 = length (store st1) + length extra)%nat).
  { apply (f_equal length) in Hextra. by rewrite !length_app in Hextra. }
  pose proof Hreg as (Hm & Hclosed & Hkeys).
  set (st3 := with_self (with_settings (VRef (length h0)) (self st2))
                (with_store (h0 ++ [R0]) st2)).
  assert (Hagree : agree_on (fun a => (a < m)%nat) (store st1) (store st3)).
  { intros a Ha. simpl. rewrite Hextra. apply heap_get_app_old. lia. }
  assert (Hobj : heap_get (store st3) (length h0) = R0).
  { simpl. apply heap_get_app_new. }
  assert (Hparse : JSON.parse (store st2)
                     (replace_first "]]" "" (replace_first "[[" "" t))
                   = Ok (h0 ++ [R0], VRef (length h0))).
  { unfold t, JSON.parse. rewrite (strip_token _ Hclosing), parse_text_print.
    by rewrite build_object. }
  assert (Hl0 : (m <= length h0 < length (store st3))%nat).
  { simpl. rewrite length_app. simpl. lia. }
  assert (Hsettings : settings (self st3) = VRef (length h0)) by done.
  assert (Hmember : forall p v j, json_of v = Some j -> In (p, j) ms ->
                      prop_get (heap_get (store st3) (length h0)) p = v).
  { intros p v j Hv Hin. rewrite Hobj. by apply (Hpresent p j v). }
  destruct (verifySettings_returns cfg m n0 st3 (length h0)) as (st4 & Hverify & Heach).
  - done.
  - done.
  - apply (region_agree m (store st1)); [done|done|lia].
  - simpl. rewrite length_app. simpl. lia.
  - done.
  - intros p ps Hin Hr. destruct (Hreq p ps Hin Hr) as (v & j & Hv & Hj & Ht).
    by rewrite (Hmember p v j Hv Hj).
  - intros p ps s Hin Hd. destruct (Hdef p ps s Hin Hd) as [Hsm Hser].
    split; [done|].
    rewrite (serialize_frame (fun a => (a < m)%nat) (store st1)); [done|done|done|].
    by intros a [= <-].
  - by apply (Hmember "type" (VStr "media") (JStr "media")).
  - destruct (each_verify_ok m (tokenSchema cfg) st3 st4 (length h0) Hsettings Hl0 Heach)
      as (Hself & _ & _ & Hagree4 & _ & _ & Hall).
    exists (length h0), st4. split.
    + rewrite (bind_ok _ _ _ _ _ (new_token cfg t st1)). fold st2.
      unfold getSettings.
      rewrite (bind_ok _ _ _ _ _ (thisSettings_run st2)).
      cbn [st2 self with_self settings falsy truthy negb].
      assert (Hinner :
                (let! token := thisToken in
                 if nonempty token then
                   let! parsed :=
                     on_heap (fun h =>
                       JSON.parse h (replace_first "]]" "" (replace_first "[[" "" token))) in
                   setSettings parsed ;;
                   verifySettings cfg
                 else throw (Thrown "Instance missing basic info")) st2
                = (Ok tt, st4)).
      { rewrite (bind_ok _ _ _ _ _ (thisToken_run st2)).
        change (token (self st2)) with t.
        assert (nonempty t = true) as -> by done.
        unfold bind at 1. unfold on_heap. rewrite Hparse.
        unfold bind at 1. unfold setSettings, modify. exact Hverify. }
      rewrite (bind_ok _ _ _ _ _ Hinner).
      by rewrite thisSettings_run, Hself.
    + intros p ps Hin. destruct (Hall Hnodup p ps Hin) as [Hkeep Hfill].
      split; [|split].
      * intros v j Hv Hj Ht. rewrite Hkeep; rewrite (Hmember p v j Hv Hj); done.
      * intros Hp.
        assert (Hu : prop_get (heap_get (store st3) (length h0)) p = VUndefined).
        { rewrite Hobj. by rewrite Habsent. }
        destruct Hfill as [_ Hfilled]; [by rewrite Hu|].
        apply (filled_earlier m (store st1) (store st3)); [|done|done].
        simpl. rewrite length_app. simpl. lia.
      * intros ams Hin_ams Hnd_ams Hstr.
        destruct (build_members_object ms (store st1) [] p ams Hms Hin_ams Hnd_ams Hstr)
          as (a & Hget & Ha & Hp & Hu).
        fold h0 in Ha, Hp, Hu. fold R0 in Hget.
        assert (Ha3 : heap_get (store st4) a = heap_get h0 a).
        { rewrite Hagree4.
          - simpl. apply heap_get_app_old. lia.
          - simpl. rewrite length_app. simpl. lia. }
        exists a. rewrite Ha3. split; [|done].
        rewrite Hkeep; rewrite Hobj, Hget; done.
Qed.

Lemma closes_once_text text :
  closes_once ("[[" +:+ text +:+ "]]") = true ->
  includes (text +:+ "]") "]]" = false.
Proof.
  unfold closes_once. intros H%negb_true_iff.
  replace ("[[" +:+ text +:+ "]]") with (("[[" +:+ text +:+ "]") +:+ "]") in H
    by (by rewrite !string_app_assoc).
  assert (Hlen : (String.length (("[[" +:+ text +:+ "]") +:+ "]") - 1
                  = String.length (("[[" +:+ text +:+ "]") +:+ "]")
                    - String.length "]")%nat) by done.
  rewrite Hlen, take_chars_app in H.
  by rewrite (drop_chars_app "[[") in H.
Qed.

Lemma existsb_eqb_In q (names : list string) :
  In q names -> existsb (String.eqb q) names = true.
Proof.
  intros Hin. apply existsb_exists. exists q. by rewrite String.eqb_refl.
Qed.

Lemma truthy_json v : truthy v = true -> primitive v -> exists j, json_of v = Some j.
Proof.
  intros Ht Hp. destruct v as [| | | | |a]; try done; try (by eexists).
  by destruct (Hp a).
Qed.

Lemma filled_primitive (m : nat) (h h' : heap) d v' :
  primitive d -> filled m h d h' v' -> v' = d.
Proof.
  intros Hd. unfold filled. destruct d as [| | | | |a]; try done. by destruct (Hd a).
Qed.

Lemma same_value_primitive (h h' : heap) v v' :
  primitive v -> v' = v -> same_value h v h' v'.
Proof.
  intros Hv ->. unfold same_value. destruct v as [| | | | |a]; try done.
  by destruct (Hv a).
Qed.

(** An object of strings that has nothing to read is empty. *)
Lemma strings_nothing (A : object) :
  strings A -> (forall k, prop_get A k = VUndefined) -> A = [].
Proof.
  intros Hs Hall. destruct A as [|[k v] A]; [done|].
  specialize (Hall k). simpl in Hall. rewrite String.eqb_refl in Hall.
  by destruct (Hs k v ltac:(by left)) as [s ->].
Qed.

(** ** Written and read back *)

(** The settings a new instance reads from the token [getToken] computed:
    property by property, what the round trip makes of the settings. *)
Lemma written_and_read st l m :
  settings (self st) = VRef l ->
  token (self st) = "" ->
  (m <= l < length (store st))%nat ->
  region m (store st) ->
  plain_schema m (tokenSchema cfg) (store st) ->
  plain_settings (heap_get (store st) l) (store st) ->
  not_indexed (heap_get (store st) l) ->
  resolved (tokenSchema cfg) (heap_get (store st) l) ->
  link_title_text cfg st (heap_get (store st) l) ->
  exists t' st1,
    getToken cfg st = (Ok t', st1)
    /\ (closes_once t' = true ->
        exists l' st2,
          (new cfg (VStr t') None ;; getSettings cfg) st1 = (Ok (VRef l'), st2)
          /\ (forall p ps,
                In (p, ps) (tokenSchema cfg) ->
                p <> "attributes" -> p <> "link_text" ->
                prop_get (heap_get (store st2) l') p
                = prop_get (heap_get (store st) l) p)
          /\ (forall ps,
                In ("link_text", ps) (tokenSchema cfg) ->
                if truthy (rewritten_link_text cfg st (heap_get (store st) l))
                then prop_get (heap_get (store st2) l') "link_text"
                     = rewritten_link_text cfg st (heap_get (store st) l)
                else filled m (store st) (default ps) (store st2)
                       (prop_get (heap_get (store st2) l') "link_text"))
          /\ (forall ps,
                In ("attributes", ps) (tokenSchema cfg) ->
                (prop_get (heap_get (store st) l) "attributes" = VUndefined ->
                 prop_get (heap_get (store st2) l') "attributes" = VUndefined)
                /\ (forall la,
                      prop_get (heap_get (store st) l) "attributes" = VRef la ->
                      NoDup (keys (heap_get (store st) la)) ->
                      ((forall k, cleaned_attribute cfg (heap_get (store st) la) k
                                  = VUndefined)
                       /\ filled m (store st) (default ps) (store st2)
                            (prop_get (heap_get (store st2) l') "attributes"))
                      \/ ((exists k, cleaned_attribute cfg (heap_get (store st) la) k
                                     <> VUndefined)
                          /\ exists la',
                               prop_get (heap_get (store st2) l') "attributes" = VRef la'
                               /\ forall k,
                                    prop_get (heap_get (store st2) la') k
                                    = cleaned_attribute cfg (heap_get (store st) la) k)))).
Proof.
  intros Hs Htok Hl Hreg Hschema Hplain Hwalk Hres Htitle.
  destruct Hschema as (Hnodup & Htypein & Hnobr & Hopt & Hdefaults).
  destruct Hres as (Htype & Hres).
  destruct (getToken_serializes st l Hs Htok ltac:(lia) Hplain Hwalk Htitle)
    as (ms & st' & Hrun & Hlen & Hagree & Hms & Hmem & Hlinkmem & Hnoattr & Hattrmem).
  eexists _, _. split; [exact Hrun|].
  intros Hclose%closes_once_text.
  assert (Hprim : forall q, q <> "attributes" ->
                    primitive (prop_get (heap_get (store st) l) q)).
  { intros q Hq a Ha. apply prop_get_In in Ha; [|done].
    destruct (Hplain _ _ Ha) as [_ Hp]. by apply (Hp Hq a). }
  assert (Hmember : forall p ps, In (p, ps) (tokenSchema cfg) ->
                      p <> "attributes" -> p <> "link_text" ->
                      if truthy (prop_get (heap_get (store st) l) p)
                      then exists j, json_of (prop_get (heap_get (store st) l) p) = Some j
                                     /\ In (p, j) ms
                      else ~ In p (map fst ms)).
  { intros p ps Hin Hpa Hpl.
    assert (Hname : In p (map fst (tokenSchema cfg))).
    { change p with (fst (p, ps)). by apply in_map. }
    specialize (Hmem p (Hnobr p Hname) Hpa Hpl).
    rewrite (existsb_eqb_In p _ Hname), andb_true_r in Hmem.
    destruct (truthy (prop_get (heap_get (store st) l) p)) eqn:Et; [|done].
    destruct (truthy_json _ Et (Hprim p Hpa)) as [j Hj]. rewrite Hj in Hmem.
    by exists j. }
  assert (Hagree_m : agree_on (fun a => (a < m)%nat) (store st) (store st')).
  { intros a Ha. apply Hagree. lia. }
  set (st1 := with_self
                (with_token ("[[" +:+ print (JObj ms) +:+ "]]") (self st')) st').
  destruct (read_back m (S (length (store st))) st1 ms)
    as (l' & st2 & Hrun2 & Hall); try done.
  - apply (region_agree m (store st)); [done|done|simpl; lia].
  - simpl. lia.
  - simpl. lia.
  - intros p ps s Hin Hd. destruct (Hdefaults p ps s Hin Hd) as [Hsm Hstr].
    split; [done|]. cbn [store with_self st1].
    rewrite (serialize_frame (fun a => (a < m)%nat) (store st)).
    + intros Hnone. apply Hstr. unfold stringify. by rewrite Hnone.
    + by destruct Hreg as (_ & Hclosed & _).
    + done.
    + by intros a [= <-].
  - apply in_map_iff in Htypein as [[p ps] [Hp Hin]]. simpl in Hp. subst p.
    specialize (Hmember "type" ps Hin ltac:(done) ltac:(done)).
    rewrite Htype in Hmember. destruct Hmember as (j & [= <-] & Hj). done.
  - intros p ps Hin Hreq.
    assert (Hp : p <> "attributes" /\ p <> "link_text").
    { split; intros ->; by rewrite (Hopt _ ps Hin) in Hreq; auto. }
    destruct Hp as [Hpa Hpl].
    specialize (Hmember p ps Hin Hpa Hpl).
    destruct (Hres p ps Hin) as [Ht|[Hr _]]; [|congruence].
    rewrite Ht in Hmember. destruct Hmember as (j & Hj & Hinj).
    by exists (prop_get (heap_get (store st) l) p), j.
  - assert (Hfilled : forall p ps, In (p, ps) (tokenSchema cfg) ->
                        ~ In p (map fst ms) ->
                        filled m (store st) (default ps) (store st2)
                          (prop_get (heap_get (store st2) l') p)).
    { intros p ps Hin Hp. destruct (Hall p ps Hin) as (_ & Hfill & _).
      apply (filled_earlier m (store st) (store st1)); [simpl; lia|done|by apply Hfill]. }
    exists l', st2. split; [exact Hrun2|]. split; [|split].
    + intros p ps Hin Hpa Hpl. destruct (Hall p ps Hin) as (Hkeep & _ & _).
      specialize (Hmember p ps Hin Hpa Hpl).
      destruct (truthy (prop_get (heap_get (store st) l) p)) eqn:Et.
      * destruct Hmember as (j & Hj & Hinj). by apply (Hkeep _ j).
      * destruct (Hres p ps Hin) as [Ht|[Hr Hd]]; [congruence|].
        rewrite Hd. apply (filled_primitive m (store st) (store st2)); [|by apply Hfilled].
        rewrite <- Hd. by apply Hprim.
    + intros ps Hin. destruct (Hall _ ps Hin) as (Hkeep & _ & _).
      assert (Hname : In "link_text" (map fst (tokenSchema cfg))).
      { change "link_text" with (fst ("link_text", ps)). by apply in_map. }
      rewrite (existsb_eqb_In _ _ Hname), andb_true_r in Hlinkmem.
      destruct (truthy (rewritten_link_text cfg st (heap_get (store st) l))) eqn:Et.
      * assert (Hp : primitive (rewritten_link_text cfg st (heap_get (store st) l))).
        { unfold rewritten_link_text.
          destruct (String.eqb _ "string"); [|by apply Hprim].
          destruct (fst (overrideLinkTitle cfg st)) as [[| | | | |]|]; try (by apply Hprim).
          by intros a. }
        destruct (truthy_json _ Et Hp) as [j Hj]. rewrite Hj in Hlinkmem.
        by apply (Hkeep _ j).
      * by apply Hfilled.
    + intros ps Hin.
      assert (Hname : In "attributes" (map fst (tokenSchema cfg))).
      { change "attributes" with (fst ("attributes", ps)). by apply in_map. }
      destruct (Hall _ ps Hin) as (_ & _ & Hobject). split.
      * intros Habsent.
        destruct (Hres _ ps Hin) as [Ht|[_ Hd]]; [by rewrite Habsent in Ht|].
        rewrite Habsent in Hd.
        pose proof (Hfilled _ ps Hin (Hnoattr Habsent)) as Hf.
        rewrite <- Hd in Hf. exact Hf.
      * intros la Hattr Hnd.
        destruct (Hattrmem la Hattr Hnd Hname)
          as [[Hnone Hgone]|[Hsome (ams & Hinams & Hndams & Hstr & Hnot)]].
        -- left. split; [done|]. by apply Hfilled.
        -- right. split; [done|].
           destruct (Hobject ams Hinams Hndams) as (a & Hget & Hpresent & Habsent).
           { intros k j Hj. destruct (Hstr k j Hj) as (s & -> & _). by exists s. }
           exists a. split; [done|]. intros k.
           destruct (in_dec string_dec k (map fst ams)) as [Hk|Hk].
           ++ apply in_map_iff in Hk as [[k' j] [Hk' Hj]]. simpl in Hk'. subst k'.
              destruct (Hstr k j Hj) as (s & -> & ->). by apply Hpresent.
           ++ rewrite (Hnot k Hk). by apply Habsent.
Qed.

(** C3: an instance that holds its token returns it as it is.  An instance
    that holds its settings and no token computes one, provided the settings
    are resolved (of type [media], every schema property truthy or at its
    default), [attributes] is an object of strings and every other property
    a primitive, [$.each] walks the settings by name, and a string
    [link_text] gets a string for title; the schema has no property twice,
    no bracket in a name, [type] declared, [attributes] and [link_text]
    optional, and its object defaults in a region of the store that
    [JSON.stringify] can read.  When that token holds its closing brackets
    at its end only, a new instance built on it resolves settings in which
    - every schema property other than [attributes] and [link_text] has the
      value it had;
    - [link_text] is what the rewriting of [getToken] left of it (a string
      is replaced by the overridden title, its angle brackets escaped), or
      the default when that is falsy;
    - [attributes] are absent when they were, and else a new object with
      the attributes that the cleaning leaves (none that is fed by a field,
      no [data-fid], [data-media-element], [data-media-key], the [class]
      without the generated names), or the default when none is left;
    - so, when the settings are canonical ([link_text] is what the
      rewriting leaves of it, the [attributes] hold nothing that the
      cleaning drops or changes, empty [attributes] are the default), every
      schema property comes back structurally as it was. *)
Theorem token_round_trip :
  (forall st,
      nonempty (token (self st)) = true ->
      getToken cfg st = (Ok (token (self st)), st))
  /\ (forall st l m,
        settings (self st) = VRef l ->
        token (self st) = "" ->
        (m <= l < length (store st))%nat ->
        region m (store st) ->
        plain_schema m (tokenSchema cfg) (store st) ->
        plain_settings (heap_get (store st) l) (store st) ->
        not_indexed (heap_get (store st) l) ->
        resolved (tokenSchema cfg) (heap_get (store st) l) ->
        link_title_text cfg st (heap_get (store st) l) ->
        exists t' st1,
          getToken cfg st = (Ok t', st1)
          /\ (closes_once t' = true ->
              exists l' st2,
                (new cfg (VStr t') None ;; getSettings cfg) st1 = (Ok (VRef l'), st2)
                /\ (forall p ps,
                      In (p, ps) (tokenSchema cfg) ->
                      p <> "attributes" -> p <> "link_text" ->
                      prop_get (heap_get (store st2) l') p
                      = prop_get (heap_get (store st) l) p)
                /\ (forall ps,
                      In ("link_text", ps) (tokenSchema cfg) ->
                      if truthy (rewritten_link_text cfg st (heap_get (store st) l))
                      then prop_get (heap_get (store st2) l') "link_text"
                           = rewritten_link_text cfg st (heap_get (store st) l)
                      else filled m (store st) (default ps) (store st2)
                             (prop_get (heap_get (store st2) l') "link_text"))
                /\ (forall ps,
                      In ("attributes", ps) (tokenSchema cfg) ->
                      (prop_get (heap_get (store st) l) "attributes" = VUndefined ->
                       prop_get (heap_get (store st2) l') "attributes" = VUndefined)
                      /\ (forall la,
                            prop_get (heap_get (store st) l) "attributes" = VRef la ->
                            NoDup (keys (heap_get (store st) la)) ->
                            ((forall k, cleaned_attribute cfg (heap_get (store st) la) k
                                        = VUndefined)
                             /\ filled m (store st) (default ps) (store st2)
                                  (prop_get (heap_get (store st2) l') "attributes"))
                            \/ ((exists k, cleaned_attribute cfg (heap_get (store st) la) k
                                           <> VUndefined)
                                /\ exists la',
                                     prop_get (heap_get (store st2) l') "attributes"
                                     = VRef la'
                                     /\ forall k,
                                          prop_get (heap_get (store st2) la') k
                                          = cleaned_attribute cfg
                                              (heap_get (store st) la) k)))
                /\ (canonical cfg m st (heap_get (store st) l) ->
                    forall p ps,
                      In (p, ps) (tokenSchema cfg) ->
                      same_value (store st) (prop_get (heap_get (store st) l) p)
                        (store st2) (prop_get (heap_get (store st2) l') p)))).
Proof.
  split; [apply getToken_cached|].
  intros st l m Hs Htok Hl Hreg Hschema Hplain Hwalk Hres Htitle.
  destruct (written_and_read st l m Hs Htok Hl Hreg Hschema Hplain Hwalk Hres Htitle)
    as (t' & st1 & Hrun & Hback).
  exists t', st1. split; [exact Hrun|]. intros Hclose.
  destruct (Hback Hclose) as (l' & st2 & Hrun2 & Hgen & Hlink & Hattr).
  exists l', st2. split; [exact Hrun2|]. split; [exact Hgen|].
  split; [exact Hlink|]. split; [exact Hattr|].
  intros [Hcl Hca] p ps Hin.
  destruct Hres as [_ Hres].
  assert (Hprim : forall q, q <> "attributes" ->
                    primitive (prop_get (heap_get (store st) l) q)).
  { intros q Hq a Ha. apply prop_get_In in Ha; [|done].
    destruct (Hplain _ _ Ha) as [_ Hp]. by apply (Hp Hq a). }
  destruct (decide (p = "attributes")) as [->|Hpa].
  - destruct (Hattr ps Hin) as [Habsent Hobj].
    destruct (decide (prop_get (heap_get (store st) l) "attributes" = VUndefined))
      as [Ea|Ea].
    { rewrite Ea. simpl. by apply Habsent. }
    pose proof (prop_get_In _ _ _ eq_refl Ea) as HinR.
    destruct (Hplain _ _ HinR) as [Ho _].
    destruct (Ho eq_refl) as (la & Ela & _ & HsA).
    rewrite Ela. simpl.
    destruct (Hca la Ela) as (Hnd & Hclean & Hempty).
    destruct (Hobj la Ela Hnd) as [[Hnone Hf]|[_ (la' & Hget & Hreads)]].
    + assert (HA : heap_get (store st) la = []).
      { apply strings_nothing; [done|]. intros k. rewrite <- Hclean. apply Hnone. }
      destruct (Hempty HA ps Hin) as (s & Hd & Hsm & Hs0).
      rewrite Hd in Hf. destruct Hf as (t & Ht & _ & Hser).
      exists t. split; [done|]. intros k. rewrite HA.
      apply serialize_empty. rewrite (Hser Hreg Hsm 1%nat).
      change (serialize 1 (store st) (VRef s))
        with (match serialize_members (serialize 0 (store st)) (heap_get (store st) s) with
              | None => None
              | Some ms => Some (Some (JObj ms))
              end).
      by rewrite Hs0.
    + exists la'. split; [done|]. intros k. rewrite Hreads. apply Hclean.
  - destruct (decide (p = "link_text")) as [->|Hpl].
    + specialize (Hlink ps Hin). rewrite Hcl in Hlink.
      apply same_value_primitive; [by apply Hprim|].
      destruct (truthy (prop_get (heap_get (store st) l) "link_text")) eqn:Et; [done|].
      destruct (Hres _ ps Hin) as [Ht|[_ Hd]]; [congruence|].
      rewrite Hd. apply (filled_primitive m (store st) (store st2)); [|done].
      rewrite <- Hd. by apply Hprim.
    + apply same_value_primitive; [by apply Hprim|]. by apply (Hgen p ps).
Qed.

End RoundTrip.

Lemma token_round_trip_witness :
  exists l' st2,
    Page.bind (WysiwygInstance.new Samples.cfg (JS.VStr (fst Samples.built_token)) None)
      (fun _ => WysiwygInstance.getSettings Samples.cfg) (snd Samples.built_token)
    = (JS.Ok (JS.VRef l'), st2)
    /\ JS.prop_get (JS.heap_get (Page.store st2) l') "fid" = JS.VNum 42
    /\ JS.prop_get (JS.heap_get (Page.store st2) l') "view_mode" = JS.VStr "default"
    /\ JS.prop_get (JS.heap_get (Page.store st2) l') "alignment" = JS.VStr ""
    /\ JS.prop_get (JS.heap_get (Page.store st2) l') "link_text" = JS.VNull
    /\ exists a, JS.prop_get (JS.heap_get (Page.store st2) l') "attributes" = JS.VRef a
                 /\ forall k, JS.prop_get (JS.heap_get (Page.store st2) a) k = JS.VUndefined.
Proof.
  destruct (token_round_trip Samples.cfg) as [_ H].
  destruct (H Samples.built 1%nat 1%nat) as (t' & st1 & Hrun & Hback).
  - reflexivity.
  - reflexivity.
  - vm_compute. lia.
  - apply region_ok_region. reflexivity.
  - split; [apply (bool_decide_unpack _); by vm_compute|].
    split; [vm_compute; tauto|].
    split; [intros p Hp; vm_compute in Hp;
            repeat (destruct Hp as [<-|Hp]; [reflexivity|]); destruct Hp|].
    split.
    + intros p ps Hin Hp. vm_compute in Hin.
      repeat (destruct Hin as [[= <- <-]|Hin]; [by destruct Hp|]). destruct Hin.
    + intros p ps s Hin Hd. vm_compute in Hin.
      repeat (destruct Hin as [[= <- <-]|Hin];
              [first [discriminate Hd | injection Hd as <-; split; [lia|by vm_compute]]|]).
      destruct Hin.
  - intros k v Hin. vm_compute in Hin.
    repeat (destruct Hin as [[= <- <-]|Hin];
            [split; [first [discriminate
                           | intros _; exists 2%nat; split; [reflexivity|];
                             split; [vm_compute; lia|by intros ? ? []]]
                    |first [by intros ? ?|by intros []]]|]).
    destruct Hin.
  - intros k Hk. vm_compute in Hk. discriminate Hk.
  - split; [reflexivity|]. intros p ps Hin. vm_compute in Hin.
    repeat (destruct Hin as [[= <- <-]|Hin];
            [first [by left|right; split; reflexivity]|]).
    destruct Hin.
  - intros Htype. vm_compute in Htype. discriminate.
  - assert (Ht : t' = fst Samples.built_token).
    { unfold Samples.built_token. by rewrite Hrun. }
    assert (Hst : st1 = snd Samples.built_token).
    { unfold Samples.built_token. by rewrite Hrun. }
    subst t' st1.
    destruct (Hback ltac:(by vm_compute)) as (l' & st2 & Hrun2 & _ & _ & _ & Hall).
    assert (Hempty : JS.heap_get (Page.store Samples.built) 2%nat = [])
      by (vm_compute; reflexivity).
    assert (Hcanonical : Vocabulary.canonical Samples.cfg 1
                           Samples.built (JS.heap_get (Page.store Samples.built) 1%nat)).
    { split; [vm_compute; reflexivity|]. intros la Hla. vm_compute in Hla.
      injection Hla as <-. rewrite Hempty.
      split; [constructor|]. split.
      - intros k. unfold Vocabulary.cleaned_attribute.
        destruct (existsb _ _); [reflexivity|]. by destruct (String.eqb k "class").
      - intros _ ps Hin. vm_compute in Hin.
        repeat (destruct Hin as [Heq|Hin];
                [first [discriminate Heq
                       |injection Heq as <-; exists 0%nat;
                        split; [reflexivity|split; [lia|vm_compute; reflexivity]]]|]).
        destruct Hin. }
    specialize (Hall Hcanonical).
    assert (Hfid : JS.prop_get (JS.heap_get (Page.store Samples.built) 1%nat) "fid"
                   = JS.VNum 42) by (vm_compute; reflexivity).
    assert (Hview : JS.prop_get (JS.heap_get (Page.store Samples.built) 1%nat) "view_mode"
                    = JS.VStr "default") by (vm_compute; reflexivity).
    assert (Halign : JS.prop_get (JS.heap_get (Page.store Samples.built) 1%nat) "alignment"
                     = JS.VStr "") by (vm_compute; reflexivity).
    assert (Hlink : JS.prop_get (JS.heap_get (Page.store Samples.built) 1%nat) "link_text"
                    = JS.VNull) by (vm_compute; reflexivity).
    assert (Hattr : JS.prop_get (JS.heap_get (Page.store Samples.built) 1%nat) "attributes"
                    = JS.VRef 2%nat) by (vm_compute; reflexivity).
    pose proof (Hall "fid" (Page.PropSettings true JS.VUndefined)
                  ltac:(vm_compute; tauto)) as H1.
    pose proof (Hall "view_mode" (Page.PropSettings false (JS.VStr "default"))
                  ltac:(vm_compute; tauto)) as H2.
    pose proof (Hall "alignment" (Page.PropSettings false (JS.VStr ""))
                  ltac:(vm_compute; tauto)) as H3.
    pose proof (Hall "link_text" (Page.PropSettings false JS.VNull)
                  ltac:(vm_compute; tauto)) as H4.
    pose proof (Hall "attributes" (Page.PropSettings false (JS.VRef 0%nat))
                  ltac:(vm_compute; tauto)) as H5.
    unfold Vocabulary.same_value in H1, H2, H3, H4, H5.
    rewrite Hfid in H1. rewrite Hview in H2. rewrite Halign in H3.
    rewrite Hlink in H4. rewrite Hattr, Hempty in H5.
    destruct H5 as (a & Ha & Hk).
    exists l', st2. split; [exact Hrun2|]. split; [exact H1|]. split; [exact H2|].
    split; [exact H3|]. split; [exact H4|]. exists a. split; [exact Ha|exact Hk].
Defined.

(** A token that names the title field in two properties, one of them the
    field of the file: read, written by [getToken], read again, written
    again and read again.  The token that [getToken] wrote first comes back
    with another [link_text] than it holds: the second writing is not what
    the first one was. *)
Lemma round_trip_changes_link_text :
  exists s0 st1 t1 st2 s1 st3 t2 st4 s2 st5,
    Page.bind (WysiwygInstance.new Samples.cfg (JS.VStr Samples.titled_token) None)
      (fun _ => WysiwygInstance.getSettings Samples.cfg) Samples.catalogued
    = (JS.Ok (JS.VRef s0), st1)
    /\ Page.bind (WysiwygInstance.new Samples.cfg (JS.VRef s0) None)
         (fun _ => WysiwygInstance.getToken Samples.cfg) st1
       = (JS.Ok t1, st2)
    /\ Page.bind (WysiwygInstance.new Samples.cfg (JS.VStr t1) None)
         (fun _ => WysiwygInstance.getSettings Samples.cfg) st2
       = (JS.Ok (JS.VRef s1), st3)
    /\ Page.bind (WysiwygInstance.new Samples.cfg (JS.VRef s1) None)
         (fun _ => WysiwygInstance.getToken Samples.cfg) st3
       = (JS.Ok t2, st4)
    /\ Page.bind (WysiwygInstance.new Samples.cfg (JS.VStr t2) None)
         (fun _ => WysiwygInstance.getSettings Samples.cfg) st4
       = (JS.Ok (JS.VRef s2), st5)
    /\ JS.prop_get (JS.heap_get (Page.store st3) s1) "link_text" = JS.VStr "A caption"
    /\ JS.prop_get (JS.heap_get (Page.store st5) s2) "link_text" = JS.VStr "A title"
    /\ t1 <> t2.
Proof.
  eexists _, _, _, _, _, _, _, _, _, _.
  split; [vm_compute; reflexivity|].
  split; [vm_compute; reflexivity|].
  split; [vm_compute; reflexivity|].
  split; [vm_compute; reflexivity|].
  split; [vm_compute; reflexivity|].
  split; [vm_compute; reflexivity|].
  split; [vm_compute; reflexivity|].
  vm_compute. discriminate.
Qed.
